(** * A shallow embedding of lib/deflate_decompress.cpp

    The DEFLATE decompressor is modelled function by function: the decode
    table builder, the input bit stream, the output window, the block
    decoder and the entry point.  Machine integers are [Z] with their
    wrap-around written out; arrays are lists read and written by index;
    the decode table handed to [build_decode_table] as [u32 decode_table[]]
    is a finite map from index to entry (the function does not know its
    bound, see the ENOUGH comment in the source).  A computation either
    returns, trips an [assert] (the process aborts), faults on memory, or
    runs out of the fuel that bounds its loops. *)

From Stdlib Require Import ZArith Lia List String.
From stdpp Require Import base tactics option list gmap.
Local Open Scope Z_scope.

(** ** Machine integers *)

Definition u8 (x : Z) : Z := x mod 2 ^ 8.
Definition u16 (x : Z) : Z := x mod 2 ^ 16.
Definition u32 (x : Z) : Z := x mod 2 ^ 32.
Definition u64 (x : Z) : Z := x mod 2 ^ 64.
Definition s32 (x : Z) : Z := (x + 2 ^ 31) mod 2 ^ 32 - 2 ^ 31.

(** ** Arrays: reads and writes by an unsigned index, [None] out of range *)

Definition rd (a : list Z) (i : Z) : option Z := a !! Z.to_nat i.

Definition wr (a : list Z) (i v : Z) : option (list Z) :=
  if decide (Z.to_nat i < length a)%nat then Some (<[Z.to_nat i := v]> a) else None.

(** ** Constants of deflate_constants.h *)

(** Modelled from the spec: the DEFLATE constants of the header
    deflate_constants.h, which is not among the sources (spec section 3). *)
Definition DEFLATE_BLOCKTYPE_UNCOMPRESSED : Z := 0.
Definition DEFLATE_BLOCKTYPE_STATIC_HUFFMAN : Z := 1.
Definition DEFLATE_BLOCKTYPE_DYNAMIC_HUFFMAN : Z := 2.
Definition DEFLATE_NUM_PRECODE_SYMS : Z := 19.
Definition DEFLATE_NUM_LITLEN_SYMS : Z := 288.
Definition DEFLATE_NUM_OFFSET_SYMS : Z := 32.
Definition DEFLATE_MAX_NUM_SYMS : Z := 288.
Definition DEFLATE_MAX_PRE_CODEWORD_LEN : Z := 7.
Definition DEFLATE_MAX_LITLEN_CODEWORD_LEN : Z := 15.
Definition DEFLATE_MAX_OFFSET_CODEWORD_LEN : Z := 15.
Definition DEFLATE_MAX_CODEWORD_LEN : Z := 15.
Definition DEFLATE_MAX_LENS_OVERRUN : Z := 137.

Definition PRECODE_TABLEBITS : Z := 7.
Definition LITLEN_TABLEBITS : Z := 10.
Definition OFFSET_TABLEBITS : Z := 8.

(** ** Huffman decode tables (namespace table_builder) *)

Definition HUFFDEC_SUBTABLE_POINTER : Z := 0x80000000.
Definition HUFFDEC_LITERAL : Z := 0x40000000.
Definition HUFFDEC_LENGTH_MASK : Z := 0xFF.
Definition HUFFDEC_RESULT_SHIFT : Z := 8.

Definition precode_decode_results : list Z :=
  [0; 1; 2; 3; 4; 5; 6; 7; 8; 9; 10; 11; 12; 13; 14; 15; 16; 17; 18].

Definition literal_entry (literal : Z) : Z :=
  Z.lor (Z.shiftr HUFFDEC_LITERAL HUFFDEC_RESULT_SHIFT) literal.

Definition HUFFDEC_EXTRA_LENGTH_BITS_MASK : Z := 0xFF.
Definition HUFFDEC_LENGTH_BASE_SHIFT : Z := 8.
Definition HUFFDEC_END_OF_BLOCK_LENGTH : Z := 0.

Definition length_entry (length_base num_extra_bits : Z) : Z :=
  Z.lor (u32 (Z.shiftl length_base HUFFDEC_LENGTH_BASE_SHIFT)) num_extra_bits.

Definition litlen_decode_results : list Z :=
  map literal_entry (seqZ 0 256) ++
  [length_entry HUFFDEC_END_OF_BLOCK_LENGTH 0] ++
  [length_entry 3 0; length_entry 4 0; length_entry 5 0; length_entry 6 0;
   length_entry 7 0; length_entry 8 0; length_entry 9 0; length_entry 10 0;
   length_entry 11 1; length_entry 13 1; length_entry 15 1; length_entry 17 1;
   length_entry 19 2; length_entry 23 2; length_entry 27 2; length_entry 31 2;
   length_entry 35 3; length_entry 43 3; length_entry 51 3; length_entry 59 3;
   length_entry 67 4; length_entry 83 4; length_entry 99 4; length_entry 115 4;
   length_entry 131 5; length_entry 163 5; length_entry 195 5; length_entry 227 5;
   length_entry 258 0; length_entry 258 0; length_entry 258 0].

Definition HUFFDEC_EXTRA_OFFSET_BITS_SHIFT : Z := 16.
Definition HUFFDEC_OFFSET_BASE_MASK : Z :=
  Z.shiftl 1 HUFFDEC_EXTRA_OFFSET_BITS_SHIFT - 1.

Definition offset_entry (offset_base num_extra_bits : Z) : Z :=
  Z.lor offset_base (u32 (Z.shiftl num_extra_bits HUFFDEC_EXTRA_OFFSET_BITS_SHIFT)).

Definition offset_decode_results : list Z :=
  [offset_entry 1 0; offset_entry 2 0; offset_entry 3 0; offset_entry 4 0;
   offset_entry 5 1; offset_entry 7 1; offset_entry 9 2; offset_entry 13 2;
   offset_entry 17 3; offset_entry 25 3; offset_entry 33 4; offset_entry 49 4;
   offset_entry 65 5; offset_entry 97 5; offset_entry 129 6; offset_entry 193 6;
   offset_entry 257 7; offset_entry 385 7; offset_entry 513 8; offset_entry 769 8;
   offset_entry 1025 9; offset_entry 1537 9; offset_entry 2049 10; offset_entry 3073 10;
   offset_entry 4097 11; offset_entry 6145 11; offset_entry 8193 12; offset_entry 12289 12;
   offset_entry 16385 13; offset_entry 24577 13; offset_entry 32769 14; offset_entry 49153 14].

Definition make_decode_table_entry (result length : Z) : Z :=
  Z.lor (u32 (Z.shiftl result HUFFDEC_RESULT_SHIFT)) length.

(** The decode table: entries by index; an index never written is absent. *)
Abbreviation table := (gmap Z Z).

(** [for (sym = 0; sym < num_syms; sym++) len_counts[lens[sym]]++;] *)
Fixpoint count_lens (lens : list Z) (n : nat) (sym : Z) (len_counts : list Z)
  : option (list Z) :=
  match n with
  | O => Some len_counts
  | S n' =>
      l ← rd lens sym;
      c ← rd len_counts l;
      len_counts' ← wr len_counts l (u16 (c + 1));
      count_lens lens n' (sym + 1) len_counts'
  end.

(** [for (len = 0; len < max_codeword_len; len++)
       offsets[len + 1] = offsets[len] + len_counts[len];] *)
Fixpoint init_offsets (len_counts : list Z) (n : nat) (len : Z) (offsets : list Z)
  : option (list Z) :=
  match n with
  | O => Some offsets
  | S n' =>
      o ← rd offsets len;
      c ← rd len_counts len;
      offsets' ← wr offsets (len + 1) (u16 (o + c));
      init_offsets len_counts n' (len + 1) offsets'
  end.

(** [for (sym = 0; sym < num_syms; sym++) sorted_syms[offsets[lens[sym]]++] = sym;] *)
Fixpoint sort_syms (lens : list Z) (n : nat) (sym : Z) (offsets sorted_syms : list Z)
  : option (list Z * list Z) :=
  match n with
  | O => Some (offsets, sorted_syms)
  | S n' =>
      l ← rd lens sym;
      o ← rd offsets l;
      sorted_syms' ← wr sorted_syms o (u16 sym);
      offsets' ← wr offsets l (u16 (o + 1));
      sort_syms lens n' (sym + 1) offsets' sorted_syms'
  end.

(** The codespace scan; [Some None] is the early [return false]. *)
Fixpoint check_codespace (len_counts : list Z) (n : nat) (len : Z) (remainder : Z)
  : option (option Z) :=
  match n with
  | O => Some (Some remainder)
  | S n' =>
      c ← rd len_counts len;
      let remainder := s32 (s32 (Z.shiftl remainder 1) - c) in
      if remainder <? 0 then Some None
      else check_codespace len_counts n' (len + 1) remainder
  end.

(** [for (sym = 0; sym < (1U << table_bits); sym++) decode_table[sym] = entry;] *)
Fixpoint fill_default (n : nat) (sym : Z) (entry : Z) (decode_table : table) : table :=
  match n with
  | O => decode_table
  | S n' => fill_default n' (sym + 1) entry (<[sym := entry]> decode_table)
  end.

(** [while (len_counts[codeword_len] == 0) codeword_len++;] *)
Fixpoint skip_empty_lens (fuel : nat) (len_counts : list Z) (codeword_len : Z)
  : option Z :=
  match fuel with
  | O => None
  | S fuel' =>
      c ← rd len_counts codeword_len;
      if c =? 0 then skip_empty_lens fuel' len_counts (u32 (codeword_len + 1))
      else Some codeword_len
  end.

(** The loop that sizes a new subtable; entered with
    [remainder = 1 << cur_table_bits], it returns the final [cur_table_bits]. *)
Fixpoint subtable_bits (fuel : nat) (len_counts : list Z) (table_bits : Z)
    (cur_table_bits remainder : Z) : option Z :=
  match fuel with
  | O => None
  | S fuel' =>
      c ← rd len_counts (u32 (table_bits + cur_table_bits));
      let remainder := s32 (remainder - c) in
      if remainder <=? 0 then Some cur_table_bits
      else subtable_bits fuel' len_counts table_bits
             (u32 (cur_table_bits + 1)) (s32 (Z.shiftl remainder 1))
  end.

(** [for (i = ...; i < end; i += increment) decode_table[i] = entry;] *)
Fixpoint fill_entries (fuel : nat) (decode_table : table) (i end_ increment entry : Z)
  : option table :=
  if i <? end_ then
    match fuel with
    | O => None
    | S fuel' =>
        fill_entries fuel' (<[i := entry]> decode_table) (u32 (i + increment))
          end_ increment entry
    end
  else Some decode_table.

(** [while (codeword_reversed & bit) bit >>= 1;] *)
Fixpoint lowest_clear_bit (fuel : nat) (codeword_reversed bit : Z) : option Z :=
  match fuel with
  | O => None
  | S fuel' =>
      if Z.land codeword_reversed bit =? 0 then Some bit
      else lowest_clear_bit fuel' codeword_reversed (Z.shiftr bit 1)
  end.

(** The variables of the table-filling loop. *)
Record fill_state := FillState {
  decode_table : table;
  len_counts : list Z;
  codeword_len : Z;
  codeword_reversed : Z;
  cur_codeword_prefix : Z;
  cur_table_start : Z;
  cur_table_bits : Z;
  num_dropped_bits : Z;
  sym_idx : Z
}.

(** The [if] at the head of the loop body: start a new subtable if the
    codeword is long enough to require a subtable, and the first
    [table_bits] bits of the codeword don't match the prefix for the
    previous subtable if any. *)
Definition start_subtable (table_bits : Z) (st : fill_state) : option fill_state :=
  let table_mask := u32 (u32 (Z.shiftl 1 table_bits) - 1) in
  if (table_bits <? codeword_len st) &&
     negb (Z.land (codeword_reversed st) table_mask =? cur_codeword_prefix st)
  then
    let prefix := Z.land (codeword_reversed st) table_mask in
    let start := u32 (cur_table_start st + u32 (Z.shiftl 1 (cur_table_bits st))) in
    let bits0 := u32 (codeword_len st - table_bits) in
    bits ← subtable_bits (length (len_counts st)) (len_counts st) table_bits
             bits0 (s32 (Z.shiftl 1 bits0));
    Some (FillState
            (<[prefix := Z.lor HUFFDEC_SUBTABLE_POINTER
                           (make_decode_table_entry start bits)]> (decode_table st))
            (len_counts st) (codeword_len st) (codeword_reversed st)
            prefix start bits table_bits (sym_idx st))
  else Some st.

(** One pass through the body of [for (;;)]: [inl] is [return true] with
    the finished table, [inr] the state at the next iteration. *)
Definition fill_step (sorted_syms decode_results : list Z) (num_syms table_bits : Z)
    (st : fill_state) : option (table + fill_state) :=
  sym ← rd sorted_syms (sym_idx st);
  st1 ← start_subtable table_bits st;
  result ← rd decode_results sym;
  let entry := make_decode_table_entry result
                 (u32 (codeword_len st1 - num_dropped_bits st1)) in
  let end_ := u32 (cur_table_start st1 + u32 (Z.shiftl 1 (cur_table_bits st1))) in
  let increment := u32 (Z.shiftl 1 (u32 (codeword_len st1 - num_dropped_bits st1))) in
  let first := u32 (cur_table_start st1 +
                    Z.shiftr (codeword_reversed st1) (num_dropped_bits st1)) in
  decode_table' ← fill_entries (Z.to_nat end_) (decode_table st1) first end_
                    increment entry;
  bit ← lowest_clear_bit 33 (codeword_reversed st1)
          (u32 (Z.shiftl 1 (u32 (codeword_len st1 - 1))));
  let codeword_reversed' :=
    Z.lor (Z.land (codeword_reversed st1) (u32 (bit - 1))) bit in
  let sym_idx' := u32 (sym_idx st1 + 1) in
  if sym_idx' =? num_syms then Some (inl decode_table')
  else
    c ← rd (len_counts st1) (codeword_len st1);
    len_counts' ← wr (len_counts st1) (codeword_len st1) (u16 (c - 1));
    codeword_len' ← skip_empty_lens (length len_counts') len_counts' (codeword_len st1);
    Some (inr (FillState decode_table' len_counts' codeword_len' codeword_reversed'
                 (cur_codeword_prefix st1) (cur_table_start st1) (cur_table_bits st1)
                 (num_dropped_bits st1) sym_idx')).

Fixpoint fill_loop (fuel : nat) (sorted_syms decode_results : list Z)
    (num_syms table_bits : Z) (st : fill_state) : option table :=
  match fuel with
  | O => None
  | S fuel' =>
      r ← fill_step sorted_syms decode_results num_syms table_bits st;
      match r with
      | inl decode_table' => Some decode_table'
      | inr st' => fill_loop fuel' sorted_syms decode_results num_syms table_bits st'
      end
  end.

(** [build_decode_table]: the returned boolean with the table as the call
    left it; [None] when an array is read or written out of range.  The
    three slices of [working_space] are the lists [len_counts] (length
    [max_codeword_len + 1]), [offsets] (the same) and [sorted_syms] (length
    [num_syms]). *)
Definition build_decode_table (decode_table : table) (lens : list Z) (num_syms : Z)
    (decode_results : list Z) (table_bits max_codeword_len : Z)
  : option (bool * table) :=
  let len_counts := replicate (Z.to_nat (max_codeword_len + 1)) 0 in
  len_counts ← count_lens lens (Z.to_nat num_syms) 0 len_counts;
  let offsets := replicate (Z.to_nat (max_codeword_len + 1)) 0 in
  offsets ← init_offsets len_counts (Z.to_nat max_codeword_len) 0 offsets;
  let sorted_syms := replicate (Z.to_nat num_syms) 0 in
  '(offsets, sorted_syms) ← sort_syms lens (Z.to_nat num_syms) 0 offsets sorted_syms;
  r ← check_codespace len_counts (Z.to_nat max_codeword_len) 1 1;
  match r with
  | None => Some (false, decode_table)
  | Some remainder =>
      let continue_ (decode_table : table) :=
        codeword_len ← skip_empty_lens (length len_counts) len_counts 1;
        sym_idx ← rd offsets 0;
        t ← fill_loop (Z.to_nat num_syms) sorted_syms decode_results num_syms table_bits
              (FillState decode_table len_counts codeword_len 0 (u32 (-1)) 0
                 table_bits 0 sym_idx);
        Some (true, t) in
      if remainder =? 0 then continue_ decode_table
      else
        result0 ← rd decode_results 0;
        let entry := make_decode_table_entry result0 1 in
        let decode_table :=
          fill_default (Z.to_nat (u32 (Z.shiftl 1 table_bits))) 0 entry decode_table in
        if remainder =? s32 (u32 (Z.shiftl 1 max_codeword_len)) then
          Some (true, decode_table)
        else
          c1 ← rd len_counts 1;
          if negb (remainder =? s32 (u32 (Z.shiftl 1 (u32 (max_codeword_len - 1)))))
             || negb (c1 =? 1)
          then Some (false, decode_table)
          else continue_ decode_table
  end.

(** [build_precode_decode_table], [build_litlen_decode_table] and
    [build_offset_decode_table] are given after the decompressor structure. *)

(** ** Outcomes of the stateful code *)

(** A call returns a value, stops the process in [__assert_fail] (the
    source forces its [assert] on with [#undef NDEBUG]), accesses memory out
    of bounds, or is cut off by the fuel of the model. *)
Inductive outcome (A : Type) : Type :=
  | Returned (a : A)
  | Aborted (assertion : string)
  | Fault
  | OutOfFuel.
Arguments Returned {A} a.
Arguments Aborted {A} assertion.
Arguments Fault {A}.
Arguments OutOfFuel {A}.

#[global] Instance outcome_ret : MRet outcome := λ A a, Returned a.
#[global] Instance outcome_bind : MBind outcome := λ A B f m,
  match m with
  | Returned a => f a
  | Aborted s => Aborted s
  | Fault => Fault
  | OutOfFuel => OutOfFuel
  end.

Definition assert (b : bool) (assertion : string) : outcome unit :=
  if b then Returned () else Aborted assertion.

(** A memory access that must be in range. *)
Definition mem {A} (o : option A) : outcome A :=
  match o with Some a => Returned a | None => Fault end.

(** ** The machine word *)

(** [machine_word_t] (system.h) is also the bit buffer type [bitbuf_t].
    [ensure_bits<DEFLATE_NUM_PRECODE_SYMS * 3>] in [prepare_dynamic] passes
    its [static_assert(n <= bitbuf_max_ensure)] only when the bit buffer has
    64 bits, so the word of this program has 8 bytes. *)
Definition WORDBYTES : Z := 8.
Definition WORDBITS : Z := 8 * WORDBYTES.
Definition word (x : Z) : Z := x mod 2 ^ WORDBITS.

(** Little-endian value of a run of bytes (unaligned.h). *)
Fixpoint le_bytes (bs : list Z) : Z :=
  match bs with
  | [] => 0
  | b :: bs' => b + 256 * le_bytes bs'
  end.

(** The [n] bytes at [p], when they are all inside the memory [m]. *)
Definition load_bytes (m : list Z) (p : Z) (n : Z) : option (list Z) :=
  if decide (0 ≤ p ∧ 0 ≤ n ∧ p + n ≤ Z.of_nat (length m)) then
    Some (take (Z.to_nat n) (drop (Z.to_nat p) m))
  else None.

(** Overwrite the bytes at [p] with [bs], when they fit inside [m]. *)
Definition store_bytes (m : list Z) (p : Z) (bs : list Z) : option (list Z) :=
  if decide (0 ≤ p ∧ p + Z.of_nat (length bs) ≤ Z.of_nat (length m)) then
    Some (take (Z.to_nat p) m ++ bs ++ drop (Z.to_nat p + length bs) m)
  else None.

(** A byte read or written through a pointer [p] into the memory [m]. *)
Definition load_byte (m : list Z) (p : Z) : option Z :=
  if decide (0 ≤ p) then rd m p else None.

Definition store_byte (m : list Z) (p : Z) (b : Z) : option (list Z) :=
  if decide (0 ≤ p) then wr m p b else None.

(** ** Input bitstream *)

Record InputStream := MkInputStream {
  bitbuf : Z;
  bitsleft : Z;
  overrun_count : Z;
  in_next : Z;
  in_end : Z;
  in_mem : list Z
}.

Module In.

Definition bitbuf_length : Z := 8 * WORDBYTES.
Definition bitbuf_max_ensure : Z := bitbuf_length - 7.

(** [InputStream(in, len)]; pointers are byte offsets from [in]. *)
Definition make (in_ : list Z) (len : Z) : InputStream :=
  MkInputStream 0 0 0 0 (0 + len) in_.

Definition fill_bits_wordwise (s : InputStream) : outcome InputStream :=
  bs ← mem (load_bytes (in_mem s) (in_next s) WORDBYTES);
  let bitbuf' := Z.lor (bitbuf s) (word (Z.shiftl (le_bytes bs) (bitsleft s))) in
  let in_next' := in_next s + Z.shiftr (u64 (bitbuf_length - bitsleft s)) 3 in
  let bitsleft' :=
    u64 (bitsleft s + Z.land (u64 (bitbuf_length - bitsleft s)) (u64 (Z.lnot 7))) in
  Returned (MkInputStream bitbuf' bitsleft' (overrun_count s) in_next' (in_end s)
              (in_mem s)).

Definition have_bits (s : InputStream) (n : Z) : bool := n <=? bitsleft s.

Fixpoint fill_bits_bytewise (fuel : nat) (s : InputStream) : outcome InputStream :=
  match fuel with
  | O => OutOfFuel
  | S fuel' =>
      s1 ←
        (if negb (in_next s =? in_end s) then
           b ← mem (load_byte (in_mem s) (in_next s));
           Returned (MkInputStream (Z.lor (bitbuf s) (word (Z.shiftl b (bitsleft s))))
                       (bitsleft s) (overrun_count s) (in_next s + 1) (in_end s)
                       (in_mem s))
         else
           Returned (MkInputStream (bitbuf s) (bitsleft s) (u64 (overrun_count s + 1))
                       (in_next s) (in_end s) (in_mem s)));
      let s2 := MkInputStream (bitbuf s1) (u64 (bitsleft s1 + 8)) (overrun_count s1)
                  (in_next s1) (in_end s1) (in_mem s1) in
      if bitsleft s2 <=? bitbuf_length - 8 then fill_bits_bytewise fuel' s2
      else Returned s2
  end.

Definition size (s : InputStream) : Z := u64 (in_end s - in_end s).

Definition ensure_bits (n : Z) (s : InputStream) : outcome InputStream :=
  if negb (have_bits s n) then
    if WORDBYTES <=? in_end s - in_next s then fill_bits_wordwise s
    else fill_bits_bytewise (Z.to_nat bitbuf_length) s
  else Returned s.

Definition bits (s : InputStream) (n : Z) : outcome Z :=
  assert (n <=? bitsleft s) "bitsleft >= n";;
  Returned (u32 (Z.land (bitbuf s) (u32 (u32 (Z.shiftl 1 n) - 1)))).

Definition remove_bits (s : InputStream) (n : Z) : outcome InputStream :=
  assert (n <=? bitsleft s) "bitsleft >= n";;
  Returned (MkInputStream (Z.shiftr (bitbuf s) n) (bitsleft s - n) (overrun_count s)
              (in_next s) (in_end s) (in_mem s)).

Definition pop_bits (s : InputStream) (n : Z) : outcome (Z * InputStream) :=
  tmp ← bits s n;
  s' ← remove_bits s n;
  Returned (tmp, s').

Definition align_input (s : InputStream) : InputStream :=
  MkInputStream 0 0 (overrun_count s)
    (in_next s - u64 (Z.shiftr (bitsleft s) 3
                      - Z.min (overrun_count s) (Z.shiftr (bitsleft s) 3)))
    (in_end s) (in_mem s).

Definition pop_u16 (s : InputStream) : outcome (Z * InputStream) :=
  assert (2 <=? size s) "size() >= 2";;
  bs ← mem (load_bytes (in_mem s) (in_next s) 2);
  Returned (le_bytes bs,
            MkInputStream (bitbuf s) (bitsleft s) (overrun_count s) (in_next s + 2)
              (in_end s) (in_mem s)).

(** [copy(out, n)]: the bytes handed to [memcpy] and the advanced stream. *)
Definition copy (s : InputStream) (n : Z) : outcome (list Z * InputStream) :=
  assert (n <=? size s) "size() >= n";;
  bs ← mem (load_bytes (in_mem s) (in_next s) n);
  Returned (bs,
            MkInputStream (bitbuf s) (bitsleft s) (overrun_count s) (in_next s + n)
              (in_end s) (in_mem s)).

End In.

(** [repeat_byte]: the byte in each of the word's bytes. *)
Definition repeat_byte (b : Z) : Z :=
  let v := b in
  let v := Z.lor v (word (Z.shiftl v 8)) in
  let v := Z.lor v (word (Z.shiftl v 16)) in
  let v := Z.lor v (word (Z.shiftl v (if WORDBITS =? 64 then 32 else 0))) in
  v.

(** The bytes of a word in memory order (little-endian, [store_word_unaligned]). *)
Fixpoint word_bytes (n : nat) (v : Z) : list Z :=
  match n with
  | O => []
  | S n' => v mod 256 :: word_bytes n' (v / 256)
  end.

Definition load_word_unaligned (m : list Z) (p : Z) : option Z :=
  le_bytes <$> load_bytes m p WORDBYTES.

Definition store_word_unaligned (v : Z) (m : list Z) (p : Z) : option (list Z) :=
  store_bytes m p (word_bytes (Z.to_nat WORDBYTES) v).

Definition copy_word_unaligned (m : list Z) (src dst : Z) : option (list Z) :=
  v ← load_word_unaligned m src;
  store_word_unaligned v m dst.

(** ** The output window *)

(** [buffer] is the memory of [new byte[1 << window_bits]]; the pointers
    [next], [current_blk], [first_blk], [first_ref] and [buffer_end] are
    byte offsets from its start.  [target_mem] is the caller's output
    memory, [target] and [target_end] are offsets from its start. *)
Record DeflateWindow := MkWindow {
  target_mem : list Z;
  target : Z;
  target_end : Z;
  blk_count : Z;
  current_blk : Z;
  first_blk : Z;
  first_ref : Z;
  buffer : list Z;
  buffer_end : Z;
  next : Z
}.

Module Win.

Definition set_next (w : DeflateWindow) (buffer' : list Z) (next' : Z) : DeflateWindow :=
  MkWindow (target_mem w) (target w) (target_end w) (blk_count w) (current_blk w)
    (first_blk w) (first_ref w) buffer' (buffer_end w) next'.

(** The constructor, [clear()] included. *)
Definition make (window_bits : Z) (out : list Z) (target target_end : Z)
  : DeflateWindow :=
  MkWindow out target target_end 0 0 0 0
    (replicate (Z.to_nat (Z.shiftl 1 window_bits)) 0)
    (0 + Z.shiftl 1 window_bits) 0.

Definition size (w : DeflateWindow) : Z := u32 (next w - 0).
Definition available (w : DeflateWindow) : Z := u32 (buffer_end w - next w).

Definition push (w : DeflateWindow) (c : Z) : outcome DeflateWindow :=
  assert (next w <? buffer_end w) "next < buffer_end";;
  assert (0 <? available w) "available() > 0";;
  buffer' ← mem (store_byte (buffer w) (next w) c);
  Returned (set_next w buffer' (next w + 1)).

(** [do { copy_word_unaligned(src, dst); src += WORDBYTES; dst += WORDBYTES; }
     while (dst < dst_end);] *)
Fixpoint copy_words (fuel : nat) (m : list Z) (src dst dst_end : Z) : outcome (list Z) :=
  match fuel with
  | O => OutOfFuel
  | S fuel' =>
      m' ← mem (copy_word_unaligned m src dst);
      let src := src + WORDBYTES in
      let dst := dst + WORDBYTES in
      if dst <? dst_end then copy_words fuel' m' src dst dst_end else Returned m'
  end.

(** [do { store_word_unaligned(v, dst); src += WORDBYTES; dst += WORDBYTES; }
     while (dst < dst_end);] *)
Fixpoint store_words (fuel : nat) (v : Z) (m : list Z) (dst dst_end : Z)
  : outcome (list Z) :=
  match fuel with
  | O => OutOfFuel
  | S fuel' =>
      m' ← mem (store_word_unaligned v m dst);
      let dst := dst + WORDBYTES in
      if dst <? dst_end then store_words fuel' v m' dst dst_end else Returned m'
  end.

(** [*dst++ = *src++;] *)
Definition copy_byte (m : list Z) (src dst : Z) : outcome (list Z) :=
  b ← mem (load_byte m src);
  mem (store_byte m dst b).

(** [do { *dst++ = *src++; } while (dst < dst_end);] *)
Fixpoint copy_bytes (fuel : nat) (m : list Z) (src dst dst_end : Z) : outcome (list Z) :=
  match fuel with
  | O => OutOfFuel
  | S fuel' =>
      m' ← copy_byte m src dst;
      let src := src + 1 in
      let dst := dst + 1 in
      if dst <? dst_end then copy_bytes fuel' m' src dst dst_end else Returned m'
  end.

(** The byte-wise path: two copies, then the do-while. *)
Definition copy_bytewise (fuel : nat) (m : list Z) (src dst dst_end : Z)
  : outcome (list Z) :=
  m ← copy_byte m src dst;
  m ← copy_byte m (src + 1) (dst + 1);
  copy_bytes fuel m (src + 2) (dst + 2) dst_end.

Definition copy_match (w : DeflateWindow) (length offset : Z) : outcome DeflateWindow :=
  assert (offset <=? size w) "offset <= size()";;
  assert (length <=? available w) "available() >= length";;
  assert (0 <? offset) "offset > 0";;
  let first_ref' :=
    if next w - offset <? first_ref w then next w - offset else first_ref w in
  let fuel := S (Z.to_nat length) in
  buffer' ←
    (if (length <=? 3 * WORDBYTES) && (WORDBYTES <=? offset) &&
        (length + 3 * WORDBYTES <=? buffer_end w - next w)
     then
       m ← mem (copy_word_unaligned (buffer w)
                  (next w - offset + 0 * WORDBYTES) (next w + 0 * WORDBYTES));
       m ← mem (copy_word_unaligned m
                  (next w - offset + 1 * WORDBYTES) (next w + 1 * WORDBYTES));
       mem (copy_word_unaligned m
              (next w - offset + 2 * WORDBYTES) (next w + 2 * WORDBYTES))
     else
       let src := next w - offset in
       let dst := next w in
       let dst_end := dst + length in
       if WORDBYTES - 1 <=? buffer_end w - dst_end then
         if WORDBYTES <=? offset then
           m ← mem (copy_word_unaligned (buffer w) src dst);
           let src := src + WORDBYTES in
           let dst := dst + WORDBYTES in
           if dst <? dst_end then copy_words fuel m src dst dst_end
           else Returned m
         else if offset =? 1 then
           b ← mem (load_byte (buffer w) (dst - 1));
           store_words fuel (repeat_byte b) (buffer w) dst dst_end
         else copy_bytewise fuel (buffer w) src dst dst_end
       else copy_bytewise fuel (buffer w) src dst dst_end);
  Returned (MkWindow (target_mem w) (target w) (target_end w) (blk_count w)
              (current_blk w) (first_blk w) first_ref' buffer' (buffer_end w)
              (next w + length)).

(** [copy(in, length)]: the stored-block copy from the input. *)
Definition copy (w : DeflateWindow) (s : InputStream) (length : Z)
  : outcome (DeflateWindow * InputStream) :=
  assert (length <=? available w) "available() >= length";;
  '(bs, s') ← In.copy s length;
  buffer' ← mem (store_bytes (buffer w) (next w) bs);
  Returned (set_next w buffer' (next w + length), s').

Definition keep_size (w : DeflateWindow) : Z :=
  Z.max (u64 (Z.shiftl 1 15)) (u64 (next w - current_blk w)).

Definition flush (w : DeflateWindow) : outcome DeflateWindow :=
  assert (current_blk w <=? next w) "next >= current_blk";;
  let keep_size := keep_size w in
  if keep_size <? size w then
    let evict_size := u64 (size w - keep_size) in
    assert (target w + evict_size <? target_end w) "target + evict_size < target_end";;
    evicted ← mem (load_bytes (buffer w) 0 evict_size);
    target_mem' ← mem (store_bytes (target_mem w) (target w) evicted);
    let target' := target w + evict_size in
    assert (0 + evict_size =? next w - keep_size)
      "buffer + evict_size == next - keep_size";;
    assert (0 + keep_size <? next w - keep_size)
      "buffer + keep_size < next - keep_size";;
    kept ← mem (load_bytes (buffer w) (next w - keep_size) keep_size);
    buffer' ← mem (store_bytes (buffer w) 0 kept);
    let next' := 0 + keep_size in
    let current_blk' := current_blk w - evict_size in
    assert (0 <=? current_blk') "current_blk >= buffer";;
    Returned (MkWindow target_mem' target' (target_end w) 0 current_blk'
                current_blk' current_blk' buffer' (buffer_end w) next')
  else Returned w.

Definition full_flush (w : DeflateWindow) : outcome DeflateWindow :=
  assert (current_blk w =? next w) "current_blk == next";;
  assert (target_end w <=? target w + size w) "target + size() >= target_end";;
  bs ← mem (load_bytes (buffer w) 0 (size w));
  target_mem' ← mem (store_bytes (target_mem w) (target w) bs);
  Returned (MkWindow target_mem' (target w) (target_end w) (blk_count w)
              (current_blk w) (first_blk w) (first_ref w) (buffer w) (buffer_end w)
              (next w)).

Definition notify_end_block (w : DeflateWindow) : DeflateWindow :=
  MkWindow (target_mem w) (target w) (target_end w) (u32 (blk_count w + 1)) (next w)
    (first_blk w) (first_ref w) (buffer w) (buffer_end w) (next w).

End Win.

(** ** The decompressor structure *)

(** The arrays of [struct libdeflate_decompressor].  The source overlays
    [precode_lens], [lens] with [precode_decode_table], and
    [litlen_decode_table] in one union and uses them one after the other;
    here each is a field of its own. *)
Record libdeflate_decompressor := MkDecompressor {
  precode_lens : list Z;
  lens : list Z;
  precode_decode_table : table;
  litlen_decode_table : table;
  offset_decode_table : table
}.

(** [new libdeflate_decompressor()]: zero-initialised arrays. *)
Definition libdeflate_alloc_decompressor : libdeflate_decompressor :=
  MkDecompressor
    (replicate (Z.to_nat DEFLATE_NUM_PRECODE_SYMS) 0)
    (replicate (Z.to_nat (DEFLATE_NUM_LITLEN_SYMS + DEFLATE_NUM_OFFSET_SYMS
                          + DEFLATE_MAX_LENS_OVERRUN)) 0)
    ∅ ∅ ∅.

Definition build_precode_decode_table (d : libdeflate_decompressor)
  : option (bool * libdeflate_decompressor) :=
  '(ok, t) ← build_decode_table (precode_decode_table d) (precode_lens d)
               DEFLATE_NUM_PRECODE_SYMS precode_decode_results
               PRECODE_TABLEBITS DEFLATE_MAX_PRE_CODEWORD_LEN;
  Some (ok, MkDecompressor (precode_lens d) (lens d) t (litlen_decode_table d)
              (offset_decode_table d)).

Definition build_litlen_decode_table (d : libdeflate_decompressor)
    (num_litlen_syms num_offset_syms : Z) : option (bool * libdeflate_decompressor) :=
  '(ok, t) ← build_decode_table (litlen_decode_table d) (lens d)
               num_litlen_syms litlen_decode_results
               LITLEN_TABLEBITS DEFLATE_MAX_LITLEN_CODEWORD_LEN;
  Some (ok, MkDecompressor (precode_lens d) (lens d) (precode_decode_table d) t
              (offset_decode_table d)).

Definition build_offset_decode_table (d : libdeflate_decompressor)
    (num_litlen_syms num_offset_syms : Z) : option (bool * libdeflate_decompressor) :=
  '(ok, t) ← build_decode_table (offset_decode_table d)
               (drop (Z.to_nat num_litlen_syms) (lens d))
               num_offset_syms offset_decode_results
               OFFSET_TABLEBITS DEFLATE_MAX_OFFSET_CODEWORD_LEN;
  Some (ok, MkDecompressor (precode_lens d) (lens d) (precode_decode_table d)
              (litlen_decode_table d) t).

(** [assert(build_..._decode_table(d))] *)
Definition assert_built (r : option (bool * libdeflate_decompressor))
    (assertion : string) : outcome libdeflate_decompressor :=
  '(ok, d) ← mem r;
  assert ok assertion;;
  Returned d.

Definition set_lens (d : libdeflate_decompressor) (lens' : list Z)
  : libdeflate_decompressor :=
  MkDecompressor (precode_lens d) lens' (precode_decode_table d)
    (litlen_decode_table d) (offset_decode_table d).

Definition set_precode_lens (d : libdeflate_decompressor) (precode_lens' : list Z)
  : libdeflate_decompressor :=
  MkDecompressor precode_lens' (lens d) (precode_decode_table d)
    (litlen_decode_table d) (offset_decode_table d).

(** ** Preparing the tables of a block *)

Definition deflate_precode_lens_permutation : list Z :=
  [16; 17; 18; 0; 8; 7; 9; 6; 10; 5; 11; 4; 12; 3; 13; 2; 14; 1; 15].

(** [for (i = 0; i < num_explicit_precode_lens; i++)
       precode_lens[deflate_precode_lens_permutation[i]] = in_stream.pop_bits(3);] *)
Fixpoint read_precode_lens (n : nat) (i : Z) (precode_lens : list Z) (s : InputStream)
  : outcome (list Z * InputStream) :=
  match n with
  | O => Returned (precode_lens, s)
  | S n' =>
      '(v, s) ← In.pop_bits s 3;
      p ← mem (rd deflate_precode_lens_permutation i);
      precode_lens ← mem (wr precode_lens p (u8 v));
      read_precode_lens n' (i + 1) precode_lens s
  end.

(** [for (i = num_explicit_precode_lens; i < DEFLATE_NUM_PRECODE_SYMS; i++)
       precode_lens[deflate_precode_lens_permutation[i]] = 0;] *)
Fixpoint zero_precode_lens (n : nat) (i : Z) (precode_lens : list Z)
  : outcome (list Z) :=
  match n with
  | O => Returned precode_lens
  | S n' =>
      p ← mem (rd deflate_precode_lens_permutation i);
      precode_lens ← mem (wr precode_lens p 0);
      zero_precode_lens n' (i + 1) precode_lens
  end.

(** [lens[i + 0] = v; ...; lens[i + n - 1] = v;] *)
Fixpoint write_run (n : nat) (lens : list Z) (i v : Z) : option (list Z) :=
  match n with
  | O => Some lens
  | S n' => lens ← wr lens i v; write_run n' lens (i + 1) v
  end.

(** The loop that expands the literal/length and offset codeword lengths. *)
Fixpoint expand_lens (fuel : nat) (precode_decode_table : table) (total : Z) (i : Z)
    (lens : list Z) (s : InputStream) : outcome (list Z * InputStream) :=
  if i <? total then
    match fuel with
    | O => OutOfFuel
    | S fuel' =>
        s ← In.ensure_bits (DEFLATE_MAX_PRE_CODEWORD_LEN + 7) s;
        idx ← In.bits s DEFLATE_MAX_PRE_CODEWORD_LEN;
        entry ← mem (precode_decode_table !! idx);
        s ← In.remove_bits s (Z.land entry HUFFDEC_LENGTH_MASK);
        let presym := Z.shiftr entry HUFFDEC_RESULT_SHIFT in
        if presym <? 16 then
          lens ← mem (wr lens i (u8 presym));
          expand_lens fuel' precode_decode_table total (u32 (i + 1)) lens s
        else if presym =? 16 then
          assert (negb (i =? 0)) "i != 0";;
          rep_val ← mem (rd lens (i - 1));
          '(b, s) ← In.pop_bits s 2;
          let rep_count := u32 (3 + b) in
          lens ← mem (write_run 6 lens i rep_val);
          expand_lens fuel' precode_decode_table total (u32 (i + rep_count)) lens s
        else if presym =? 17 then
          '(b, s) ← In.pop_bits s 3;
          let rep_count := u32 (3 + b) in
          lens ← mem (write_run 10 lens i 0);
          expand_lens fuel' precode_decode_table total (u32 (i + rep_count)) lens s
        else
          '(b, s) ← In.pop_bits s 7;
          let rep_count := u32 (11 + b) in
          lens ← mem (write_run (Z.to_nat rep_count) lens i 0);
          expand_lens fuel' precode_decode_table total (u32 (i + rep_count)) lens s
    end
  else Returned (lens, s).

Definition prepare_dynamic (d : libdeflate_decompressor) (s : InputStream)
  : outcome (libdeflate_decompressor * InputStream) :=
  '(b, s) ← In.pop_bits s 5;
  let num_litlen_syms := u32 (b + 257) in
  '(b, s) ← In.pop_bits s 5;
  let num_offset_syms := u32 (b + 1) in
  '(b, s) ← In.pop_bits s 4;
  let num_explicit_precode_lens := u32 (b + 4) in
  s ← In.ensure_bits (DEFLATE_NUM_PRECODE_SYMS * 3) s;
  '(pl, s) ← read_precode_lens (Z.to_nat num_explicit_precode_lens) 0 (precode_lens d) s;
  pl ← zero_precode_lens (Z.to_nat (DEFLATE_NUM_PRECODE_SYMS - num_explicit_precode_lens))
         num_explicit_precode_lens pl;
  let d := set_precode_lens d pl in
  d ← assert_built (build_precode_decode_table d) "build_precode_decode_table(d)";
  let total := u32 (num_litlen_syms + num_offset_syms) in
  '(l, s) ← expand_lens (Z.to_nat total) (precode_decode_table d) total 0 (lens d) s;
  let d := set_lens d l in
  d ← assert_built (build_offset_decode_table d num_litlen_syms num_offset_syms)
        "build_offset_decode_table(d, num_litlen_syms, num_offset_syms)";
  d ← assert_built (build_litlen_decode_table d num_litlen_syms num_offset_syms)
        "build_litlen_decode_table(d, num_litlen_syms, num_offset_syms)";
  Returned (d, s).

Definition prepare_static (d : libdeflate_decompressor)
  : outcome libdeflate_decompressor :=
  l ← mem (write_run 144 (lens d) 0 8);
  l ← mem (write_run (256 - 144) l 144 9);
  l ← mem (write_run (280 - 256) l 256 7);
  l ← mem (write_run (Z.to_nat (DEFLATE_NUM_LITLEN_SYMS - 280)) l 280 8);
  l ← mem (write_run (Z.to_nat DEFLATE_NUM_OFFSET_SYMS) l DEFLATE_NUM_LITLEN_SYMS 5);
  let d := set_lens d l in
  d ← assert_built
        (build_offset_decode_table d DEFLATE_NUM_LITLEN_SYMS DEFLATE_NUM_OFFSET_SYMS)
        "build_offset_decode_table(d, DEFLATE_NUM_LITLEN_SYMS, DEFLATE_NUM_OFFSET_SYMS)";
  assert_built
    (build_litlen_decode_table d DEFLATE_NUM_LITLEN_SYMS DEFLATE_NUM_OFFSET_SYMS)
    "build_litlen_decode_table(d, DEFLATE_NUM_LITLEN_SYMS, DEFLATE_NUM_OFFSET_SYMS)".

(** ** Blocks *)

Definition do_uncompressed (s : InputStream) (out : DeflateWindow)
  : outcome (InputStream * DeflateWindow) :=
  let s := In.align_input s in
  assert (4 <=? In.size s) "in_stream.size() >= 4";;
  '(len, s) ← In.pop_u16 s;
  '(nlen, s) ← In.pop_u16 s;
  assert (len =? u16 (Z.lnot nlen)) "len == (u16)~nlen";;
  assert (len <=? In.size s) "len <= in_stream.size()";;
  '(out, s) ← Win.copy out s len;
  Returned (s, out).

(** One table lookup of the decode loop: the main entry, then the subtable
    entry when the main entry is a subtable pointer; the bits of the entry
    reached are removed from the stream. *)
Definition decode_symbol (t : table) (table_bits : Z) (s : InputStream)
  : outcome (Z * InputStream) :=
  idx ← In.bits s table_bits;
  entry ← mem (t !! idx);
  '(entry, s) ←
    (if negb (Z.land entry HUFFDEC_SUBTABLE_POINTER =? 0) then
       s ← In.remove_bits s table_bits;
       idx ← In.bits s (Z.land entry HUFFDEC_LENGTH_MASK);
       entry ← mem (t !! (Z.land (Z.shiftr entry HUFFDEC_RESULT_SHIFT) 0xFFFF + idx));
       Returned (entry, s)
     else Returned (entry, s));
  s ← In.remove_bits s (Z.land entry HUFFDEC_LENGTH_MASK);
  Returned (entry, s).

(** The main DEFLATE decode loop of [do_block]. *)
Fixpoint decode_loop (fuel : nat) (d : libdeflate_decompressor) (is_final_block : bool)
    (s : InputStream) (out : DeflateWindow)
  : outcome (bool * InputStream * DeflateWindow) :=
  match fuel with
  | O => OutOfFuel
  | S fuel' =>
      s ← In.ensure_bits DEFLATE_MAX_LITLEN_CODEWORD_LEN s;
      '(entry, s) ← decode_symbol (litlen_decode_table d) LITLEN_TABLEBITS s;
      if negb (Z.land entry HUFFDEC_LITERAL =? 0) then
        out ← (if Win.available out =? 0 then Win.flush out else Returned out);
        out ← Win.push out (u8 (Z.shiftr entry HUFFDEC_RESULT_SHIFT));
        decode_loop fuel' d is_final_block s out
      else
        let entry := Z.shiftr entry HUFFDEC_RESULT_SHIFT in
        s ← In.ensure_bits In.bitbuf_max_ensure s;
        '(extra, s) ← In.pop_bits s (Z.land entry HUFFDEC_EXTRA_LENGTH_BITS_MASK);
        let length := u32 (Z.shiftr entry HUFFDEC_LENGTH_BASE_SHIFT + extra) in
        if (Win.available out <=? u32 (length - 1)) &&
           (length =? HUFFDEC_END_OF_BLOCK_LENGTH)
        then Returned (is_final_block, s, Win.notify_end_block out)
        else
          out ←
            (if Win.available out <=? u32 (length - 1) then
               out ← Win.flush out;
               assert (negb (Win.available out <=? u32 (length - 1)))
                 "!(length - 1 >= out.available())";;
               Returned out
             else Returned out);
          assert (0 <? length) "length > 0";;
          '(entry, s) ← decode_symbol (offset_decode_table d) OFFSET_TABLEBITS s;
          let entry := Z.shiftr entry HUFFDEC_RESULT_SHIFT in
          '(extra, s) ← In.pop_bits s (Z.shiftr entry HUFFDEC_EXTRA_OFFSET_BITS_SHIFT);
          let offset := u32 (Z.land entry HUFFDEC_OFFSET_BASE_MASK + extra) in
          out ← Win.copy_match out length offset;
          decode_loop fuel' d is_final_block s out
  end.

Definition do_block (fuel : nat) (d : libdeflate_decompressor) (s : InputStream)
    (out : DeflateWindow)
  : outcome (bool * libdeflate_decompressor * InputStream * DeflateWindow) :=
  s ← In.ensure_bits (1 + 2 + 5 + 5 + 4) s;
  '(b, s) ← In.pop_bits s 1;
  let is_final_block := negb (b =? 0) in
  '(btype, s) ← In.pop_bits s 2;
  if btype =? DEFLATE_BLOCKTYPE_UNCOMPRESSED then
    '(s, out) ← do_uncompressed s out;
    Returned (is_final_block, d, s, out)
  else
    '(d, s) ←
      (if btype =? DEFLATE_BLOCKTYPE_DYNAMIC_HUFFMAN then prepare_dynamic d s
       else if btype =? DEFLATE_BLOCKTYPE_STATIC_HUFFMAN then
         d ← prepare_static d; Returned (d, s)
       else Aborted "false");
    '(fin, s, out) ← decode_loop fuel d is_final_block s out;
    Returned (fin, d, s, out).

(** ** The entry point *)

(** Modelled from the spec: the status values of libdeflate.h, which is not
    among the sources (spec section 6). *)
Inductive libdeflate_result : Type :=
  | LIBDEFLATE_SUCCESS
  | LIBDEFLATE_BAD_DATA
  | LIBDEFLATE_SHORT_OUTPUT
  | LIBDEFLATE_INSUFFICIENT_SPACE.

(** [do { is_final_block = do_block(d, in_stream, out_block); }
     while (!is_final_block);] *)
Fixpoint do_blocks (fuel blocks : nat) (d : libdeflate_decompressor) (s : InputStream)
    (out : DeflateWindow)
  : outcome (libdeflate_decompressor * InputStream * DeflateWindow) :=
  match blocks with
  | O => OutOfFuel
  | S blocks' =>
      '(is_final_block, d, s, out) ← do_block fuel d s out;
      if negb is_final_block then do_blocks fuel blocks' d s out
      else Returned (d, s, out)
  end.

(** What the caller sees after the call: the status, the output memory, and
    the cell behind [actual_out_nbytes_ret] ([None] for a null pointer). *)
Record decompress_result := MkResult {
  status : libdeflate_result;
  out_mem : list Z;
  actual_out_nbytes : option Z
}.

(** [libdeflate_deflate_decompress].  [in_] and [out] are the memory behind
    the two pointers; [fuel] bounds the iterations of each loop. *)
Definition libdeflate_deflate_decompress (fuel : nat) (d : libdeflate_decompressor)
    (in_ : list Z) (in_nbytes : Z) (out : list Z) (out_nbytes_avail : Z)
    (actual_out_nbytes_ret : option Z) : outcome decompress_result :=
  let in_stream := In.make in_ in_nbytes in
  let out_next := 0 in
  let out_end := out_next + out_nbytes_avail in
  let out_block := Win.make 20 out 0 out_end in
  '(d, in_stream, out_block) ← do_blocks fuel fuel d in_stream out_block;
  out_block ← Win.full_flush out_block;
  Returned (MkResult LIBDEFLATE_SUCCESS (target_mem out_block) actual_out_nbytes_ret).

(** * Properties *)

(** ** The entry point and the stored-block path *)

Lemma u64_sub_diag (x : Z) : u64 (x - x) = 0.
Proof. unfold u64. by rewrite Z.sub_diag. Qed.

(** C9: [InputStream::size()] subtracts [in_end] from itself, so it is 0
    in every state of the stream, whatever the read cursor; [pop_u16] and a
    stored block therefore stop at their assertions on [size()]. *)
Theorem size_always_zero (s : InputStream) (out : DeflateWindow) :
  In.size s = 0 ∧
  In.pop_u16 s = Aborted "size() >= 2" ∧
  do_uncompressed s out = Aborted "in_stream.size() >= 4".
Proof.
  assert (Hsz : ∀ s', In.size s' = 0) by (intros s'; apply u64_sub_diag).
  split; [apply Hsz|]. split.
  - unfold In.pop_u16. by rewrite Hsz.
  - unfold do_uncompressed. by rewrite Hsz.
Qed.

(** C3: on the stored empty final block [01 00 00 FF FF] the entry point
    does not return: [do_uncompressed] stops at [assert(in_stream.size() >= 4)]. *)
Theorem empty_stored_block_aborts :
  libdeflate_deflate_decompress 8 libdeflate_alloc_decompressor
    [0x01; 0x00; 0x00; 0xFF; 0xFF] 5 [] 0 None
  = Aborted "in_stream.size() >= 4".
Proof. vm_compute. reflexivity. Qed.

Lemma bind_Returned {A B} (m : outcome A) (f : A → outcome B) (b : B) :
  m ≫= f = Returned b → ∃ a, m = Returned a ∧ f a = Returned b.
Proof. destruct m; simpl; try discriminate. eauto. Qed.

(** C8: whenever [libdeflate_deflate_decompress] returns, the status is
    [LIBDEFLATE_SUCCESS]. *)
Theorem decompress_returns_only_success (fuel : nat) (d : libdeflate_decompressor)
    (in_ : list Z) (in_nbytes : Z) (out : list Z) (out_nbytes_avail : Z)
    (actual_out_nbytes_ret : option Z) (r : decompress_result) :
  libdeflate_deflate_decompress fuel d in_ in_nbytes out out_nbytes_avail
    actual_out_nbytes_ret = Returned r →
  status r = LIBDEFLATE_SUCCESS ∧
  status r ≠ LIBDEFLATE_BAD_DATA ∧
  status r ≠ LIBDEFLATE_SHORT_OUTPUT ∧
  status r ≠ LIBDEFLATE_INSUFFICIENT_SPACE.
Proof.
  unfold libdeflate_deflate_decompress. intros H.
  apply bind_Returned in H as ([[d' s'] w'] & _ & H).
  apply bind_Returned in H as (w'' & _ & H).
  injection H as <-. simpl. repeat split; discriminate.
Qed.

Lemma decompress_returns_only_success_witness :
  libdeflate_deflate_decompress 8 libdeflate_alloc_decompressor
    [0x4B; 0x04; 0x00] 3 [0] 1 None
  = Returned (MkResult LIBDEFLATE_SUCCESS [0x61] None) ∧
  status (MkResult LIBDEFLATE_SUCCESS [0x61] None) = LIBDEFLATE_SUCCESS.
Proof.
  split; [vm_compute; reflexivity|].
  apply (decompress_returns_only_success 8 libdeflate_alloc_decompressor
           [0x4B; 0x04; 0x00] 3 [0] 1 None).
  vm_compute. reflexivity.
Defined.

(** C5, as stated, fails: a call that returns [LIBDEFLATE_SUCCESS] after
    producing one byte leaves the cell behind [actual_out_nbytes_ret] at
    the value the caller put there. *)
Lemma actual_out_not_set :
  libdeflate_deflate_decompress 8 libdeflate_alloc_decompressor
    [0x4B; 0x04; 0x00] 3 [0] 1 (Some 77)
  = Returned (MkResult LIBDEFLATE_SUCCESS [0x61] (Some 77)) ∧
  Some 77 ≠ Some (Z.of_nat (length [0x61])).
Proof. split; [vm_compute; reflexivity | discriminate]. Qed.

(** C5, amended: [libdeflate_deflate_decompress] never writes through
    [actual_out_nbytes_ret]; when it returns, the cell holds what it held
    before the call. *)
Theorem actual_out_untouched (fuel : nat) (d : libdeflate_decompressor)
    (in_ : list Z) (in_nbytes : Z) (out : list Z) (out_nbytes_avail : Z)
    (actual_out_nbytes_ret : option Z) (r : decompress_result) :
  libdeflate_deflate_decompress fuel d in_ in_nbytes out out_nbytes_avail
    actual_out_nbytes_ret = Returned r →
  actual_out_nbytes r = actual_out_nbytes_ret.
Proof.
  unfold libdeflate_deflate_decompress. intros H.
  apply bind_Returned in H as ([[d' s'] w'] & _ & H).
  apply bind_Returned in H as (w'' & _ & H).
  by injection H as <-.
Qed.

Lemma actual_out_untouched_witness :
  actual_out_nbytes (MkResult LIBDEFLATE_SUCCESS [0x61] (Some 77)) = Some 77.
Proof.
  apply (actual_out_untouched 8 libdeflate_alloc_decompressor
           [0x4B; 0x04; 0x00] 3 [0] 1 (Some 77)).
  vm_compute. reflexivity.
Defined.

(** C4, as stated, fails: on the one-byte input [07] (BFINAL = 1,
    BTYPE = 3) the entry point stops in [assert(false)]; no status is
    returned. *)
Lemma reserved_block_type_no_status :
  libdeflate_deflate_decompress 8 libdeflate_alloc_decompressor [0x07] 1 [] 0 None
  = Aborted "false" ∧
  libdeflate_deflate_decompress 8 libdeflate_alloc_decompressor [0x07] 1 [] 0 None
  ≠ Returned (MkResult LIBDEFLATE_BAD_DATA [] None).
Proof. split; [vm_compute; reflexivity|]. vm_compute. discriminate. Qed.

(** C4, amended: whenever the header that [do_block] reads carries
    BTYPE = 3, the block decoder stops in [assert(false)]. *)
Theorem reserved_block_type_aborts (fuel : nat) (d : libdeflate_decompressor)
    (s s1 s2 s3 : InputStream) (out : DeflateWindow) (bfinal : Z) :
  In.ensure_bits (1 + 2 + 5 + 5 + 4) s = Returned s1 →
  In.pop_bits s1 1 = Returned (bfinal, s2) →
  In.pop_bits s2 2 = Returned (3, s3) →
  do_block fuel d s out = Aborted "false".
Proof.
  intros H1 H2 H3. unfold do_block. rewrite H1. simpl. rewrite H2. simpl.
  rewrite H3. reflexivity.
Qed.

(** ** The window: well-formed states *)

Definition is_byte (b : Z) : Prop := 0 ≤ b < 256.

(** The state of a window between two calls: the cursor is inside the
    buffer, the current block does not start before it, the buffer has [buffer_end] bytes (fewer than 2^32, so that the
    [unsigned] results of [size()] and [available()] are exact); the target
    cursor is inside the caller's memory. *)
Record window_ok (w : DeflateWindow) : Prop := MkWindowOk {
  ok_next : 0 ≤ next w ≤ buffer_end w;
  ok_blk : 0 ≤ current_blk w;
  ok_buffer : Z.of_nat (length (buffer w)) = buffer_end w;
  ok_small : buffer_end w < 2 ^ 32;
  ok_bytes : Forall is_byte (buffer w);
  ok_target : 0 ≤ target w;
  ok_target_mem : target_end w ≤ Z.of_nat (length (target_mem w))
}.

Lemma u32_small (x : Z) : 0 ≤ x < 2 ^ 32 → u32 x = x.
Proof. intros. unfold u32. by apply Z.mod_small. Qed.

Lemma u64_small (x : Z) : 0 ≤ x < 2 ^ 64 → u64 x = x.
Proof. intros. unfold u64. by apply Z.mod_small. Qed.

Lemma u16_small (x : Z) : 0 ≤ x < 2 ^ 16 → u16 x = x.
Proof. intros. unfold u16. by apply Z.mod_small. Qed.

Lemma s32_small (x : Z) : - 2 ^ 31 ≤ x < 2 ^ 31 → s32 x = x.
Proof. intros. unfold s32. rewrite Z.mod_small; lia. Qed.

Lemma size_ok (w : DeflateWindow) : window_ok w → Win.size w = next w.
Proof.
  intros [? ? ? ? ? ? ?]. unfold Win.size. rewrite Z.sub_0_r. apply u32_small. lia.
Qed.

Lemma available_ok (w : DeflateWindow) :
  window_ok w → Win.available w = buffer_end w - next w.
Proof. intros [? ? ? ? ? ? ?]. unfold Win.available. apply u32_small. lia. Qed.

Lemma keep_size_ok (w : DeflateWindow) :
  window_ok w → 0 ≤ current_blk w ≤ next w →
  Win.keep_size w = Z.max 32768 (next w - current_blk w).
Proof.
  intros [? ? ? ? ? ? ?] Hblk. unfold Win.keep_size.
  change (u64 (Z.shiftl 1 15)) with 32768.
  rewrite u64_small; lia.
Qed.

Lemma keep_size_min (w : DeflateWindow) : 32768 ≤ Win.keep_size w.
Proof.
  unfold Win.keep_size. change (u64 (Z.shiftl 1 15)) with 32768. lia.
Qed.

Lemma load_bytes_Some (m : list Z) (p n : Z) :
  0 ≤ p → 0 ≤ n → p + n ≤ Z.of_nat (length m) →
  load_bytes m p n = Some (take (Z.to_nat n) (drop (Z.to_nat p) m)).
Proof. intros. unfold load_bytes. rewrite decide_True; [done | lia]. Qed.

Lemma store_bytes_Some (m : list Z) (p : Z) (bs : list Z) :
  0 ≤ p → p + Z.of_nat (length bs) ≤ Z.of_nat (length m) →
  store_bytes m p bs
  = Some (take (Z.to_nat p) m ++ bs ++ drop (Z.to_nat p + length bs) m).
Proof. intros. unfold store_bytes. rewrite decide_True; [done | lia]. Qed.

Ltac zbool :=
  first [ apply Z.leb_le | apply Z.ltb_lt | apply Z.eqb_eq
        | apply Z.leb_gt | apply Z.ltb_ge | apply Z.eqb_neq ]; lia.

Lemma bind_step {A B} (m : outcome A) (f : A → outcome B) (a : A) (r : outcome B) :
  m = Returned a → f a = r → m ≫= f = r.
Proof. by intros -> <-. Qed.

Lemma bind_abort {A B} (m : outcome A) (f : A → outcome B) (msg : string) :
  m = Aborted msg → m ≫= f = Aborted msg.
Proof. by intros ->. Qed.

Lemma assert_true (b : bool) (msg : string) : b = true → assert b msg = Returned ().
Proof. by intros ->. Qed.

Lemma assert_false (b : bool) (msg : string) : b = false → assert b msg = Aborted msg.
Proof. by intros ->. Qed.

#[global] Instance is_byte_dec (b : Z) : Decision (is_byte b).
Proof. unfold is_byte. apply _. Defined.

(** The byte [k] positions behind the write cursor: what a back-reference
    with offset [k] reads first. *)
Definition back (w : DeflateWindow) (k : Z) : option Z :=
  load_byte (buffer w) (next w - k).

(** The window that the eviction branch of [flush] leaves. *)
Definition evicted (w : DeflateWindow) : DeflateWindow :=
  let keep := Win.keep_size w in
  let evict := next w - keep in
  MkWindow
    (take (Z.to_nat (target w)) (target_mem w) ++
     take (Z.to_nat evict) (buffer w) ++
     drop (Z.to_nat (target w) + Z.to_nat evict) (target_mem w))
    (target w + evict) (target_end w) 0
    (current_blk w - evict) (current_blk w - evict) (current_blk w - evict)
    (take (Z.to_nat keep) (drop (Z.to_nat evict) (buffer w)) ++
     drop (Z.to_nat keep) (buffer w))
    (buffer_end w) keep.

(** [flush] on a well-formed window, path by path. *)
Lemma flush_paths (w : DeflateWindow) :
  window_ok w →
  Win.flush w =
    if next w <? current_blk w then Aborted "next >= current_blk"
    else if Win.keep_size w <? next w then
      if target w + (next w - Win.keep_size w) <? target_end w then
        if 2 * Win.keep_size w <? next w then Returned (evicted w)
        else Aborted "buffer + keep_size < next - keep_size"
      else Aborted "target + evict_size < target_end"
    else Returned w.
Proof.
  intros Hok. pose proof Hok as [? ? ? ? ? ? ?].
  pose proof (keep_size_min w) as Hmin.
  unfold Win.flush. rewrite (size_ok w Hok).
  destruct (Z.ltb_spec (next w) (current_blk w)) as [Hb|Hb].
  { apply bind_abort, assert_false. zbool. }
  eapply bind_step; [apply assert_true; zbool|]. cbv beta.
  destruct (Z.ltb_spec (Win.keep_size w) (next w)) as [Hk|Hk]; [|reflexivity].
  rewrite (u64_small (next w - Win.keep_size w)) by lia.
  destruct (Z.ltb_spec (target w + (next w - Win.keep_size w)) (target_end w))
    as [Ht|Ht]; [|reflexivity].
  eapply bind_step; [reflexivity|]. cbv beta.
  eapply bind_step; [by rewrite load_bytes_Some by lia|]. cbv beta.
  eapply bind_step.
  { by rewrite store_bytes_Some by (rewrite ?length_take, ?length_drop; lia). }
  cbv beta.
  eapply bind_step; [apply assert_true; zbool|]. cbv beta.
  destruct (Z.ltb_spec (2 * Win.keep_size w) (next w)) as [H2|H2].
  2: { apply bind_abort, assert_false. zbool. }
  eapply bind_step; [apply assert_true; zbool|]. cbv beta.
  eapply bind_step; [by rewrite load_bytes_Some by lia|]. cbv beta.
  eapply bind_step.
  { by rewrite store_bytes_Some by (rewrite ?length_take, ?length_drop; lia). }
  cbv beta.
  assert (Hcb : 0 ≤ current_blk w - (next w - Win.keep_size w)).
  { rewrite (keep_size_ok w Hok) by lia. lia. }
  eapply bind_step; [apply assert_true; zbool|]. cbv beta.
  unfold evicted. f_equal. f_equal.
  - change (Z.to_nat 0) with 0%nat. rewrite drop_0, length_take.
    do 3 f_equal. lia.
  - change (Z.to_nat 0) with 0%nat. rewrite length_take, length_drop. simpl.
    do 2 f_equal. lia.
Qed.

Lemma evicted_ok (w : DeflateWindow) :
  window_ok w → current_blk w ≤ next w → Win.keep_size w < next w →
  target w + (next w - Win.keep_size w) < target_end w →
  window_ok (evicted w).
Proof.
  intros Hok Hb Hk Ht. pose proof Hok as [? ? ? ? ? ? ?].
  pose proof (keep_size_min w) as Hmin.
  pose proof (keep_size_ok w Hok ltac:(lia)) as Hkeep.
  constructor; unfold evicted; simpl; try lia.
  - rewrite length_app, length_take, !length_drop. lia.
  - apply Forall_app. split.
    + by apply Forall_take, Forall_drop.
    + by apply Forall_drop.
  - rewrite !length_app, !length_take, !length_drop. lia.
Qed.

Lemma back_Some (w : DeflateWindow) (k : Z) :
  window_ok w → 1 ≤ k ≤ next w → ∃ b, back w k = Some b.
Proof.
  intros [? ? ? ? ? ? ?] Hk. unfold back, load_byte, rd.
  rewrite decide_True by lia. apply lookup_lt_is_Some_2. lia.
Qed.

Lemma back_evicted (w : DeflateWindow) (k : Z) :
  window_ok w → Win.keep_size w < next w → 1 ≤ k ≤ Win.keep_size w →
  back (evicted w) k = back w k.
Proof.
  intros [? ? ? ? ? ? ?] Hkeep Hk. unfold back, evicted, load_byte, rd. simpl.
  rewrite !decide_True by lia.
  rewrite lookup_app_l by (rewrite length_take, length_drop; lia).
  rewrite lookup_take_lt by lia. rewrite lookup_drop. f_equal. lia.
Qed.

(** C7: when [flush] returns, every byte within [min(size_before, 32 KiB)]
    of the write cursor is still there, at the same distance behind the
    cursor; and [flush] does return when nothing has to be evicted, or when
    the window holds more than twice the kept size and the target has room. *)
Theorem flush_retains_recent (w : DeflateWindow) :
  window_ok w →
  (∀ w', Win.flush w = Returned w' →
     window_ok w' ∧
     ∀ k, 1 ≤ k ≤ Z.min (Win.size w) 32768 →
       k ≤ Win.size w' ∧ ∃ b, back w k = Some b ∧ back w' k = Some b) ∧
  (current_blk w ≤ next w →
   Win.size w ≤ Win.keep_size w ∨
   (2 * Win.keep_size w < Win.size w ∧
    target w + (Win.size w - Win.keep_size w) < target_end w) →
   ∃ w', Win.flush w = Returned w').
Proof.
  intros Hok. pose proof (keep_size_min w) as Hmin.
  rewrite (flush_paths w Hok), (size_ok w Hok). split.
  - intros w' H.
    destruct (Z.ltb_spec (next w) (current_blk w)); [discriminate|].
    destruct (Z.ltb_spec (Win.keep_size w) (next w)) as [Hk|Hk].
    + destruct (Z.ltb_spec (target w + (next w - Win.keep_size w)) (target_end w));
        [|discriminate].
      destruct (Z.ltb_spec (2 * Win.keep_size w) (next w)); [|discriminate].
      injection H as <-.
      pose proof (evicted_ok w Hok ltac:(lia) Hk ltac:(lia)) as Hok'.
      split; [done|]. intros k Hkk.
      rewrite (size_ok _ Hok'). split; [simpl; lia|].
      destruct (back_Some w k Hok ltac:(lia)) as [b Hb]. exists b.
      split; [done|]. rewrite back_evicted; [done..|lia].
    + injection H as <-. split; [done|]. intros k Hkk.
      rewrite (size_ok w Hok). split; [lia|].
      destruct (back_Some w k Hok ltac:(lia)) as [b Hb]. by exists b.
  - intros Hb [Hc|[Hc Ht]].
    + rewrite (proj2 (Z.ltb_ge _ _)) by lia.
      rewrite (proj2 (Z.ltb_ge (Win.keep_size w) _)) by lia. eauto.
    + rewrite (proj2 (Z.ltb_ge _ _)) by lia.
      rewrite (proj2 (Z.ltb_lt (Win.keep_size w) _)) by lia.
      rewrite (proj2 (Z.ltb_lt _ (target_end w))) by lia.
      rewrite (proj2 (Z.ltb_lt (2 * _) _)) by lia. eauto.
Qed.

(** C10: in the eviction branch of [flush] with at most twice the kept size
    in the window, the call stops in an assertion: in
    [assert(buffer + keep_size < next - keep_size)] when the target has
    room, in the assertion on the target otherwise; an eviction that
    returns had more than twice the kept size in the window. *)
Theorem flush_eviction_needs_double (w : DeflateWindow) :
  window_ok w → current_blk w ≤ next w → Win.keep_size w < Win.size w →
  (Win.size w ≤ 2 * Win.keep_size w →
   Win.flush w =
     if target w + (Win.size w - Win.keep_size w) <? target_end w
     then Aborted "buffer + keep_size < next - keep_size"
     else Aborted "target + evict_size < target_end") ∧
  (∀ w', Win.flush w = Returned w' → 2 * Win.keep_size w < Win.size w).
Proof.
  intros Hok Hb. rewrite (flush_paths w Hok), (size_ok w Hok). intros Hk.
  rewrite (proj2 (Z.ltb_ge _ _)) by lia.
  rewrite (proj2 (Z.ltb_lt (Win.keep_size w) _)) by lia.
  split.
  - intros H2. rewrite (proj2 (Z.ltb_ge (2 * _) _)) by lia. reflexivity.
  - intros w' H.
    destruct (Z.ltb_spec (target w + (next w - Win.keep_size w)) (target_end w));
      [|discriminate].
    destruct (Z.ltb_spec (2 * Win.keep_size w) (next w)); [done|discriminate].
Qed.

(** A window of [n] bytes that is full, whose current block began at
    [blk], before a target of [room] bytes. *)
Definition full_window (n blk room : Z) : DeflateWindow :=
  MkWindow (replicate (Z.to_nat room) 0) 0 room 0 blk blk blk
    ((λ i, i mod 256) <$> seqZ 0 n) n n.

Lemma full_window_ok (n blk room : Z) :
  0 ≤ blk → 0 ≤ n < 2 ^ 32 → 0 ≤ room → window_ok (full_window n blk room).
Proof.
  intros Hblk Hn Hroom. constructor; simpl; try lia.
  - rewrite length_fmap, length_seqZ. lia.
  - apply Forall_fmap, Forall_forall. intros i _. simpl. unfold is_byte.
    apply Z.mod_pos_bound. lia.
  - rewrite length_replicate. lia.
Qed.

Lemma flush_retains_recent_witness :
  Win.flush (full_window 70000 60000 40000)
  = Returned (evicted (full_window 70000 60000 40000)) ∧
  1 ≤ Win.size (evicted (full_window 70000 60000 40000)) ∧
  ∃ b, back (full_window 70000 60000 40000) 1 = Some b ∧
       back (evicted (full_window 70000 60000 40000)) 1 = Some b.
Proof.
  assert (Hok : window_ok (full_window 70000 60000 40000))
    by (apply full_window_ok; lia).
  assert (Hfl : Win.flush (full_window 70000 60000 40000)
                = Returned (evicted (full_window 70000 60000 40000)))
    by (rewrite (flush_paths _ Hok); reflexivity).
  split; [exact Hfl|].
  apply (proj2 (proj1 (flush_retains_recent _ Hok) _ Hfl) 1).
  rewrite (size_ok _ Hok). simpl. lia.
Defined.

Lemma flush_eviction_needs_double_witness :
  Win.flush (full_window 40000 40000 10000)
  = Aborted "buffer + keep_size < next - keep_size".
Proof.
  assert (Hok : window_ok (full_window 40000 40000 10000))
    by (apply full_window_ok; lia).
  refine (proj1 (flush_eviction_needs_double _ Hok _ _) _);
    rewrite ?(size_ok _ Hok); unfold Win.keep_size; simpl;
    vm_compute; first [reflexivity | discriminate].
Defined.

Lemma reserved_block_type_aborts_witness :
  do_block 8 libdeflate_alloc_decompressor (In.make [0x07] 1) (Win.make 20 [] 0 0)
  = Aborted "false".
Proof.
  apply (reserved_block_type_aborts 8 libdeflate_alloc_decompressor
           (In.make [0x07] 1) (MkInputStream 7 64 7 1 1 [7])
           (MkInputStream 3 63 7 1 1 [7]) (MkInputStream 0 61 7 1 1 [7])
           (Win.make 20 [] 0 0) 1);
    vm_compute; reflexivity.
Defined.

(** ** [copy_match] against the byte-by-byte copy *)

(** The reference: [n] times [*dst++ = *src++], each read seeing the writes
    before it. *)
Fixpoint byte_copy (n : nat) (m : list Z) (src dst : nat) : list Z :=
  match n with
  | O => m
  | S n' => byte_copy n' (<[dst := default 0 (m !! src)]> m) (S src) (S dst)
  end.

(** Bytes and words *)

Lemma word_bytes_le_bytes (bs : list Z) :
  Forall is_byte bs → word_bytes (length bs) (le_bytes bs) = bs.
Proof.
  induction 1 as [|b bs Hb _ IH]; [done|]. simpl. unfold is_byte in Hb.
  replace (b + 256 * le_bytes bs) with (b + le_bytes bs * 256) by lia.
  rewrite Z.mod_add, Z.div_add, Z.mod_small, Z.div_small by lia.
  by rewrite Z.add_0_l, IH.
Qed.

Lemma length_word_bytes (n : nat) (v : Z) : length (word_bytes n v) = n.
Proof. revert v. induction n; intros; simpl; [done|]. by rewrite IHn. Qed.

Lemma repeat_byte_bytes (b : Z) :
  is_byte b →
  word_bytes (Z.to_nat WORDBYTES) (repeat_byte b) = replicate (Z.to_nat WORDBYTES) b.
Proof.
  intros Hb.
  assert (H : Forall (λ b, word_bytes (Z.to_nat WORDBYTES) (repeat_byte b)
                           = replicate (Z.to_nat WORDBYTES) b) (seqZ 0 256)).
  { apply (bool_decide_unpack _). vm_compute. exact I. }
  rewrite Forall_forall in H. apply H, elem_of_seqZ. unfold is_byte in Hb. lia.
Qed.

Lemma store_bytes_length (m : list Z) (p : Z) (bs m' : list Z) :
  store_bytes m p bs = Some m' → length m' = length m.
Proof.
  unfold store_bytes. destruct (decide _) as [[? ?]|]; [|discriminate].
  intros [= <-]. rewrite !length_app, length_take, length_drop. lia.
Qed.

Lemma store_bytes_lookup (m : list Z) (p : Z) (bs m' : list Z) (i : Z) :
  store_bytes m p bs = Some m' → 0 ≤ i →
  m' !! Z.to_nat i =
    if (p <=? i) && (i <? p + Z.of_nat (length bs)) then bs !! Z.to_nat (i - p)
    else m !! Z.to_nat i.
Proof.
  unfold store_bytes. destruct (decide _) as [[? ?]|]; [|discriminate].
  intros [= <-] Hi.
  destruct (Z.leb_spec p i) as [Hpi|Hpi]; simpl.
  - rewrite lookup_app_r by (rewrite length_take; lia).
    rewrite length_take.
    destruct (Z.ltb_spec i (p + Z.of_nat (length bs))) as [Hlt|Hge].
    + rewrite lookup_app_l by lia. f_equal. lia.
    + rewrite lookup_app_r by lia. rewrite lookup_drop. f_equal. lia.
  - rewrite lookup_app_l by (rewrite length_take; lia).
    rewrite lookup_take_lt by lia. done.
Qed.

Lemma store_bytes_Forall (P : Z → Prop) (m : list Z) (p : Z) (bs m' : list Z) :
  store_bytes m p bs = Some m' → Forall P m → Forall P bs → Forall P m'.
Proof.
  unfold store_bytes. destruct (decide _); [|discriminate].
  intros [= <-] Hm Hbs. apply Forall_app. split; [by apply Forall_take|].
  apply Forall_app. split; [done | by apply Forall_drop].
Qed.

Section copy_match.

(** The window before the match: its bytes, the cursor and the offset. *)
Variables (m0 : list Z) (nxt offset : Z).
Hypothesis Hoffset : 1 ≤ offset ≤ nxt.
Hypothesis Hnxt : nxt ≤ Z.of_nat (length m0).
Hypothesis Hbytes0 : Forall is_byte m0.

(** Where the byte at position [i] of the finished copy comes from in
    the window before the match: the last [offset] bytes repeat. *)
Definition origin (i : Z) : Z :=
  if i <? nxt then i else nxt - offset + (i - nxt) mod offset.

(** [m] is a state of the copy in which everything below [e] is final. *)
Record copied_to (e : Z) (m : list Z) : Prop := MkCopied {
  cp_length : length m = length m0;
  cp_bytes : Forall is_byte m;
  cp_agree : ∀ i, 0 ≤ i < e → m !! Z.to_nat i = m0 !! Z.to_nat (origin i)
}.

Lemma origin_below (i : Z) : i < nxt → origin i = i.
Proof. intros. unfold origin. by rewrite (proj2 (Z.ltb_lt _ _)). Qed.

Lemma origin_range (i : Z) : 0 ≤ i → 0 ≤ origin i < nxt.
Proof.
  intros. unfold origin. destruct (Z.ltb_spec i nxt); [lia|].
  pose proof (Z.mod_pos_bound (i - nxt) offset). lia.
Qed.

Lemma origin_shift (i : Z) : nxt ≤ i → origin (i - offset) = origin i.
Proof.
  intros Hi. unfold origin.
  rewrite (proj2 (Z.ltb_ge i nxt)) by lia.
  destruct (Z.ltb_spec (i - offset) nxt) as [Hlt|Hge].
  - rewrite Z.mod_small; lia.
  - replace (i - nxt) with (i - offset - nxt + 1 * offset) by lia.
    by rewrite Z.mod_add by lia.
Qed.

Lemma copied_to_start : copied_to nxt m0.
Proof.
  constructor; [done..|]. intros i Hi. by rewrite origin_below by lia.
Qed.

Lemma copied_to_weaken (e e' : Z) (m : list Z) :
  e' ≤ e → copied_to e m → copied_to e' m.
Proof. intros He [? ? Ha]. constructor; [done..|]. intros. apply Ha. lia. Qed.

Lemma copied_to_lookup (e : Z) (m : list Z) (i : Z) :
  copied_to e m → 0 ≤ i < e → i < Z.of_nat (length m0) →
  ∃ b, m !! Z.to_nat i = Some b ∧ m0 !! Z.to_nat (origin i) = Some b ∧ is_byte b.
Proof.
  intros [Hl Hb Ha] Hi Hlen.
  destruct (lookup_lt_is_Some_2 m (Z.to_nat i)) as [b Hb']; [lia|].
  exists b. split; [done|]. split; [by rewrite <- Ha|].
  by eapply Forall_lookup_1.
Qed.

(** One byte copied at the frontier. *)
Lemma copy_byte_step (m : list Z) (dst : Z) :
  copied_to dst m → nxt ≤ dst → dst < Z.of_nat (length m0) →
  ∃ m', Win.copy_byte m (dst - offset) dst = Returned m' ∧ copied_to (dst + 1) m'.
Proof.
  intros Hc Hdst Hlen. pose proof Hc as [Hl Hb Ha].
  destruct (copied_to_lookup dst m (dst - offset) Hc) as (b & Hb1 & Hb2 & Hb3);
    [lia..|].
  exists (<[Z.to_nat dst := b]> m). split.
  - unfold Win.copy_byte, load_byte, store_byte, rd, wr.
    rewrite !decide_True by lia. rewrite Hb1. simpl.
    rewrite !decide_True by lia. reflexivity.
  - constructor.
    + by rewrite length_insert.
    + apply Forall_insert; done.
    + intros i Hi. destruct (decide (i = dst)) as [->|Hne].
      * rewrite list_lookup_insert_eq by lia.
        rewrite <- origin_shift by lia. done.
      * rewrite list_lookup_insert_ne by lia. apply Ha. lia.
Qed.

(** The reference copy in terms of [origin]. *)
Lemma byte_copy_copied (n : nat) (m : list Z) (dst : Z) :
  copied_to dst m → nxt ≤ dst → dst + Z.of_nat n ≤ Z.of_nat (length m0) →
  copied_to (dst + Z.of_nat n)
    (byte_copy n m (Z.to_nat (dst - offset)) (Z.to_nat dst)).
Proof.
  revert m dst. induction n as [|n IH]; intros m dst Hc Hdst Hlen.
  { simpl. by rewrite Z.add_0_r. }
  destruct (copy_byte_step m dst Hc Hdst) as (m' & Hm' & Hc'); [lia|].
  simpl.
  assert (Hm'' : m' = <[Z.to_nat dst := default 0 (m !! Z.to_nat (dst - offset))]> m).
  { pose proof (cp_length _ _ Hc) as Hl.
    revert Hm'. unfold Win.copy_byte, load_byte, store_byte, rd, wr.
    rewrite !decide_True by lia.
    destruct (m !! Z.to_nat (dst - offset)) as [b|]; simpl; [|discriminate].
    rewrite !decide_True by lia. simpl. by intros [= <-]. }
  rewrite <- Hm''.
  replace (S (Z.to_nat (dst - offset))) with (Z.to_nat (dst + 1 - offset)) by lia.
  replace (S (Z.to_nat dst)) with (Z.to_nat (dst + 1)) by lia.
  replace (dst + Z.of_nat (S n)) with (dst + 1 + Z.of_nat n) by lia.
  apply IH; [done|lia..].
Qed.

(** One word copied at the frontier: the source word lies below it. *)
Lemma copy_word_step (m : list Z) (dst : Z) :
  copied_to dst m → nxt ≤ dst → WORDBYTES ≤ offset →
  dst + WORDBYTES ≤ Z.of_nat (length m0) →
  ∃ m', copy_word_unaligned m (dst - offset) dst = Some m' ∧
        copied_to (dst + WORDBYTES) m'.
Proof.
  intros Hc Hdst Hoff Hlen. pose proof Hc as [Hl Hb Ha].
  unfold copy_word_unaligned, load_word_unaligned, store_word_unaligned.
  rewrite load_bytes_Some by (unfold WORDBYTES in *; lia).
  cbv [fmap option_fmap option_map mbind option_bind].
  set (bs := take (Z.to_nat WORDBYTES) (drop (Z.to_nat (dst - offset)) m)).
  assert (Hbsl : length bs = Z.to_nat WORDBYTES).
  { unfold bs. rewrite length_take, length_drop. unfold WORDBYTES in *. lia. }
  assert (Hbsb : Forall is_byte bs) by (by apply Forall_take, Forall_drop).
  rewrite <- Hbsl, (word_bytes_le_bytes bs Hbsb).
  destruct (store_bytes m dst bs) as [m'|] eqn:Hst.
  2: { unfold store_bytes in Hst. rewrite decide_True in Hst; [done|].
       unfold WORDBYTES in *. lia. }
  exists m'. split; [done|]. constructor.
  - by rewrite (store_bytes_length _ _ _ _ Hst).
  - by eapply store_bytes_Forall.
  - intros i Hi. rewrite (store_bytes_lookup _ _ _ _ i Hst) by lia.
    destruct (Z.leb_spec dst i) as [Hd|Hd]; simpl.
    + rewrite (proj2 (Z.ltb_lt _ _)) by lia.
      unfold bs. rewrite lookup_take_lt by lia. rewrite lookup_drop.
      replace (Z.to_nat (dst - offset) + Z.to_nat (i - dst))%nat
        with (Z.to_nat (i - offset)) by lia.
      rewrite Ha by lia. by rewrite origin_shift by lia.
    + apply Ha. lia.
Qed.

(** One broadcast word stored at the frontier. *)
Lemma store_word_step (m : list Z) (dst b : Z) :
  copied_to dst m → nxt ≤ dst → offset = 1 →
  m0 !! Z.to_nat (nxt - 1) = Some b →
  dst + WORDBYTES ≤ Z.of_nat (length m0) →
  ∃ m', store_word_unaligned (repeat_byte b) m dst = Some m' ∧
        copied_to (dst + WORDBYTES) m'.
Proof.
  intros Hc Hdst Hoff Hb0 Hlen. pose proof Hc as [Hl Hb Ha].
  assert (Hbb : is_byte b) by (eapply Forall_lookup_1; [exact Hbytes0 | exact Hb0]).
  unfold store_word_unaligned. rewrite (repeat_byte_bytes b Hbb).
  destruct (store_bytes m dst _) as [m'|] eqn:Hst.
  2: { unfold store_bytes in Hst. rewrite decide_True in Hst; [done|].
       rewrite length_replicate. unfold WORDBYTES in *. lia. }
  exists m'. split; [done|]. constructor.
  - by rewrite (store_bytes_length _ _ _ _ Hst).
  - eapply store_bytes_Forall; [done..|]. by apply Forall_replicate.
  - intros i Hi. rewrite (store_bytes_lookup _ _ _ _ i Hst) by lia.
    rewrite length_replicate.
    destruct (Z.leb_spec dst i) as [Hd|Hd]; cbn [andb].
    + rewrite (proj2 (Z.ltb_lt _ _)) by lia.
      rewrite lookup_replicate_2 by lia.
      unfold origin. rewrite (proj2 (Z.ltb_ge _ _)) by lia.
      rewrite Hoff. by rewrite Z.mod_1_r, Z.add_0_r.
    + apply Ha. lia.
Qed.

Lemma copy_words_copied (fuel : nat) (m : list Z) (dst dst_end : Z) :
  copied_to dst m → nxt ≤ dst → WORDBYTES ≤ offset → dst < dst_end →
  dst_end + WORDBYTES - 1 ≤ Z.of_nat (length m0) →
  dst_end - dst ≤ Z.of_nat fuel →
  ∃ m' e, Win.copy_words fuel m (dst - offset) dst dst_end = Returned m' ∧
          copied_to e m' ∧ dst_end ≤ e.
Proof.
  revert m dst. induction fuel as [|fuel IH]; intros m dst Hc Hdst Hoff Hlt Hend Hfuel;
    [lia|].
  destruct (copy_word_step m dst Hc Hdst Hoff) as (m1 & Hm1 & Hc1); [lia|].
  cbn [Win.copy_words]. rewrite Hm1. cbn [mem mbind outcome_bind].
  destruct (Z.ltb_spec (dst + WORDBYTES) dst_end) as [Hmore|Hdone].
  - replace (dst - offset + WORDBYTES) with (dst + WORDBYTES - offset) by lia.
    apply IH; [done| unfold WORDBYTES in *; lia ..].
  - exists m1, (dst + WORDBYTES). done.
Qed.

Lemma store_words_copied (fuel : nat) (m : list Z) (dst dst_end b : Z) :
  copied_to dst m → nxt ≤ dst → offset = 1 →
  m0 !! Z.to_nat (nxt - 1) = Some b → dst < dst_end →
  dst_end + WORDBYTES - 1 ≤ Z.of_nat (length m0) →
  dst_end - dst ≤ Z.of_nat fuel →
  ∃ m' e, Win.store_words fuel (repeat_byte b) m dst dst_end = Returned m' ∧
          copied_to e m' ∧ dst_end ≤ e.
Proof.
  revert m dst.
  induction fuel as [|fuel IH]; intros m dst Hc Hdst Hoff Hb Hlt Hend Hfuel; [lia|].
  destruct (store_word_step m dst b Hc Hdst Hoff Hb) as (m1 & Hm1 & Hc1); [lia|].
  cbn [Win.store_words]. rewrite Hm1. cbn [mem mbind outcome_bind].
  destruct (Z.ltb_spec (dst + WORDBYTES) dst_end) as [Hmore|Hdone].
  - apply IH; first [done | unfold WORDBYTES in *; lia].
  - exists m1, (dst + WORDBYTES). done.
Qed.

Lemma copy_bytes_copied (fuel : nat) (m : list Z) (dst dst_end : Z) :
  copied_to dst m → nxt ≤ dst → dst < Z.of_nat (length m0) →
  dst_end ≤ Z.of_nat (length m0) →
  dst_end - dst ≤ Z.of_nat fuel → (1 ≤ fuel)%nat →
  ∃ m' e, Win.copy_bytes fuel m (dst - offset) dst dst_end = Returned m' ∧
          copied_to e m' ∧ dst_end ≤ e ∧ dst + 1 ≤ e.
Proof.
  revert m dst.
  induction fuel as [|fuel IH]; intros m dst Hc Hdst Hlen Hend Hfuel H1; [lia|].
  destruct (copy_byte_step m dst Hc Hdst Hlen) as (m1 & Hm1 & Hc1).
  cbn [Win.copy_bytes]. rewrite Hm1. cbn [mbind outcome_bind].
  destruct (Z.ltb_spec (dst + 1) dst_end) as [Hmore|Hdone].
  - replace (dst - offset + 1) with (dst + 1 - offset) by lia.
    destruct (IH m1 (dst + 1)) as (m' & e & ? & ? & ? & ?); [done|lia..|].
    exists m', e. split; [done|]. split; [done|]. lia.
  - exists m1, (dst + 1). split; [done|]. split; [done|]. lia.
Qed.

Lemma copy_bytewise_copied (fuel : nat) (dst_end : Z) :
  nxt + 3 ≤ Z.of_nat (length m0) → dst_end ≤ Z.of_nat (length m0) →
  dst_end - nxt - 2 ≤ Z.of_nat fuel → (1 ≤ fuel)%nat →
  ∃ m' e, Win.copy_bytewise fuel m0 (nxt - offset) nxt dst_end = Returned m' ∧
          copied_to e m' ∧ dst_end ≤ e.
Proof.
  intros Hlen Hend Hfuel H1. unfold Win.copy_bytewise.
  destruct (copy_byte_step m0 nxt copied_to_start) as (m1 & Hm1 & Hc1); [lia..|].
  rewrite Hm1. cbn [mbind outcome_bind].
  destruct (copy_byte_step m1 (nxt + 1) Hc1) as (m2 & Hm2 & Hc2); [lia..|].
  replace (nxt - offset + 1) with (nxt + 1 - offset) by lia.
  rewrite Hm2. cbn [mbind outcome_bind].
  replace (nxt - offset + 2) with (nxt + 2 - offset) by lia.
  replace (nxt + 1 + 1) with (nxt + 2) in Hc2 by lia.
  destruct (copy_bytes_copied fuel m2 (nxt + 2) dst_end Hc2)
    as (m3 & e & Hm3 & Hc3 & He & _); [lia..|].
  exists m3, e. done.
Qed.

End copy_match.

Lemma copied_to_take (m0 : list Z) (nxt offset e e1 e2 : Z) (m1 m2 : list Z) :
  copied_to m0 nxt offset e1 m1 → copied_to m0 nxt offset e2 m2 →
  0 ≤ e → e ≤ e1 → e ≤ e2 →
  take (Z.to_nat e) m1 = take (Z.to_nat e) m2.
Proof.
  intros [_ _ H1] [_ _ H2] He He1 He2. apply list_eq. intros i.
  destruct (decide (i < Z.to_nat e)%nat) as [Hi|Hi].
  - rewrite !lookup_take_lt by done.
    specialize (H1 (Z.of_nat i) ltac:(lia)). specialize (H2 (Z.of_nat i) ltac:(lia)).
    rewrite Nat2Z.id in H1, H2. congruence.
  - rewrite !lookup_take_ge by lia. done.
Qed.

(** The buffer that [copy_match] leaves, on every path. *)
Lemma copy_match_buffer (w : DeflateWindow) (len offset : Z) :
  window_ok w → 1 ≤ offset ≤ next w → 1 ≤ len →
  len ≤ buffer_end w - next w → 3 ≤ buffer_end w - next w →
  ∃ w' e, Win.copy_match w len offset = Returned w' ∧
          copied_to (buffer w) (next w) offset e (buffer w') ∧
          next w + len ≤ e ∧
          next w' = next w + len ∧ buffer_end w' = buffer_end w ∧
          current_blk w' = current_blk w ∧
          target_mem w' = target_mem w ∧ target w' = target w ∧
          target_end w' = target_end w.
Proof.
  intros Hok Hoff Hlen Havail Hthree. pose proof Hok as [? ? ? ? ? ? ?].
  assert (HWB : WORDBYTES = 8) by reflexivity.
  assert (Hstart := copied_to_start (buffer w) (next w) offset ok_bytes0).
  assert (∃ m' e,
    (if (len <=? 3 * WORDBYTES) && (WORDBYTES <=? offset) &&
        (len + 3 * WORDBYTES <=? buffer_end w - next w)
     then
       m ← mem (copy_word_unaligned (buffer w)
                  (next w - offset + 0 * WORDBYTES) (next w + 0 * WORDBYTES));
       m ← mem (copy_word_unaligned m
                  (next w - offset + 1 * WORDBYTES) (next w + 1 * WORDBYTES));
       mem (copy_word_unaligned m
              (next w - offset + 2 * WORDBYTES) (next w + 2 * WORDBYTES))
     else
       let src := next w - offset in
       let dst := next w in
       let dst_end := dst + len in
       if WORDBYTES - 1 <=? buffer_end w - dst_end then
         if WORDBYTES <=? offset then
           m ← mem (copy_word_unaligned (buffer w) src dst);
           let src := src + WORDBYTES in
           let dst := dst + WORDBYTES in
           if dst <? dst_end then Win.copy_words (S (Z.to_nat len)) m src dst dst_end
           else Returned m
         else if offset =? 1 then
           b ← mem (load_byte (buffer w) (dst - 1));
           Win.store_words (S (Z.to_nat len)) (repeat_byte b) (buffer w) dst dst_end
         else Win.copy_bytewise (S (Z.to_nat len)) (buffer w) src dst dst_end
       else Win.copy_bytewise (S (Z.to_nat len)) (buffer w) src dst dst_end)
    = Returned m' ∧
    copied_to (buffer w) (next w) offset e m' ∧ next w + len ≤ e) as (m' & e & Hm' & Hc & He).
  { destruct ((len <=? 3 * WORDBYTES) && (WORDBYTES <=? offset) &&
              (len + 3 * WORDBYTES <=? buffer_end w - next w)) eqn:Hfast.
    - (* three words *)
      apply andb_prop in Hfast as [Hfast H3]. apply andb_prop in Hfast as [H1 H2].
      apply Z.leb_le in H1, H2, H3.
      replace (next w - offset + 0 * WORDBYTES) with (next w - offset) by lia.
      replace (next w + 0 * WORDBYTES) with (next w) by lia.
      destruct (copy_word_step (buffer w) (next w) offset Hoff
                  (buffer w) (next w) Hstart) as (m1 & Hm1 & Hc1);
        [lia..|].
      rewrite Hm1. cbn [mem mbind outcome_bind].
      replace (next w - offset + 1 * WORDBYTES) with (next w + WORDBYTES - offset) by lia.
      replace (next w + 1 * WORDBYTES) with (next w + WORDBYTES) by lia.
      destruct (copy_word_step (buffer w) (next w) offset Hoff
                  m1 (next w + WORDBYTES) Hc1) as (m2 & Hm2 & Hc2);
        [lia..|].
      rewrite Hm2. cbn [mem mbind outcome_bind].
      replace (next w - offset + 2 * WORDBYTES)
        with (next w + WORDBYTES + WORDBYTES - offset) by lia.
      replace (next w + 2 * WORDBYTES) with (next w + WORDBYTES + WORDBYTES) by lia.
      destruct (copy_word_step (buffer w) (next w) offset Hoff
                  m2 (next w + WORDBYTES + WORDBYTES) Hc2) as (m3 & Hm3 & Hc3);
        [lia..|].
      rewrite Hm3. exists m3, (next w + WORDBYTES + WORDBYTES + WORDBYTES).
      split; [done|]. split; [done|]. lia.
    - cbv zeta.
      destruct (Z.leb_spec (WORDBYTES - 1) (buffer_end w - (next w + len))) as [Hroom|Hroom].
      + destruct (Z.leb_spec WORDBYTES offset) as [Hword|Hword].
        * (* word by word *)
          destruct (copy_word_step (buffer w) (next w) offset Hoff
                      (buffer w) (next w) Hstart) as (m1 & Hm1 & Hc1);
            [lia..|].
          rewrite Hm1. cbn [mem mbind outcome_bind].
          destruct (Z.ltb_spec (next w + WORDBYTES) (next w + len)) as [Hmore|Hdone].
          -- replace (next w - offset + WORDBYTES)
               with (next w + WORDBYTES - offset) by lia.
             apply (copy_words_copied (buffer w) (next w) offset); try done; lia.
          -- exists m1, (next w + WORDBYTES). done.
        * destruct (Z.eqb_spec offset 1) as [Hone|Hone].
          -- (* broadcast *)
             destruct (lookup_lt_is_Some_2 (buffer w) (Z.to_nat (next w - 1)))
               as [b Hb]; [lia|].
             unfold load_byte, rd. rewrite decide_True by lia. rewrite Hb.
             cbn [mem mbind outcome_bind].
             apply (store_words_copied (buffer w) (next w) offset); try done; lia.
          -- (* byte by byte *)
             apply (copy_bytewise_copied (buffer w) (next w) offset); try done; lia.
      + (* byte by byte, near the end of the buffer *)
        apply (copy_bytewise_copied (buffer w) (next w) offset); try done; lia. }
  eexists _, e. split.
  { unfold Win.copy_match. rewrite (size_ok w Hok), (available_ok w Hok).
    eapply bind_step; [apply assert_true; zbool|]. cbv beta.
    eapply bind_step; [apply assert_true; zbool|]. cbv beta.
    eapply bind_step; [apply assert_true; zbool|]. cbv beta zeta.
    cbv zeta in Hm'. rewrite Hm'. reflexivity. }
  simpl. done.
Qed.

(** Two small windows with three bytes written: of 4 bytes and of 8. *)
Definition window_4_3 : DeflateWindow := MkWindow [] 0 0 0 0 0 0 [1; 2; 3; 0] 4 3.
Definition window_8_3 : DeflateWindow :=
  MkWindow [] 0 0 0 0 0 0 [1; 2; 3; 0; 0; 0; 0; 0] 8 3.

(** C2, as stated, fails for the lengths 1 and 2: the byte-wise path always
    copies three bytes, so with fewer than three bytes of room it writes
    past the end of the buffer.  Here the window has 4 bytes, 3 of them
    written (three [push]es after the constructor), and the match has
    length 1 and offset 2. *)
Lemma copy_match_short_overruns :
  (w0 ← Win.push (Win.make 2 [] 0 0) 1; w1 ← Win.push w0 2; Win.push w1 3)
  = Returned window_4_3 ∧
  1 ≤ 2 ≤ Win.size window_4_3 ∧ 1 ≤ 1 ≤ 258 ∧ 1 ≤ Win.available window_4_3 ∧
  Win.copy_match window_4_3 1 2 = Fault.
Proof. vm_compute. repeat split; congruence. Qed.

(** C2, amended: for a match that fits and leaves the byte-wise path the
    three bytes it always writes (every match of DEFLATE has length 3 or
    more), [copy_match] returns, advances the cursor by [len], and leaves
    below the new cursor exactly what the byte-by-byte copy leaves; this
    covers the three-word path, the word loop, the broadcast and the
    byte-wise paths. *)
Theorem copy_match_is_byte_copy (w : DeflateWindow) (len offset : Z) :
  window_ok w →
  1 ≤ offset ≤ Win.size w → 1 ≤ len → len ≤ Win.available w →
  3 ≤ Win.available w →
  ∃ w', Win.copy_match w len offset = Returned w' ∧
        window_ok w' ∧
        next w' = next w + len ∧
        take (Z.to_nat (next w')) (buffer w')
        = take (Z.to_nat (next w'))
            (byte_copy (Z.to_nat len) (buffer w)
               (Z.to_nat (next w - offset)) (Z.to_nat (next w))).
Proof.
  intros Hok. rewrite (size_ok w Hok), (available_ok w Hok).
  intros Hoff Hlen Havail Hthree. pose proof Hok as [? ? ? ? ? ? ?].
  destruct (copy_match_buffer w len offset Hok Hoff Hlen Havail Hthree)
    as (w' & e & Hrun & Hc & He & Hn & Hbe & Hblk & Htm & Ht & Hte).
  exists w'. split; [done|].
  pose proof Hc as [Hcl Hcb _]. split; [|split; [done|]].
  - constructor; rewrite ?Hn, ?Hbe, ?Hblk, ?Htm, ?Ht, ?Hte, ?Hcl; try done; lia.
  - rewrite Hn.
    pose proof (byte_copy_copied (buffer w) (next w) offset Hoff (Z.to_nat len)
                  (buffer w) (next w)
                  (copied_to_start (buffer w) (next w) offset ok_bytes0)
                  ltac:(lia) ltac:(lia)) as Href.
    rewrite Z2Nat.id in Href by lia.
    eapply copied_to_take; [exact Hc | exact Href | lia..].
Qed.

Lemma copy_match_is_byte_copy_witness :
  ∃ w', Win.copy_match window_8_3 3 2 = Returned w' ∧
        window_ok w' ∧
        next w' = next window_8_3 + 3 ∧
        take (Z.to_nat (next w')) (buffer w')
        = take (Z.to_nat (next w'))
            (byte_copy (Z.to_nat 3) (buffer window_8_3)
               (Z.to_nat (next window_8_3 - 2)) (Z.to_nat (next window_8_3))).
Proof.
  apply (copy_match_is_byte_copy window_8_3 3 2).
  - constructor; simpl; try lia.
    apply (bool_decide_unpack _). vm_compute. exact I.
  - vm_compute. split; discriminate.
  - lia.
  - vm_compute. discriminate.
  - vm_compute. discriminate.
Defined.

(** ** Canonical Huffman codes (RFC 1951, section 3.2.2) *)

(** The number of the first [num_syms] symbols whose codeword length is [l]. *)
Definition count_len (lens : list Z) (num_syms l : Z) : Z :=
  Z.of_nat (length (filter (λ x, x = l) (take (Z.to_nat num_syms) lens))).

(** The codespace the lengths ask for, in units of [2^-max_codeword_len]:
    a codeword of length [l] takes [2^(max_codeword_len - l)]. *)
Definition codespace (lens : list Z) (num_syms max_codeword_len : Z) : Z :=
  foldr (λ l acc, (if l =? 0 then 0 else 2 ^ (max_codeword_len - l)) + acc) 0
    (take (Z.to_nat num_syms) lens).

(** The smallest code of each length: [next_code[bits]] of the RFC, with
    [bl_count[0] = 0]. *)
Fixpoint next_code (bl_count : Z → Z) (bits : nat) : Z :=
  match bits with
  | O => 0
  | S bits' =>
      2 * (next_code bl_count bits'
           + match bits' with
             | O => 0
             | S _ => bl_count (Z.of_nat bits')
             end)
  end.

(** The codeword of a used symbol, as a number of [lens[sym]] bits: the
    codes of one length are consecutive, in the order of the symbols. *)
Definition canonical_code (lens : list Z) (num_syms sym : Z) : Z :=
  let l := default 0 (lens !! Z.to_nat sym) in
  next_code (count_len lens num_syms) (Z.to_nat l) + count_len lens sym l.

(** The low [n] bits of [x] in reverse order. *)
Fixpoint rev_bits (n : nat) (x : Z) : Z :=
  match n with
  | O => 0
  | S n' => (x mod 2) * 2 ^ Z.of_nat n' + rev_bits n' (x / 2)
  end.

(** The bit window [w] (first bit of the stream in bit 0) begins with the
    codeword of [sym], whose length is [l]: Huffman codes are packed most
    significant bit first. *)
Definition decodes_to (lens : list Z) (num_syms : Z) (w sym l : Z) : Prop :=
  0 ≤ sym < num_syms ∧ lens !! Z.to_nat sym = Some l ∧ 0 < l ∧
  rev_bits (Z.to_nat l) (w mod 2 ^ l) = canonical_code lens num_syms sym.

(** The entry the decode loop reaches for the bit window [w]: the main
    entry, or the subtable entry behind a subtable pointer (the index
    arithmetic of [decode_symbol]). *)
Definition reached (t : table) (table_bits : Z) (w : Z) : option Z :=
  entry ← t !! Z.land w (Z.shiftl 1 table_bits - 1);
  if negb (Z.land entry HUFFDEC_SUBTABLE_POINTER =? 0) then
    t !! (Z.land (Z.shiftr entry HUFFDEC_RESULT_SHIFT) 0xFFFF
          + Z.land (Z.shiftr w table_bits)
              (Z.shiftl 1 (Z.land entry HUFFDEC_LENGTH_MASK) - 1))
  else Some entry.

(** * The decode tables *)

(** ** Bit reversal *)

Lemma pow2_pos (a : Z) : 0 ≤ a → 0 < 2 ^ a.
Proof. intros. by apply Z.pow_pos_nonneg. Qed.

Lemma pow2_S (a : Z) : 0 ≤ a → 2 ^ (a + 1) = 2 * 2 ^ a.
Proof. intros. rewrite Z.pow_add_r by lia. lia. Qed.

Lemma pow2_of_nat_S (n : nat) : 2 ^ Z.of_nat (S n) = 2 * 2 ^ Z.of_nat n.
Proof. rewrite Nat2Z.inj_succ, <- Z.add_1_r. apply pow2_S. lia. Qed.

Lemma rev_bits_range (n : nat) (x : Z) : 0 ≤ rev_bits n x < 2 ^ Z.of_nat n.
Proof.
  revert x. induction n as [|n IH]; intros x; [simpl; lia|].
  cbn [rev_bits]. rewrite pow2_of_nat_S.
  pose proof (IH (x / 2)). pose proof (Z.mod_pos_bound x 2 ltac:(lia)).
  pose proof (pow2_pos (Z.of_nat n) ltac:(lia)). nia.
Qed.

(** Zero bits appended to a code do not change its reversal. *)
Lemma rev_bits_shift (k n : nat) (x : Z) :
  rev_bits (k + n) (x * 2 ^ Z.of_nat k) = rev_bits n x.
Proof.
  induction k as [|k IH]; [by rewrite Z.mul_1_r|].
  cbn [Nat.add rev_bits]. rewrite pow2_of_nat_S.
  replace (x * (2 * 2 ^ Z.of_nat k)) with (x * 2 ^ Z.of_nat k * 2) by lia.
  rewrite Z.mod_mul, Z.div_mul by lia. rewrite IH. lia.
Qed.

(** The other recursion: the top bit of the code is the low bit of the
    reversal. *)
Lemma rev_bits_S_top (n : nat) (x : Z) :
  rev_bits (S n) x
  = 2 * rev_bits n (x mod 2 ^ Z.of_nat n) + (x / 2 ^ Z.of_nat n) mod 2.
Proof.
  revert x. induction n as [|n IH]; intros x.
  { cbn [rev_bits]. change (2 ^ Z.of_nat 0) with 1. rewrite Z.div_1_r. lia. }
  change (rev_bits (S (S n)) x)
    with ((x mod 2) * 2 ^ Z.of_nat (S n) + rev_bits (S n) (x / 2)).
  rewrite IH. cbn [rev_bits]. rewrite !pow2_of_nat_S.
  pose proof (pow2_pos (Z.of_nat n) ltac:(lia)) as Hp.
  assert (H1 : (x mod (2 * 2 ^ Z.of_nat n)) mod 2 = x mod 2).
  { apply Z.mod_mod_divide. exists (2 ^ Z.of_nat n). lia. }
  assert (H2 : (x mod (2 * 2 ^ Z.of_nat n)) / 2 = (x / 2) mod 2 ^ Z.of_nat n).
  { rewrite Z.rem_mul_r by lia.
    replace (x mod 2 + 2 * ((x / 2) mod 2 ^ Z.of_nat n))
      with (x mod 2 + ((x / 2) mod 2 ^ Z.of_nat n) * 2) by lia.
    rewrite Z.div_add by lia. rewrite (Z.div_small (x mod 2)); [lia|].
    apply Z.mod_pos_bound. lia. }
  assert (H3 : x / 2 / 2 ^ Z.of_nat n = x / (2 * 2 ^ Z.of_nat n)).
  { rewrite Z.div_div by lia. done. }
  rewrite H1, H2, H3. lia.
Qed.

(** Reversing twice gives the low bits back. *)
Lemma rev_bits_involutive (n : nat) (x : Z) :
  rev_bits n (rev_bits n x) = x mod 2 ^ Z.of_nat n.
Proof.
  revert x. induction n as [|n IH]; intros x; [by rewrite Z.mod_1_r|].
  rewrite rev_bits_S_top. cbn [rev_bits].
  pose proof (rev_bits_range n (x / 2)) as Hr.
  pose proof (Z.mod_pos_bound x 2 ltac:(lia)) as Hx.
  pose proof (pow2_pos (Z.of_nat n) ltac:(lia)) as Hp.
  replace ((x mod 2 * 2 ^ Z.of_nat n + rev_bits n (x / 2)) mod 2 ^ Z.of_nat n)
    with (rev_bits n (x / 2))
    by (rewrite Z.add_comm, Z.mod_add, Z.mod_small; lia).
  replace ((x mod 2 * 2 ^ Z.of_nat n + rev_bits n (x / 2)) / 2 ^ Z.of_nat n)
    with (x mod 2)
    by (rewrite Z.add_comm, Z.div_add, Z.div_small; lia).
  rewrite IH, pow2_of_nat_S, Z.mod_mod by lia.
  rewrite (Z.rem_mul_r x 2 (2 ^ Z.of_nat n)) by lia. lia.
Qed.

Lemma rev_bits_inj (n : nat) (x y : Z) :
  0 ≤ x < 2 ^ Z.of_nat n → 0 ≤ y < 2 ^ Z.of_nat n →
  rev_bits n x = rev_bits n y → x = y.
Proof.
  intros Hx Hy H. apply (f_equal (rev_bits n)) in H.
  rewrite !rev_bits_involutive, !Z.mod_small in H; done.
Qed.

(** The low [t] bits of the reversal are the reversal of the top [t] bits. *)
Lemma rev_bits_low (k t : nat) (x : Z) :
  rev_bits (k + t) x mod 2 ^ Z.of_nat t = rev_bits t (x / 2 ^ Z.of_nat k).
Proof.
  revert x. induction k as [|k IH]; intros x.
  { simpl. rewrite Z.div_1_r. apply Z.mod_small, rev_bits_range. }
  cbn [Nat.add rev_bits]. rewrite Nat2Z.inj_add, Z.pow_add_r by lia.
  rewrite Z.mul_assoc, Z.add_comm, Z.mod_add by (pose proof (pow2_pos (Z.of_nat t)); lia).
  rewrite IH, Z.div_div, <- pow2_of_nat_S; try lia.
  all: try done; apply pow2_pos; lia.
Qed.

(** The bits of the reversal above the low [t] are the reversal of the low
    bits of the code. *)
Lemma rev_bits_high (t k : nat) (x : Z) :
  rev_bits (t + k) x / 2 ^ Z.of_nat t = rev_bits k (x mod 2 ^ Z.of_nat k).
Proof.
  revert x. induction t as [|t IH]; intros x.
  { simpl. rewrite Z.div_1_r. rewrite <- (rev_bits_involutive k x) at 1.
    pose proof (rev_bits_involutive k (rev_bits k x)) as H.
    rewrite Z.mod_small in H by apply rev_bits_range.
    rewrite <- H at 1. by rewrite rev_bits_involutive. }
  change (S t + k)%nat with (S (t + k)). rewrite rev_bits_S_top, pow2_of_nat_S.
  pose proof (pow2_pos (Z.of_nat t) ltac:(lia)) as Hp.
  pose proof (Z.mod_pos_bound (x / 2 ^ Z.of_nat (t + k)) 2 ltac:(lia)) as Hb.
  rewrite <- Z.div_div by lia.
  replace (2 * rev_bits (t + k) (x mod 2 ^ Z.of_nat (t + k))
           + (x / 2 ^ Z.of_nat (t + k)) mod 2)
    with ((x / 2 ^ Z.of_nat (t + k)) mod 2
          + rev_bits (t + k) (x mod 2 ^ Z.of_nat (t + k)) * 2) by lia.
  rewrite (Z.div_add _ _ 2) by lia.
  rewrite (Z.div_small _ 2) by lia. rewrite Z.add_0_l.
  rewrite IH. f_equal.
  apply Z.mod_mod_divide.
  exists (2 ^ Z.of_nat t). rewrite Nat2Z.inj_add, Z.pow_add_r; lia.
Qed.

(** ** Bitwise operations as arithmetic *)

Lemma testbit_small (b k j : Z) : 0 ≤ b < 2 ^ k → k ≤ j → Z.testbit b j = false.
Proof.
  intros Hb Hj. rewrite <- (Z.mod_small b (2 ^ k)) by done.
  apply Z.mod_pow2_bits_high.
  destruct (Z.le_gt_cases 0 k); [lia|]. rewrite Z.pow_neg_r in Hb; lia.
Qed.

Lemma land_shifted_small (a b k : Z) :
  0 ≤ k → 0 ≤ b < 2 ^ k → Z.land (a * 2 ^ k) b = 0.
Proof.
  intros Hk Hb. apply Z.bits_inj'. intros j Hj.
  rewrite Z.land_spec, Z.bits_0.
  destruct (Z.lt_ge_cases j k).
  - by rewrite Z.mul_pow2_bits_low.
  - rewrite (testbit_small b k j) by done. apply andb_false_r.
Qed.

Lemma lor_shifted_small (a b k : Z) :
  0 ≤ k → 0 ≤ b < 2 ^ k → Z.lor (a * 2 ^ k) b = a * 2 ^ k + b.
Proof.
  intros Hk Hb. rewrite <- Z.add_lor_land, land_shifted_small by done. lia.
Qed.

Lemma lor_small_pow2 (a k : Z) : 0 ≤ k → 0 ≤ a < 2 ^ k → Z.lor a (2 ^ k) = a + 2 ^ k.
Proof.
  intros Hk Ha. rewrite Z.lor_comm, <- (Z.mul_1_l (2 ^ k)), lor_shifted_small by done.
  lia.
Qed.

Lemma land_pow2 (x k : Z) :
  0 ≤ k → Z.land x (2 ^ k) = if Z.testbit x k then 2 ^ k else 0.
Proof.
  intros Hk. apply Z.bits_inj'. intros j Hj. rewrite Z.land_spec, Z.pow2_bits_eqb by done.
  destruct (Z.eqb_spec k j) as [->|Hne].
  - destruct (Z.testbit x j) eqn:E; [by rewrite Z.pow2_bits_true | by rewrite Z.bits_0].
  - rewrite andb_false_r. destruct (Z.testbit x k); [|by rewrite Z.bits_0].
    by rewrite Z.pow2_bits_false.
Qed.

Lemma land_pow2_eqb (x k : Z) :
  0 ≤ k → (Z.land x (2 ^ k) =? 0) = negb (Z.testbit x k).
Proof.
  intros Hk. rewrite land_pow2 by done. destruct (Z.testbit x k); [|done].
  simpl. apply Z.eqb_neq. pose proof (pow2_pos k Hk). lia.
Qed.

Lemma land_mask (x k : Z) : 0 ≤ k → Z.land x (2 ^ k - 1) = x mod 2 ^ k.
Proof. intros. rewrite <- Z.land_ones, Z.ones_equiv by done. f_equal. Qed.

(** ** The bit-reversed increment *)

(** The [while] loop stops: the bit runs out after at most [fuel - 1] shifts. *)
Lemma lowest_clear_bit_total (fuel : nat) (cw bit : Z) :
  0 ≤ bit < 2 ^ (Z.of_nat fuel - 1) → ∃ b, lowest_clear_bit fuel cw bit = Some b.
Proof.
  revert bit. induction fuel as [|fuel IH]; intros bit Hbit.
  { rewrite Z.pow_neg_r in Hbit; lia. }
  cbn [lowest_clear_bit]. destruct (Z.land cw bit =? 0) eqn:E; [eauto|].
  destruct fuel as [|fuel].
  { change (2 ^ (Z.of_nat 1 - 1)) with 1 in Hbit. assert (bit = 0) as -> by lia.
    by rewrite Z.land_0_r in E. }
  apply IH. rewrite Z.shiftr_div_pow2 by lia. change (2 ^ 1) with 2.
  replace (Z.of_nat (S (S fuel)) - 1) with (Z.of_nat (S fuel) - 1 + 1) in Hbit by lia.
  rewrite pow2_S in Hbit by lia. split; [apply Z.div_pos; lia|].
  apply Z.div_lt_upper_bound; lia.
Qed.

(** On the reversal of a code [c] that is not all ones, under any bits
    above it, the loop stops at a clear bit [2^k]; keeping the bits below
    it and setting it gives the reversal of [c + 1]. *)
Lemma reversed_increment (n fuel : nat) (c X : Z) :
  0 ≤ c → c + 1 < 2 ^ Z.of_nat n → (n ≤ fuel)%nat →
  ∃ k, 0 ≤ k < Z.of_nat n ∧
       lowest_clear_bit fuel (rev_bits n c + X * 2 ^ Z.of_nat n) (2 ^ (Z.of_nat n - 1))
       = Some (2 ^ k) ∧
       (rev_bits n c + X * 2 ^ Z.of_nat n) mod 2 ^ k + 2 ^ k = rev_bits n (c + 1).
Proof.
  revert fuel c X. induction n as [|n IH]; intros fuel c X Hc Hlt Hfuel.
  { simpl in Hlt. lia. }
  destruct fuel as [|fuel]; [lia|].
  pose proof (pow2_pos (Z.of_nat n) ltac:(lia)) as Hp.
  pose proof (rev_bits_range n (c / 2)) as Hr.
  pose proof (Z.mod_pos_bound c 2 ltac:(lia)) as Hc2.
  rewrite pow2_of_nat_S in *.
  replace (Z.of_nat (S n) - 1) with (Z.of_nat n) by lia.
  cbn [rev_bits lowest_clear_bit].
  rewrite land_pow2_eqb by lia.
  assert (Hbit : Z.testbit (c mod 2 * 2 ^ Z.of_nat n + rev_bits n (c / 2)
                            + X * (2 * 2 ^ Z.of_nat n)) (Z.of_nat n)
                 = (c mod 2 =? 1)).
  { apply (Z.testbit_unique _ _ _ (rev_bits n (c / 2)) X); [done|].
    destruct (Z.eqb_spec (c mod 2) 1) as [->|]; simpl; [lia|].
    replace (c mod 2) with 0 by lia. lia. }
  rewrite Hbit. destruct (Z.eqb_spec (c mod 2) 1) as [Hodd|Heven]; simpl.
  - (* the top bit is set: go on below it *)
    assert (0 < n)%nat as Hn.
    { destruct n; [|lia]. simpl in Hlt.
      pose proof (Z.div_mod c 2 ltac:(lia)). lia. }
    assert (Hhalf : (c + 1) / 2 = c / 2 + 1).
    { pose proof (Z.div_mod c 2 ltac:(lia)).
      replace (c + 1) with (0 + (c / 2 + 1) * 2) by lia.
      rewrite Z.div_add by lia. done. }
    assert (Hmod : (c + 1) mod 2 = 0).
    { pose proof (Z.div_mod c 2 ltac:(lia)).
      replace (c + 1) with (0 + (c / 2 + 1) * 2) by lia.
      by rewrite Z.mod_add by lia. }
    destruct (IH fuel (c / 2) (1 + 2 * X)) as (k & Hk & Hrun & Hval).
    { apply Z.div_pos; lia. }
    { pose proof (Z.div_mod c 2 ltac:(lia)). lia. }
    { lia. }
    exists k. split; [lia|].
    rewrite Z.shiftr_div_pow2 by lia. change (2 ^ 1) with 2.
    replace (2 ^ Z.of_nat n / 2) with (2 ^ (Z.of_nat n - 1)).
    2: { replace (Z.of_nat n) with (Z.of_nat n - 1 + 1) at 2 by lia.
         rewrite pow2_S by lia. rewrite Z.mul_comm, Z.div_mul; lia. }
    rewrite Hodd, Hmod, Hhalf.
    replace (1 * 2 ^ Z.of_nat n + rev_bits n (c / 2) + X * (2 * 2 ^ Z.of_nat n))
      with (rev_bits n (c / 2) + (1 + 2 * X) * 2 ^ Z.of_nat n) by lia.
    split; [done|]. rewrite Hval. lia.
  - (* the top bit is clear *)
    assert (Hc0 : c mod 2 = 0) by lia.
    exists (Z.of_nat n). split; [lia|]. split; [done|].
    rewrite Hc0.
    replace (0 * 2 ^ Z.of_nat n + rev_bits n (c / 2) + X * (2 * 2 ^ Z.of_nat n))
      with (rev_bits n (c / 2) + (2 * X) * 2 ^ Z.of_nat n) by lia.
    rewrite Z.mod_add, Z.mod_small by lia.
    assert (Hhalf : (c + 1) / 2 = c / 2).
    { pose proof (Z.div_mod c 2 ltac:(lia)).
      replace (c + 1) with (1 + (c / 2) * 2) by lia.
      rewrite Z.div_add by lia. done. }
    assert (Hmod : (c + 1) mod 2 = 1).
    { pose proof (Z.div_mod c 2 ltac:(lia)).
      replace (c + 1) with (1 + (c / 2) * 2) by lia.
      by rewrite Z.mod_add by lia. }
    rewrite Hhalf, Hmod. lia.
Qed.

(** ** The codespace of a canonical code *)

(** [f 0 + ... + f (n - 1)] *)
Fixpoint sum_upto (f : Z → Z) (n : nat) : Z :=
  match n with
  | O => 0
  | S n' => sum_upto f n' + f (Z.of_nat n')
  end.

Lemma sum_upto_nonneg (f : Z → Z) (n : nat) :
  (∀ j, 0 ≤ f j) → 0 ≤ sum_upto f n.
Proof. intros Hf. induction n; simpl; [lia|]. specialize (Hf (Z.of_nat n)). lia. Qed.

Lemma sum_upto_mono (f : Z → Z) (n m : nat) :
  (∀ j, 0 ≤ f j) → (n ≤ m)%nat → sum_upto f n ≤ sum_upto f m.
Proof.
  intros Hf. induction 1 as [|m _ IH]; [lia|]. simpl. specialize (Hf (Z.of_nat m)). lia.
Qed.

Lemma sum_upto_ext (f g : Z → Z) (n : nat) :
  (∀ j, 0 ≤ j < Z.of_nat n → f j = g j) → sum_upto f n = sum_upto g n.
Proof.
  induction n as [|n IH]; intros H; [done|]. simpl.
  rewrite IH by (intros; apply H; lia). rewrite H by lia. done.
Qed.

Section codespace.

(** [cnt l] codewords of length [l]; the codespace is counted in units of
    [2^-K], so that a codeword of length [l] takes [2^(K - l)]. *)
Variables (cnt : Z → Z) (M K : Z).
Hypothesis cnt_nonneg : ∀ l, 0 ≤ cnt l.
Hypothesis HMK : 1 ≤ M ≤ K.

Definition weight (l : Z) : Z := if l =? 0 then 0 else cnt l * 2 ^ (K - l).

(** The codespace taken by the codewords shorter than [l]. *)
Definition space (l : Z) : Z := sum_upto weight (Z.to_nat l).

(** The number of symbols of a length below [l], unused ones included. *)
Definition base (l : Z) : Z := sum_upto cnt (Z.to_nat l).

(** Where the [i]-th codeword of length [l] begins, and its code. *)
Definition pos (l i : Z) : Z := space l + i * 2 ^ (K - l).
Definition code (l i : Z) : Z := next_code cnt (Z.to_nat l) + i.

Lemma weight_nonneg (l : Z) : 0 ≤ weight l.
Proof.
  unfold weight. destruct (l =? 0); [lia|]. specialize (cnt_nonneg l).
  pose proof (Z.pow_nonneg 2 (K - l)). nia.
Qed.

Lemma space_succ (l : Z) : 1 ≤ l → space (l + 1) = space l + cnt l * 2 ^ (K - l).
Proof.
  intros Hl. unfold space. replace (Z.to_nat (l + 1)) with (S (Z.to_nat l)) by lia.
  simpl. rewrite Z2Nat.id by lia. unfold weight at 2.
  by rewrite (proj2 (Z.eqb_neq l 0)) by lia.
Qed.

Lemma space_1 : space 1 = 0.
Proof. reflexivity. Qed.

Lemma space_mono (l l' : Z) : l ≤ l' → space l ≤ space l'.
Proof. intros. apply sum_upto_mono; [apply weight_nonneg | lia]. Qed.

Lemma space_nonneg (l : Z) : 0 ≤ space l.
Proof. apply sum_upto_nonneg, weight_nonneg. Qed.

Lemma base_succ (l : Z) : 0 ≤ l → base (l + 1) = base l + cnt l.
Proof.
  intros Hl. unfold base. replace (Z.to_nat (l + 1)) with (S (Z.to_nat l)) by lia.
  simpl. by rewrite Z2Nat.id by lia.
Qed.

Lemma base_mono (l l' : Z) : l ≤ l' → base l ≤ base l'.
Proof. intros. apply sum_upto_mono; [done | lia]. Qed.

Lemma base_nonneg (l : Z) : 0 ≤ base l.
Proof. by apply sum_upto_nonneg. Qed.

(** The first code of a length, placed in the codespace. *)
Lemma next_code_space (l : nat) :
  Z.of_nat l ≤ K → next_code cnt l * 2 ^ (K - Z.of_nat l) = space (Z.of_nat l).
Proof.
  unfold space. rewrite Nat2Z.id. induction l as [|l IH]; intros Hl; [done|].
  cbn [next_code sum_upto].
  replace (K - Z.of_nat l) with (K - Z.of_nat (S l) + 1) in IH by lia.
  rewrite pow2_S in IH by lia. rewrite <- IH by lia.
  destruct l as [|l].
  - simpl. unfold weight. simpl. lia.
  - unfold weight. rewrite (proj2 (Z.eqb_neq _ 0)) by lia.
    replace (K - Z.of_nat (S l)) with (K - Z.of_nat (S (S l)) + 1) by lia.
    rewrite pow2_S by lia. lia.
Qed.

Lemma pos_code (l i : Z) : 0 ≤ l ≤ K → pos l i = code l i * 2 ^ (K - l).
Proof.
  intros Hl. unfold pos, code.
  pose proof (next_code_space (Z.to_nat l)) as H. rewrite Z2Nat.id in H by lia.
  rewrite <- H by lia. lia.
Qed.

(** A codeword [(l, i)]: the [i]-th of the [cnt l] codewords of length [l]. *)
Definition codeword (l i : Z) : Prop := 1 ≤ l ≤ M ∧ 0 ≤ i < cnt l.

Lemma pos_end (l i : Z) :
  codeword l i → pos l i + 2 ^ (K - l) ≤ space (l + 1).
Proof.
  intros [Hl Hi]. rewrite space_succ by lia. unfold pos.
  pose proof (pow2_pos (K - l) ltac:(lia)). nia.
Qed.

Lemma pos_start (l i : Z) : 0 ≤ i → space l ≤ pos l i.
Proof. intros. unfold pos. pose proof (Z.pow_nonneg 2 (K - l)). nia. Qed.

Lemma pos_lt_total (l i : Z) :
  codeword l i → pos l i + 2 ^ (K - l) ≤ space (M + 1).
Proof.
  intros Hc. pose proof (pos_end l i Hc). destruct Hc as [Hl Hi].
  pose proof (space_mono (l + 1) (M + 1)). lia.
Qed.

(** Codewords come in the order of their positions, without overlap. *)
Lemma pos_order (l i l' i' : Z) :
  codeword l i → codeword l' i' → pos l' i' < pos l i + 2 ^ (K - l) →
  (l' = l ∧ i' = i) ∨ pos l' i' + 2 ^ (K - l') ≤ pos l i.
Proof.
  intros Hc Hc' Hlt. pose proof (pos_end l i Hc). pose proof (pos_end l' i' Hc').
  destruct Hc as [Hl Hi], Hc' as [Hl' Hi'].
  destruct (Z.lt_trichotomy l' l) as [Hl1|[->|Hl1]].
  - right. pose proof (space_mono (l' + 1) l). pose proof (pos_start l i). lia.
  - destruct (Z.lt_trichotomy i' i) as [Hi1|[->|Hi1]].
    + right. unfold pos. pose proof (pow2_pos (K - l) ltac:(lia)). nia.
    + by left.
    + exfalso. unfold pos in Hlt. pose proof (pow2_pos (K - l) ltac:(lia)). nia.
  - exfalso. pose proof (space_mono (l + 1) l'). pose proof (pos_start l' i'). lia.
Qed.

(** In a code that does not over-subscribe the codespace, a code has as
    many bits as its length. *)
Lemma code_range (l i : Z) :
  space (M + 1) ≤ 2 ^ K → codeword l i → 0 ≤ code l i ∧ code l i + 1 ≤ 2 ^ l.
Proof.
  intros Htot Hc. pose proof (pos_lt_total l i Hc) as Hend.
  pose proof (pos_start l i) as Hstart. pose proof (space_nonneg l).
  destruct Hc as [Hl Hi]. rewrite pos_code in * by lia.
  pose proof (pow2_pos (K - l) ltac:(lia)) as Hp.
  assert (HK : 2 ^ K = 2 ^ l * 2 ^ (K - l)).
  { rewrite <- Z.pow_add_r by lia. f_equal. lia. }
  split; nia.
Qed.

End codespace.

(** ** Counting the lengths *)

Lemma count_len_0 (lens : list Z) (l : Z) : count_len lens 0 l = 0.
Proof. reflexivity. Qed.

Lemma count_len_succ (lens : list Z) (t l x : Z) :
  0 ≤ t → lens !! Z.to_nat t = Some x →
  count_len lens (t + 1) l = count_len lens t l + (if x =? l then 1 else 0).
Proof.
  intros Ht Hx. unfold count_len.
  replace (Z.to_nat (t + 1)) with (S (Z.to_nat t)) by lia.
  rewrite (take_S_r _ _ _ Hx), filter_app, length_app, Nat2Z.inj_add. f_equal.
  rewrite filter_cons, filter_nil.
  destruct (Z.eqb_spec x l) as [->|Hne].
  - by rewrite decide_True.
  - by rewrite decide_False.
Qed.

Lemma count_len_nonneg (lens : list Z) (t l : Z) : 0 ≤ count_len lens t l.
Proof. unfold count_len. lia. Qed.

Lemma count_len_mono (lens : list Z) (t t' l : Z) :
  t ≤ t' → count_len lens t l ≤ count_len lens t' l.
Proof.
  intros Ht. unfold count_len.
  replace (Z.to_nat t') with (Z.to_nat t + (Z.to_nat t' - Z.to_nat t))%nat by lia.
  rewrite <- take_take_drop, filter_app, length_app. lia.
Qed.

Lemma count_len_le (lens : list Z) (t l : Z) : 0 ≤ t → count_len lens t l ≤ t.
Proof.
  intros. unfold count_len.
  pose proof (length_filter (λ x, x = l) (take (Z.to_nat t) lens)) as H1.
  rewrite length_take in H1. lia.
Qed.

(** A symbol counts among the symbols of its length after it. *)
Lemma count_len_lt (lens : list Z) (s t l : Z) :
  0 ≤ s < t → lens !! Z.to_nat s = Some l →
  count_len lens s l < count_len lens t l.
Proof.
  intros Hs Hl. pose proof (count_len_mono lens (s + 1) t l ltac:(lia)).
  rewrite (count_len_succ lens s l l) in * by (done || lia).
  rewrite Z.eqb_refl in *. lia.
Qed.

(** Every rank below the count of a length belongs to a symbol. *)
Lemma count_len_witness (lens : list Z) (n : nat) (l i : Z) :
  (n ≤ length lens)%nat → 0 ≤ i < count_len lens (Z.of_nat n) l →
  ∃ s, 0 ≤ s < Z.of_nat n ∧ lens !! Z.to_nat s = Some l ∧ count_len lens s l = i.
Proof.
  induction n as [|n IH]; intros Hn Hi.
  { rewrite count_len_0 in Hi. lia. }
  destruct (lookup_lt_is_Some_2 lens n ltac:(lia)) as [x Hx].
  rewrite Nat2Z.inj_succ, <- Z.add_1_r in Hi.
  rewrite (count_len_succ lens (Z.of_nat n) l x) in Hi by (rewrite ?Nat2Z.id; done || lia).
  destruct (decide (i < count_len lens (Z.of_nat n) l)) as [Hlt|Hge].
  - destruct (IH ltac:(lia) ltac:(lia)) as (s & Hs & Hl & Hr).
    exists s. split; [lia | done].
  - destruct (Z.eqb_spec x l) as [Heq|Hne]; [subst x|lia].
    exists (Z.of_nat n). rewrite Nat2Z.id. split; [lia|]. split; [done | lia].
Qed.

(** The lengths of the first [n] symbols lie in [0, M]. *)
Definition lens_ok (lens : list Z) (n M : Z) : Prop :=
  n ≤ Z.of_nat (length lens) ∧
  ∀ s x, 0 ≤ s < n → lens !! Z.to_nat s = Some x → 0 ≤ x ≤ M.

Lemma lens_ok_lookup (lens : list Z) (n M s : Z) :
  lens_ok lens n M → 0 ≤ s < n → ∃ x, lens !! Z.to_nat s = Some x ∧ 0 ≤ x ≤ M.
Proof.
  intros [Hn Hr] Hs. destruct (lookup_lt_is_Some_2 lens (Z.to_nat s) ltac:(lia)) as [x Hx].
  exists x. split; [done|]. by eapply Hr.
Qed.

Lemma sum_upto_indicator (f : Z → Z) (x : Z) (m : nat) :
  sum_upto (λ j, f j + (if x =? j then 1 else 0)) m
  = sum_upto f m + (if (0 <=? x) && (x <? Z.of_nat m) then 1 else 0).
Proof.
  induction m as [|m IH]; simpl.
  { destruct (Z.leb_spec 0 x), (Z.ltb_spec x (Z.of_nat 0)); simpl; lia. }
  rewrite IH.
  destruct (Z.eqb_spec x (Z.of_nat m)) as [->|Hne].
  - rewrite (proj2 (Z.leb_le 0 _)) by lia.
    rewrite (proj2 (Z.ltb_ge _ _)) by lia. rewrite (proj2 (Z.ltb_lt _ _)) by lia.
    simpl. lia.
  - destruct (Z.leb_spec 0 x); simpl; [|lia].
    destruct (Z.ltb_spec x (Z.of_nat m)), (Z.ltb_spec x (Z.of_nat (S m))); lia.
Qed.

(** All the symbols have a length in [0, M]: the counts add up to [n]. *)
Lemma base_total (lens : list Z) (n M : Z) :
  0 ≤ n → 0 ≤ M → lens_ok lens n M → base (count_len lens n) (M + 1) = n.
Proof.
  intros Hn HM Hok. unfold base.
  rewrite <- (Z2Nat.id n Hn) in Hok |- *. induction (Z.to_nat n) as [|t IH].
  { clear. induction (Z.to_nat (M + 1)) as [|m IHm]; [done|]. simpl. rewrite IHm. done. }
  assert (Hok' : lens_ok lens (Z.of_nat t) M).
  { destruct Hok as [H1 H2]. split; [lia|]. intros s x Hs. apply H2. lia. }
  destruct (lens_ok_lookup lens _ M (Z.of_nat t) Hok ltac:(lia)) as (x & Hx & Hxr).
  rewrite Nat2Z.inj_succ, <- Z.add_1_r.
  rewrite (sum_upto_ext _ (λ j, count_len lens (Z.of_nat t) j + (if x =? j then 1 else 0))).
  2: { intros j _. apply count_len_succ; [lia | done]. }
  rewrite sum_upto_indicator, (IH Hok').
  rewrite (proj2 (Z.leb_le 0 x)) by lia. rewrite (proj2 (Z.ltb_lt _ _)) by lia. done.
Qed.

Lemma rd_lookup (a : list Z) (i : Z) : rd a i = a !! Z.to_nat i.
Proof. reflexivity. Qed.

Lemma wr_Some (a : list Z) (i v : Z) :
  0 ≤ i < Z.of_nat (length a) → wr a i v = Some (<[Z.to_nat i := v]> a).
Proof. intros. unfold wr. rewrite decide_True; [done | lia]. Qed.

(** ** The arrays that [build_decode_table] prepares *)

Section arrays.

Variables (lens : list Z) (n M : Z).
Hypothesis Hok : lens_ok lens n M.
Hypothesis Hn : 0 ≤ n < 2 ^ 16.
Hypothesis HM : 1 ≤ M ≤ 15.

Abbreviation cnt := (count_len lens n).

Lemma cnt_base_le (l : Z) : 0 ≤ l ≤ M → base cnt l + cnt l ≤ n.
Proof.
  intros Hl. rewrite <- base_succ by lia.
  rewrite <- (base_total lens n M) at 2 by (done || lia).
  apply base_mono; [apply count_len_nonneg | lia].
Qed.

(** [len_counts] after the symbols below [t] are counted. *)
Definition counted (t : Z) (lc : list Z) : Prop :=
  length lc = Z.to_nat (M + 1) ∧
  ∀ l, 0 ≤ l ≤ M → lc !! Z.to_nat l = Some (count_len lens t l).

Lemma count_lens_spec (k : nat) (t : Z) (lc : list Z) :
  0 ≤ t → t + Z.of_nat k ≤ n → counted t lc →
  ∃ lc', count_lens lens k t lc = Some lc' ∧ counted (t + Z.of_nat k) lc'.
Proof.
  revert t lc. induction k as [|k IH]; intros t lc Ht Hk [Hlen Hlc].
  { exists lc. by rewrite Z.add_0_r. }
  destruct (lens_ok_lookup lens n M t Hok ltac:(lia)) as (x & Hx & Hxr).
  cbn [count_lens]. rewrite rd_lookup, Hx. cbn [mbind option_bind].
  rewrite rd_lookup, (Hlc x Hxr). cbn [mbind option_bind].
  pose proof (count_len_nonneg lens t x). pose proof (count_len_le lens t x Ht).
  rewrite wr_Some by lia. cbn [mbind option_bind].
  rewrite u16_small by lia.
  replace (t + Z.of_nat (S k)) with (t + 1 + Z.of_nat k) by lia.
  apply IH; [lia..|]. split; [by rewrite length_insert|].
  intros l Hl. rewrite (count_len_succ lens t l x Ht Hx).
  destruct (Z.eqb_spec x l) as [->|Hne].
  - rewrite list_lookup_insert_eq by lia. done.
  - rewrite list_lookup_insert_ne by lia. rewrite Hlc by done. f_equal. lia.
Qed.

Lemma counted_start : counted 0 (replicate (Z.to_nat (M + 1)) 0).
Proof.
  split; [by rewrite length_replicate|]. intros l Hl.
  rewrite lookup_replicate_2 by lia. done.
Qed.

(** [offsets] after [init_offsets]: the number of symbols of a smaller
    length. *)
Lemma init_offsets_spec (lc : list Z) (k : nat) (len : Z) (offs : list Z) :
  counted n lc → 0 ≤ len → len + Z.of_nat k = M →
  length offs = Z.to_nat (M + 1) →
  (∀ l, 0 ≤ l ≤ len → offs !! Z.to_nat l = Some (base cnt l)) →
  ∃ offs', init_offsets lc k len offs = Some offs' ∧
           length offs' = Z.to_nat (M + 1) ∧
           ∀ l, 0 ≤ l ≤ M → offs' !! Z.to_nat l = Some (base cnt l).
Proof.
  intros [Hlcl Hlc]. revert len offs.
  induction k as [|k IH]; intros len offs Hlen Hk Hol Ho.
  { exists offs. split; [done|]. split; [done|]. intros l Hl. apply Ho. lia. }
  cbn [init_offsets]. unfold rd. rewrite (Ho len) by lia. cbn [mbind option_bind].
  rewrite (Hlc len) by lia. cbn [mbind option_bind].
  rewrite wr_Some by lia. cbn [mbind option_bind].
  pose proof (cnt_base_le len ltac:(lia)).
  pose proof (base_nonneg cnt (count_len_nonneg lens n) len).
  pose proof (count_len_nonneg lens n len).
  rewrite u16_small by lia.
  apply IH; [lia..|by rewrite length_insert|].
  intros l Hl. destruct (decide (l = len + 1)) as [->|Hne].
  - rewrite list_lookup_insert_eq by lia. by rewrite base_succ by lia.
  - rewrite list_lookup_insert_ne by lia. apply Ho. lia.
Qed.

(** [offsets] and [sorted_syms] after the symbols below [t] are placed:
    each symbol sits behind the symbols of a smaller length and the
    earlier symbols of its own length. *)
Definition placed (t : Z) (offs sorted : list Z) : Prop :=
  length offs = Z.to_nat (M + 1) ∧
  Z.of_nat (length sorted) = n ∧
  (∀ l, 0 ≤ l ≤ M → offs !! Z.to_nat l = Some (base cnt l + count_len lens t l)) ∧
  (∀ s x, 0 ≤ s < t → lens !! Z.to_nat s = Some x →
          sorted !! Z.to_nat (base cnt x + count_len lens s x) = Some s).

Lemma sort_syms_spec (k : nat) (t : Z) (offs sorted : list Z) :
  0 ≤ t → t + Z.of_nat k ≤ n → placed t offs sorted →
  ∃ offs' sorted', sort_syms lens k t offs sorted = Some (offs', sorted') ∧
                   placed (t + Z.of_nat k) offs' sorted'.
Proof.
  revert t offs sorted.
  induction k as [|k IH]; intros t offs sorted Ht Hk (Hol & Hsl & Ho & Hs).
  { exists offs, sorted. by rewrite Z.add_0_r. }
  destruct (lens_ok_lookup lens n M t Hok ltac:(lia)) as (x & Hx & Hxr).
  cbn [sort_syms]. rewrite rd_lookup, Hx. cbn [mbind option_bind].
  rewrite rd_lookup, (Ho x Hxr). cbn [mbind option_bind].
  pose proof (count_len_nonneg lens t x) as Hc0.
  pose proof (count_len_lt lens t n x ltac:(lia) Hx) as Hclt.
  pose proof (cnt_base_le x Hxr) as Hbx.
  pose proof (base_nonneg cnt (count_len_nonneg lens n) x) as Hb0.
  rewrite wr_Some by lia. cbn [mbind option_bind].
  rewrite wr_Some by lia. cbn [mbind option_bind].
  rewrite !u16_small by lia.
  replace (t + Z.of_nat (S k)) with (t + 1 + Z.of_nat k) by lia.
  apply IH; [lia..|]. split; [by rewrite length_insert|].
  split; [by rewrite length_insert|]. split.
  - intros l Hl. rewrite (count_len_succ lens t l x Ht Hx).
    destruct (Z.eqb_spec x l) as [->|Hne].
    + rewrite list_lookup_insert_eq by lia. f_equal. lia.
    + rewrite list_lookup_insert_ne by lia. rewrite Ho by done. f_equal. lia.
  - intros s y Hs' Hy. destruct (decide (s = t)) as [->|Hst].
    + assert (y = x) as -> by congruence.
      rewrite list_lookup_insert_eq by lia. done.
    + rewrite list_lookup_insert_ne; [apply Hs; [lia | done]|].
      destruct (lens_ok_lookup lens n M s Hok ltac:(lia)) as (y' & Hy' & Hyr).
      assert (y' = y) as -> by congruence.
      pose proof (count_len_nonneg lens s y) as Hsy0.
      pose proof (count_len_lt lens s t y ltac:(lia) Hy) as Hsy.
      pose proof (count_len_mono lens t n y ltac:(lia)) as Hty.
      pose proof (cnt_base_le y Hyr) as Hby.
      pose proof (base_nonneg cnt (count_len_nonneg lens n) y) as Hby0.
      destruct (Z.lt_trichotomy y x) as [Hlt|[->|Hgt]]; [|lia|].
      * pose proof (base_mono cnt (count_len_nonneg lens n) (y + 1) x ltac:(lia)).
        rewrite base_succ in * by lia. lia.
      * pose proof (base_mono cnt (count_len_nonneg lens n) (x + 1) y ltac:(lia)).
        rewrite base_succ in * by lia. lia.
Qed.

Lemma placed_start (offs : list Z) :
  length offs = Z.to_nat (M + 1) →
  (∀ l, 0 ≤ l ≤ M → offs !! Z.to_nat l = Some (base cnt l)) →
  placed 0 offs (replicate (Z.to_nat n) 0).
Proof.
  intros Hl Ho. split; [done|]. split; [rewrite length_replicate; lia|].
  split; [|intros; lia]. intros l Hlr. rewrite count_len_0, Z.add_0_r. by apply Ho.
Qed.

(** The codespace scan: it stops early, or leaves what is free of the
    codespace, in units of [2^-M]. *)
Lemma check_codespace_spec (lc : list Z) (k : nat) (len rem : Z) :
  counted n lc → 1 ≤ len → len + Z.of_nat k = M + 1 → 0 ≤ rem →
  rem * 2 ^ (M - len + 1) = 2 ^ M - space cnt M len →
  (check_codespace lc k len rem = Some None ∧ 2 ^ M < space cnt M (M + 1)) ∨
  (∃ r, check_codespace lc k len rem = Some (Some r) ∧
        r = 2 ^ M - space cnt M (M + 1) ∧ 0 ≤ r).
Proof.
  intros [Hlcl Hlc]. revert len rem.
  induction k as [|k IH]; intros len rem Hlen Hk Hrem Heq.
  { right. exists rem. replace len with (M + 1) in * by lia.
    replace (M - (M + 1) + 1) with 0 in Heq by lia. simpl in *. split; [done|]. lia. }
  cbn [check_codespace]. unfold rd. rewrite (Hlc len) by lia. cbn [mbind option_bind].
  pose proof (count_len_nonneg lens n len) as Hc0.
  pose proof (count_len_le lens n len ltac:(lia)) as Hcn.
  pose proof (space_nonneg cnt M (count_len_nonneg lens n) len) as Hs0.
  pose proof (pow2_pos (M - len) ltac:(lia)) as Hp.
  assert (Hp1 : 2 ^ (M - len + 1) = 2 * 2 ^ (M - len)) by (apply pow2_S; lia).
  assert (HM2 : 2 ^ M = 2 ^ (len - 1) * 2 ^ (M - len + 1)).
  { rewrite <- Z.pow_add_r by lia. f_equal. lia. }
  assert (Hl14 : 2 ^ (len - 1) ≤ 2 ^ 14) by (apply Z.pow_le_mono_r; lia).
  assert (Hrem' : rem ≤ 2 ^ (len - 1)) by nia.
  rewrite Z.shiftl_mul_pow2 by lia. change (2 ^ 1) with 2.
  rewrite (s32_small (rem * 2)) by lia. rewrite s32_small by lia.
  assert (Hnext : (rem * 2 - cnt len) * 2 ^ (M - (len + 1) + 1)
                  = 2 ^ M - space cnt M (len + 1)).
  { rewrite space_succ by lia. replace (M - (len + 1) + 1) with (M - len) by lia. nia. }
  destruct (Z.ltb_spec (rem * 2 - cnt len) 0) as [Hneg|Hpos].
  - left. split; [done|].
    pose proof (space_mono cnt M (count_len_nonneg lens n) (len + 1) (M + 1) ltac:(lia)).
    replace (M - (len + 1) + 1) with (M - len) in Hnext by lia. nia.
  - apply IH; [lia..|done].
Qed.

Lemma fill_default_spec (k : nat) (sym entry : Z) (t : table) (x : Z) :
  fill_default k sym entry t !! x
  = if (sym <=? x) && (x <? sym + Z.of_nat k) then Some entry else t !! x.
Proof.
  revert sym t. induction k as [|k IH]; intros sym t; cbn [fill_default].
  { destruct (Z.leb_spec sym x), (Z.ltb_spec x (sym + Z.of_nat 0)); simpl; done || lia. }
  rewrite IH. destruct (decide (x = sym)) as [->|Hne].
  - rewrite lookup_insert_eq.
    destruct (Z.leb_spec (sym + 1) sym), (Z.leb_spec sym sym),
      (Z.ltb_spec sym (sym + Z.of_nat (S k))); simpl; done || lia.
  - rewrite lookup_insert_ne by done.
    destruct (Z.leb_spec (sym + 1) x), (Z.leb_spec sym x),
      (Z.ltb_spec x (sym + 1 + Z.of_nat k)),
      (Z.ltb_spec x (sym + Z.of_nat (S k))); simpl; done || lia.
Qed.

End arrays.

(** ** The loops of the table-filling step *)

Lemma skip_empty_lens_spec (lc : list Z) (fuel : nat) (cl top : Z) :
  0 ≤ cl ≤ top → top < 2 ^ 31 → top - cl < Z.of_nat fuel →
  (∀ l, cl ≤ l ≤ top → ∃ c, lc !! Z.to_nat l = Some c) →
  (∃ c, lc !! Z.to_nat top = Some c ∧ c ≠ 0) →
  ∃ l' c', skip_empty_lens fuel lc cl = Some l' ∧ cl ≤ l' ≤ top ∧
           lc !! Z.to_nat l' = Some c' ∧ c' ≠ 0 ∧
           ∀ l, cl ≤ l < l' → lc !! Z.to_nat l = Some 0.
Proof.
  revert cl. induction fuel as [|fuel IH]; intros cl Hcl Htop Hfuel Hall Hlast; [lia|].
  cbn [skip_empty_lens]. unfold rd.
  destruct (Hall cl ltac:(lia)) as [c Hc]. rewrite Hc. cbn [mbind option_bind].
  destruct (Z.eqb_spec c 0) as [->|Hne].
  - assert (cl < top).
    { destruct Hlast as (c' & Hc' & Hne'). destruct (decide (cl = top)) as [->|]; [|lia].
      congruence. }
    rewrite u32_small by lia.
    destruct (IH (cl + 1)) as (l' & c' & Hrun & Hl' & Hc' & Hne' & Hz); [lia..| |done|].
    { intros l Hl. apply Hall. lia. }
    exists l', c'. split; [done|]. split; [lia|]. split; [done|]. split; [done|].
    intros l Hl. destruct (decide (l = cl)) as [->|]; [done|]. apply Hz. lia.
  - exists cl, c. split; [done|]. split; [lia|]. split; [done|]. split; [done|].
    intros l Hl. lia.
Qed.

Lemma fill_entries_spec (fuel : nat) (t : table) (i end_ inc entry : Z) :
  0 ≤ i → 0 < inc → end_ + inc < 2 ^ 32 → end_ - i ≤ Z.of_nat fuel →
  ∃ t', fill_entries fuel t i end_ inc entry = Some t' ∧
        (∀ x, i ≤ x < end_ → (x - i) mod inc = 0 → t' !! x = Some entry) ∧
        (∀ x, ¬ (i ≤ x < end_ ∧ (x - i) mod inc = 0) → t' !! x = t !! x).
Proof.
  revert t i. induction fuel as [|fuel IH]; intros t i Hi Hinc Hend Hfuel.
  { exists t. cbn [fill_entries]. rewrite (proj2 (Z.ltb_ge _ _)) by lia.
    split; [done|]. split; [lia | done]. }
  cbn [fill_entries]. destruct (Z.ltb_spec i end_) as [Hlt|Hge].
  2: { exists t. split; [done|]. split; [lia | done]. }
  rewrite u32_small by lia.
  destruct (IH (<[i := entry]> t) (i + inc)) as (t' & Hrun & Hin & Hout); [lia..|].
  exists t'. split; [done|]. split.
  - intros x Hx Hmod. destruct (decide (x = i)) as [->|Hne].
    + rewrite Hout by lia. apply lookup_insert_eq.
    + assert (inc ≤ x - i).
      { assert (Hd : (inc | x - i)) by (apply Z.mod_divide; [lia | done]).
        destruct Hd as [q Hq].
        assert (1 ≤ q) by (destruct (Z.le_gt_cases q 0); [exfalso; nia | lia]).
        nia. }
      apply Hin; [lia|].
      replace (x - (i + inc)) with (x - i + (-1) * inc) by lia.
      by rewrite Z.mod_add by lia.
  - intros x Hx. rewrite Hout.
    + apply lookup_insert_ne. intros ->. apply Hx. split; [lia|].
      by rewrite Z.sub_diag.
    + intros [Hr Hmod]. apply Hx. split; [lia|].
      replace (x - i) with (x - (i + inc) + 1 * inc) by lia.
      by rewrite Z.mod_add by lia.
Qed.

(** ** Prefix-freeness, on reversed codes *)

Lemma rev_bits_Z_low (a a' : Z) (x : Z) :
  0 ≤ a ≤ a' →
  rev_bits (Z.to_nat a') x mod 2 ^ a = rev_bits (Z.to_nat a) (x / 2 ^ (a' - a)).
Proof.
  intros Ha. pose proof (rev_bits_low (Z.to_nat (a' - a)) (Z.to_nat a) x) as H.
  replace (Z.to_nat (a' - a) + Z.to_nat a)%nat with (Z.to_nat a') in H by lia.
  by rewrite !Z2Nat.id in H by lia.
Qed.

Lemma rev_bits_Z_high (a a' : Z) (x : Z) :
  0 ≤ a ≤ a' →
  rev_bits (Z.to_nat a') x / 2 ^ a
  = rev_bits (Z.to_nat (a' - a)) (x mod 2 ^ (a' - a)).
Proof.
  intros Ha. pose proof (rev_bits_high (Z.to_nat a) (Z.to_nat (a' - a)) x) as H.
  replace (Z.to_nat a + Z.to_nat (a' - a))%nat with (Z.to_nat a') in H by lia.
  by rewrite !Z2Nat.id in H by lia.
Qed.

Lemma rev_bits_Z_shift (a k : Z) (x : Z) :
  0 ≤ a → 0 ≤ k → rev_bits (Z.to_nat (a + k)) (x * 2 ^ k) = rev_bits (Z.to_nat a) x.
Proof.
  intros Ha Hk. pose proof (rev_bits_shift (Z.to_nat k) (Z.to_nat a) x) as H.
  replace (Z.to_nat k + Z.to_nat a)%nat with (Z.to_nat (a + k)) in H by lia.
  by rewrite Z2Nat.id in H by lia.
Qed.

Lemma rev_bits_Z_range (a : Z) (x : Z) : 0 ≤ a → 0 ≤ rev_bits (Z.to_nat a) x < 2 ^ a.
Proof.
  intros Ha. pose proof (rev_bits_range (Z.to_nat a) x) as H. by rewrite Z2Nat.id in H.
Qed.

Lemma rev_bits_Z_inj (a : Z) (x y : Z) :
  0 ≤ a → 0 ≤ x < 2 ^ a → 0 ≤ y < 2 ^ a →
  rev_bits (Z.to_nat a) x = rev_bits (Z.to_nat a) y → x = y.
Proof. intros Ha Hx Hy. apply rev_bits_inj; by rewrite Z2Nat.id. Qed.

(** An index that extends the codeword [c] of [a] bits does not extend a
    later codeword [c'] of [a'] bits. *)
Lemma prefix_free (a a' c c' y : Z) :
  0 ≤ a ≤ a' → 0 ≤ c → (c + 1) * 2 ^ (a' - a) ≤ c' → c' < 2 ^ a' →
  y mod 2 ^ a = rev_bits (Z.to_nat a) c →
  y mod 2 ^ a' ≠ rev_bits (Z.to_nat a') c'.
Proof.
  intros Ha Hc Hcc Hc' Hy Hy'.
  pose proof (pow2_pos a ltac:(lia)) as Hpa.
  pose proof (pow2_pos (a' - a) ltac:(lia)) as Hpd.
  assert (Hsplit : 2 ^ a' = 2 ^ a * 2 ^ (a' - a)).
  { rewrite <- Z.pow_add_r by lia. f_equal. lia. }
  assert (Hmm : (y mod 2 ^ a') mod 2 ^ a = y mod 2 ^ a).
  { apply Z.mod_mod_divide. exists (2 ^ (a' - a)). lia. }
  rewrite Hy', rev_bits_Z_low, Hy in Hmm by lia.
  apply rev_bits_Z_inj in Hmm; [| lia | | nia].
  - assert (c + 1 ≤ c' / 2 ^ (a' - a)); [|lia].
    apply Z.div_le_lower_bound; lia.
  - split; [apply Z.div_pos; lia|]. apply Z.div_lt_upper_bound; lia.
Qed.

Lemma sum_upto_skip (f : Z → Z) (a b : nat) :
  (a ≤ b)%nat → (∀ j, Z.of_nat a ≤ j < Z.of_nat b → f j = 0) →
  sum_upto f b = sum_upto f a.
Proof.
  induction 1 as [|b Hab IH]; intros Hz; [done|]. simpl.
  rewrite IH by (intros; apply Hz; lia). rewrite Hz by lia. lia.
Qed.

Lemma sum_upto_divide (f : Z → Z) (d : Z) (m : nat) :
  (∀ j, 0 ≤ j < Z.of_nat m → (d | f j)) → (d | sum_upto f m).
Proof.
  induction m as [|m IH]; intros Hd; simpl; [apply Z.divide_0_r|].
  apply Z.divide_add_r; [apply IH; intros; apply Hd; lia | apply Hd; lia].
Qed.

Section codespace_steps.

Variables (cnt : Z → Z) (M K tb : Z).
Hypothesis cnt_nonneg : ∀ l, 0 ≤ cnt l.
Hypothesis cnt_small : ∀ l, cnt l < 2 ^ 16.
Hypothesis HMK : 1 ≤ M ≤ K.
Hypothesis HtbK : 1 ≤ tb ≤ K.
Hypothesis HK : K ≤ 15.

(** The codewords of at most [t] bits fill whole blocks of [2^(K - t)]. *)
Lemma space_aligned (t l : Z) :
  0 ≤ t ≤ K → l ≤ t + 1 → (2 ^ (K - t) | space cnt K l).
Proof.
  intros Ht Hl. unfold space. apply sum_upto_divide. intros j Hj.
  unfold weight. destruct (Z.eqb_spec j 0); [apply Z.divide_0_r|].
  exists (cnt j * 2 ^ (t - j)). rewrite <- Z.mul_assoc, <- Z.pow_add_r by lia.
  do 2 f_equal. lia.
Qed.

Lemma space_skip (l l2 : Z) :
  1 ≤ l ≤ l2 → (∀ l', l ≤ l' < l2 → cnt l' = 0) → space cnt K l2 = space cnt K l.
Proof.
  intros Hl Hz. unfold space. apply sum_upto_skip; [lia|]. intros j Hj.
  unfold weight. rewrite (proj2 (Z.eqb_neq j 0)) by lia. rewrite Hz by lia. lia.
Qed.

Lemma base_skip (l l2 : Z) :
  0 ≤ l ≤ l2 → (∀ l', l ≤ l' < l2 → cnt l' = 0) → base cnt l2 = base cnt l.
Proof.
  intros Hl Hz. unfold base. apply sum_upto_skip; [lia|]. intros j Hj. apply Hz. lia.
Qed.

(** The codeword after [(l, i)]: the next of the same length, or the
    first of the next length in use. *)
Definition next_codeword (l i l2 i2 : Z) : Prop :=
  (l2 = l ∧ i2 = i + 1 ∧ i + 1 < cnt l) ∨
  (l < l2 ≤ M ∧ i2 = 0 ∧ i + 1 = cnt l ∧ 0 < cnt l2 ∧ ∀ l', l < l' < l2 → cnt l' = 0).

Lemma next_codeword_codeword (l i l2 i2 : Z) :
  codeword cnt M l i → next_codeword l i l2 i2 → codeword cnt M l2 i2.
Proof. intros [Hl Hi] [(-> & -> & ?)|(? & -> & ? & ? & ?)]; split; lia. Qed.

Lemma next_codeword_pos (l i l2 i2 : Z) :
  codeword cnt M l i → next_codeword l i l2 i2 →
  pos cnt K l2 i2 = pos cnt K l i + 2 ^ (K - l).
Proof.
  intros [Hl Hi] [(-> & -> & ?)|(Hl2 & -> & Hi1 & Hc2 & Hz)]; unfold pos; [lia|].
  rewrite (space_skip (l + 1) l2) by (lia || intros; apply Hz; lia).
  rewrite space_succ by lia. nia.
Qed.

Lemma next_codeword_base (l i l2 i2 : Z) :
  codeword cnt M l i → next_codeword l i l2 i2 →
  base cnt l2 + i2 = base cnt l + i + 1.
Proof.
  intros [Hl Hi] [(-> & -> & ?)|(Hl2 & -> & Hi1 & Hc2 & Hz)]; [lia|].
  rewrite (base_skip (l + 1) l2) by (lia || intros; apply Hz; lia).
  rewrite base_succ by lia. lia.
Qed.

Lemma next_codeword_code (l i l2 i2 : Z) :
  codeword cnt M l i → next_codeword l i l2 i2 →
  code cnt l2 i2 = (code cnt l i + 1) * 2 ^ (l2 - l).
Proof.
  intros Hc Hn. pose proof (next_codeword_pos l i l2 i2 Hc Hn) as Hp.
  pose proof (next_codeword_codeword l i l2 i2 Hc Hn) as [Hl2 _].
  destruct Hc as [Hl Hi].
  assert (l ≤ l2) by (destruct Hn as [(-> & _)|(? & _)]; lia).
  rewrite !pos_code in Hp by lia.
  pose proof (pow2_pos (K - l2) ltac:(lia)) as Hpp.
  assert (Hsplit : 2 ^ (K - l) = 2 ^ (l2 - l) * 2 ^ (K - l2)).
  { rewrite <- Z.pow_add_r by lia. f_equal. lia. }
  nia.
Qed.

(** When a subtable is opened at the codeword [(l, i)], which begins a
    block, the sizing loop stops at a size that takes in the whole
    block; [lc] holds the numbers of codewords that remain. *)
Lemma subtable_bits_loop (lc : list Z) (l i : Z) (fuel : nat) (nb rem : Z) :
  codeword cnt M l i → tb < l →
  (∀ l', l ≤ l' ≤ M →
         lc !! Z.to_nat l' = Some (if l' =? l then cnt l - i else cnt l')) →
  pos cnt K l i + 2 ^ (K - tb) ≤ space cnt K (M + 1) →
  l - tb ≤ nb → tb + nb ≤ M → M - tb - nb < Z.of_nat fuel → 0 < rem →
  rem * 2 ^ (K - tb - nb)
  = pos cnt K l i + 2 ^ (K - tb)
    - (if tb + nb =? l then pos cnt K l i else space cnt K (tb + nb)) →
  ∃ nb', subtable_bits fuel lc tb nb rem = Some nb' ∧
         nb ≤ nb' ∧ tb + nb' ≤ M ∧
         pos cnt K l i + 2 ^ (K - tb) ≤ space cnt K (tb + nb' + 1).
Proof.
  intros Hc Htbl Hlc Hblock. revert nb rem.
  induction fuel as [|fuel IH]; intros nb rem Hnb HnbM Hfuel Hrem Heq; [lia|].
  pose proof Hc as [Hl Hi].
  cbn [subtable_bits]. unfold rd. rewrite (u32_small (tb + nb)) by lia.
  rewrite (Hlc (tb + nb)) by lia. cbn [mbind option_bind].
  set (c := if tb + nb =? l then cnt l - i else cnt (tb + nb)) in *.
  assert (Hc0 : 0 ≤ c < 2 ^ 16).
  { unfold c. destruct (tb + nb =? l).
    - specialize (cnt_small l). lia.
    - specialize (cnt_nonneg (tb + nb)). specialize (cnt_small (tb + nb)). lia. }
  pose proof (pow2_pos (K - tb - nb) ltac:(lia)) as Hp.
  pose proof (pos_start cnt K l i ltac:(lia)) as Hps.
  pose proof (space_mono cnt K cnt_nonneg l (tb + nb) ltac:(lia)) as Hsm.
  assert (Hsplit : 2 ^ (K - tb) = 2 ^ nb * 2 ^ (K - tb - nb)).
  { rewrite <- Z.pow_add_r by lia. f_equal. lia. }
  assert (Hnb15 : 2 ^ nb ≤ 2 ^ 14) by (apply Z.pow_le_mono_r; lia).
  assert (Hfront : pos cnt K l i
                   ≤ (if tb + nb =? l then pos cnt K l i else space cnt K (tb + nb))).
  { destruct (Z.eqb_spec (tb + nb) l); [lia|].
    pose proof (space_mono cnt K cnt_nonneg (l + 1) (tb + nb) ltac:(lia)).
    pose proof (pos_end cnt M K HMK l i Hc). lia. }
  assert (Hrem' : rem ≤ 2 ^ nb) by nia.
  rewrite (s32_small (rem - c)) by lia.
  assert (Hnext : (rem - c) * 2 ^ (K - tb - nb)
                  = pos cnt K l i + 2 ^ (K - tb) - space cnt K (tb + nb + 1)).
  { rewrite space_succ by lia. unfold c.
    destruct (Z.eqb_spec (tb + nb) l) as [Heql|Hnel].
    - rewrite Heql. unfold pos in *. replace (K - tb - nb) with (K - l) in * by lia. nia.
    - replace (K - (tb + nb)) with (K - tb - nb) by lia. nia. }
  destruct (Z.leb_spec (rem - c) 0) as [Hdone|Hmore].
  - exists nb. split; [done|]. split; [lia|]. split; [lia|]. nia.
  - assert (tb + nb < M).
    { destruct (decide (tb + nb = M)) as [HeqM|]; [|lia].
      rewrite HeqM in Hnext. nia. }
    rewrite (u32_small (nb + 1)) by lia.
    rewrite Z.shiftl_mul_pow2 by lia. change (2 ^ 1) with 2.
    rewrite (s32_small ((rem - c) * 2)) by lia.
    destruct (IH (nb + 1) ((rem - c) * 2)) as (nb' & Hrun & ? & ? & ?); [lia..| |].
    + rewrite (proj2 (Z.eqb_neq (tb + (nb + 1)) l)) by lia.
      replace (tb + (nb + 1)) with (tb + nb + 1) by lia. rewrite <- Hnext.
      replace (K - tb - nb) with (K - tb - (nb + 1) + 1) by lia.
      rewrite pow2_S by lia. lia.
    + exists nb'. split; [done|]. split; [lia|]. done.
Qed.

End codespace_steps.

(** ** The table-filling loop *)

Lemma pow2_le_15 (a : Z) : 0 ≤ a ≤ 15 → 1 ≤ 2 ^ a ≤ 2 ^ 15.
Proof.
  intros Ha. split; [pose proof (pow2_pos a); lia|]. apply Z.pow_le_mono_r; lia.
Qed.

Lemma pow2_split (a b : Z) : 0 ≤ b ≤ a → 2 ^ a = 2 ^ b * 2 ^ (a - b).
Proof. intros. rewrite <- Z.pow_add_r by lia. f_equal. lia. Qed.

Lemma pow2_le_mono (a b : Z) : 0 ≤ a ≤ b → 2 ^ a ≤ 2 ^ b.
Proof. intros. apply Z.pow_le_mono_r; lia. Qed.

Lemma div_block (c b d e : Z) :
  0 < d → 0 < e → b * (d * e) ≤ c * e < (b + 1) * (d * e) → c / d = b.
Proof.
  intros Hd He [Hlo Hhi]. symmetry. apply (Z.div_unique c d b (c - b * d)); [|lia].
  left. nia.
Qed.

Lemma mod_eq_sub (y r m : Z) :
  0 < m → 0 ≤ y → 0 ≤ r < m → y mod m = r ↔ r ≤ y ∧ (y - r) mod m = 0.
Proof.
  intros Hm Hy Hr. split.
  - intros Hmod. pose proof (Z.div_mod y m ltac:(lia)) as Hdm.
    assert (0 ≤ y / m) by (apply Z.div_pos; lia). split; [nia|].
    replace (y - r) with (y / m * m) by lia. apply Z.mod_mul. lia.
  - intros [Hle Hmod]. apply Z.mod_divide in Hmod; [|lia]. destruct Hmod as [q Hq].
    replace y with (r + q * m) by lia. rewrite Z.mod_add by lia. by apply Z.mod_small.
Qed.

Lemma scaled_le (c b d e : Z) : 0 < e → (c + 1) * (d * e) ≤ b * e → (c + 1) * d ≤ b.
Proof. intros He H. nia. Qed.

Lemma scaled_lt (c b d e : Z) : 0 < e → c * e + e ≤ b * (d * e) → c < d * b.
Proof. intros He H. nia. Qed.

Lemma block_rest (cs c b d e rs rc : Z) :
  cs = d * b + rs → c = d * e * b + rc → (cs + 1) * e ≤ c → (rs + 1) * e ≤ rc.
Proof. intros -> -> H. nia. Qed.

Lemma block_step (c b d e : Z) :
  0 < d → 0 < e → b * (d * e) ≤ c * e < (b + 1) * (d * e) →
  b * (d * e) < c * e + e ≤ (b + 1) * (d * e).
Proof. intros Hd He H. assert (b * d ≤ c < (b + 1) * d) by nia. nia. Qed.

Lemma sum_upto_gap (f : Z → Z) (a b : nat) :
  (a ≤ b)%nat → sum_upto f a < sum_upto f b →
  ∃ j, Z.of_nat a ≤ j < Z.of_nat b ∧ f j ≠ 0.
Proof.
  induction 1 as [|b Hab IH]; intros Hlt; [lia|]. simpl in Hlt.
  destruct (decide (f (Z.of_nat b) = 0)) as [Hz|Hnz].
  - destruct IH as (j & Hj & Hfj); [lia|]. exists j. split; [lia | done].
  - exists (Z.of_nat b). split; [lia | done].
Qed.

(** Where the loop stands between two subtables: still in the main
    table, or in the subtable of the block [b] of codewords. *)
Inductive phase : Type :=
  | Main
  | Sub (b : Z).

Section fill.

Variables (lens : list Z) (n : Z) (results : list Z) (tb M K : Z) (sorted : list Z).

Abbreviation cnt := (count_len lens n).

Hypothesis Hok : lens_ok lens n M.
Hypothesis Hn : 0 ≤ n < 2 ^ 16.
Hypothesis HM : 1 ≤ M ≤ K.
Hypothesis Htb : 1 ≤ tb ≤ K.
Hypothesis HK : K ≤ 15.
Hypothesis Hres : ∀ s, 0 ≤ s < n → ∃ res, results !! Z.to_nat s = Some res.
Hypothesis Hsorted : ∀ s x, 0 ≤ s < n → lens !! Z.to_nat s = Some x →
  sorted !! Z.to_nat (base cnt x + count_len lens s x) = Some s.
Hypothesis Htotal : space cnt K (M + 1) ≤ 2 ^ K.
Hypothesis Hfull : space cnt K (M + 1) = 2 ^ K ∨ ∀ l, tb < l ≤ M → cnt l = 0.

Let cnt_nonneg : ∀ l, 0 ≤ cnt l := count_len_nonneg lens n.

Lemma cnt_small (l : Z) : cnt l < 2 ^ 16.
Proof. pose proof (count_len_le lens n l). lia. Qed.

(** A used symbol [s] of length [x]; its rank among the symbols of its
    length gives its codeword. *)
Definition is_sym (s x : Z) : Prop :=
  0 ≤ s < n ∧ lens !! Z.to_nat s = Some x ∧ 1 ≤ x.

Definition sym_pos (s x : Z) : Z := pos cnt K x (count_len lens s x).
Definition sym_code (s x : Z) : Z := code cnt x (count_len lens s x).

Lemma is_sym_codeword (s x : Z) : is_sym s x → codeword cnt M x (count_len lens s x).
Proof.
clear HM Htb HK Hres Hsorted Htotal Hfull Hn.
  intros (Hs & Hx & Hx1). destruct Hok as [_ Hr]. specialize (Hr s x Hs Hx).
  split; [lia|]. split; [apply count_len_nonneg|]. by apply count_len_lt.
Qed.

Lemma is_sym_unique (s s' x : Z) :
  is_sym s x → is_sym s' x → count_len lens s x = count_len lens s' x → s = s'.
Proof.
  intros (Hs & Hx & _) (Hs' & Hx' & _) Hr.
  pose proof (Hsorted s x Hs Hx) as H1. pose proof (Hsorted s' x Hs' Hx') as H2.
  rewrite Hr in H1. congruence.
Qed.

Lemma codeword_sym (l i : Z) :
  codeword cnt M l i → ∃ s, is_sym s l ∧ count_len lens s l = i.
Proof.
  intros [Hl Hi]. destruct Hok as [Hlen _].
  destruct (count_len_witness lens (Z.to_nat n) l i) as (s & Hs & Hsl & Hsr).
  { lia. } { by rewrite Z2Nat.id by lia. }
  exists s. split; [|done]. split; [lia|]. split; [done | lia].
Qed.

Lemma sym_code_range (s x : Z) :
  is_sym s x → 0 ≤ sym_code s x ∧ sym_code s x + 1 ≤ 2 ^ x.
Proof.
  intros Hs. apply (code_range cnt M K cnt_nonneg HM); [done|].
  by apply is_sym_codeword.
Qed.

Lemma sym_pos_code (s x : Z) : is_sym s x → sym_pos s x = sym_code s x * 2 ^ (K - x).
Proof.
  intros Hs. pose proof (is_sym_codeword s x Hs) as [Hx _].
  apply pos_code. lia.
Qed.

(** The entries of one codeword in the main table, and in a subtable. *)
Definition direct_slot (t : table) (x c e : Z) : Prop :=
  ∀ y, 0 ≤ y < 2 ^ tb → y mod 2 ^ x = rev_bits (Z.to_nat x) c → t !! y = Some e.

Definition sub_slot (t : table) (start nb x d e : Z) : Prop :=
  ∀ y, 0 ≤ y < 2 ^ nb → y mod 2 ^ x = rev_bits (Z.to_nat x) d →
       t !! (start + y) = Some e.

Definition pointer (t : table) (b start nb : Z) : Prop :=
  t !! rev_bits (Z.to_nat tb) b
  = Some (Z.lor HUFFDEC_SUBTABLE_POINTER (make_decode_table_entry start nb)).

(** The entries of the symbol [s] are in place; [cts] and [ctb] are the
    subtable the loop is filling. *)
Definition slot (ph : phase) (cts ctb : Z) (t : table) (s x : Z) : Prop :=
  ∃ res, results !! Z.to_nat s = Some res ∧
    if x <=? tb then direct_slot t x (sym_code s x) (make_decode_table_entry res x)
    else
      ∃ start nb,
        pointer t (sym_code s x / 2 ^ (x - tb)) start nb ∧
        x - tb ≤ nb ∧ tb + nb ≤ M ∧ 2 ^ tb ≤ start ∧
        start + 2 ^ nb ≤ 2 ^ tb + 2 ^ K ∧
        sub_slot t start nb (x - tb) (sym_code s x mod 2 ^ (x - tb))
          (make_decode_table_entry res (x - tb)) ∧
        start + 2 ^ nb ≤ cts + 2 ^ ctb ∧
        (start + 2 ^ nb ≤ cts ∨
         (start = cts ∧ nb = ctb ∧ ph = Sub (sym_code s x / 2 ^ (x - tb)))).

(** The subtable variables before the codeword at position [p]. *)
Definition phase_ok (ph : phase) (p : Z) (t : table) (cps cts ctb ndb : Z) : Prop :=
  match ph with
  | Main => p ≤ space cnt K (tb + 1) ∧ cts = 0 ∧ ctb = tb ∧ ndb = 0 ∧ cps = u32 (-1)
  | Sub b =>
      ndb = tb ∧ cps = rev_bits (Z.to_nat tb) b ∧
      0 ≤ b ∧ (b + 1) * 2 ^ (K - tb) ≤ 2 ^ K ∧
      space cnt K (tb + 1) ≤ b * 2 ^ (K - tb) ∧
      b * 2 ^ (K - tb) < p ≤ (b + 1) * 2 ^ (K - tb) ∧
      2 ^ tb ≤ cts ∧ cts + 2 ^ ctb ≤ 2 ^ tb + (b + 1) * 2 ^ (K - tb) ∧
      0 ≤ ctb ∧ tb + ctb ≤ M ∧
      (b + 1) * 2 ^ (K - tb) ≤ space cnt K (tb + ctb + 1) ∧
      pointer t b cts ctb
  end.

(** The state at the head of the loop, before the codeword [(l, i)]. *)
Record fill_inv (l i : Z) (ph : phase) (st : fill_state) : Prop := MkFillInv {
  fi_codeword : codeword cnt M l i;
  fi_sym_idx : sym_idx st = base cnt l + i;
  fi_len : codeword_len st = l;
  fi_counts_length : length (len_counts st) = Z.to_nat (M + 1);
  fi_counts : ∀ l', l ≤ l' ≤ M →
    len_counts st !! Z.to_nat l' = Some (if l' =? l then cnt l - i else cnt l');
  fi_reversed : codeword_reversed st = rev_bits (Z.to_nat l) (code cnt l i);
  fi_phase : phase_ok ph (pos cnt K l i) (decode_table st) (cur_codeword_prefix st)
               (cur_table_start st) (cur_table_bits st) (num_dropped_bits st);
  fi_slots : ∀ s x, is_sym s x → sym_pos s x < pos cnt K l i →
    slot ph (cur_table_start st) (cur_table_bits st) (decode_table st) s x
}.

(** The subtable variables after the head of the loop body, when the
    codeword [(l, i)] is about to be entered. *)
Definition mid_ok (ph : phase) (l i : Z) (t : table) (cps cts ctb ndb : Z) : Prop :=
  match ph with
  | Main => l ≤ tb ∧ cts = 0 ∧ ctb = tb ∧ ndb = 0 ∧ cps = u32 (-1)
  | Sub b =>
      tb < l ∧ ndb = tb ∧ cps = rev_bits (Z.to_nat tb) b ∧
      0 ≤ b ∧ (b + 1) * 2 ^ (K - tb) ≤ 2 ^ K ∧
      space cnt K (tb + 1) ≤ b * 2 ^ (K - tb) ∧
      b * 2 ^ (K - tb) ≤ pos cnt K l i < (b + 1) * 2 ^ (K - tb) ∧
      2 ^ tb ≤ cts ∧ cts + 2 ^ ctb ≤ 2 ^ tb + (b + 1) * 2 ^ (K - tb) ∧
      l - tb ≤ ctb ∧ tb + ctb ≤ M ∧
      (b + 1) * 2 ^ (K - tb) ≤ space cnt K (tb + ctb + 1) ∧
      pointer t b cts ctb
  end.

Lemma table_mask_eq : u32 (u32 (Z.shiftl 1 tb) - 1) = 2 ^ tb - 1.
Proof.
  rewrite Z.shiftl_1_l. pose proof (pow2_le_15 tb ltac:(lia)).
  rewrite (u32_small (2 ^ tb)) by lia. apply u32_small. lia.
Qed.

Lemma codeword_facts (l i : Z) :
  codeword cnt M l i →
  0 ≤ code cnt l i ∧ code cnt l i + 1 ≤ 2 ^ l ∧
  pos cnt K l i = code cnt l i * 2 ^ (K - l) ∧
  pos cnt K l i + 2 ^ (K - l) ≤ 2 ^ K.
Proof.
  intros Hc. pose proof (code_range cnt M K cnt_nonneg HM l i Htotal Hc) as [? ?].
  pose proof (pos_lt_total cnt M K cnt_nonneg HM l i Hc). destruct Hc as [Hl Hi].
  split; [done|]. split; [done|]. split; [apply pos_code; lia | lia].
Qed.

Lemma earlier_ends (l i s x : Z) :
  codeword cnt M l i → is_sym s x → sym_pos s x < pos cnt K l i →
  sym_pos s x + 2 ^ (K - x) ≤ pos cnt K l i.
Proof.
  intros Hc Hs Hlt. pose proof (is_sym_codeword s x Hs) as Hc'.
  destruct (pos_order cnt M K cnt_nonneg HM l i x (count_len lens s x) Hc Hc')
    as [[-> Heq]|Hle]; [| |done].
  - destruct Hc as [Hl _]. pose proof (pow2_pos (K - l) ltac:(lia)).
    unfold sym_pos in Hlt. lia.
  - unfold sym_pos in Hlt. rewrite Heq in Hlt. lia.
Qed.

(** The fields the head of the loop body leaves alone. *)
Definition same_codeword (st st1 : fill_state) : Prop :=
  len_counts st1 = len_counts st ∧ codeword_len st1 = codeword_len st ∧
  codeword_reversed st1 = codeword_reversed st ∧ sym_idx st1 = sym_idx st.

Lemma reversed_prefix (l i b : Z) :
  codeword cnt M l i → tb < l →
  b * 2 ^ (K - tb) ≤ pos cnt K l i < (b + 1) * 2 ^ (K - tb) →
  code cnt l i / 2 ^ (l - tb) = b ∧
  Z.land (rev_bits (Z.to_nat l) (code cnt l i)) (2 ^ tb - 1) = rev_bits (Z.to_nat tb) b.
Proof.
  intros Hc Hl Hb. destruct (codeword_facts l i Hc) as (Hc0 & Hc1 & Hpos & Hend).
  destruct Hc as [HlM Hi].
  assert (Hdiv : code cnt l i / 2 ^ (l - tb) = b).
  { apply (div_block _ _ _ (2 ^ (K - l))); [apply pow2_pos; lia..|].
    rewrite <- Hpos. rewrite <- Z.pow_add_r by lia.
    by replace (l - tb + (K - l)) with (K - tb) by lia. }
  split; [done|]. rewrite land_mask by lia. rewrite rev_bits_Z_low by lia.
  by rewrite Hdiv.
Qed.

Lemma open_subtable (l i : Z) (ph : phase) (st : fill_state) (blk : Z) :
  fill_inv l i ph st → tb < l →
  pos cnt K l i = blk * 2 ^ (K - tb) →
  Z.land (codeword_reversed st) (2 ^ tb - 1) ≠ cur_codeword_prefix st →
  0 ≤ cur_table_start st → 0 ≤ cur_table_bits st ≤ 15 →
  2 ^ tb ≤ cur_table_start st + 2 ^ cur_table_bits st ≤ 2 ^ tb + blk * 2 ^ (K - tb) →
  ∃ st1, start_subtable tb st = Some st1 ∧ same_codeword st st1 ∧
    mid_ok (Sub blk) l i (decode_table st1) (cur_codeword_prefix st1)
      (cur_table_start st1) (cur_table_bits st1) (num_dropped_bits st1) ∧
    ∀ s x, is_sym s x → sym_pos s x < pos cnt K l i →
      slot (Sub blk) (cur_table_start st1) (cur_table_bits st1) (decode_table st1) s x.
Proof.
  intros [Hc Hidx Hlen Hlcl Hlc Hrev Hph Hslots] Hl Hblk Hne Hcts Hctb Hsize.
  destruct (codeword_facts l i Hc) as (Hc0 & Hc1 & Hpos & Hend).
  pose proof Hc as [HlM Hi].
  pose proof (pow2_pos (K - tb) ltac:(lia)) as Hpkt.
  pose proof (pow2_pos (K - l) ltac:(lia)) as Hpkl.
  pose proof (pow2_le_15 tb ltac:(lia)) as Hptb.
  pose proof (pow2_le_15 (cur_table_bits st) ltac:(lia)) as Hpctb.
  pose proof (pow2_le_15 (l - tb) ltac:(lia)) as Hplt.
  pose proof (pow2_le_15 (K - tb) ltac:(lia)) as Hpkt15.
  pose proof (pow2_split K tb ltac:(lia)) as HsplitK.
  assert (Hblk0 : 0 ≤ blk ∧ blk + 1 ≤ 2 ^ tb) by (split; nia).
  destruct (reversed_prefix l i blk Hc Hl ltac:(lia)) as [Hdiv Hpre].
  unfold start_subtable. rewrite table_mask_eq, Hlen, Hrev in *.
  rewrite (proj2 (Z.ltb_lt tb l)) by lia.
  rewrite (proj2 (Z.eqb_neq _ _) Hne). cbn [andb negb].
  rewrite !Z.shiftl_1_l. rewrite (u32_small (l - tb)) by lia.
  rewrite (s32_small (2 ^ (l - tb))) by lia.
  destruct (subtable_bits_loop cnt M K tb cnt_nonneg cnt_small HM Htb HK
              (len_counts st) l i (length (len_counts st)) (l - tb) (2 ^ (l - tb)))
    as (nb & Hrun & Hnb & HnbM & Hcover); [done|done|done| |lia|lia|lia|lia| |].
  { destruct Hfull as [Hf|Hf]; [nia|]. rewrite (Hf l ltac:(lia)) in Hi. lia. }
  { replace (tb + (l - tb)) with l by lia. rewrite Z.eqb_refl.
    replace (K - tb - (l - tb)) with (K - l) by lia.
    rewrite <- Z.pow_add_r by lia. replace (l - tb + (K - l)) with (K - tb) by lia.
    lia. }
  rewrite Hrun. cbn [mbind option_bind].
  pose proof (pow2_le_mono nb (K - tb) ltac:(lia)) as Hpnb.
  rewrite (u32_small (2 ^ cur_table_bits st)) by lia.
  pose proof (pow2_le_15 K ltac:(lia)) as HpK.
  rewrite (u32_small (cur_table_start st + 2 ^ cur_table_bits st)) by lia.
  eexists. split; [reflexivity|]. split; [done|]. cbn. rewrite Hpre. split.
  - split; [done|]. split; [done|]. split; [done|]. split; [lia|]. split; [nia|].
    split.
    { pose proof (space_mono cnt K cnt_nonneg (tb + 1) l ltac:(lia)).
      pose proof (pos_start cnt K l i ltac:(lia)). lia. }
    split; [lia|]. split; [lia|]. split; [lia|]. split; [lia|]. split; [lia|].
    split; [lia|]. unfold pointer. apply lookup_insert_eq.
  - intros s x Hs Hlt. destruct (Hslots s x Hs Hlt) as (res & Hr & Hslot).
    pose proof (earlier_ends l i s x Hc Hs Hlt) as Hends.
    destruct (sym_code_range s x Hs) as [Hs0 Hs1].
    pose proof (sym_pos_code s x Hs) as Hsp.
    pose proof (is_sym_codeword s x Hs) as [HxM _].
    pose proof (pow2_pos (K - x) ltac:(lia)) as Hpkx.
    exists res. split; [done|]. destruct (Z.leb_spec x tb) as [Hx|Hx].
    + intros y Hy Hmod. rewrite lookup_insert_ne; [by apply Hslot|].
      intros Heq. apply (prefix_free x tb (sym_code s x) blk y); try done; try lia.
      * pose proof (pow2_split (K - x) (tb - x) ltac:(lia)) as Hsp2.
        replace (K - x - (tb - x)) with (K - tb) in Hsp2 by lia.
        apply (scaled_le _ _ _ (2 ^ (K - tb))); [done|]. rewrite <- Hsp2, <- Hblk. lia.
      * rewrite Z.mod_small by lia. done.
    + destruct Hslot as (start & nb0 & Hptr & Hnb0 & Hnb0M & Hstart & Hbound & Hsub &
                         Hfit & _).
      pose proof (pow2_pos nb0 ltac:(lia)) as Hpnb0.
      exists start, nb0. split.
      { clear Hbound. unfold pointer. rewrite lookup_insert_ne; [done|]. intros Heq.
        apply rev_bits_Z_inj in Heq; [| lia | lia |].
        - assert (sym_code s x / 2 ^ (x - tb) < blk); [|lia].
          pose proof (pow2_pos (x - tb) ltac:(lia)).
          apply Z.div_lt_upper_bound; [lia|].
          pose proof (pow2_split (K - tb) (x - tb) ltac:(lia)) as Hsp2.
          replace (K - tb - (x - tb)) with (K - x) in Hsp2 by lia.
          apply (scaled_lt _ _ _ (2 ^ (K - x))); [done|]. rewrite <- Hsp2, <- Hblk. lia.
        - pose proof (pow2_pos (x - tb) ltac:(lia)).
          split; [apply Z.div_pos; lia|].
          apply Z.div_lt_upper_bound; [lia|].
          rewrite <- Z.pow_add_r by lia. replace (x - tb + tb) with x by lia. lia. }
      split; [done|]. split; [done|]. split; [done|]. split; [done|]. split.
      { intros y Hy Hmod. rewrite lookup_insert_ne; [by apply Hsub|].
        pose proof (rev_bits_Z_range tb blk ltac:(lia)). lia. }
      split; [lia|]. left. lia.
Qed.

Lemma start_subtable_spec (l i : Z) (ph : phase) (st : fill_state) :
  fill_inv l i ph st →
  ∃ ph1 st1, start_subtable tb st = Some st1 ∧ same_codeword st st1 ∧
    mid_ok ph1 l i (decode_table st1) (cur_codeword_prefix st1)
      (cur_table_start st1) (cur_table_bits st1) (num_dropped_bits st1) ∧
    ∀ s x, is_sym s x → sym_pos s x < pos cnt K l i →
      slot ph1 (cur_table_start st1) (cur_table_bits st1) (decode_table st1) s x.
Proof.
  intros Hinv. pose proof Hinv as [Hc Hidx Hlen Hlcl Hlc Hrev Hph Hslots].
  destruct (codeword_facts l i Hc) as (Hc0 & Hc1 & Hpos & Hend).
  pose proof Hc as [HlM Hi].
  pose proof (pow2_pos (K - tb) ltac:(lia)) as Hpkt.
  pose proof (pow2_pos (K - l) ltac:(lia)) as Hpkl.
  pose proof (pow2_le_15 tb ltac:(lia)) as Hptb.
  pose proof (pow2_split K tb ltac:(lia)) as HsplitK.
  pose proof (pos_start cnt K l i ltac:(lia)) as Hstart.
  pose proof (pos_end cnt M K HM l i Hc) as Hpend.
  pose proof (space_nonneg cnt K cnt_nonneg l) as Hsp0.
  destruct (Z.le_gt_cases l tb) as [Hl|Hl].
  - assert (ph = Main) as ->.
    { destruct ph as [|b]; [done|]. exfalso.
      destruct Hph as (_ & _ & _ & _ & Hsp & Hp & _).
      pose proof (space_mono cnt K cnt_nonneg (l + 1) (tb + 1) ltac:(lia)). lia. }
    exists Main, st. unfold start_subtable.
    rewrite Hlen, (proj2 (Z.ltb_ge tb l)) by lia. cbn [andb].
    split; [done|]. split; [done|]. split; [|done].
    destruct Hph as (_ & ? & ? & ? & ?). done.
  - pose proof (space_mono cnt K cnt_nonneg (tb + 1) l ltac:(lia)) as Hmono.
    destruct ph as [|b].
    + destruct Hph as (Hp & Hcts & Hctb & Hndb & Hcps).
      destruct (space_aligned cnt K tb (tb + 1)) as [blk Hblk]; [lia..|].
      destruct (open_subtable l i Main st blk Hinv Hl) as (st1 & H1 & H2 & H3 & H4).
      * lia.
      * rewrite Hrev, Hcps, land_mask by lia.
        pose proof (Z.mod_pos_bound (rev_bits (Z.to_nat l) (code cnt l i)) (2 ^ tb)).
        change (u32 (-1)) with 4294967295. lia.
      * lia.
      * lia.
      * rewrite Hcts, Hctb. nia.
      * by exists (Sub blk), st1.
    + destruct Hph as (Hndb & Hcps & Hb0 & HbK & Hsp & Hp & Hcts & Hfit & Hctb0 &
                       HctbM & Hcov & Hptr).
      destruct (decide (pos cnt K l i = (b + 1) * 2 ^ (K - tb))) as [Heq|Hneq].
      * assert (Hb1 : b + 1 < 2 ^ tb) by nia.
        destruct (open_subtable l i (Sub b) st (b + 1) Hinv Hl Heq)
          as (st1 & H1 & H2 & H3 & H4).
        { rewrite Hrev, Hcps.
          destruct (reversed_prefix l i (b + 1) Hc Hl ltac:(lia)) as [_ ->].
          intros Hrr. apply rev_bits_Z_inj in Hrr; lia. }
        { lia. }
        { lia. }
        { pose proof (pow2_pos (cur_table_bits st) ltac:(lia)). lia. }
        by exists (Sub (b + 1)), st1.
      * exists (Sub b), st. unfold start_subtable.
        rewrite table_mask_eq, Hlen, Hrev, Hcps.
        destruct (reversed_prefix l i b Hc Hl ltac:(lia)) as [_ ->].
        rewrite Z.eqb_refl, andb_false_r.
        split; [done|]. split; [done|]. split; [|done].
        split; [done|]. split; [done|]. split; [done|]. split; [done|].
        split; [done|]. split; [done|]. split; [lia|]. split; [done|].
        split; [done|]. split; [|done].
        destruct (Z.le_gt_cases (l - tb) (cur_table_bits st)) as [|Hlt]; [done|].
        pose proof (space_mono cnt K cnt_nonneg (tb + cur_table_bits st + 1) l
                      ltac:(lia)). lia.
Qed.

Lemma earlier_len (l i s x : Z) :
  codeword cnt M l i → is_sym s x → sym_pos s x < pos cnt K l i → x ≤ l.
Proof.
  intros Hc Hs Hlt. destruct (Z.le_gt_cases x l) as [|Hgt]; [done|]. exfalso.
  pose proof (is_sym_codeword s x Hs) as [Hx Hr].
  pose proof (pos_start cnt K x (count_len lens s x) ltac:(lia)).
  pose proof (space_mono cnt K cnt_nonneg (l + 1) x ltac:(lia)).
  pose proof (pos_end cnt M K HM l i Hc). destruct Hc as [Hl _].
  pose proof (pow2_pos (K - l) ltac:(lia)). unfold sym_pos in Hlt. lia.
Qed.

Lemma earlier_code (l i s x : Z) :
  codeword cnt M l i → is_sym s x → sym_pos s x < pos cnt K l i →
  (sym_code s x + 1) * 2 ^ (l - x) ≤ code cnt l i.
Proof.
  intros Hc Hs Hlt. pose proof (earlier_len l i s x Hc Hs Hlt) as Hx.
  pose proof (earlier_ends l i s x Hc Hs Hlt) as Hends.
  destruct (codeword_facts l i Hc) as (_ & _ & Hpos & _).
  rewrite (sym_pos_code s x Hs), Hpos in Hends.
  destruct Hs as (_ & _ & Hx1). destruct Hc as [Hl _].
  pose proof (pow2_split (K - x) (l - x) ltac:(lia)) as Hsp.
  replace (K - x - (l - x)) with (K - l) in Hsp by lia.
  pose proof (pow2_pos (K - l) ltac:(lia)). pose proof (pow2_pos (l - x) ltac:(lia)).
  nia.
Qed.

(** Entering the codeword [(l, i)] of the symbol [s] in the main table. *)
Lemma fill_main (l i s res : Z) (t : table) :
  codeword cnt M l i → is_sym s l → count_len lens s l = i →
  results !! Z.to_nat s = Some res → l ≤ tb →
  (∀ s x, is_sym s x → sym_pos s x < pos cnt K l i → slot Main 0 tb t s x) →
  ∃ t',
    fill_entries (Z.to_nat (2 ^ tb)) t (rev_bits (Z.to_nat l) (code cnt l i))
      (2 ^ tb) (2 ^ l) (make_decode_table_entry res l) = Some t' ∧
    (∀ y, ¬ 0 ≤ y < 2 ^ tb → t' !! y = t !! y) ∧
    ∀ s x, is_sym s x → sym_pos s x < pos cnt K l i + 2 ^ (K - l) →
      slot Main 0 tb t' s x.
Proof.
  intros Hc Hs Hrank Hr Hl Hslots.
  destruct (codeword_facts l i Hc) as (Hc0 & Hc1 & Hpos & Hend).
  pose proof Hc as [HlM Hi].
  pose proof (pow2_le_15 tb ltac:(lia)) as Hptb.
  pose proof (pow2_le_15 l ltac:(lia)) as Hpl.
  pose proof (rev_bits_Z_range l (code cnt l i) ltac:(lia)) as Hrr.
  destruct (fill_entries_spec (Z.to_nat (2 ^ tb)) t (rev_bits (Z.to_nat l) (code cnt l i))
              (2 ^ tb) (2 ^ l) (make_decode_table_entry res l))
    as (t' & Hrun & Hin & Hout); [lia..|].
  exists t'. split; [done|]. split; [intros y Hy; apply Hout; lia|].
  intros s' x Hs' Hlt.
  destruct (pos_order cnt M K cnt_nonneg HM l i x (count_len lens s' x) Hc
              (is_sym_codeword s' x Hs') Hlt) as [[-> Heq]|Hearlier].
  - assert (s' = s) as -> by (apply (is_sym_unique _ _ l); congruence).
    exists res. split; [done|]. rewrite (proj2 (Z.leb_le l tb)) by done.
    intros y Hy Hmod. unfold sym_code in Hmod. rewrite Hrank in Hmod.
    apply mod_eq_sub in Hmod; [|lia..]. apply Hin; [lia|]. by destruct Hmod.
  - assert (Hlt' : sym_pos s' x < pos cnt K l i).
    { pose proof (is_sym_codeword s' x Hs') as [Hx _].
      pose proof (pow2_pos (K - x) ltac:(lia)). unfold sym_pos. lia. }
    destruct (Hslots s' x Hs' Hlt') as (res' & Hr' & Hslot).
    pose proof (earlier_len l i s' x Hc Hs' Hlt') as Hx.
    pose proof (earlier_code l i s' x Hc Hs' Hlt') as Hcode.
    destruct (sym_code_range s' x Hs') as [Hs0 Hs1].
    exists res'. split; [done|]. rewrite (proj2 (Z.leb_le x tb)) in * by lia.
    intros y Hy Hmod. rewrite Hout; [by apply Hslot|]. intros [Hrange Hm].
    apply (prefix_free x l (sym_code s' x) (code cnt l i) y); try done.
    + destruct Hs' as (_ & _ & ?). lia.
    + lia.
    + apply mod_eq_sub; [lia..|]. split; [lia | done].
Qed.

(** Entering the codeword [(l, i)] of the symbol [s] in the subtable of
    its block [b]. *)
Lemma fill_sub (l i s res b cts ctb : Z) (t : table) :
  codeword cnt M l i → is_sym s l → count_len lens s l = i →
  results !! Z.to_nat s = Some res →
  mid_ok (Sub b) l i t (rev_bits (Z.to_nat tb) b) cts ctb tb →
  (∀ s x, is_sym s x → sym_pos s x < pos cnt K l i → slot (Sub b) cts ctb t s x) →
  ∃ t',
    fill_entries (Z.to_nat (cts + 2 ^ ctb)) t
      (cts + rev_bits (Z.to_nat (l - tb)) (code cnt l i mod 2 ^ (l - tb)))
      (cts + 2 ^ ctb) (2 ^ (l - tb)) (make_decode_table_entry res (l - tb)) = Some t' ∧
    (∀ y, ¬ cts ≤ y < cts + 2 ^ ctb → t' !! y = t !! y) ∧
    ∀ s x, is_sym s x → sym_pos s x < pos cnt K l i + 2 ^ (K - l) →
      slot (Sub b) cts ctb t' s x.
Proof.
  intros Hc Hs Hrank Hr Hmid Hslots.
  destruct Hmid as (Hl & _ & _ & Hb0 & HbK & Hsp & Hp & Hcts & Hfit & Hlctb & HctbM &
                    Hcov & Hptr).
  destruct (codeword_facts l i Hc) as (Hc0 & Hc1 & Hpos & Hend).
  pose proof Hc as [HlM Hi].
  pose proof (pow2_le_15 tb ltac:(lia)) as Hptb.
  pose proof (pow2_le_15 K ltac:(lia)) as HpK.
  pose proof (pow2_le_15 (l - tb) ltac:(lia)) as Hplt.
  pose proof (pow2_le_15 ctb ltac:(lia)) as Hpctb.
  pose proof (pow2_le_mono (l - tb) ctb ltac:(lia)) as Hpm.
  pose proof (pow2_pos (K - tb) ltac:(lia)) as Hpkt.
  set (r := rev_bits (Z.to_nat (l - tb)) (code cnt l i mod 2 ^ (l - tb))).
  pose proof (rev_bits_Z_range (l - tb) (code cnt l i mod 2 ^ (l - tb)) ltac:(lia)) as Hrr.
  fold r in Hrr.
  destruct (reversed_prefix l i b Hc Hl Hp) as [Hdiv _].
  destruct (fill_entries_spec (Z.to_nat (cts + 2 ^ ctb)) t (cts + r) (cts + 2 ^ ctb)
              (2 ^ (l - tb)) (make_decode_table_entry res (l - tb)))
    as (t' & Hrun & Hin & Hout); [lia..|].
  exists t'. split; [done|]. split; [intros y Hy; apply Hout; lia|].
  intros s' x Hs' Hlt.
  destruct (pos_order cnt M K cnt_nonneg HM l i x (count_len lens s' x) Hc
              (is_sym_codeword s' x Hs') Hlt) as [[-> Heq]|Hearlier].
  - assert (s' = s) as -> by (apply (is_sym_unique _ _ l); congruence).
    exists res. split; [done|]. rewrite (proj2 (Z.leb_gt l tb)) by done.
    unfold sym_code. rewrite Hrank, Hdiv. exists cts, ctb.
    split. { unfold pointer. rewrite Hout; [done|].
             pose proof (rev_bits_Z_range tb b ltac:(lia)). lia. }
    split; [done|]. split; [done|]. split; [done|]. split; [lia|]. split.
    { intros y Hy Hmod. fold r in Hmod. apply mod_eq_sub in Hmod; [|lia..].
      apply Hin; [lia|]. replace (cts + y - (cts + r)) with (y - r) by lia.
      by destruct Hmod. }
    split; [lia|]. by right.
  - assert (Hlt' : sym_pos s' x < pos cnt K l i).
    { pose proof (is_sym_codeword s' x Hs') as [Hx _].
      pose proof (pow2_pos (K - x) ltac:(lia)). unfold sym_pos. lia. }
    destruct (Hslots s' x Hs' Hlt') as (res' & Hr' & Hslot).
    pose proof (earlier_len l i s' x Hc Hs' Hlt') as Hx.
    pose proof (earlier_code l i s' x Hc Hs' Hlt') as Hcode.
    destruct (sym_code_range s' x Hs') as [Hs0 Hs1].
    exists res'. split; [done|]. destruct (Z.leb_spec x tb) as [Hxtb|Hxtb].
    + intros y Hy Hmod. rewrite Hout; [by apply Hslot|]. lia.
    + destruct Hslot as (start & nb0 & Hptr0 & Hnb0 & Hnb0M & Hstart & Hbound0 & Hsub &
                         Hfit0 & Hwhere).
      exists start, nb0. split.
      { unfold pointer. rewrite Hout; [done|].
        pose proof (pow2_pos (x - tb) ltac:(lia)).
        pose proof (rev_bits_Z_range tb (sym_code s' x / 2 ^ (x - tb)) ltac:(lia)). lia. }
      split; [done|]. split; [done|]. split; [done|]. split; [done|]. split; [|done].
      clear Hbound0.
      intros y Hy Hmod. rewrite Hout; [by apply Hsub|]. intros [Hrange Hm].
      destruct Hwhere as [Hbelow|(-> & -> & Hblock)]; [lia|].
      injection Hblock as Hblock.
      replace (cts + y - (cts + r)) with (y - r) in Hm by lia.
      pose proof (pow2_pos (x - tb) ltac:(lia)) as Hpxt.
      pose proof (pow2_pos (l - x) ltac:(lia)) as Hplx.
      pose proof (Z.mod_pos_bound (sym_code s' x) (2 ^ (x - tb)) Hpxt) as Hm1.
      pose proof (Z.mod_pos_bound (code cnt l i) (2 ^ (l - tb)) ltac:(lia)) as Hm2.
      apply (prefix_free (x - tb) (l - tb) (sym_code s' x mod 2 ^ (x - tb))
               (code cnt l i mod 2 ^ (l - tb)) y); try done.
      * lia.
      * lia.
      * pose proof (Z.div_mod (sym_code s' x) (2 ^ (x - tb)) ltac:(lia)) as Hd1.
        pose proof (Z.div_mod (code cnt l i) (2 ^ (l - tb)) ltac:(lia)) as Hd2.
        rewrite <- Hblock in Hd1. rewrite Hdiv in Hd2.
        replace (l - tb - (x - tb)) with (l - x) by lia.
        pose proof (pow2_split (l - tb) (x - tb) ltac:(lia)) as Hsp2.
        replace (l - tb - (x - tb)) with (l - x) in Hsp2 by lia.
        apply (block_rest (sym_code s' x) (code cnt l i) b (2 ^ (x - tb)) (2 ^ (l - x)));
          [exact Hd1 | rewrite <- Hsp2; exact Hd2 | exact Hcode].
      * lia.
      * apply mod_eq_sub; [lia..|]. split; [lia | done].
Qed.

(** The [for] loop over the entries of the codeword [(l, i)], as the loop
    body calls it. *)
Lemma fill_codeword (l i s res : Z) (ph : phase) (st : fill_state) :
  codeword cnt M l i → is_sym s l → count_len lens s l = i →
  results !! Z.to_nat s = Some res →
  codeword_len st = l → codeword_reversed st = rev_bits (Z.to_nat l) (code cnt l i) →
  mid_ok ph l i (decode_table st) (cur_codeword_prefix st) (cur_table_start st)
    (cur_table_bits st) (num_dropped_bits st) →
  (∀ s x, is_sym s x → sym_pos s x < pos cnt K l i →
          slot ph (cur_table_start st) (cur_table_bits st) (decode_table st) s x) →
  let end_ := u32 (cur_table_start st + u32 (Z.shiftl 1 (cur_table_bits st))) in
  ∃ t',
    fill_entries (Z.to_nat end_) (decode_table st)
      (u32 (cur_table_start st + Z.shiftr (codeword_reversed st) (num_dropped_bits st)))
      end_ (u32 (Z.shiftl 1 (u32 (codeword_len st - num_dropped_bits st))))
      (make_decode_table_entry res (u32 (codeword_len st - num_dropped_bits st)))
    = Some t' ∧
    phase_ok ph (pos cnt K l i + 2 ^ (K - l)) t' (cur_codeword_prefix st)
      (cur_table_start st) (cur_table_bits st) (num_dropped_bits st) ∧
    ∀ s x, is_sym s x → sym_pos s x < pos cnt K l i + 2 ^ (K - l) →
      slot ph (cur_table_start st) (cur_table_bits st) t' s x.
Proof.
  intros Hc Hs Hrank Hr Hlen Hrev Hmid Hslots. cbv zeta.
  destruct (codeword_facts l i Hc) as (Hc0 & Hc1 & Hpos & Hend).
  pose proof Hc as [HlM Hi].
  pose proof (pow2_le_15 tb ltac:(lia)) as Hptb.
  pose proof (pow2_le_15 K ltac:(lia)) as HpK.
  pose proof (pow2_le_15 l ltac:(lia)) as Hpl.
  pose proof (rev_bits_Z_range l (code cnt l i) ltac:(lia)) as Hrr.
  rewrite Hlen, Hrev, !Z.shiftl_1_l. destruct ph as [|b].
  - destruct Hmid as (Hl & Hcts & Hctb & Hndb & Hcps).
    rewrite Hcts, Hctb, Hndb in *. rewrite Z.sub_0_r, Z.shiftr_0_r, !Z.add_0_l.
    rewrite (u32_small l), !(u32_small (2 ^ tb)), (u32_small (2 ^ l)),
      (u32_small (rev_bits _ _)) by lia.
    destruct (fill_main l i s res (decode_table st) Hc Hs Hrank Hr Hl Hslots)
      as (t' & Hrun & _ & Hslots').
    exists t'. split; [done|]. split; [|done].
    split; [|done].
    pose proof (pos_end cnt M K HM l i Hc).
    pose proof (space_mono cnt K cnt_nonneg (l + 1) (tb + 1) ltac:(lia)). lia.
  - pose proof Hmid as (Hl & Hndb & Hcps & Hb0 & HbK & Hsp & Hp & Hcts & Hfit & Hlctb &
                        HctbM & Hcov & Hptr).
    rewrite Hndb, Hcps in *.
    pose proof (pow2_le_15 (l - tb) ltac:(lia)) as Hplt.
    pose proof (pow2_le_15 (cur_table_bits st) ltac:(lia)) as Hpctb.
    pose proof (pow2_pos (K - tb) ltac:(lia)) as Hpkt.
    pose proof (pow2_pos (K - l) ltac:(lia)) as Hpkl.
    pose proof (rev_bits_Z_range (l - tb) (code cnt l i mod 2 ^ (l - tb)) ltac:(lia))
      as Hrr'.
    rewrite Z.shiftr_div_pow2, rev_bits_Z_high by lia.
    rewrite (u32_small (l - tb)), (u32_small (2 ^ (l - tb))),
      (u32_small (2 ^ cur_table_bits st)),
      (u32_small (cur_table_start st + 2 ^ cur_table_bits st)),
      (u32_small (cur_table_start st + rev_bits (Z.to_nat (l - tb)) _)) by lia.
    destruct (fill_sub l i s res b _ _ (decode_table st) Hc Hs Hrank Hr Hmid Hslots)
      as (t' & Hrun & Hout & Hslots').
    exists t'. split; [done|]. split; [|done].
    split; [done|]. split; [done|]. split; [done|]. split; [done|]. split; [done|].
    split.
    { pose proof (pow2_split (K - tb) (l - tb) ltac:(lia)) as Hsp2.
      replace (K - tb - (l - tb)) with (K - l) in Hsp2 by lia.
      rewrite Hpos, Hsp2 in *. apply block_step; [apply pow2_pos; lia | done | done]. }
    split; [done|]. split; [done|]. split; [lia|]. split; [done|]. split; [done|].
    unfold pointer. rewrite Hout; [done|].
    pose proof (rev_bits_Z_range tb b ltac:(lia)). lia.
Qed.

Lemma codeword_index (l i : Z) : codeword cnt M l i → base cnt l + i + 1 ≤ n.
Proof.
  intros [Hl Hi]. pose proof (base_total lens n M ltac:(lia) ltac:(lia) Hok) as Ht.
  pose proof (base_mono cnt cnt_nonneg (l + 1) (M + 1) ltac:(lia)) as Hle.
  rewrite (base_succ cnt l) in Hle by lia. lia.
Qed.

(** After the last codeword, every symbol has been entered. *)
Lemma last_codeword (l i s x : Z) :
  codeword cnt M l i → base cnt l + i + 1 = n → is_sym s x →
  sym_pos s x < pos cnt K l i + 2 ^ (K - l).
Proof.
  intros Hc Hlast Hs. pose proof (is_sym_codeword s x Hs) as Hc'.
  destruct (Z.lt_ge_cases (sym_pos s x) (pos cnt K l i + 2 ^ (K - l))) as [|Hge];
    [done|]. exfalso.
  pose proof (codeword_index x _ Hc') as Hidx.
  pose proof Hc as [Hl Hi]. pose proof Hc' as [Hx Hr].
  pose proof (pow2_pos (K - l) ltac:(lia)) as Hp.
  unfold sym_pos in Hge.
  destruct (Z.lt_trichotomy x l) as [Hlt|[->|Hgt]].
  - pose proof (space_mono cnt K cnt_nonneg (x + 1) l ltac:(lia)).
    pose proof (pos_end cnt M K HM x _ Hc').
    pose proof (pos_start cnt K l i ltac:(lia)).
    pose proof (pow2_pos (K - x) ltac:(lia)). lia.
  - assert (i < count_len lens s l) by (unfold pos in Hge; nia). lia.
  - pose proof (base_mono cnt cnt_nonneg (l + 1) x ltac:(lia)) as Hle.
    rewrite (base_succ cnt l) in Hle by lia. lia.
Qed.

(** Decrementing the count of the current length and skipping the empty
    lengths finds the next codeword. *)
Lemma next_len (l i : Z) (lc : list Z) :
  codeword cnt M l i → base cnt l + i + 1 ≠ n →
  length lc = Z.to_nat (M + 1) →
  (∀ l', l ≤ l' ≤ M →
         lc !! Z.to_nat l' = Some (if l' =? l then cnt l - i else cnt l')) →
  let lc' := <[Z.to_nat l := cnt l - i - 1]> lc in
  ∃ l2 i2, skip_empty_lens (length lc') lc' l = Some l2 ∧
    next_codeword cnt M l i l2 i2 ∧
    ∀ l', l2 ≤ l' ≤ M →
          lc' !! Z.to_nat l' = Some (if l' =? l2 then cnt l2 - i2 else cnt l').
Proof.
  intros Hc Hnot Hlen Hlc lc'. pose proof Hc as [Hl Hi].
  pose proof (codeword_index l i Hc) as Hidx.
  assert (Hlc' : ∀ l', l ≤ l' ≤ M →
            lc' !! Z.to_nat l' = Some (if l' =? l then cnt l - i - 1 else cnt l')).
  { intros l' Hl'. unfold lc'. destruct (Z.eqb_spec l' l) as [->|Hne].
    - apply list_lookup_insert_eq. lia.
    - rewrite list_lookup_insert_ne by lia. rewrite Hlc by lia.
      by rewrite (proj2 (Z.eqb_neq l' l)). }
  assert (Htop : ∃ top, l ≤ top ≤ M ∧
            (if top =? l then cnt l - i - 1 else cnt top) ≠ 0).
  { destruct (decide (cnt l - i - 1 = 0)) as [Hz|Hnz].
    - destruct (sum_upto_gap cnt (Z.to_nat (l + 1)) (Z.to_nat (M + 1)))
        as (j & Hj & Hcj); [lia| |].
      + pose proof (base_total lens n M ltac:(lia) ltac:(lia) Hok) as Ht.
        pose proof (base_succ cnt l ltac:(lia)) as Hs. unfold base in Ht, Hs.
        fold (base cnt l) in Hs. lia.
      + exists j. split; [lia|]. by rewrite (proj2 (Z.eqb_neq j l)) by lia.
    - exists l. split; [lia|]. by rewrite Z.eqb_refl. }
  destruct Htop as (top & Htop & Hne).
  destruct (skip_empty_lens_spec lc' (length lc') l top)
    as (l2 & c2 & Hrun & Hl2 & Hc2 & Hc2ne & Hzero).
  { lia. } { lia. } { unfold lc'. rewrite length_insert. lia. }
  { intros l' Hl'. rewrite Hlc' by lia. eauto. }
  { rewrite Hlc' by lia. eauto. }
  rewrite Hlc' in Hc2 by lia. injection Hc2 as Hc2.
  destruct (Z.eqb_spec l2 l) as [->|Hne2].
  - exists l, (i + 1). split; [done|]. split; [left; lia|].
    intros l' Hl'. rewrite Hlc' by lia. destruct (l' =? l); [f_equal; lia | done].
  - exists l2, 0. split; [done|]. split.
    + right. split; [lia|]. split; [done|].
      pose proof (Hzero l ltac:(lia)) as Hz0. rewrite Hlc', Z.eqb_refl in Hz0 by lia.
      injection Hz0 as Hz0. split; [lia|].
      split; [specialize (cnt_nonneg l2); lia|].
      intros l' Hl'. pose proof (Hzero l' ltac:(lia)) as Hz.
      rewrite Hlc', (proj2 (Z.eqb_neq l' l)) in Hz by lia. congruence.
    + intros l' Hl'. rewrite Hlc' by lia.
      rewrite (proj2 (Z.eqb_neq l' l)) by lia.
      destruct (Z.eqb_spec l' l2) as [->|]; [f_equal; lia | done].
Qed.

(** The reversed codeword is advanced to the next codeword. *)
Lemma next_reversed (l i l2 i2 : Z) :
  codeword cnt M l i → next_codeword cnt M l i l2 i2 →
  ∃ bit, lowest_clear_bit 33 (rev_bits (Z.to_nat l) (code cnt l i)) (2 ^ (l - 1))
         = Some bit ∧
    Z.lor (Z.land (rev_bits (Z.to_nat l) (code cnt l i)) (u32 (bit - 1))) bit
    = rev_bits (Z.to_nat l2) (code cnt l2 i2).
Proof.
  intros Hc Hnext. pose proof Hc as [Hl Hi].
  pose proof (next_codeword_codeword cnt M l i l2 i2 Hc Hnext) as Hc2.
  pose proof (next_codeword_code cnt M K tb HM Htb HK l i l2 i2 Hc Hnext) as Hcode.
  destruct (codeword_facts l i Hc) as (Hc0 & _).
  destruct (codeword_facts l2 i2 Hc2) as (_ & Hc21 & _).
  assert (Hll : l ≤ l2) by (destruct Hnext as [(-> & _)|(? & _)]; lia).
  destruct Hc2 as [Hl2 _].
  assert (Hlt : code cnt l i + 1 < 2 ^ l).
  { pose proof (pow2_split l2 l ltac:(lia)) as Hsp.
    pose proof (pow2_pos (l2 - l) ltac:(lia)). nia. }
  destruct (reversed_increment (Z.to_nat l) 33 (code cnt l i) 0) as (k & Hk & Hrun & Hinc).
  { done. } { by rewrite Z2Nat.id by lia. } { lia. }
  rewrite Z2Nat.id, Z.mul_0_l, Z.add_0_r in * by lia.
  exists (2 ^ k). split; [done|].
  pose proof (pow2_le_15 k ltac:(lia)) as Hpk.
  rewrite (u32_small (2 ^ k - 1)) by lia. rewrite land_mask by lia.
  pose proof (Z.mod_pos_bound (rev_bits (Z.to_nat l) (code cnt l i)) (2 ^ k) ltac:(lia)).
  rewrite lor_small_pow2 by lia. rewrite Hinc, Hcode.
  replace l2 with (l + (l2 - l)) at 1 by lia. by rewrite rev_bits_Z_shift by lia.
Qed.

(** Every symbol of the code has its entries. *)
Definition all_slots (t : table) : Prop :=
  ∃ ph cts ctb, ∀ s x, is_sym s x → slot ph cts ctb t s x.

(** One pass through the loop body: it returns after the last codeword,
    and moves to the next codeword otherwise. *)
Lemma fill_step_spec (l i : Z) (ph : phase) (st : fill_state) :
  fill_inv l i ph st →
  ∃ r, fill_step sorted results n tb st = Some r ∧
    match r with
    | inl t' => base cnt l + i + 1 = n ∧ all_slots t'
    | inr st2 =>
        base cnt l + i + 1 < n ∧
        ∃ l2 i2 ph2, fill_inv l2 i2 ph2 st2 ∧ base cnt l2 + i2 = base cnt l + i + 1
    end.
Proof.
  intros Hinv. pose proof Hinv as [Hc Hidx Hlen Hlcl Hlc Hrev Hph Hslots].
  pose proof Hc as [Hl Hi].
  pose proof (codeword_index l i Hc) as Hle.
  pose proof (base_nonneg cnt cnt_nonneg l) as Hb0.
  destruct (codeword_sym l i Hc) as (s & Hs & Hrank).
  destruct (Hres s) as [res Hr]; [by destruct Hs|].
  destruct (start_subtable_spec l i ph st Hinv)
    as (ph1 & st1 & Hstart & (Hlc1 & Hlen1 & Hrev1 & Hidx1) & Hmid & Hslots1).
  destruct (fill_codeword l i s res ph1 st1 Hc Hs Hrank Hr) as (t' & Hfill & Hph' & Hslots');
    [congruence | congruence | done | done |].
  cbv zeta in Hfill. unfold fill_step. cbv zeta.
  rewrite Hidx, (rd_lookup sorted). destruct Hs as (Hs0 & Hsl & Hs1).
  pose proof (Hsorted s l Hs0 Hsl) as Hsym. rewrite Hrank in Hsym. rewrite Hsym.
  cbn [mbind option_bind]. rewrite Hstart. cbn [mbind option_bind].
  rewrite (rd_lookup results), Hr. cbn [mbind option_bind].
  rewrite Hfill. cbn [mbind option_bind].
  rewrite Hlc1, Hlen1, Hrev1, Hidx1, Hlen, Hrev, Hidx.
  pose proof (pow2_le_15 (l - 1) ltac:(lia)) as Hpl.
  rewrite (u32_small (l - 1)), Z.shiftl_1_l, (u32_small (2 ^ (l - 1))) by lia.
  rewrite (u32_small (base cnt l + i + 1)) by lia.
  destruct (decide (base cnt l + i + 1 = n)) as [Hlast|Hmore].
  - destruct (lowest_clear_bit_total 33 (rev_bits (Z.to_nat l) (code cnt l i))
                (2 ^ (l - 1))) as [bit Hbit]; [simpl; lia|].
    rewrite Hbit. cbn [mbind option_bind].
    rewrite (proj2 (Z.eqb_eq _ _) Hlast). eexists. split; [reflexivity|].
    split; [done|]. exists ph1, (cur_table_start st1), (cur_table_bits st1).
    intros s' x Hs'. apply Hslots'; [done|]. by apply last_codeword.
  - destruct (next_len l i (len_counts st) Hc Hmore Hlcl Hlc)
      as (l2 & i2 & Hskip & Hnext & Hlc2).
    destruct (next_reversed l i l2 i2 Hc Hnext) as (bit & Hbit & Hcw).
    rewrite Hbit. cbn [mbind option_bind].
    rewrite (proj2 (Z.eqb_neq _ _) Hmore). unfold rd.
    rewrite (Hlc l), Z.eqb_refl by lia. cbn [mbind option_bind].
    pose proof (cnt_small l).
    rewrite (u16_small (cnt l - i - 1)) by lia.
    rewrite wr_Some by lia. cbn [mbind option_bind].
    rewrite Hskip. cbn [mbind option_bind].
    eexists. split; [reflexivity|]. split; [lia|]. exists l2, i2, ph1.
    pose proof (next_codeword_pos cnt M K l i l2 i2 Hc Hnext) as Hpos2.
    pose proof (next_codeword_base cnt M l i l2 i2 Hc Hnext) as Hbase2.
    split; [|done]. split; cbn.
    + by apply (next_codeword_codeword cnt M l i).
    + lia.
    + done.
    + by rewrite length_insert.
    + done.
    + done.
    + by rewrite Hpos2.
    + intros s' x Hs' Hlt. rewrite Hpos2 in Hlt. by apply Hslots'.
Qed.

Lemma fill_loop_spec (fuel : nat) (l i : Z) (ph : phase) (st : fill_state) :
  fill_inv l i ph st → n - (base cnt l + i) ≤ Z.of_nat fuel →
  ∃ t', fill_loop fuel sorted results n tb st = Some t' ∧ all_slots t'.
Proof.
  revert l i ph st. induction fuel as [|fuel IH]; intros l i ph st Hinv Hfuel.
  { pose proof (codeword_index l i (fi_codeword _ _ _ _ Hinv)). lia. }
  cbn [fill_loop]. destruct (fill_step_spec l i ph st Hinv) as (r & Hstep & Hr).
  rewrite Hstep. cbn [mbind option_bind]. destruct r as [t'|st2].
  - exists t'. by destruct Hr.
  - destruct Hr as (Hlt & l2 & i2 & ph2 & Hinv2 & Hb).
    apply (IH l2 i2 ph2); [done | lia].
Qed.

End fill.

(** ** The codespace of the lengths *)

Lemma rev_bits_0 (n : nat) : rev_bits n 0 = 0.
Proof. induction n as [|n IH]; [done|]. cbn [rev_bits]. rewrite Z.div_0_l, IH by lia. done. Qed.

Lemma sum_upto_scale (f g : Z → Z) (d : Z) (m : nat) :
  (∀ j, 0 ≤ j < Z.of_nat m → g j = d * f j) → sum_upto g m = d * sum_upto f m.
Proof.
  induction m as [|m IH]; intros H; simpl; [lia|].
  rewrite IH by (intros; apply H; lia). rewrite H by lia. lia.
Qed.

Lemma sum_upto_point (f h : Z → Z) (x : Z) (m : nat) :
  sum_upto (λ j, f j + (if x =? j then h j else 0)) m
  = sum_upto f m + (if (0 <=? x) && (x <? Z.of_nat m) then h x else 0).
Proof.
  induction m as [|m IH]; simpl.
  { destruct (Z.leb_spec 0 x), (Z.ltb_spec x (Z.of_nat 0)); simpl; lia. }
  rewrite IH.
  destruct (Z.eqb_spec x (Z.of_nat m)) as [->|Hne].
  - rewrite (proj2 (Z.leb_le 0 _)) by lia.
    rewrite (proj2 (Z.ltb_ge _ _)) by lia. rewrite (proj2 (Z.ltb_lt _ _)) by lia.
    simpl. lia.
  - destruct (Z.leb_spec 0 x); simpl; [|lia].
    destruct (Z.ltb_spec x (Z.of_nat m)), (Z.ltb_spec x (Z.of_nat (S m))); lia.
Qed.

(** Counted in units of [2^-K], the codespace is [2^(K - M)] times what
    it is in units of [2^-M]. *)
Lemma space_scale (cnt : Z → Z) (M K l : Z) :
  1 ≤ M ≤ K → l ≤ M + 1 → space cnt K l = 2 ^ (K - M) * space cnt M l.
Proof.
  intros HM Hl. unfold space. apply sum_upto_scale. intros j Hj. unfold weight.
  destruct (j =? 0); [lia|]. rewrite (pow2_split (K - j) (K - M)) by lia.
  replace (K - j - (K - M)) with (M - j) by lia. lia.
Qed.

Lemma codespace_succ (lens : list Z) (t M x : Z) :
  0 ≤ t → lens !! Z.to_nat t = Some x →
  codespace lens (t + 1) M = codespace lens t M + (if x =? 0 then 0 else 2 ^ (M - x)).
Proof.
  intros Ht Hx. unfold codespace.
  replace (Z.to_nat (t + 1)) with (S (Z.to_nat t)) by lia.
  rewrite (take_S_r _ _ _ Hx), foldr_app. cbn [foldr]. rewrite Z.add_0_r.
  generalize (if x =? 0 then 0 else 2 ^ (M - x)). intros a.
  induction (take (Z.to_nat t) lens) as [|y ys IH]; cbn [foldr]; [lia|].
  rewrite IH. lia.
Qed.

(** The scan of [build_decode_table] measures the Kraft sum of the lengths. *)
Lemma space_codespace (lens : list Z) (n M : Z) :
  0 ≤ n → 1 ≤ M → lens_ok lens n M →
  space (count_len lens n) M (M + 1) = codespace lens n M.
Proof.
  intros Hn HM Hok. unfold space.
  rewrite <- (Z2Nat.id n Hn) in Hok |- *. induction (Z.to_nat n) as [|t IH].
  { unfold codespace. simpl. clear.
    induction (Z.to_nat (M + 1)) as [|m IHm]; [done|]. simpl. rewrite IHm.
    unfold weight. rewrite count_len_0. destruct (Z.of_nat m =? 0); lia. }
  assert (Hok' : lens_ok lens (Z.of_nat t) M).
  { destruct Hok as [H1 H2]. split; [lia|]. intros s x Hs. apply H2. lia. }
  destruct (lens_ok_lookup lens _ M (Z.of_nat t) Hok ltac:(lia)) as (x & Hx & Hxr).
  rewrite Nat2Z.inj_succ, <- Z.add_1_r.
  rewrite (codespace_succ lens _ M x) by (lia || done). rewrite <- (IH Hok').
  rewrite (sum_upto_ext _ (λ j, weight (count_len lens (Z.of_nat t)) M j
                               + (if x =? j then (if j =? 0 then 0 else 2 ^ (M - j)) else 0))).
  2: { intros j _. unfold weight. rewrite (count_len_succ lens _ j x) by (lia || done).
       destruct (j =? 0), (x =? j); lia. }
  rewrite sum_upto_point.
  rewrite (proj2 (Z.leb_le 0 x)) by lia. rewrite (proj2 (Z.ltb_lt _ _)) by lia. done.
Qed.

(** ** [build_decode_table] *)

Section build.

Variables (lens : list Z) (n : Z) (results : list Z) (tb M : Z).

Hypothesis Hok : lens_ok lens n M.
Hypothesis Hn : 0 ≤ n < 2 ^ 16.
Hypothesis HM : 1 ≤ M ≤ 15.
Hypothesis Htb : 1 ≤ tb ≤ 15.
Hypothesis Hres : n ≤ Z.of_nat (length results).

Let cnt_nonneg : ∀ l, 0 ≤ count_len lens n l := count_len_nonneg lens n.

(** A used symbol takes some of the codespace. *)
Lemma used_space (s x : Z) :
  is_sym lens n s x → 0 < space (count_len lens n) M (M + 1).
Proof.
  intros Hs. pose proof (is_sym_codeword lens n M Hok s x Hs) as [Hx Hr].
  pose proof (space_mono (count_len lens n) M cnt_nonneg (x + 1) (M + 1) ltac:(lia)) as Hm.
  pose proof (space_nonneg (count_len lens n) M cnt_nonneg x).
  rewrite (space_succ _ M x) in Hm by lia. pose proof (pow2_pos (M - x) ltac:(lia)). nia.
Qed.

(** A code that takes some of the codespace has a shortest length. *)
Lemma first_len (lc : list Z) :
  counted lens M n lc → 0 < space (count_len lens n) M (M + 1) →
  ∃ l, skip_empty_lens (length lc) lc 1 = Some l ∧ 1 ≤ l ≤ M ∧
       0 < count_len lens n l ∧ ∀ l', 1 ≤ l' < l → count_len lens n l' = 0.
Proof.
  intros [Hlen Hlc] Hpos.
  destruct (sum_upto_gap (weight (count_len lens n) M) 0 (Z.to_nat (M + 1)))
    as (top & Htop & Hw); [lia | simpl; apply Hpos |].
  unfold weight in Hw. destruct (Z.eqb_spec top 0) as [|Hne]; [done|].
  assert (Hct : count_len lens n top ≠ 0) by (intros Hz; rewrite Hz in Hw; lia).
  destruct (skip_empty_lens_spec lc (length lc) 1 top)
    as (l & c & Hrun & Hl & Hc & Hcne & Hzero); [lia..| | |].
  { intros l Hl. rewrite Hlc by lia. eauto. }
  { rewrite Hlc by lia. eauto. }
  rewrite Hlc in Hc by lia. injection Hc as <-.
  exists l. split; [done|]. split; [lia|]. split; [specialize (cnt_nonneg l); lia|].
  intros l' Hl'. specialize (Hzero l' Hl'). rewrite Hlc in Hzero by lia. congruence.
Qed.

(** The table-filling part of [build_decode_table], for a complete code
    and for the code of a single codeword of length 1. *)
Lemma fill_from_start (t0 : table) (lc offs sorted : list Z) :
  counted lens M n lc → placed lens n M n offs sorted →
  space (count_len lens n) M (M + 1) = 2 ^ M ∨
  (space (count_len lens n) M (M + 1) = 2 ^ (M - 1) ∧ count_len lens n 1 = 1) →
  ∃ cl si t,
    skip_empty_lens (length lc) lc 1 = Some cl ∧ rd offs 0 = Some si ∧
    fill_loop (Z.to_nat n) sorted results n tb
      (FillState t0 lc cl 0 (u32 (-1)) 0 tb 0 si) = Some t ∧
    all_slots lens n results tb M (Z.max tb M) t.
Proof.
  intros Hcounted (Hol & Hsl & Ho & Hs) Hcode. set (K := Z.max tb M).
  pose proof (pow2_pos M ltac:(lia)) as HpM.
  pose proof (pow2_pos (M - 1) ltac:(lia)) as HpM1.
  pose proof (pow2_pos (K - M) ltac:(lia)) as HpKM.
  pose proof (pow2_split K (K - M) ltac:(lia)) as HsplitK.
  replace (K - (K - M)) with M in HsplitK by lia.
  pose proof (pow2_S (M - 1) ltac:(lia)) as HM1. replace (M - 1 + 1) with M in HM1 by lia.
  destruct (first_len lc Hcounted) as (l & Hskip & Hl & Hcl & Hzero);
    [destruct Hcode as [->|[-> _]]; lia|].
  assert (Hsi : rd offs 0 = Some (count_len lens n 0)).
  { rewrite rd_lookup, (Ho 0) by lia.
    change (base (count_len lens n) 0) with 0. by rewrite Z.add_0_l. }
  destruct Hcounted as [Hlcl Hlc].
  assert (Hbase : base (count_len lens n) l = count_len lens n 0).
  { rewrite (base_skip _ 1 l) by (lia || done).
    change (base (count_len lens n) 1) with (0 + count_len lens n 0). lia. }
  assert (Hspace : space (count_len lens n) K l = 0).
  { rewrite (space_skip _ K 1 l) by (lia || done). reflexivity. }
  destruct (fill_loop_spec lens n results tb M K sorted Hok Hn) with
    (fuel := Z.to_nat n) (l := l) (i := 0) (ph := Main)
    (st := FillState t0 lc l 0 (u32 (-1)) 0 tb 0 (count_len lens n 0))
    as (t & Hrun & Hslots); [lia..| | | | | | |].
  - intros s Hs'. apply lookup_lt_is_Some_2. lia.
  - intros s x Hs' Hx. apply Hs; [lia | done].
  - rewrite (space_scale _ M K) by lia. destruct Hcode as [->|[-> _]]; nia.
  - destruct Hcode as [Hfull|[Hhalf H1]].
    + left. rewrite (space_scale _ M K) by lia. rewrite Hfull. lia.
    + right. intros l' Hl'.
      destruct (Z.le_gt_cases (count_len lens n l') 0) as [|Hgt];
        [specialize (cnt_nonneg l'); lia|]. exfalso.
      pose proof (space_mono (count_len lens n) M cnt_nonneg (l' + 1) (M + 1) ltac:(lia)).
      pose proof (space_mono (count_len lens n) M cnt_nonneg 2 l' ltac:(lia)) as H2.
      rewrite (space_succ _ M l') in * by lia.
      change 2 with (1 + 1) in H2 at 1. rewrite (space_succ _ M 1) in H2 by lia.
      rewrite space_1, H1 in H2. pose proof (pow2_pos (M - l') ltac:(lia)). nia.
  - split; cbn.
    + split; [lia|]. lia.
    + lia.
    + done.
    + done.
    + intros l' Hl'. rewrite Hlc by lia. destruct (l' =? l) eqn:E; [|done].
      apply Z.eqb_eq in E as ->. f_equal. lia.
    + unfold code. rewrite Z.add_0_r.
      pose proof (next_code_space (count_len lens n) K (Z.to_nat l)) as Hnc.
      rewrite Z2Nat.id in Hnc by lia. rewrite Hspace in Hnc.
      pose proof (pow2_pos (K - l) ltac:(lia)).
      assert (next_code (count_len lens n) (Z.to_nat l) = 0) as -> by (specialize (Hnc ltac:(lia)); nia).
      by rewrite rev_bits_0.
    + split; [|done]. unfold pos. rewrite Hspace.
      pose proof (space_nonneg (count_len lens n) K cnt_nonneg (tb + 1)). lia.
    + intros s x Hs' Hlt. exfalso. unfold sym_pos, pos in Hlt. rewrite Hspace in Hlt.
      pose proof (is_sym_codeword lens n M Hok s x Hs') as [Hx Hr].
      pose proof (space_nonneg (count_len lens n) K cnt_nonneg x).
      pose proof (pow2_pos (K - x) ltac:(lia)). nia.
  - pose proof (base_nonneg (count_len lens n) cnt_nonneg l). lia.
  - by exists l, (count_len lens n 0), t.
Qed.

(** [build_decode_table] reads and writes its arrays in range, rejects
    the over-subscribed and the incomplete codes other than the two
    special ones, and enters every symbol of a code it accepts. *)
Lemma build_decode_table_spec (t0 : table) (r0 : Z) :
  results !! 0%nat = Some r0 →
  ∃ b t, build_decode_table t0 lens n results tb M = Some (b, t) ∧
    (b = false ↔
     2 ^ M < space (count_len lens n) M (M + 1) ∨
     (0 < space (count_len lens n) M (M + 1) < 2 ^ M ∧
      ¬ (space (count_len lens n) M (M + 1) = 2 ^ (M - 1) ∧ count_len lens n 1 = 1))) ∧
    (b = true → all_slots lens n results tb M (Z.max tb M) t) ∧
    (space (count_len lens n) M (M + 1) = 0 →
     ∀ x, t !! x = if (0 <=? x) && (x <? 2 ^ tb)
                   then Some (make_decode_table_entry r0 1) else t0 !! x).
Proof.
  intros Hr0. set (S := space (count_len lens n) M (M + 1)).
  pose proof (pow2_le_15 M ltac:(lia)) as HpM.
  pose proof (pow2_le_15 (M - 1) ltac:(lia)) as HpM1.
  pose proof (pow2_le_15 tb ltac:(lia)) as Hptb.
  pose proof (pow2_S (M - 1) ltac:(lia)) as HM1. replace (M - 1 + 1) with M in HM1 by lia.
  pose proof (space_nonneg (count_len lens n) M cnt_nonneg (M + 1)) as HS0. fold S in HS0.
  unfold build_decode_table.
  destruct (count_lens_spec lens n M Hok Hn HM (Z.to_nat n) 0
              (replicate (Z.to_nat (M + 1)) 0)) as (lc & Hlc & Hcounted);
    [lia | lia | by apply counted_start|].
  rewrite Z.add_0_l, Z2Nat.id in Hcounted by lia.
  rewrite Hlc. cbn [mbind option_bind].
  destruct (init_offsets_spec lens n M Hok Hn HM lc (Z.to_nat M) 0
              (replicate (Z.to_nat (M + 1)) 0) Hcounted) as (offs & Hoffs & Hol & Ho);
    [lia | lia | by rewrite length_replicate | |].
  { intros l Hl. replace l with 0 by lia. rewrite lookup_replicate_2 by lia. done. }
  rewrite Hoffs. cbn [mbind option_bind].
  destruct (sort_syms_spec lens n M Hok Hn HM (Z.to_nat n) 0 offs
              (replicate (Z.to_nat n) 0)) as (offs' & sorted & Hsort & Hplaced);
    [lia | lia | by apply placed_start|].
  rewrite Z.add_0_l, Z2Nat.id in Hplaced by lia.
  rewrite Hsort. cbn [mbind option_bind].
  destruct (check_codespace_spec lens n M Hn HM lc (Z.to_nat M) 1 1 Hcounted)
    as [[Hchk Hover]|(r & Hchk & Hr & Hr0')]; [lia | lia | lia | | |].
  { rewrite space_1. replace (M - 1 + 1) with M by lia. lia. }
  { rewrite Hchk. cbn [mbind option_bind]. exists false, t0. split; [done|].
    fold S in Hover. split; [split; [by left | done]|]. split; [done|]. lia. }
  rewrite Hchk. cbn [mbind option_bind]. fold S in Hr.
  destruct (Z.eqb_spec r 0) as [Hz|Hnz].
  - destruct (fill_from_start t0 lc offs' sorted Hcounted Hplaced)
      as (cl & si & t & Hskip & Hsi & Hfill & Hslots); [left; fold S; lia|].
    rewrite Hskip. cbn [mbind option_bind]. rewrite Hsi. cbn [mbind option_bind].
    rewrite Hfill. cbn [mbind option_bind]. exists true, t. split; [done|].
    split; [split; [done | lia]|]. split; [done | lia].
  - rewrite (rd_lookup results 0). change (Z.to_nat 0) with 0%nat. rewrite Hr0.
    cbn [mbind option_bind].
    rewrite !Z.shiftl_1_l, (u32_small (2 ^ tb)), (u32_small (2 ^ M)),
      (s32_small (2 ^ M)) by lia.
    set (t1 := fill_default (Z.to_nat (2 ^ tb)) 0 (make_decode_table_entry r0 1) t0).
    assert (Ht1 : ∀ x, t1 !! x = if (0 <=? x) && (x <? 2 ^ tb)
                                 then Some (make_decode_table_entry r0 1) else t0 !! x).
    { intros x. unfold t1. rewrite fill_default_spec, Z.add_0_l, Z2Nat.id by lia. done. }
    destruct (Z.eqb_spec r (2 ^ M)) as [Hempty|Hnonempty].
    + exists true, t1. split; [done|]. split; [split; [done | lia]|]. split; [|done].
      intros _. exists Main, 0, 0. intros s x Hs.
      pose proof (used_space s x Hs). fold S in H. lia.
    + rewrite (rd_lookup lc 1). destruct Hcounted as [Hlcl Hlc1].
      rewrite (Hlc1 1) by lia. cbn [mbind option_bind].
      rewrite (u32_small (M - 1)), (u32_small (2 ^ (M - 1))),
        (s32_small (2 ^ (M - 1))) by lia.
      destruct (Z.eqb_spec r (2 ^ (M - 1))) as [Hhalf|Hnhalf];
        [destruct (Z.eqb_spec (count_len lens n 1) 1) as [Hone|Hnone]|]; cbn [negb orb].
      * destruct (fill_from_start t1 lc offs' sorted (conj Hlcl Hlc1) Hplaced)
          as (cl & si & t & Hskip & Hsi & Hfill & Hslots); [right; fold S; lia|].
        rewrite Hskip. cbn [mbind option_bind]. rewrite Hsi. cbn [mbind option_bind].
        rewrite Hfill. cbn [mbind option_bind]. exists true, t. split; [done|].
        split; [split; [done | lia]|]. split; [done | lia].
      * exists false, t1. split; [done|]. split; [|split; [done | lia]].
        split; [|done]. intros _. right. split; [lia|]. lia.
      * exists false, t1. split; [done|]. split; [|split; [done | lia]].
        split; [|done]. intros _. right. split; [lia|]. lia.
Qed.

End build.

(** ** The fields of a table entry *)

Lemma entry_value (r len : Z) :
  0 ≤ r < 2 ^ 24 → 0 ≤ len < 2 ^ 8 → make_decode_table_entry r len = r * 2 ^ 8 + len.
Proof.
  intros Hr Hlen. unfold make_decode_table_entry, HUFFDEC_RESULT_SHIFT.
  rewrite Z.shiftl_mul_pow2, u32_small by lia. by apply lor_shifted_small.
Qed.

Lemma entry_fields (r len : Z) :
  0 ≤ r < 2 ^ 23 → 0 ≤ len < 2 ^ 8 →
  Z.land (make_decode_table_entry r len) HUFFDEC_LENGTH_MASK = len ∧
  Z.shiftr (make_decode_table_entry r len) HUFFDEC_RESULT_SHIFT = r ∧
  Z.land (make_decode_table_entry r len) HUFFDEC_SUBTABLE_POINTER = 0.
Proof.
  intros Hr Hlen. rewrite entry_value by lia.
  unfold HUFFDEC_LENGTH_MASK, HUFFDEC_RESULT_SHIFT, HUFFDEC_SUBTABLE_POINTER.
  split; [|split].
  - change 255 with (2 ^ 8 - 1). rewrite land_mask by lia.
    rewrite Z.add_comm, Z.mod_add by lia. apply Z.mod_small. lia.
  - rewrite Z.shiftr_div_pow2 by lia. rewrite Z.add_comm, Z.div_add by lia.
    rewrite Z.div_small by lia. done.
  - change 2147483648 with (2 ^ 31). rewrite land_pow2 by lia.
    rewrite (testbit_small _ 31) by lia. done.
Qed.

Lemma pointer_fields (start nb : Z) :
  0 ≤ start < 2 ^ 16 → 0 ≤ nb < 2 ^ 8 →
  let p := Z.lor HUFFDEC_SUBTABLE_POINTER (make_decode_table_entry start nb) in
  Z.land p HUFFDEC_LENGTH_MASK = nb ∧
  Z.land (Z.shiftr p HUFFDEC_RESULT_SHIFT) 65535 = start ∧
  Z.land p HUFFDEC_SUBTABLE_POINTER ≠ 0.
Proof.
  intros Hs Hnb p.
  assert (Hp : p = 2 ^ 23 * 2 ^ 8 + start * 2 ^ 8 + nb).
  { unfold p, HUFFDEC_SUBTABLE_POINTER. rewrite entry_value by lia.
    change 2147483648 with (2 ^ 31). rewrite Z.lor_comm, lor_small_pow2 by lia. lia. }
  unfold HUFFDEC_LENGTH_MASK, HUFFDEC_RESULT_SHIFT, HUFFDEC_SUBTABLE_POINTER.
  rewrite Hp. split; [|split].
  - change 255 with (2 ^ 8 - 1). rewrite land_mask by lia.
    replace (2 ^ 23 * 2 ^ 8 + start * 2 ^ 8 + nb) with (nb + (2 ^ 23 + start) * 2 ^ 8) by lia.
    rewrite Z.mod_add by lia. apply Z.mod_small. lia.
  - rewrite Z.shiftr_div_pow2 by lia.
    replace (2 ^ 23 * 2 ^ 8 + start * 2 ^ 8 + nb) with (nb + (2 ^ 23 + start) * 2 ^ 8) by lia.
    rewrite Z.div_add by lia. rewrite Z.div_small by lia.
    change 65535 with (2 ^ 16 - 1). rewrite land_mask by lia.
    replace (0 + (2 ^ 23 + start)) with (start + 2 ^ 7 * 2 ^ 16) by lia.
    rewrite Z.mod_add by lia. apply Z.mod_small. lia.
  - change 2147483648 with (2 ^ 31). rewrite land_pow2 by lia.
    assert (Z.testbit (2 ^ 23 * 2 ^ 8 + start * 2 ^ 8 + nb) 31 = true) as ->; [|lia].
    apply Z.testbit_true; [lia|].
    replace (2 ^ 23 * 2 ^ 8 + start * 2 ^ 8 + nb) with (start * 2 ^ 8 + nb + 1 * 2 ^ 31) by lia.
    rewrite Z.div_add by lia. rewrite Z.div_small by lia. done.
Qed.

Lemma div_mod_pow2 (w a b : Z) :
  0 ≤ a → 0 ≤ b → (w / 2 ^ a) mod 2 ^ b = (w mod 2 ^ (a + b)) / 2 ^ a.
Proof.
  intros Ha Hb. pose proof (pow2_pos a Ha). pose proof (pow2_pos b Hb).
  rewrite Z.pow_add_r by lia. rewrite Z.rem_mul_r by lia.
  rewrite (Z.mul_comm (2 ^ a)), Z.div_add by lia.
  rewrite (Z.div_small (w mod 2 ^ a)) by (apply Z.mod_pos_bound; lia). lia.
Qed.

Lemma mod_mod_pow2 (w a b : Z) : 0 ≤ a ≤ b → (w mod 2 ^ b) mod 2 ^ a = w mod 2 ^ a.
Proof.
  intros Hab. apply Z.mod_mod_divide. exists (2 ^ (b - a)).
  rewrite <- Z.pow_add_r by lia. f_equal. lia.
Qed.

(** ** Looking a bit window up in the table *)

(** A bit window that begins with the codeword of a symbol reaches an
    entry of the symbol. *)
Lemma slot_reached (lens : list Z) (n : Z) (results : list Z) (tb M K : Z)
    (ph : phase) (cts ctb : Z) (t : table) (s x w res : Z) :
  1 ≤ tb ≤ K → 1 ≤ M ≤ K → K ≤ 15 → 1 ≤ x ≤ M →
  0 ≤ sym_code lens n s x < 2 ^ x →
  results !! Z.to_nat s = Some res → 0 ≤ res < 2 ^ 23 →
  slot lens n results tb M K ph cts ctb t s x →
  0 ≤ w → rev_bits (Z.to_nat x) (w mod 2 ^ x) = sym_code lens n s x →
  ∃ e, reached t tb w = Some e ∧
       Z.land e HUFFDEC_LENGTH_MASK = (if x <=? tb then x else x - tb) ∧
       Z.shiftr e HUFFDEC_RESULT_SHIFT = res.
Proof.
  intros Htb HM HK Hx Hc Hres Hr (res' & Hres' & Hslot) Hw Hcode.
  assert (res' = res) as -> by congruence.
  pose proof (pow2_pos tb ltac:(lia)) as Hptb.
  pose proof (pow2_pos x ltac:(lia)) as Hpx.
  assert (Hwx : w mod 2 ^ x = rev_bits (Z.to_nat x) (sym_code lens n s x)).
  { rewrite <- Hcode, rev_bits_involutive, Z2Nat.id by lia.
    by rewrite Z.mod_mod by lia. }
  unfold reached. rewrite Z.shiftl_1_l, land_mask by lia.
  destruct (Z.leb_spec x tb) as [Hxtb|Hxtb].
  - rewrite (Hslot (w mod 2 ^ tb)).
    + cbn [mbind option_bind].
      destruct (entry_fields res x) as (Hlen & Hresult & Hflag); [lia | lia |].
      rewrite Hflag. cbn [Z.eqb negb]. eauto.
    + apply Z.mod_pos_bound. lia.
    + by rewrite mod_mod_pow2 by lia.
  - destruct Hslot as (start & nb & Hptr & Hnb & HnbM & Hstart & Hbound & Hsub & _).
    pose proof (pow2_pos nb ltac:(lia)) as Hpnb.
    pose proof (pow2_le_15 tb ltac:(lia)). pose proof (pow2_le_15 K ltac:(lia)).
    destruct (pointer_fields start nb) as (Hplen & Hpstart & Hpflag); [lia | lia |].
    assert (Hidx : w mod 2 ^ tb
                   = rev_bits (Z.to_nat tb) (sym_code lens n s x / 2 ^ (x - tb))).
    { rewrite <- (mod_mod_pow2 w tb x), Hwx by lia. apply rev_bits_Z_low. lia. }
    rewrite Hidx, Hptr. cbn [mbind option_bind].
    rewrite (proj2 (Z.eqb_neq _ _) Hpflag). cbn [negb].
    rewrite Hplen, Hpstart, Z.shiftl_1_l, land_mask, Z.shiftr_div_pow2 by lia.
    rewrite (Hsub ((w / 2 ^ tb) mod 2 ^ nb)).
    + destruct (entry_fields res (x - tb)) as (Hlen & Hresult & Hflag); [lia | lia |].
      eauto.
    + apply Z.mod_pos_bound. lia.
    + rewrite mod_mod_pow2 by lia. rewrite div_mod_pow2 by lia.
      replace (tb + (x - tb)) with x by lia. rewrite Hwx.
      apply rev_bits_Z_high. lia.
Qed.

Lemma lens_ok_Forall (lens : list Z) (n M : Z) :
  n ≤ Z.of_nat (length lens) → Forall (λ x, 0 ≤ x ≤ M) lens → lens_ok lens n M.
Proof.
  intros Hn Hall. split; [done|]. intros s x _ Hx.
  by apply (proj1 (Forall_lookup _ _) Hall (Z.to_nat s) x).
Qed.

Lemma canonical_code_sym (lens : list Z) (n s l : Z) :
  lens !! Z.to_nat s = Some l → canonical_code lens n s = sym_code lens n s l.
Proof. intros Hl. unfold canonical_code. rewrite Hl. reflexivity. Qed.

(** ** Complete codes *)

Lemma space_find (cnt : Z → Z) (M p : Z) (m : nat) :
  0 ≤ p < space cnt M (Z.of_nat m + 1) →
  ∃ l, 1 ≤ l ≤ Z.of_nat m ∧ space cnt M l ≤ p < space cnt M (l + 1).
Proof.
  induction m as [|m IH]; intros Hp.
  { change (space cnt M (Z.of_nat 0 + 1)) with 0 in Hp. lia. }
  destruct (Z.lt_ge_cases p (space cnt M (Z.of_nat m + 1))) as [Hlt|Hge].
  - destruct IH as (l & Hl & Hpl); [lia|]. exists l. split; [lia | done].
  - exists (Z.of_nat (S m)). split; [lia|].
    replace (Z.of_nat (S m)) with (Z.of_nat m + 1) in * by lia. lia.
Qed.

(** In a complete code, every bit window begins with the codeword of some
    symbol. *)
Lemma complete_code_decodes (lens : list Z) (n M w : Z) :
  lens_ok lens n M → 0 ≤ n < 2 ^ 16 → 1 ≤ M ≤ 15 →
  codespace lens n M = 2 ^ M → 0 ≤ w →
  ∃ s l, decodes_to lens n w s l.
Proof.
  intros Hok Hn HM Hfull Hw. set (cnt := count_len lens n).
  assert (cnt_nonneg : ∀ l, 0 ≤ cnt l) by apply count_len_nonneg.
  rewrite <- (space_codespace lens n M) in Hfull by (lia || done). fold cnt in Hfull.
  pose proof (rev_bits_Z_range M (w mod 2 ^ M) ltac:(lia)) as Hp.
  set (p := rev_bits (Z.to_nat M) (w mod 2 ^ M)) in *.
  destruct (space_find cnt M p (Z.to_nat M)) as (l & Hl & Hpl).
  { rewrite Z2Nat.id by lia. lia. }
  rewrite Z2Nat.id in Hl by lia. rewrite (space_succ cnt M l) in Hpl by lia.
  pose proof (pow2_pos (M - l) ltac:(lia)) as Hpml.
  set (i := (p - space cnt M l) / 2 ^ (M - l)).
  assert (Hi : 0 ≤ i < cnt l).
  { unfold i. split; [apply Z.div_pos; lia|]. apply Z.div_lt_upper_bound; lia. }
  destruct (codeword_sym lens n M M Hok Hn ltac:(lia) l i) as (s & Hs & Hrank);
    [split; [lia | apply Hi]|].
  destruct Hs as (Hs & Hsl & _). exists s, l. split; [done|]. split; [done|].
  split; [lia|]. rewrite (canonical_code_sym lens n s l Hsl). unfold sym_code.
  rewrite Hrank. unfold code.
  pose proof (next_code_space cnt M (Z.to_nat l)) as Hnc.
  rewrite Z2Nat.id in Hnc by lia. specialize (Hnc ltac:(lia)).
  transitivity (p / 2 ^ (M - l)).
  - unfold p. rewrite (rev_bits_Z_high (M - l) M) by lia.
    replace (M - (M - l)) with l by lia. by rewrite mod_mod_pow2 by lia.
  - replace p with (p - space cnt M l + next_code cnt (Z.to_nat l) * 2 ^ (M - l)) by lia.
    rewrite Z.div_add by lia. fold cnt. fold i. lia.
Qed.

(** ** Reading a symbol from the stream *)

Lemma bits_value (s : InputStream) (k : Z) :
  0 ≤ k ≤ 31 → 0 ≤ bitbuf s → k ≤ bitsleft s →
  In.bits s k = Returned (bitbuf s mod 2 ^ k).
Proof.
  intros Hk Hb Hleft. unfold In.bits. rewrite (proj2 (Z.leb_le _ _) Hleft).
  cbn [assert mbind outcome_bind]. f_equal.
  assert (Hp : 1 ≤ 2 ^ k ≤ 2 ^ 31).
  { split; [pose proof (pow2_pos k); lia|]. apply Z.pow_le_mono_r; lia. }
  rewrite Z.shiftl_1_l, (u32_small (2 ^ k)), (u32_small (2 ^ k - 1)), land_mask by lia.
  pose proof (Z.mod_pos_bound (bitbuf s) (2 ^ k) ltac:(lia)). apply u32_small. lia.
Qed.

Lemma remove_bits_value (s : InputStream) (k : Z) :
  k ≤ bitsleft s →
  In.remove_bits s k
  = Returned (MkInputStream (Z.shiftr (bitbuf s) k) (bitsleft s - k) (overrun_count s)
                (in_next s) (in_end s) (in_mem s)).
Proof.
  intros Hleft. unfold In.remove_bits. by rewrite (proj2 (Z.leb_le _ _) Hleft).
Qed.

(** A stream whose bit buffer begins with the codeword of a symbol: the
    lookup returns an entry of the symbol and removes the codeword. *)
Lemma slot_decode_symbol (lens : list Z) (n : Z) (results : list Z) (tb M K : Z)
    (ph : phase) (cts ctb : Z) (t : table) (s x res : Z) (st : InputStream) :
  1 ≤ tb ≤ K → 1 ≤ M ≤ K → K ≤ 15 → 1 ≤ x ≤ M →
  0 ≤ sym_code lens n s x < 2 ^ x →
  results !! Z.to_nat s = Some res → 0 ≤ res < 2 ^ 23 →
  slot lens n results tb M K ph cts ctb t s x →
  0 ≤ bitbuf st → K ≤ bitsleft st →
  rev_bits (Z.to_nat x) (bitbuf st mod 2 ^ x) = sym_code lens n s x →
  ∃ e, decode_symbol t tb st
       = Returned (e, MkInputStream (Z.shiftr (bitbuf st) x) (bitsleft st - x)
                        (overrun_count st) (in_next st) (in_end st) (in_mem st)) ∧
       Z.shiftr e HUFFDEC_RESULT_SHIFT = res.
Proof.
  intros Htb HM HK Hx Hc Hres Hr (res' & Hres' & Hslot) Hw Hleft Hcode.
  assert (res' = res) as -> by congruence.
  set (w := bitbuf st) in *.
  pose proof (pow2_pos tb ltac:(lia)) as Hptb.
  pose proof (pow2_pos x ltac:(lia)) as Hpx.
  assert (Hwx : w mod 2 ^ x = rev_bits (Z.to_nat x) (sym_code lens n s x)).
  { rewrite <- Hcode, rev_bits_involutive, Z2Nat.id by lia.
    by rewrite Z.mod_mod by lia. }
  unfold decode_symbol. rewrite bits_value by (fold w; lia). fold w.
  cbn [mbind outcome_bind].
  destruct (Z.leb_spec x tb) as [Hxtb|Hxtb].
  - rewrite (Hslot (w mod 2 ^ tb)).
    + cbn [mem mbind outcome_bind].
      destruct (entry_fields res x) as (Hlen & Hresult & Hflag); [lia | lia |].
      rewrite Hflag. cbn [Z.eqb negb mbind outcome_bind]. rewrite Hlen.
      rewrite remove_bits_value by lia. cbn [mbind outcome_bind]. eauto.
    + apply Z.mod_pos_bound. lia.
    + by rewrite mod_mod_pow2 by lia.
  - destruct Hslot as (start & nb & Hptr & Hnb & HnbM & Hstart & Hbound & Hsub & _).
    pose proof (pow2_pos nb ltac:(lia)) as Hpnb.
    pose proof (pow2_le_15 tb ltac:(lia)). pose proof (pow2_le_15 K ltac:(lia)).
    destruct (pointer_fields start nb) as (Hplen & Hpstart & Hpflag); [lia | lia |].
    assert (Hidx : w mod 2 ^ tb
                   = rev_bits (Z.to_nat tb) (sym_code lens n s x / 2 ^ (x - tb))).
    { rewrite <- (mod_mod_pow2 w tb x), Hwx by lia. apply rev_bits_Z_low. lia. }
    rewrite Hidx, Hptr. cbn [mem mbind outcome_bind].
    rewrite (proj2 (Z.eqb_neq _ _) Hpflag). cbn [negb].
    rewrite remove_bits_value by lia. cbn [mbind outcome_bind].
    rewrite Hplen, Hpstart. fold w.
    rewrite bits_value; cbn [bitbuf bitsleft]; [| lia | apply Z.shiftr_nonneg; lia | lia].
    cbn [mbind outcome_bind]. rewrite Z.shiftr_div_pow2 by lia.
    rewrite (Hsub ((w / 2 ^ tb) mod 2 ^ nb)).
    + cbn [mem mbind outcome_bind].
      destruct (entry_fields res (x - tb)) as (Hlen & Hresult & Hflag); [lia | lia |].
      rewrite Hlen. rewrite remove_bits_value by (cbn [bitsleft]; lia).
      cbn [mbind outcome_bind bitbuf bitsleft overrun_count in_next in_end in_mem].
      exists (make_decode_table_entry res (x - tb)). split; [|done].
      do 3 f_equal; [|lia]. rewrite <- Z.shiftr_div_pow2, Z.shiftr_shiftr by lia.
      f_equal. lia.
    + apply Z.mod_pos_bound. lia.
    + rewrite mod_mod_pow2 by lia. rewrite div_mod_pow2 by lia.
      replace (tb + (x - tb)) with x by lia. rewrite Hwx.
      apply rev_bits_Z_high. lia.
Qed.

(** ** The table of an accepted code *)

Section decode_table.

Variables (lens : list Z) (n : Z) (results : list Z) (tb M : Z).

(** What the callers of [build_decode_table] guarantee: the lengths of the
    [n] symbols are at most [M], the decode results are 23-bit values (bit
    31 of an entry is the subtable flag), one for each symbol and at least
    one, and the table sizes are those of DEFLATE. *)
Hypothesis Hok : lens_ok lens n M.
Hypothesis Hn : 0 ≤ n < 2 ^ 16.
Hypothesis HM : 1 ≤ M ≤ 15.
Hypothesis Htb : 1 ≤ tb ≤ 15.
Hypothesis Hres : n ≤ Z.of_nat (length results).
Hypothesis Hres0 : (0 < length results)%nat.
Hypothesis Hres23 : Forall (λ r, 0 ≤ r < 2 ^ 23) results.

(** [build_decode_table] stays inside its arrays, and it returns false
    exactly when the lengths over-subscribe the codespace or leave some of
    it unused, the empty code and the code of one codeword of length 1
    apart. *)
Theorem build_decode_table_accepts (t0 : table) :
  ∃ b t, build_decode_table t0 lens n results tb M = Some (b, t) ∧
    (b = false ↔
     2 ^ M < codespace lens n M ∨
     (0 < codespace lens n M < 2 ^ M ∧
      ¬ (codespace lens n M = 2 ^ (M - 1) ∧ count_len lens n 1 = 1))).
Proof.
  clear Hres23.
  destruct (lookup_lt_is_Some_2 results 0 Hres0) as [r0 Hr0].
  destruct (build_decode_table_spec lens n results tb M Hok Hn HM Htb Hres t0 r0 Hr0)
    as (b & t & Hrun & Hb & _).
  rewrite (space_codespace lens n M) in Hb by (lia || done). eauto.
Qed.

(** For the empty code, [build_decode_table] returns true with the
    sentinel entry, the first decode result at length 1, in every entry of
    the main table; the rest of the table is as it was. *)
Theorem build_decode_table_empty_code (t0 : table) (r0 : Z) :
  results !! 0%nat = Some r0 → codespace lens n M = 0 →
  ∃ t, build_decode_table t0 lens n results tb M = Some (true, t) ∧
       ∀ x, t !! x = if (0 <=? x) && (x <? 2 ^ tb)
                     then Some (make_decode_table_entry r0 1) else t0 !! x.
Proof.
  clear Hres0 Hres23.
  intros Hr0 Hempty.
  destruct (build_decode_table_spec lens n results tb M Hok Hn HM Htb Hres t0 r0 Hr0)
    as (b & t & Hrun & Hb & _ & Ht).
  rewrite (space_codespace lens n M) in Hb, Ht by (lia || done).
  exists t. split; [|by apply Ht]. destruct b; [done|].
  pose proof (pow2_pos M ltac:(lia)). destruct (proj1 Hb eq_refl) as [?|[? _]]; lia.
Qed.

(** The entry that the window of a codeword reaches in the table of an
    accepted code. *)
Lemma table_reaches (t0 t : table) (w s l : Z) :
  build_decode_table t0 lens n results tb M = Some (true, t) →
  0 ≤ w → decodes_to lens n w s l →
  ∃ e res, reached t tb w = Some e ∧ results !! Z.to_nat s = Some res ∧
    Z.land e HUFFDEC_LENGTH_MASK = (if l <=? tb then l else l - tb) ∧
    Z.shiftr e HUFFDEC_RESULT_SHIFT = res.
Proof.
  clear Hres0.
  intros Hrun Hw (Hs & Hl & Hl0 & Hcode).
  destruct (lookup_lt_is_Some_2 results 0 ltac:(lia)) as [r0 Hr0].
  destruct (build_decode_table_spec lens n results tb M Hok Hn HM Htb Hres t0 r0 Hr0)
    as (b & t' & Hrun' & Hb & Hslots & _).
  rewrite Hrun in Hrun'. injection Hrun' as <- <-.
  destruct (Hslots eq_refl) as (ph & cts & ctb & Hslot).
  assert (Hsym : is_sym lens n s l) by (split; [done|]; split; [done | lia]).
  pose proof (is_sym_codeword lens n M Hok s l Hsym) as [HlM _].
  destruct (lookup_lt_is_Some_2 results (Z.to_nat s) ltac:(lia)) as [res Hres'].
  pose proof (proj1 (Forall_lookup _ _) Hres23 _ _ Hres') as Hr23. cbv beta in Hr23.
  set (K := Z.max tb M).
  assert (Htotal : space (count_len lens n) K (M + 1) ≤ 2 ^ K).
  { rewrite (space_scale _ M K) by lia.
    pose proof (pow2_pos (K - M) ltac:(lia)).
    rewrite (pow2_split K (K - M)) by lia. replace (K - (K - M)) with M by lia.
    destruct (Z.le_gt_cases (space (count_len lens n) M (M + 1)) (2 ^ M)) as [|Hgt];
      [nia|]. by pose proof (proj2 Hb (or_introl Hgt)). }
  pose proof (sym_code_range lens n M K Hok ltac:(lia) Htotal s l Hsym) as Hrange.
  rewrite (canonical_code_sym lens n s l Hl) in Hcode.
  destruct (slot_reached lens n results tb M K ph cts ctb t s l w res)
    as (e & Hreach & Hlen & Hresult); try done; try lia; [by apply Hslot|].
  exists e, res. done.
Qed.

(** In the table of an accepted code, a bit window that begins with the
    codeword of a symbol reaches an entry that holds the decode result of
    the symbol, and in its length field the length of the codeword, less
    [table_bits] in a subtable. *)
Theorem build_decode_table_decodes (t0 t : table) (w s l : Z) :
  build_decode_table t0 lens n results tb M = Some (true, t) →
  0 ≤ w → decodes_to lens n w s l →
  ∃ e res, reached t tb w = Some e ∧ results !! Z.to_nat s = Some res ∧
    Z.land e HUFFDEC_LENGTH_MASK = (if l <=? tb then l else l - tb) ∧
    Z.shiftr e HUFFDEC_RESULT_SHIFT = res.
Proof.
  clear Hres0. intros Hrun Hw Hdec.
  destruct (table_reaches t0 t w s l Hrun Hw Hdec) as (e & res & Hreach & Hres' & Hfields).
  exists e, res. split; [exact Hreach|]. split; [exact Hres' | exact Hfields].
Qed.

Lemma accepted_table (t0 t : table) :
  build_decode_table t0 lens n results tb M = Some (true, t) →
  all_slots lens n results tb M (Z.max tb M) t ∧
  space (count_len lens n) (Z.max tb M) (M + 1) ≤ 2 ^ Z.max tb M ∧
  codespace lens n M ≤ 2 ^ M.
Proof.
  clear Hres23. intros Hrun.
  destruct (lookup_lt_is_Some_2 results 0 Hres0) as [r0 Hr0].
  destruct (build_decode_table_spec lens n results tb M Hok Hn HM Htb Hres t0 r0 Hr0)
    as (b & t' & Hrun' & Hb & Hslots & _).
  rewrite Hrun in Hrun'. injection Hrun' as <- <-.
  split; [by apply Hslots|].
  assert (Hle : space (count_len lens n) M (M + 1) ≤ 2 ^ M).
  { destruct (Z.le_gt_cases (space (count_len lens n) M (M + 1)) (2 ^ M)) as [|Hgt];
      [done|]. by pose proof (proj2 Hb (or_introl Hgt)). }
  split; [|by rewrite <- (space_codespace lens n M) by (lia || done)].
  set (K := Z.max tb M). rewrite (space_scale _ M K) by lia.
  pose proof (pow2_pos (K - M) ltac:(lia)).
  rewrite (pow2_split K (K - M)) by lia. replace (K - (K - M)) with M by lia. nia.
Qed.

(** [decode_symbol] on the window of a codeword. *)
Lemma decode_symbol_entry (t0 t : table) (st : InputStream) (s l : Z) :
  build_decode_table t0 lens n results tb M = Some (true, t) →
  0 ≤ bitbuf st → Z.max tb M ≤ bitsleft st →
  decodes_to lens n (bitbuf st) s l →
  ∃ e res,
    decode_symbol t tb st
    = Returned (e, MkInputStream (Z.shiftr (bitbuf st) l) (bitsleft st - l)
                     (overrun_count st) (in_next st) (in_end st) (in_mem st)) ∧
    results !! Z.to_nat s = Some res ∧
    Z.shiftr e HUFFDEC_RESULT_SHIFT = res.
Proof.
  intros Hrun Hw Hleft (Hs & Hl & Hl0 & Hcode).
  destruct (accepted_table t0 t Hrun) as ((ph & cts & ctb & Hslot) & Htotal & _).
  assert (Hsym : is_sym lens n s l) by (split; [done|]; split; [done | lia]).
  pose proof (is_sym_codeword lens n M Hok s l Hsym) as [HlM _].
  destruct (lookup_lt_is_Some_2 results (Z.to_nat s) ltac:(lia)) as [res Hres'].
  pose proof (proj1 (Forall_lookup _ _) Hres23 _ _ Hres') as Hr23. cbv beta in Hr23.
  pose proof (sym_code_range lens n M (Z.max tb M) Hok ltac:(lia) Htotal s l Hsym)
    as Hrange.
  rewrite (canonical_code_sym lens n s l Hl) in Hcode.
  destruct (slot_decode_symbol lens n results tb M (Z.max tb M) ph cts ctb t s l res st)
    as (e & Hdec & Hresult); try done; try lia; [by apply Hslot|].
  by exists e, res.
Qed.

(** With the table of an accepted code, a stream that holds enough bits
    and begins with the codeword of a symbol: [decode_symbol] returns an
    entry with the decode result of the symbol and removes exactly the
    bits of the codeword from the bit buffer. *)
Theorem decode_symbol_decodes (t0 t : table) (st : InputStream) (s l : Z) :
  build_decode_table t0 lens n results tb M = Some (true, t) →
  0 ≤ bitbuf st → Z.max tb M ≤ bitsleft st →
  decodes_to lens n (bitbuf st) s l →
  ∃ e res,
    decode_symbol t tb st
    = Returned (e, MkInputStream (Z.shiftr (bitbuf st) l) (bitsleft st - l)
                     (overrun_count st) (in_next st) (in_end st) (in_mem st)) ∧
    results !! Z.to_nat s = Some res ∧
    Z.shiftr e HUFFDEC_RESULT_SHIFT = res.
Proof.
  intros Hrun Hw Hleft Hdec.
  destruct (decode_symbol_entry t0 t st s l Hrun Hw Hleft Hdec)
    as (e & res & Hsym & Hres' & Hsh).
  exists e, res. split; [exact Hsym|]. split; [exact Hres' | exact Hsh].
Qed.

(** The codes that [build_decode_table] accepts: not over-subscribed, and
    complete, empty, or made of one codeword of length 1. *)
Definition accepted_code (lens : list Z) (n M : Z) : Prop :=
  codespace lens n M ≤ 2 ^ M ∧
  (codespace lens n M = 2 ^ M ∨ codespace lens n M = 0 ∨
   (codespace lens n M = 2 ^ (M - 1) ∧ count_len lens n 1 = 1)).

Lemma accepted_code_built (t0 : table) :
  accepted_code lens n M →
  ∃ t, build_decode_table t0 lens n results tb M = Some (true, t).
Proof.
  clear Hres23. intros [Hle Hcases].
  destruct (lookup_lt_is_Some_2 results 0 Hres0) as [r0 Hr0].
  destruct (build_decode_table_spec lens n results tb M Hok Hn HM Htb Hres t0 r0 Hr0)
    as (b & t & Hrun & Hb & _).
  rewrite (space_codespace lens n M) in Hb by (lia || done).
  exists t. destruct b; [done|].
  pose proof (pow2_pos M ltac:(lia)).
  destruct (proj1 Hb eq_refl) as [?|[? Hnot]]; [lia|].
  destruct Hcases as [?|[?|?]]; [lia | lia | by destruct Hnot].
Qed.

(** A complete code is accepted, and in its table every bit window
    reaches the entry of a symbol whose codeword begins the window. *)
Theorem complete_code_table (t0 : table) :
  codespace lens n M = 2 ^ M →
  ∃ t, build_decode_table t0 lens n results tb M = Some (true, t) ∧
    ∀ w, 0 ≤ w →
      ∃ s l e res, decodes_to lens n w s l ∧ reached t tb w = Some e ∧
        results !! Z.to_nat s = Some res ∧
        Z.land e HUFFDEC_LENGTH_MASK = (if l <=? tb then l else l - tb) ∧
        Z.shiftr e HUFFDEC_RESULT_SHIFT = res.
Proof.
  intros Hfull. destruct (accepted_code_built t0) as (t & Hrun).
  { split; [lia|]. left. exact Hfull. }
  exists t. split; [done|]. intros w Hw.
  destruct (complete_code_decodes lens n M w Hok Hn HM Hfull Hw) as (s & l & Hdec).
  destruct (table_reaches t0 t w s l Hrun Hw Hdec) as (e & res & H).
  by exists s, l, e, res.
Qed.

(** The direct entries of the main table of a complete code. *)
Lemma main_table_entry (t0 t : table) (y : Z) :
  M ≤ tb → codespace lens n M = 2 ^ M →
  build_decode_table t0 lens n results tb M = Some (true, t) →
  0 ≤ y < 2 ^ tb →
  ∃ s l res, decodes_to lens n y s l ∧ results !! Z.to_nat s = Some res ∧
    t !! y = Some (make_decode_table_entry res l) ∧
    Z.land (make_decode_table_entry res l) HUFFDEC_SUBTABLE_POINTER = 0.
Proof.
  intros HMtb Hfull Hrun Hy.
  destruct (complete_code_decodes lens n M y Hok Hn HM Hfull ltac:(lia)) as (s & l & Hdec).
  pose proof Hdec as (Hs & Hl & Hl0 & Hcode).
  destruct (accepted_table t0 t Hrun) as ((ph & cts & ctb & Hslot) & Htotal & _).
  assert (Hsym : is_sym lens n s l) by (split; [done|]; split; [done | lia]).
  pose proof (is_sym_codeword lens n M Hok s l Hsym) as [HlM _].
  destruct (Hslot s l Hsym) as (res & Hres' & Hdirect).
  rewrite (proj2 (Z.leb_le l tb)) in Hdirect by lia.
  pose proof (proj1 (Forall_lookup _ _) Hres23 _ _ Hres') as Hr23. cbv beta in Hr23.
  exists s, l, res. split; [done|]. split; [done|]. split.
  - apply Hdirect; [done|].
    rewrite (canonical_code_sym lens n s l Hl) in Hcode.
    rewrite <- Hcode, rev_bits_involutive, Z2Nat.id by lia.
    by rewrite Z.mod_mod by (pose proof (pow2_pos l); lia).
  - by destruct (entry_fields res l) as (_ & _ & ?); [lia | lia |].
Qed.

(** When [table_bits] is not less than the longest codeword allowed, the
    main table of a complete code needs no subtable: each of its entries
    is the entry of the symbol whose codeword begins the index. *)
Theorem main_table_without_subtables (t0 t : table) (y : Z) :
  M ≤ tb → codespace lens n M = 2 ^ M →
  build_decode_table t0 lens n results tb M = Some (true, t) →
  0 ≤ y < 2 ^ tb →
  ∃ s l res, decodes_to lens n y s l ∧ results !! Z.to_nat s = Some res ∧
    t !! y = Some (make_decode_table_entry res l) ∧
    Z.land (make_decode_table_entry res l) HUFFDEC_SUBTABLE_POINTER = 0.
Proof.
  intros HMtb Hfull Hrun Hy.
  destruct (main_table_entry t0 t y HMtb Hfull Hrun Hy)
    as (s & l & res & Hdec & Hres' & Hentry & Hflag).
  exists s, l, res. split; [exact Hdec|]. split; [exact Hres'|].
  split; [exact Hentry | exact Hflag].
Qed.

End decode_table.

(** The code with the codewords 0, 10, 110 and 111, and its table with a
    main table of 4 entries. *)
Definition table_1233 : table :=
  default ∅ (snd <$> build_decode_table ∅ [1; 2; 3; 3] 4 [10; 11; 12; 13] 2 3).

Lemma lens_1233_ok : lens_ok [1; 2; 3; 3] 4 3.
Proof. apply lens_ok_Forall; [simpl; lia|]. repeat constructor; lia. Defined.

Lemma results_1233_ok : Forall (λ r, 0 ≤ r < 2 ^ 23) [10; 11; 12; 13].
Proof. repeat constructor; lia. Defined.

Lemma build_decode_table_accepts_witness :
  ∃ b t, build_decode_table ∅ [1; 2; 3; 3] 4 [10; 11; 12; 13] 2 3 = Some (b, t) ∧
    (b = false ↔
     2 ^ 3 < codespace [1; 2; 3; 3] 4 3 ∨
     (0 < codespace [1; 2; 3; 3] 4 3 < 2 ^ 3 ∧
      ¬ (codespace [1; 2; 3; 3] 4 3 = 2 ^ (3 - 1) ∧ count_len [1; 2; 3; 3] 4 1 = 1))).
Proof.
  apply (build_decode_table_accepts [1; 2; 3; 3] 4 [10; 11; 12; 13] 2 3 lens_1233_ok);
    simpl; lia.
Defined.

Lemma build_decode_table_empty_code_witness :
  ∃ t, build_decode_table ∅ [0; 0] 2 [5; 6] 1 1 = Some (true, t) ∧
       ∀ x, t !! x = if (0 <=? x) && (x <? 2 ^ 1)
                     then Some (make_decode_table_entry 5 1) else (∅ : table) !! x.
Proof.
  apply (build_decode_table_empty_code [0; 0] 2 [5; 6] 1 1).
  - apply lens_ok_Forall; [simpl; lia|]. repeat constructor; lia.
  - lia.
  - lia.
  - lia.
  - simpl. lia.
  - reflexivity.
  - reflexivity.
Defined.

Lemma build_decode_table_decodes_witness :
  decodes_to [1; 2; 3; 3] 4 3 2 3 ∧
  ∃ e res, reached table_1233 2 3 = Some e ∧ [10; 11; 12; 13] !! Z.to_nat 2 = Some res ∧
    Z.land e HUFFDEC_LENGTH_MASK = (if 3 <=? 2 then 3 else 3 - 2) ∧
    Z.shiftr e HUFFDEC_RESULT_SHIFT = res.
Proof.
  assert (Hdec : decodes_to [1; 2; 3; 3] 4 3 2 3).
  { split; [lia|]. split; [reflexivity|]. split; [lia | reflexivity]. }
  split; [exact Hdec|].
  apply (build_decode_table_decodes [1; 2; 3; 3] 4 [10; 11; 12; 13] 2 3 lens_1233_ok
           ltac:(lia) ltac:(lia) ltac:(lia) ltac:(simpl; lia) results_1233_ok ∅).
  - vm_compute. reflexivity.
  - lia.
  - exact Hdec.
Defined.

Lemma decode_symbol_decodes_witness :
  ∃ e res,
    decode_symbol table_1233 2 (MkInputStream 3 64 0 0 0 [])
    = Returned (e, MkInputStream (Z.shiftr 3 3) (64 - 3) 0 0 0 []) ∧
    [10; 11; 12; 13] !! Z.to_nat 2 = Some res ∧
    Z.shiftr e HUFFDEC_RESULT_SHIFT = res.
Proof.
  apply (decode_symbol_decodes [1; 2; 3; 3] 4 [10; 11; 12; 13] 2 3 lens_1233_ok
           ltac:(lia) ltac:(lia) ltac:(lia) ltac:(simpl; lia) ltac:(simpl; lia)
           results_1233_ok ∅ table_1233 (MkInputStream 3 64 0 0 0 []) 2 3).
  - vm_compute. reflexivity.
  - simpl. lia.
  - simpl. lia.
  - split; [lia|]. split; [reflexivity|]. split; [lia | reflexivity].
Defined.

Lemma complete_code_table_witness :
  ∃ t, build_decode_table ∅ [1; 2; 3; 3] 4 [10; 11; 12; 13] 2 3 = Some (true, t) ∧
    ∀ w, 0 ≤ w →
      ∃ s l e res, decodes_to [1; 2; 3; 3] 4 w s l ∧ reached t 2 w = Some e ∧
        [10; 11; 12; 13] !! Z.to_nat s = Some res ∧
        Z.land e HUFFDEC_LENGTH_MASK = (if l <=? 2 then l else l - 2) ∧
        Z.shiftr e HUFFDEC_RESULT_SHIFT = res.
Proof.
  apply (complete_code_table [1; 2; 3; 3] 4 [10; 11; 12; 13] 2 3 lens_1233_ok
           ltac:(lia) ltac:(lia) ltac:(lia) ltac:(simpl; lia) ltac:(simpl; lia)
           results_1233_ok ∅).
  reflexivity.
Defined.

(** The same code with a main table of 8 entries. *)
Definition table_1233_flat : table :=
  default ∅ (snd <$> build_decode_table ∅ [1; 2; 3; 3] 4 [10; 11; 12; 13] 3 3).

Lemma main_table_without_subtables_witness :
  ∃ s l res, decodes_to [1; 2; 3; 3] 4 3 s l ∧ [10; 11; 12; 13] !! Z.to_nat s = Some res ∧
    table_1233_flat !! 3 = Some (make_decode_table_entry res l) ∧
    Z.land (make_decode_table_entry res l) HUFFDEC_SUBTABLE_POINTER = 0.
Proof.
  apply (main_table_without_subtables [1; 2; 3; 3] 4 [10; 11; 12; 13] 3 3 lens_1233_ok
           ltac:(lia) ltac:(lia) ltac:(lia) ltac:(simpl; lia) ltac:(simpl; lia)
           results_1233_ok ∅ table_1233_flat 3).
  - lia.
  - reflexivity.
  - vm_compute. reflexivity.
  - lia.
Defined.

(** * The input stream *)

(** ** Bytes as a little-endian number *)

Lemma le_bytes_range (bs : list Z) :
  Forall is_byte bs → 0 ≤ le_bytes bs < 2 ^ (8 * Z.of_nat (length bs)).
Proof.
  induction 1 as [|b bs Hb _ IH]; [simpl; lia|]. cbn [le_bytes length].
  replace (8 * Z.of_nat (S (length bs))) with (8 + 8 * Z.of_nat (length bs)) by lia.
  rewrite Z.pow_add_r by lia. unfold is_byte in Hb. lia.
Qed.

Lemma le_bytes_drop (bs : list Z) (p : nat) :
  Forall is_byte bs → le_bytes (drop p bs) = le_bytes bs / 2 ^ (8 * Z.of_nat p).
Proof.
  intros Hbs. revert p. induction Hbs as [|b bs Hb _ IH]; intros p.
  { rewrite drop_nil. simpl. by rewrite Z.div_0_l by (apply Z.pow_nonzero; lia). }
  destruct p as [|p]; [by rewrite Z.div_1_r|]. cbn [drop le_bytes]. rewrite IH.
  replace (8 * Z.of_nat (S p)) with (8 + 8 * Z.of_nat p) by lia.
  rewrite Z.pow_add_r, <- Z.div_div by lia. f_equal.
  unfold is_byte in Hb. rewrite Z.add_comm, Z.mul_comm, Z.div_add_l by lia.
  rewrite Z.div_small by lia. lia.
Qed.

Lemma le_bytes_take (bs : list Z) (k : nat) :
  Forall is_byte bs → le_bytes (take k bs) = le_bytes bs mod 2 ^ (8 * Z.of_nat k).
Proof.
  intros Hbs. revert k. induction Hbs as [|b bs Hb _ IH]; intros k.
  { rewrite take_nil. simpl. by rewrite Z.mod_0_l by (apply Z.pow_nonzero; lia). }
  destruct k as [|k]; [by rewrite Z.mod_1_r|]. cbn [take le_bytes]. rewrite IH.
  replace (8 * Z.of_nat (S k)) with (8 + 8 * Z.of_nat k) by lia.
  rewrite Z.pow_add_r by lia. unfold is_byte in Hb.
  rewrite Z.rem_mul_r by lia. change (2 ^ 8) with 256.
  replace (b + 256 * le_bytes bs) with (b + le_bytes bs * 256) by lia.
  rewrite Z.mod_add, Z.div_add by lia.
  rewrite (Z.mod_small b), (Z.div_small b) by lia. by rewrite Z.add_0_l.
Qed.

(** The bytes [p .. p + k) of an input of [e] bytes. *)
Lemma le_bytes_window (m : list Z) (e p k : nat) :
  Forall is_byte (take e m) → (p + k ≤ e)%nat →
  le_bytes (take k (drop p m))
  = (le_bytes (take e m) / 2 ^ (8 * Z.of_nat p)) mod 2 ^ (8 * Z.of_nat k).
Proof.
  intros Hm Hpk. rewrite <- le_bytes_drop by done.
  rewrite <- le_bytes_take by by apply Forall_drop.
  f_equal. rewrite !take_drop_commute, take_take. do 2 f_equal. lia.
Qed.

(** ** Bits of a number *)

Lemma testbit_mod_pow2 (x a j : Z) :
  0 ≤ a → 0 ≤ j → Z.testbit (x mod 2 ^ a) j = (j <? a) && Z.testbit x j.
Proof.
  intros Ha Hj. destruct (Z.ltb_spec j a).
  - by rewrite Z.mod_pow2_bits_low.
  - by rewrite Z.mod_pow2_bits_high.
Qed.

(** Bits [bl .. bl + m) of [x], added to its low [a] bits. *)
Lemma lor_window (x a bl m : Z) :
  0 ≤ bl ≤ a → 0 ≤ m →
  Z.lor (x mod 2 ^ a) (2 ^ bl * ((x / 2 ^ bl) mod 2 ^ m)) = x mod 2 ^ Z.max a (bl + m).
Proof.
  intros Ha Hm. apply Z.bits_inj'. intros j Hj.
  rewrite Z.lor_spec, !testbit_mod_pow2 by lia.
  rewrite Z.mul_comm, <- Z.shiftl_mul_pow2 by lia.
  destruct (Z.lt_ge_cases j bl) as [Hlt|Hge].
  - rewrite Z.shiftl_spec_low by lia.
    rewrite (proj2 (Z.ltb_lt j a)), (proj2 (Z.ltb_lt j (Z.max a (bl + m)))) by lia.
    by rewrite orb_false_r.
  - rewrite Z.shiftl_spec_high, testbit_mod_pow2 by lia.
    rewrite <- Z.shiftr_div_pow2, Z.shiftr_spec by lia.
    replace (j - bl + bl) with j by lia.
    destruct (Z.ltb_spec j a), (Z.ltb_spec (j - bl) m), (Z.ltb_spec j (Z.max a (bl + m)));
      try lia; by destruct (Z.testbit x j).
Qed.

Lemma land_lnot7 (x : Z) : 0 ≤ x < 2 ^ 64 → Z.land x (u64 (Z.lnot 7)) = 8 * (x / 8).
Proof.
  intros Hx. change (u64 (Z.lnot 7)) with (Z.shiftl (Z.ones 61) 3).
  apply Z.bits_inj'. intros j Hj. rewrite Z.land_spec.
  change 8 with (2 ^ 3). rewrite Z.mul_comm, <- Z.shiftl_mul_pow2, <- Z.shiftr_div_pow2 by lia.
  destruct (Z.lt_ge_cases j 3) as [Hlt|Hge].
  - rewrite !Z.shiftl_spec_low by lia. apply andb_false_r.
  - rewrite !Z.shiftl_spec_high, Z.shiftr_spec by lia.
    replace (j - 3 + 3) with j by lia.
    destruct (Z.lt_ge_cases (j - 3) 61).
    + rewrite Z.ones_spec_low by lia. apply andb_true_r.
    + rewrite Z.ones_spec_high by lia. rewrite (testbit_small x 64) by lia. done.
Qed.

Lemma div_pow2_add (x a b : Z) : 0 ≤ a → 0 ≤ b → x / 2 ^ a / 2 ^ b = x / 2 ^ (a + b).
Proof.
  intros Ha Hb. rewrite Z.div_div, <- Z.pow_add_r by (try apply Z.pow_pos_nonneg; lia).
  done.
Qed.

(** ** The bit stream behind an [InputStream] *)

(** The input as one little-endian number: bit [i] of the input is bit
    [i mod 8] of the byte [i / 8]; past the end of the input the bits are 0. *)
Definition input_value (s : InputStream) : Z :=
  le_bytes (take (Z.to_nat (in_end s)) (in_mem s)).

(** The number of bits consumed so far: the bits of the bytes read, and of
    the bytes counted past the end, less the bits still in the bit buffer. *)
Definition stream_pos (s : InputStream) : Z :=
  8 * (in_next s + overrun_count s) - bitsleft s.

(** The bits that remain to be read. *)
Definition stream_bits (s : InputStream) : Z := input_value s / 2 ^ stream_pos s.

(** The state of a stream between two calls.  The bit buffer holds the
    next [bitsleft] bits of the input; above them it may hold [k] more
    bits of the input, which a word-wise fill leaves there. *)
Record stream_ok (s : InputStream) : Prop := MkStreamOk {
  so_bitsleft : 0 ≤ bitsleft s ≤ 64;
  so_next : 0 ≤ in_next s ≤ in_end s;
  so_end : in_end s ≤ Z.of_nat (length (in_mem s));
  so_bytes : Forall is_byte (take (Z.to_nat (in_end s)) (in_mem s));
  so_overrun : 0 ≤ overrun_count s ∧ (0 < overrun_count s → in_next s = in_end s);
  so_pos : 0 ≤ stream_pos s;
  so_bitbuf : ∃ k, 0 ≤ k ∧ bitsleft s + k ≤ 64 ∧
                   bitbuf s = stream_bits s mod 2 ^ (bitsleft s + k)
}.

Lemma input_value_range (s : InputStream) :
  stream_ok s → 0 ≤ input_value s < 2 ^ (8 * in_end s).
Proof.
  intros Hok. destruct Hok as [_ Hnext Hend Hbytes _ _ _].
  pose proof (le_bytes_range (take (Z.to_nat (in_end s)) (in_mem s)) Hbytes) as Hr.
  rewrite length_take in Hr. unfold input_value.
  replace (Z.of_nat (Z.to_nat (in_end s) `min` length (in_mem s))) with (in_end s) in Hr
    by lia. done.
Qed.

Lemma stream_bits_nonneg (s : InputStream) : stream_ok s → 0 ≤ stream_bits s.
Proof.
  intros Hok. pose proof (input_value_range s Hok). unfold stream_bits.
  apply Z.div_pos; [lia|]. apply Z.pow_pos_nonneg; [lia | apply (so_pos _ Hok)].
Qed.

(** What lies above the buffered bits: the input from [in_next] on. *)
Lemma stream_bits_next (s : InputStream) :
  stream_ok s → in_next s < in_end s →
  stream_bits s / 2 ^ bitsleft s = input_value s / 2 ^ (8 * in_next s).
Proof.
  intros Hok Hlt. destruct Hok as [Hbl Hnext _ _ [Hov0 Hov] Hpos _].
  assert (overrun_count s = 0) as Hz by (destruct (decide (0 < overrun_count s)); lia).
  unfold stream_bits. rewrite div_pow2_add by lia. f_equal. f_equal.
  unfold stream_pos. lia.
Qed.

Lemma stream_bits_end (s : InputStream) :
  stream_ok s → in_next s = in_end s → stream_bits s / 2 ^ bitsleft s = 0.
Proof.
  intros Hok Heq. pose proof (input_value_range s Hok) as Hr.
  destruct Hok as [Hbl Hnext _ _ [Hov0 Hov] Hpos _].
  unfold stream_bits. rewrite div_pow2_add by lia. apply Z.div_small.
  split; [lia|]. eapply Z.lt_le_trans; [apply Hr|].
  apply Z.pow_le_mono_r; [lia|]. unfold stream_pos. lia.
Qed.

Lemma input_byte (s : InputStream) :
  stream_ok s → in_next s < in_end s →
  load_byte (in_mem s) (in_next s)
  = Some ((stream_bits s / 2 ^ bitsleft s) mod 2 ^ 8).
Proof.
  intros Hok Hlt. rewrite (stream_bits_next s Hok Hlt).
  destruct Hok as [Hbl Hnext Hend Hbytes _ _ _].
  unfold load_byte. rewrite decide_True by lia. unfold rd.
  destruct (lookup_lt_is_Some_2 (in_mem s) (Z.to_nat (in_next s)) ltac:(lia)) as [b Hb].
  rewrite Hb. f_equal.
  pose proof (le_bytes_window (in_mem s) (Z.to_nat (in_end s)) (Z.to_nat (in_next s)) 1
                Hbytes ltac:(lia)) as Hw.
  rewrite (drop_S _ _ _ Hb) in Hw. cbn [take le_bytes] in Hw.
  rewrite Z2Nat.id in Hw by lia. fold (input_value s) in Hw.
  change (8 * Z.of_nat 1) with 8 in Hw. rewrite take_0 in Hw. cbn [le_bytes] in Hw. lia.
Qed.

Lemma input_word (s : InputStream) :
  stream_ok s → WORDBYTES ≤ in_end s - in_next s →
  ∃ bs, load_bytes (in_mem s) (in_next s) WORDBYTES = Some bs ∧
        le_bytes bs = (stream_bits s / 2 ^ bitsleft s) mod 2 ^ 64.
Proof.
  intros Hok Hlt. assert (HWB : WORDBYTES = 8) by reflexivity.
  rewrite (stream_bits_next s Hok) by lia.
  destruct Hok as [Hbl Hnext Hend Hbytes _ _ _].
  unfold load_bytes. rewrite decide_True by lia. eexists. split; [reflexivity|].
  rewrite (le_bytes_window (in_mem s) (Z.to_nat (in_end s))) by (done || lia).
  rewrite !Z2Nat.id by lia. rewrite HWB. done.
Qed.

(** ** Filling the bit buffer *)

Lemma stream_bits_same (s s' : InputStream) :
  in_end s' = in_end s → in_mem s' = in_mem s → stream_pos s' = stream_pos s →
  stream_bits s' = stream_bits s.
Proof. intros He Hm Hp. unfold stream_bits, input_value. by rewrite He, Hm, Hp. Qed.

(** A fill: the stream is the same bit stream at the same position, with
    more bits in the buffer. *)
Definition refilled (s s' : InputStream) : Prop :=
  stream_ok s' ∧ stream_pos s' = stream_pos s ∧
  in_end s' = in_end s ∧ in_mem s' = in_mem s ∧
  bitsleft s ≤ bitsleft s' ∧ overrun_count s ≤ overrun_count s'.

Lemma refilled_trans (s1 s2 s3 : InputStream) :
  refilled s1 s2 → refilled s2 s3 → refilled s1 s3.
Proof.
  intros (_ & Hp1 & He1 & Hm1 & Hb1 & Ho1) (Hok & Hp2 & He2 & Hm2 & Hb2 & Ho2).
  split; [done|]. split; [congruence|]. split; [congruence|]. split; [congruence|]. lia.
Qed.

(** One pass of [fill_bits_bytewise] that reads a byte. *)
Lemma bytewise_read (s : InputStream) :
  stream_ok s → bitsleft s ≤ 56 → in_next s < in_end s →
  let b := (stream_bits s / 2 ^ bitsleft s) mod 2 ^ 8 in
  let s2 := MkInputStream (Z.lor (bitbuf s) (word (Z.shiftl b (bitsleft s))))
              (u64 (bitsleft s + 8)) (overrun_count s) (in_next s + 1) (in_end s)
              (in_mem s) in
  refilled s s2 ∧ bitsleft s2 = bitsleft s + 8 ∧ overrun_count s2 = overrun_count s.
Proof.
  intros Hok H56 Hlt b s2. pose proof (stream_bits_nonneg s Hok) as HT.
  pose proof Hok as [Hbl Hnext Hend Hbytes [Hov0 Hov] Hpos (k & Hk & Hkb & Hbuf)].
  assert (Hbl2 : bitsleft s2 = bitsleft s + 8).
  { unfold s2. cbn [bitsleft]. apply u64_small. lia. }
  assert (Hpos2 : stream_pos s2 = stream_pos s).
  { unfold stream_pos. rewrite Hbl2. cbn [in_next overrun_count s2]. lia. }
  split; [|done]. split; [|split; [done|]; split; [done|]; split; [done|]; split; [lia | done]].
  split.
  - rewrite Hbl2. lia.
  - cbn [in_next in_end s2]. lia.
  - done.
  - done.
  - cbn [overrun_count in_next in_end s2]. split; [lia|]. intros. lia.
  - lia.
  - exists (Z.max k 8 - 8). split; [lia|]. rewrite Hbl2. split; [lia|].
    rewrite (stream_bits_same s s2) by done. cbn [bitbuf s2].
    pose proof (Z.mod_pos_bound (stream_bits s / 2 ^ bitsleft s) (2 ^ 8) ltac:(lia)) as Hb.
    fold b in Hb. pose proof (pow2_pos (bitsleft s) ltac:(lia)) as Hp.
    assert (Hp56 : 2 ^ bitsleft s ≤ 2 ^ 56) by (apply Z.pow_le_mono_r; lia).
    unfold word, WORDBITS. change (8 * WORDBYTES) with 64.
    rewrite Z.shiftl_mul_pow2 by lia. rewrite (Z.mod_small (b * _)) by nia.
    rewrite Hbuf, (Z.mul_comm b). unfold b. rewrite lor_window by lia.
    f_equal. f_equal. lia.
Qed.

(** One pass of [fill_bits_bytewise] past the end of the input. *)
Lemma bytewise_overrun (s : InputStream) :
  stream_ok s → bitsleft s ≤ 56 → in_next s = in_end s → overrun_count s + 1 < 2 ^ 64 →
  let s2 := MkInputStream (bitbuf s) (u64 (bitsleft s + 8)) (u64 (overrun_count s + 1))
              (in_next s) (in_end s) (in_mem s) in
  refilled s s2 ∧ bitsleft s2 = bitsleft s + 8 ∧
  overrun_count s2 = overrun_count s + 1.
Proof.
  intros Hok H56 Heq Hov64 s2. pose proof (stream_bits_nonneg s Hok) as HT.
  pose proof (stream_bits_end s Hok Heq) as Hend0.
  pose proof Hok as [Hbl Hnext Hend Hbytes [Hov0 Hov] Hpos (k & Hk & Hkb & Hbuf)].
  assert (Hbl2 : bitsleft s2 = bitsleft s + 8).
  { unfold s2. cbn [bitsleft]. apply u64_small. lia. }
  assert (Hov2 : overrun_count s2 = overrun_count s + 1).
  { unfold s2. cbn [overrun_count]. apply u64_small. lia. }
  assert (Hpos2 : stream_pos s2 = stream_pos s).
  { unfold stream_pos. rewrite Hbl2, Hov2. cbn [in_next s2]. lia. }
  split; [|done]. split; [|split; [done|]; split; [done|]; split; [done|]; split; lia].
  split.
  - rewrite Hbl2. lia.
  - done.
  - done.
  - done.
  - rewrite Hov2. cbn [in_next in_end s2]. split; [lia | done].
  - lia.
  - exists 0. split; [lia|]. rewrite Hbl2. split; [lia|].
    rewrite (stream_bits_same s s2) by done. cbn [bitbuf s2].
    pose proof (pow2_pos (bitsleft s) ltac:(lia)) as Hp.
    assert (Hsmall : stream_bits s < 2 ^ bitsleft s).
    { destruct (Z.lt_ge_cases (stream_bits s) (2 ^ bitsleft s)) as [|Hge]; [done|].
      pose proof (Z.div_le_lower_bound (stream_bits s) (2 ^ bitsleft s) 1 Hp ltac:(lia)).
      lia. }
    rewrite Hbuf, !Z.mod_small; [done | |].
    + split; [done|]. eapply Z.lt_le_trans; [apply Hsmall|].
      apply Z.pow_le_mono_r; lia.
    + split; [done|]. eapply Z.lt_le_trans; [apply Hsmall|].
      apply Z.pow_le_mono_r; lia.
Qed.

Lemma fill_bits_bytewise_spec (fuel : nat) (s : InputStream) :
  stream_ok s → bitsleft s ≤ 56 → 64 - bitsleft s ≤ 8 * Z.of_nat fuel →
  overrun_count s + Z.of_nat fuel < 2 ^ 64 →
  ∃ s', In.fill_bits_bytewise fuel s = Returned s' ∧ refilled s s' ∧ 57 ≤ bitsleft s'.
Proof.
  revert s. induction fuel as [|fuel IH]; intros s Hok H56 Hfuel Hov; [lia|].
  pose proof Hok as [Hbl Hnext _ _ [Hov0 _] _ _].
  assert (Hcont : ∀ s2, refilled s s2 → bitsleft s2 = bitsleft s + 8 →
            overrun_count s2 ≤ overrun_count s + 1 →
            ∃ s', (if bitsleft s2 <=? In.bitbuf_length - 8
                   then In.fill_bits_bytewise fuel s2 else Returned s2) = Returned s' ∧
                  refilled s s' ∧ 57 ≤ bitsleft s').
  { intros s2 Href Hbl2 Hov2. change (In.bitbuf_length - 8) with 56.
    destruct (Z.leb_spec (bitsleft s2) 56) as [Hle|Hgt].
    - destruct (IH s2) as (s' & Hrun' & Href' & Hbl'); [apply Href | lia | lia | lia |].
      exists s'. split; [done|]. split; [|done]. by apply (refilled_trans s s2).
    - exists s2. split; [done|]. split; [done | lia]. }
  cbn [In.fill_bits_bytewise].
  destruct (Z.eqb_spec (in_next s) (in_end s)) as [Heq|Hne]; cbn [negb].
  - destruct (bytewise_overrun s Hok H56 Heq ltac:(lia)) as (Href & Hbl2 & Hov2).
    refine (Hcont _ Href Hbl2 _). lia.
  - rewrite (input_byte s Hok) by lia. cbn [mem mbind outcome_bind].
    destruct (bytewise_read s Hok H56 ltac:(lia)) as (Href & Hbl2 & Hov2).
    refine (Hcont _ Href Hbl2 _). lia.
Qed.

Lemma word_shifted (x bl : Z) :
  0 ≤ bl ≤ 64 → word (Z.shiftl (x mod 2 ^ 64) bl) = 2 ^ bl * (x mod 2 ^ (64 - bl)).
Proof.
  intros Hbl. unfold word, WORDBITS. change (8 * WORDBYTES) with 64.
  rewrite Z.shiftl_mul_pow2 by lia. rewrite (pow2_split 64 bl) at 2 by lia.
  rewrite (Z.mul_comm _ (2 ^ bl)).
  rewrite Z.mul_mod_distr_l by (apply Z.pow_nonzero; lia).
  by rewrite mod_mod_pow2 by lia.
Qed.

Lemma fill_bits_wordwise_spec (s : InputStream) :
  stream_ok s → WORDBYTES ≤ in_end s - in_next s →
  ∃ s', In.fill_bits_wordwise s = Returned s' ∧ refilled s s' ∧ 57 ≤ bitsleft s'.
Proof.
  intros Hok Hroom. assert (HWB : WORDBYTES = 8) by reflexivity.
  destruct (input_word s Hok Hroom) as (bs & Hload & Hword).
  pose proof Hok as [Hbl Hnext Hend Hbytes [Hov0 Hov] Hpos (k & Hk & Hkb & Hbuf)].
  assert (Hz : overrun_count s = 0) by (destruct (decide (0 < overrun_count s)); lia).
  unfold In.fill_bits_wordwise. rewrite Hload. cbn [mem mbind outcome_bind].
  change In.bitbuf_length with 64.
  rewrite (u64_small (64 - bitsleft s)), land_lnot7, Z.shiftr_div_pow2 by lia.
  change (2 ^ 3) with 8. set (q := (64 - bitsleft s) / 8).
  assert (Hq : 64 - bitsleft s - 7 ≤ 8 * q ≤ 64 - bitsleft s).
  { unfold q. pose proof (Z.div_mod (64 - bitsleft s) 8 ltac:(lia)).
    pose proof (Z.mod_pos_bound (64 - bitsleft s) 8 ltac:(lia)). lia. }
  rewrite (u64_small (bitsleft s + 8 * q)) by lia.
  eexists. split; [reflexivity|].
  assert (Hpos' : stream_pos (MkInputStream
                    (Z.lor (bitbuf s) (word (Z.shiftl (le_bytes bs) (bitsleft s))))
                    (bitsleft s + 8 * q) (overrun_count s) (in_next s + q) (in_end s)
                    (in_mem s)) = stream_pos s).
  { unfold stream_pos. cbn [in_next overrun_count bitsleft]. lia. }
  split; [|cbn [bitsleft]; lia].
  split; [|split; [done|]; split; [done|]; split; [done|]; cbn [bitsleft overrun_count]; lia].
  split; cbn [bitsleft in_next in_end in_mem overrun_count].
  - lia.
  - lia.
  - done.
  - done.
  - split; [lia|]. intros. lia.
  - lia.
  - exists (64 - (bitsleft s + 8 * q)). split; [lia|]. split; [lia|].
    rewrite (stream_bits_same s _) by done. cbn [bitbuf].
    rewrite Hword, word_shifted, Hbuf, lor_window by lia.
    f_equal. f_equal. lia.
Qed.

(** [ensure_bits<n>]: the bits are there afterwards, and none was
    consumed; past the end of the input the bits are 0. *)
Lemma ensure_bits_refilled (n : Z) (s : InputStream) :
  stream_ok s → n ≤ In.bitbuf_max_ensure → overrun_count s < 2 ^ 63 →
  ∃ s', In.ensure_bits n s = Returned s' ∧ refilled s s' ∧ n ≤ bitsleft s'.
Proof.
  intros Hok Hn Hov. change In.bitbuf_max_ensure with 57 in Hn.
  unfold In.ensure_bits, In.have_bits.
  destruct (Z.leb_spec n (bitsleft s)) as [Hhave|Hneed]; cbn [negb].
  { exists s. split; [done|]. split; [|done].
    split; [done|]. split; [done|]. split; [done|]. split; [done|]. lia. }
  destruct (Z.leb_spec WORDBYTES (in_end s - in_next s)) as [Hword|Hbytes].
  - destruct (fill_bits_wordwise_spec s Hok Hword) as (s' & Hrun & Href & Hbl).
    exists s'. split; [done|]. split; [done | lia].
  - destruct (fill_bits_bytewise_spec (Z.to_nat In.bitbuf_length) s Hok)
      as (s' & Hrun & Href & Hbl).
    + lia.
    + change (Z.to_nat In.bitbuf_length) with 64%nat. pose proof (so_bitsleft s Hok). lia.
    + change (Z.to_nat In.bitbuf_length) with 64%nat. lia.
    + exists s'. split; [done|]. split; [done | lia].
Qed.

(** ** Reading bits *)

(** [n] bits were consumed between [s] and [s']. *)
Definition consumed (n : Z) (s s' : InputStream) : Prop :=
  stream_ok s' ∧ stream_pos s' = stream_pos s + n ∧
  in_end s' = in_end s ∧ in_mem s' = in_mem s ∧
  bitsleft s' = bitsleft s - n ∧ overrun_count s' = overrun_count s.

Lemma bitbuf_nonneg (s : InputStream) : stream_ok s → 0 ≤ bitbuf s.
Proof.
  intros Hok. destruct (so_bitbuf s Hok) as (k & Hk & Hkb & ->).
  pose proof (so_bitsleft s Hok). apply Z.mod_pos_bound, pow2_pos. lia.
Qed.

Lemma bitbuf_low (s : InputStream) (n : Z) :
  stream_ok s → 0 ≤ n ≤ bitsleft s → bitbuf s mod 2 ^ n = stream_bits s mod 2 ^ n.
Proof.
  intros Hok Hn. destruct (so_bitbuf s Hok) as (k & Hk & Hkb & ->).
  apply mod_mod_pow2. lia.
Qed.

Lemma remove_bits_consumed (s : InputStream) (n : Z) :
  stream_ok s → 0 ≤ n ≤ bitsleft s →
  ∃ s', In.remove_bits s n = Returned s' ∧ consumed n s s'.
Proof.
  intros Hok Hn. rewrite remove_bits_value by lia. eexists. split; [reflexivity|].
  pose proof Hok as [Hbl Hnext Hend Hbytes Hov Hpos (k & Hk & Hkb & Hbuf)].
  assert (Hpos' : stream_pos (MkInputStream (Z.shiftr (bitbuf s) n) (bitsleft s - n)
                    (overrun_count s) (in_next s) (in_end s) (in_mem s))
                  = stream_pos s + n).
  { unfold stream_pos. cbn [in_next overrun_count bitsleft]. lia. }
  split; [|done]. split; cbn [bitsleft in_next in_end in_mem overrun_count].
  - lia.
  - done.
  - done.
  - done.
  - done.
  - lia.
  - exists k. split; [done|]. split; [lia|]. cbn [bitbuf].
    unfold stream_bits at 1. rewrite Hpos'. cbn [in_end in_mem].
    change (le_bytes (take (Z.to_nat (in_end s)) (in_mem s))) with (input_value s).
    rewrite <- div_pow2_add by lia. fold (stream_bits s).
    rewrite Hbuf, Z.shiftr_div_pow2, div_mod_pow2 by lia. do 3 f_equal. lia.
Qed.

Lemma pop_bits_consumed (s : InputStream) (n : Z) :
  stream_ok s → 0 ≤ n ≤ 31 → n ≤ bitsleft s →
  ∃ s', In.pop_bits s n = Returned (stream_bits s mod 2 ^ n, s') ∧ consumed n s s'.
Proof.
  intros Hok Hn Hleft. unfold In.pop_bits.
  rewrite bits_value by (try apply bitbuf_nonneg; done || lia).
  cbn [mbind outcome_bind].
  destruct (remove_bits_consumed s n Hok ltac:(lia)) as (s' & Hrun & Hcons).
  rewrite Hrun. cbn [mbind outcome_bind]. exists s'. split; [|done].
  by rewrite bitbuf_low by (done || lia).
Qed.

Lemma input_value_same (s s' : InputStream) :
  in_end s' = in_end s → in_mem s' = in_mem s → input_value s' = input_value s.
Proof. intros He Hm. unfold input_value. by rewrite He, Hm. Qed.

(** A new stream is at position 0 of its input. *)
Lemma make_stream_ok (in_ : list Z) (len : Z) :
  0 ≤ len ≤ Z.of_nat (length in_) → Forall is_byte (take (Z.to_nat len) in_) →
  stream_ok (In.make in_ len) ∧ stream_pos (In.make in_ len) = 0 ∧
  input_value (In.make in_ len) = le_bytes (take (Z.to_nat len) in_).
Proof.
  intros Hlen Hbytes. split; [|split; reflexivity].
  split; unfold In.make; cbn [bitsleft in_next in_end in_mem overrun_count].
  - lia.
  - lia.
  - lia.
  - done.
  - split; [lia|]. intros. lia.
  - unfold stream_pos. cbn [bitsleft in_next overrun_count]. lia.
  - exists 0. split; [lia|]. split; [lia|]. cbn [bitbuf]. by rewrite Z.mod_1_r.
Qed.

(** [ensure_bits<n>] with [n] up to [bitbuf_max_ensure] returns, without
    reading outside the input, a stream that holds at least [n] bits and
    stands at the same position of the same input. *)
Theorem ensure_bits_keeps_position (n : Z) (s : InputStream) :
  stream_ok s → n ≤ In.bitbuf_max_ensure → overrun_count s < 2 ^ 63 →
  ∃ s', In.ensure_bits n s = Returned s' ∧ stream_ok s' ∧ n ≤ bitsleft s' ∧
        stream_pos s' = stream_pos s ∧ input_value s' = input_value s.
Proof.
  intros Hok Hn Hov.
  destruct (ensure_bits_refilled n s Hok Hn Hov)
    as (s' & Hrun & (Hok' & Hpos & He & Hm & _) & Hbl).
  exists s'. split; [done|]. split; [done|]. split; [done|]. split; [done|].
  by apply input_value_same.
Qed.

(** [pop_bits(n)] on a stream that holds [n] bits returns the next [n]
    bits of the input, the first bit in bit 0, and moves [n] bits on. *)
Theorem pop_bits_reads_input (n : Z) (s : InputStream) :
  stream_ok s → 0 ≤ n ≤ 31 → n ≤ bitsleft s →
  ∃ s', In.pop_bits s n
        = Returned ((input_value s / 2 ^ stream_pos s) mod 2 ^ n, s') ∧
        stream_ok s' ∧ stream_pos s' = stream_pos s + n ∧
        bitsleft s' = bitsleft s - n ∧ input_value s' = input_value s.
Proof.
  intros Hok Hn Hleft.
  destruct (pop_bits_consumed s n Hok Hn Hleft)
    as (s' & Hrun & Hok' & Hpos & He & Hm & Hbl & _).
  exists s'. split; [done|]. split; [done|]. split; [done|]. split; [done|].
  by apply input_value_same.
Qed.

(** [align_input] on a stream that has not run past the end of its input
    empties the bit buffer and puts the whole bytes in it back: the stream
    then stands at the next byte boundary. *)
Theorem align_input_byte_boundary (s : InputStream) :
  stream_ok s → overrun_count s = 0 →
  stream_ok (In.align_input s) ∧
  bitsleft (In.align_input s) = 0 ∧
  in_next (In.align_input s) = (stream_pos s + 7) / 8 ∧
  stream_pos (In.align_input s) = 8 * ((stream_pos s + 7) / 8) ∧
  input_value (In.align_input s) = input_value s.
Proof.
  intros Hok Hov. pose proof Hok as [Hbl Hnext Hend Hbytes _ Hpos _].
  unfold stream_pos in Hpos. rewrite Hov in Hpos.
  pose proof (Z.div_mod (bitsleft s) 8 ltac:(lia)) as Hdm.
  pose proof (Z.mod_pos_bound (bitsleft s) 8 ltac:(lia)) as Hmb.
  assert (Hq : 0 ≤ bitsleft s / 8 ≤ 8) by (split; [apply Z.div_pos; lia|]; lia).
  assert (Hnext' : in_next (In.align_input s) = in_next s - bitsleft s / 8).
  { unfold In.align_input. cbn [in_next]. rewrite Hov, Z.shiftr_div_pow2 by lia.
    change (2 ^ 3) with 8. rewrite Z.min_l by lia. rewrite Z.sub_0_r, u64_small by lia.
    done. }
  assert (Hceil : (stream_pos s + 7) / 8 = in_next s - bitsleft s / 8).
  { unfold stream_pos. rewrite Hov. symmetry.
    apply (Z.div_unique _ 8 _ (7 - bitsleft s mod 8)); lia. }
  assert (Hpos' : stream_pos (In.align_input s) = 8 * (in_next s - bitsleft s / 8)).
  { unfold stream_pos. rewrite Hnext'. unfold In.align_input.
    cbn [overrun_count bitsleft]. lia. }
  split; [|split; [done|]; split; [congruence|]; split; [congruence | done]].
  split.
  - unfold In.align_input. cbn [bitsleft]. lia.
  - rewrite Hnext'. unfold In.align_input. cbn [in_end]. lia.
  - done.
  - done.
  - unfold In.align_input. cbn [overrun_count]. split; [lia|]. intros. lia.
  - rewrite Hpos'. lia.
  - exists 0. split; [lia|]. split; [unfold In.align_input; cbn [bitsleft]; lia|].
    unfold In.align_input at 1 3. cbn [bitbuf bitsleft]. by rewrite Z.mod_1_r.
Qed.

(** ** The block header *)

Lemma consumed_bits (n : Z) (s s' : InputStream) :
  stream_ok s → 0 ≤ n → consumed n s s' → stream_bits s' = stream_bits s / 2 ^ n.
Proof.
  intros Hok Hn (_ & Hpos & He & Hm & _). unfold stream_bits.
  rewrite (input_value_same s s' He Hm), Hpos.
  rewrite div_pow2_add by (try apply (so_pos s Hok); lia). done.
Qed.

Lemma refilled_bits (s s' : InputStream) : refilled s s' → stream_bits s' = stream_bits s.
Proof. intros (_ & Hpos & He & Hm & _). by apply stream_bits_same. Qed.

(** The header of a block: BFINAL is the next bit of the input and BTYPE
    the two bits after it. *)
Lemma block_header (s : InputStream) :
  stream_ok s → overrun_count s < 2 ^ 63 →
  ∃ s1 s2 s3,
    In.ensure_bits (1 + 2 + 5 + 5 + 4) s = Returned s1 ∧
    In.pop_bits s1 1 = Returned (stream_bits s mod 2, s2) ∧
    In.pop_bits s2 2 = Returned ((stream_bits s / 2) mod 4, s3) ∧
    stream_ok s3 ∧ stream_pos s3 = stream_pos s + 3.
Proof.
  intros Hok Hov.
  destruct (ensure_bits_refilled (1 + 2 + 5 + 5 + 4) s Hok) as (s1 & Hrun1 & Href & Hbl1);
    [unfold In.bitbuf_max_ensure, In.bitbuf_length, WORDBYTES; lia | done |].
  pose proof Href as (Hok1 & Hpos1 & _).
  destruct (pop_bits_consumed s1 1 Hok1) as (s2 & Hrun2 & Hcons2); [lia | lia |].
  pose proof Hcons2 as (Hok2 & Hpos2 & _ & _ & Hbl2 & _).
  destruct (pop_bits_consumed s2 2 Hok2) as (s3 & Hrun3 & Hcons3); [lia | lia |].
  pose proof Hcons3 as (Hok3 & Hpos3 & _).
  rewrite (consumed_bits 1 s1 s2 Hok1 ltac:(lia) Hcons2) in Hrun3.
  rewrite (refilled_bits s s1 Href) in Hrun2, Hrun3.
  exists s1, s2, s3. split; [done|]. split; [done|]. split; [done|]. split; [done | lia].
Qed.

(** A block whose header says BTYPE = 0 stops the process at the first
    assertion of [do_uncompressed]; one whose header says BTYPE = 3 stops
    it in [assert(false)]. *)
Lemma do_block_aborts (fuel : nat) (d : libdeflate_decompressor) (s : InputStream)
    (out : DeflateWindow) :
  stream_ok s → overrun_count s < 2 ^ 63 →
  ((stream_bits s / 2) mod 4 = DEFLATE_BLOCKTYPE_UNCOMPRESSED →
   do_block fuel d s out = Aborted "in_stream.size() >= 4") ∧
  ((stream_bits s / 2) mod 4 = 3 → do_block fuel d s out = Aborted "false").
Proof.
  intros Hok Hov.
  destruct (block_header s Hok Hov) as (s1 & s2 & s3 & Hrun1 & Hrun2 & Hrun3 & _).
  unfold do_block. rewrite Hrun1. cbn [mbind outcome_bind]. rewrite Hrun2.
  cbn [mbind outcome_bind]. rewrite Hrun3. cbn [mbind outcome_bind].
  split; intros ->.
  - rewrite Z.eqb_refl. unfold do_uncompressed, In.size. by rewrite u64_sub_diag.
  - reflexivity.
Qed.

(** BTYPE, read from the first byte of a non-empty input. *)
Lemma first_byte_header (in_ : list Z) (n b : Z) :
  1 ≤ n → in_ !! 0%nat = Some b → Forall is_byte (take (Z.to_nat n) in_) →
  (le_bytes (take (Z.to_nat n) in_) / 2) mod 4 = (b / 2) mod 4.
Proof.
  intros Hn Hb Hbytes. destruct in_ as [|b' rest]; [done|]. injection Hb as ->.
  replace (Z.to_nat n) with (S (Z.to_nat (n - 1))) in * by lia. cbn [take le_bytes].
  replace (b + 256 * le_bytes (take (Z.to_nat (n - 1)) rest))
    with (b + 128 * le_bytes (take (Z.to_nat (n - 1)) rest) * 2) by lia.
  rewrite Z.div_add by lia.
  replace (b / 2 + 128 * le_bytes (take (Z.to_nat (n - 1)) rest))
    with (b / 2 + 32 * le_bytes (take (Z.to_nat (n - 1)) rest) * 4) by lia.
  by rewrite Z.mod_add by lia.
Qed.

Lemma first_block_aborts (fuel : nat) (d : libdeflate_decompressor) (in_ : list Z)
    (in_nbytes : Z) (out : list Z) (out_nbytes_avail : Z)
    (actual_out_nbytes_ret : option Z) :
  0 ≤ in_nbytes ≤ Z.of_nat (length in_) →
  Forall is_byte (take (Z.to_nat in_nbytes) in_) →
  ((le_bytes (take (Z.to_nat in_nbytes) in_) / 2) mod 4 = DEFLATE_BLOCKTYPE_UNCOMPRESSED →
   libdeflate_deflate_decompress (S fuel) d in_ in_nbytes out out_nbytes_avail
     actual_out_nbytes_ret
   = Aborted "in_stream.size() >= 4") ∧
  ((le_bytes (take (Z.to_nat in_nbytes) in_) / 2) mod 4 = 3 →
   libdeflate_deflate_decompress (S fuel) d in_ in_nbytes out out_nbytes_avail
     actual_out_nbytes_ret
   = Aborted "false").
Proof.
  intros Hlen Hbytes.
  destruct (make_stream_ok in_ in_nbytes Hlen Hbytes) as (Hok & Hpos & Hval).
  unfold libdeflate_deflate_decompress. cbn [do_blocks].
  destruct (do_block_aborts (S fuel) d (In.make in_ in_nbytes)
              (Win.make 20 out 0 (0 + out_nbytes_avail)) Hok) as [Hstored Hreserved].
  { unfold In.make. cbn [overrun_count]. lia. }
  unfold stream_bits in Hstored, Hreserved.
  rewrite Hpos, Hval, Z.div_1_r in Hstored, Hreserved.
  split; intros Hbtype.
  - by rewrite Hstored.
  - by rewrite Hreserved.
Qed.

Section first_block.

Variables (fuel : nat) (d : libdeflate_decompressor) (in_ : list Z) (in_nbytes : Z)
  (out : list Z) (out_nbytes_avail : Z) (actual_out_nbytes_ret : option Z) (b : Z).

Hypothesis Hlen : 1 ≤ in_nbytes ≤ Z.of_nat (length in_).
Hypothesis Hbytes : Forall is_byte (take (Z.to_nat in_nbytes) in_).
Hypothesis Hfirst : in_ !! 0%nat = Some b.

(** Whatever follows in the input, an input whose first block is a stored
    block (bits 1 and 2 of the first byte are 0) makes
    [libdeflate_deflate_decompress] stop the process at the assertion
    [in_stream.size() >= 4] of [do_uncompressed]. *)
Theorem decompress_stored_block_aborts :
  (b / 2) mod 4 = DEFLATE_BLOCKTYPE_UNCOMPRESSED →
  libdeflate_deflate_decompress (S fuel) d in_ in_nbytes out out_nbytes_avail
    actual_out_nbytes_ret
  = Aborted "in_stream.size() >= 4".
Proof.
  intros Hbtype. apply first_block_aborts; [lia | done |].
  by rewrite (first_byte_header in_ in_nbytes b) by (done || lia).
Qed.

(** An input whose first block has the reserved type (bits 1 and 2 of the
    first byte are 1) makes [libdeflate_deflate_decompress] stop the
    process in [assert(false)]. *)
Theorem decompress_reserved_block_aborts :
  (b / 2) mod 4 = 3 →
  libdeflate_deflate_decompress (S fuel) d in_ in_nbytes out out_nbytes_avail
    actual_out_nbytes_ret
  = Aborted "false".
Proof.
  intros Hbtype. apply first_block_aborts; [lia | done |].
  by rewrite (first_byte_header in_ in_nbytes b) by (done || lia).
Qed.

End first_block.

(** On the empty input the bit buffer is filled with zero bits, which read
    as the header of a stored block: [libdeflate_deflate_decompress] stops
    the process at the assertion of [do_uncompressed], whatever the
    output buffer. *)
Theorem decompress_empty_input_aborts (fuel : nat) (d : libdeflate_decompressor)
    (in_ out : list Z) (out_nbytes_avail : Z) (actual_out_nbytes_ret : option Z) :
  libdeflate_deflate_decompress (S fuel) d in_ 0 out out_nbytes_avail
    actual_out_nbytes_ret
  = Aborted "in_stream.size() >= 4".
Proof.
  apply first_block_aborts; [lia | by constructor | reflexivity].
Qed.

(** ** Instances *)

(** The input [4B 04 00] with its first byte in the bit buffer. *)
Definition stream_4B : InputStream := MkInputStream 0x4B 8 0 1 3 [0x4B; 0x04; 0x00].

Lemma stream_4B_ok : stream_ok stream_4B.
Proof.
  split; unfold stream_4B; cbn [bitsleft in_next in_end in_mem overrun_count].
  - lia.
  - lia.
  - simpl. lia.
  - repeat constructor; unfold is_byte; lia.
  - split; [lia|]. intros. lia.
  - unfold stream_pos. simpl. lia.
  - exists 0. split; [lia|]. split; [lia|]. reflexivity.
Defined.

Lemma ensure_bits_keeps_position_witness :
  ∃ s', In.ensure_bits 17 stream_4B = Returned s' ∧ stream_ok s' ∧ 17 ≤ bitsleft s' ∧
        stream_pos s' = stream_pos stream_4B ∧ input_value s' = input_value stream_4B.
Proof.
  apply (ensure_bits_keeps_position 17 stream_4B stream_4B_ok).
  - unfold In.bitbuf_max_ensure, In.bitbuf_length, WORDBYTES. lia.
  - simpl. lia.
Defined.

Lemma pop_bits_reads_input_witness :
  ∃ s', In.pop_bits stream_4B 3
        = Returned ((input_value stream_4B / 2 ^ stream_pos stream_4B) mod 2 ^ 3, s') ∧
        stream_ok s' ∧ stream_pos s' = stream_pos stream_4B + 3 ∧
        bitsleft s' = bitsleft stream_4B - 3 ∧ input_value s' = input_value stream_4B.
Proof.
  apply (pop_bits_reads_input 3 stream_4B stream_4B_ok); [lia | simpl; lia].
Defined.

Lemma align_input_byte_boundary_witness :
  stream_ok (In.align_input stream_4B) ∧
  bitsleft (In.align_input stream_4B) = 0 ∧
  in_next (In.align_input stream_4B) = (stream_pos stream_4B + 7) / 8 ∧
  stream_pos (In.align_input stream_4B) = 8 * ((stream_pos stream_4B + 7) / 8) ∧
  input_value (In.align_input stream_4B) = input_value stream_4B.
Proof. apply (align_input_byte_boundary stream_4B stream_4B_ok). reflexivity. Defined.

Lemma decompress_stored_block_aborts_witness :
  libdeflate_deflate_decompress 1 libdeflate_alloc_decompressor
    [0x01; 0x00; 0x00; 0xFF; 0xFF] 5 [] 0 None
  = Aborted "in_stream.size() >= 4".
Proof.
  apply (decompress_stored_block_aborts 0 libdeflate_alloc_decompressor
           [0x01; 0x00; 0x00; 0xFF; 0xFF] 5 [] 0 None 0x01).
  - simpl. lia.
  - repeat constructor; unfold is_byte; lia.
  - reflexivity.
  - reflexivity.
Defined.

Lemma decompress_reserved_block_aborts_witness :
  libdeflate_deflate_decompress 1 libdeflate_alloc_decompressor [0x07] 1 [] 0 None
  = Aborted "false".
Proof.
  apply (decompress_reserved_block_aborts 0 libdeflate_alloc_decompressor
           [0x07] 1 [] 0 None 0x07).
  - simpl. lia.
  - repeat constructor; unfold is_byte; lia.
  - reflexivity.
  - reflexivity.
Defined.

(** * The window and the blocks *)

(** ** The decompressed output *)

(** The bytes produced so far: those that [flush] has moved to the target,
    then those still in the window. *)
Definition written (w : DeflateWindow) : list Z :=
  take (Z.to_nat (target w)) (target_mem w) ++ take (Z.to_nat (next w)) (buffer w).

(** What every operation of the window keeps: the bound of the target and
    the size of the caller's memory. *)
Definition same_target (w w' : DeflateWindow) : Prop :=
  target_end w' = target_end w ∧ length (target_mem w') = length (target_mem w).

Lemma same_target_refl (w : DeflateWindow) : same_target w w.
Proof. by split. Qed.

Lemma same_target_trans (w1 w2 w3 : DeflateWindow) :
  same_target w1 w2 → same_target w2 w3 → same_target w1 w3.
Proof. intros [? ?] [? ?]. split; congruence. Qed.

Lemma assert_Returned (b : bool) (msg : string) (u : unit) :
  assert b msg = Returned u → b = true.
Proof. by destruct b. Qed.

Lemma mem_Returned {A} (o : option A) (a : A) : mem o = Returned a → o = Some a.
Proof. destruct o; simpl; congruence. Qed.

(** *** flush *)

Lemma written_evicted (w : DeflateWindow) :
  window_ok w → Win.keep_size w < next w →
  target w + (next w - Win.keep_size w) < target_end w →
  written (evicted w) = written w.
Proof.
  intros [? ? ? ? ? ? ?] Hk Ht. pose proof (keep_size_min w) as Hmin.
  unfold written, evicted. cbn [target target_mem next buffer].
  rewrite Z2Nat.inj_add by lia.
  rewrite app_assoc, take_app_length'.
  2: { rewrite length_app, !length_take. lia. }
  rewrite take_app_length' by (rewrite length_take, length_drop; lia).
  rewrite <- app_assoc, take_take_drop. do 2 f_equal. lia.
Qed.

Lemma flush_Returned (w w' : DeflateWindow) :
  window_ok w → Win.flush w = Returned w' →
  window_ok w' ∧ written w' = written w ∧ same_target w w' ∧
  target w ≤ target w' ∧ (target w' = target w ∨ target w' < target_end w) ∧
  (target w ≤ target_end w → target w' ≤ target_end w') ∧
  ∀ i : nat, ¬ (target w ≤ Z.of_nat i < target w') →
             target_mem w' !! i = target_mem w !! i.
Proof.
  intros Hok. pose proof (keep_size_min w) as Hmin.
  rewrite (flush_paths w Hok). intros H.
  destruct (Z.ltb_spec (next w) (current_blk w)); [discriminate|].
  destruct (Z.ltb_spec (Win.keep_size w) (next w)) as [Hk|Hk].
  - destruct (Z.ltb_spec (target w + (next w - Win.keep_size w)) (target_end w))
      as [Ht|Ht]; [|discriminate].
    destruct (Z.ltb_spec (2 * Win.keep_size w) (next w)); [|discriminate].
    injection H as <-. pose proof Hok as [? ? ? ? ? ? ?].
    split; [by apply evicted_ok; [|lia..]|].
    split; [by apply written_evicted|].
    split.
    { split; [done|]. unfold evicted. cbn [target_mem].
      rewrite !length_app, !length_take, length_drop. lia. }
    unfold evicted. cbn [target target_mem target_end].
    split; [lia|]. split; [lia|]. split; [lia|].
    intros i Hi.
    destruct (decide (Z.of_nat i < target w)) as [Hlt|Hge].
    + rewrite lookup_app_l by (rewrite length_take; lia).
      by rewrite lookup_take_lt by lia.
    + rewrite lookup_app_r by (rewrite length_take; lia).
      rewrite lookup_app_r by (rewrite !length_take; lia).
      rewrite lookup_drop, !length_take. f_equal. lia.
  - injection H as <-. split; [done|]. split; [done|]. split; [apply same_target_refl|].
    split; [lia|]. split; [by left|]. split; [done|]. done.
Qed.

(** [flush] neither loses nor reorders output: when it returns, the bytes
    written so far (target, then window) are the same as before, it has
    written only at the target positions it moved over, below
    [target_end], and the rest of the caller's memory is as it was. *)
Theorem flush_keeps_output (w w' : DeflateWindow) :
  window_ok w → Win.flush w = Returned w' →
  written w' = written w ∧
  target w ≤ target w' ∧ (target w' = target w ∨ target w' < target_end w) ∧
  length (target_mem w') = length (target_mem w) ∧
  ∀ i : nat, ¬ (target w ≤ Z.of_nat i < target w') →
             target_mem w' !! i = target_mem w !! i.
Proof.
  intros Hok Hrun.
  destruct (flush_Returned w w' Hok Hrun) as (_ & Hw & [_ Hlen] & Hle & Hlt & _ & Hrest).
  done.
Qed.

(** *** push *)

Lemma push_spec (w : DeflateWindow) (c : Z) :
  window_ok w → next w < buffer_end w →
  ∃ w', Win.push w c = Returned w' ∧ written w' = written w ++ [c] ∧
        next w' = next w + 1 ∧ target w' = target w ∧ same_target w w' ∧
        current_blk w' = current_blk w ∧
        (is_byte c → window_ok w').
Proof.
  intros Hok Hroom. pose proof Hok as [? ? ? ? ? ? ?].
  exists (Win.set_next w (<[Z.to_nat (next w) := c]> (buffer w)) (next w + 1)).
  split.
  { unfold Win.push.
    eapply bind_step; [apply assert_true; zbool|]. cbv beta.
    eapply bind_step; [apply assert_true; rewrite (available_ok w Hok); zbool|].
    cbv beta. unfold store_byte, wr.
    rewrite decide_True by lia. rewrite decide_True by lia. reflexivity. }
  unfold written, Win.set_next. cbn [target target_mem next buffer target_end current_blk].
  split.
  { rewrite <- app_assoc. f_equal.
    replace (Z.to_nat (next w + 1)) with (S (Z.to_nat (next w))) by lia.
    destruct (lookup_lt_is_Some_2 (buffer w) (Z.to_nat (next w))) as [b Hb]; [lia|].
    rewrite (take_S_r _ _ c) by (rewrite list_lookup_insert_eq; [done | lia]).
    f_equal. rewrite take_insert_ge by lia. done. }
  split; [done|]. split; [done|]. split; [by split|]. split; [done|].
  intros Hc. constructor; cbn; try lia.
  - by rewrite length_insert.
  - by apply Forall_insert.
Qed.

(** [push(c)] on a window with room appends [c] to the output and moves
    the cursor one byte on; on a full window it stops at its first
    assertion. *)
Theorem push_appends (w : DeflateWindow) (c : Z) :
  window_ok w →
  (next w < buffer_end w →
   ∃ w', Win.push w c = Returned w' ∧ written w' = written w ++ [c] ∧
         next w' = next w + 1 ∧ (is_byte c → window_ok w')) ∧
  (buffer_end w ≤ next w → Win.push w c = Aborted "next < buffer_end").
Proof.
  intros Hok. split.
  - intros Hroom.
    destruct (push_spec w c Hok Hroom) as (w' & Hrun & Hw & Hn & _ & _ & _ & Hok').
    by exists w'.
  - intros Hfull. unfold Win.push. apply bind_abort, assert_false. zbool.
Qed.

(** *** copy_match *)

Lemma copy_byte_Returned (m : list Z) (src dst : Z) (m' : list Z) :
  Win.copy_byte m src dst = Returned m' →
  0 ≤ dst < Z.of_nat (length m) ∧ length m' = length m.
Proof.
  unfold Win.copy_byte. intros H. apply bind_Returned in H as (b & _ & H).
  apply mem_Returned in H. unfold store_byte, wr in H.
  destruct (decide (0 ≤ dst)); [|discriminate].
  destruct (decide _) as [Hlt|]; [|discriminate]. injection H as <-.
  rewrite length_insert. lia.
Qed.

Lemma copy_byte_fault (m : list Z) (src dst : Z) :
  Z.of_nat (length m) ≤ dst → ∀ m', Win.copy_byte m src dst ≠ Returned m'.
Proof. intros Hd m' H. apply copy_byte_Returned in H. lia. Qed.

Lemma copy_byte_runs (m : list Z) (src dst : Z) :
  0 ≤ src < Z.of_nat (length m) →
  (0 ≤ dst < Z.of_nat (length m) →
   ∃ m', Win.copy_byte m src dst = Returned m' ∧ length m' = length m) ∧
  (Z.of_nat (length m) ≤ dst → Win.copy_byte m src dst = Fault).
Proof.
  intros Hs. destruct (lookup_lt_is_Some_2 m (Z.to_nat src)) as [b Hb]; [lia|].
  unfold Win.copy_byte, load_byte, store_byte, rd, wr.
  rewrite decide_True by lia. rewrite Hb. cbn [mem mbind outcome_bind].
  split; intros Hd.
  - rewrite !decide_True by lia. eexists. split; [reflexivity|]. by rewrite length_insert.
  - rewrite decide_True by lia. rewrite decide_False by lia. reflexivity.
Qed.

(** The byte-wise path writes three bytes at least. *)
Lemma copy_bytewise_short (fuel : nat) (m : list Z) (src dst dst_end : Z) :
  0 ≤ src → src < dst → dst ≤ Z.of_nat (length m) → Z.of_nat (length m) < dst + 3 →
  Win.copy_bytewise (S fuel) m src dst dst_end = Fault.
Proof.
  intros Hs Hsd Hd Hshort. unfold Win.copy_bytewise.
  destruct (copy_byte_runs m src dst ltac:(lia)) as [Hrun Hfault].
  destruct (decide (dst < Z.of_nat (length m))) as [H0|H0].
  2: { by rewrite Hfault by lia. }
  destruct (Hrun ltac:(lia)) as (m1 & -> & Hl1). cbn [mbind outcome_bind].
  clear Hrun Hfault.
  destruct (copy_byte_runs m1 (src + 1) (dst + 1) ltac:(lia)) as [Hrun Hfault].
  destruct (decide (dst + 1 < Z.of_nat (length m))) as [H1|H1].
  2: { by rewrite Hfault by lia. }
  destruct (Hrun ltac:(lia)) as (m2 & -> & Hl2). cbn [mbind outcome_bind].
  clear Hrun Hfault.
  destruct (copy_byte_runs m2 (src + 2) (dst + 2) ltac:(lia)) as [_ Hfault].
  cbn [Win.copy_bytes]. by rewrite Hfault by lia.
Qed.

Lemma copy_match_short_room (w : DeflateWindow) (len offset : Z) :
  window_ok w → 1 ≤ offset ≤ next w → 0 ≤ len ≤ buffer_end w - next w →
  buffer_end w - next w < 3 →
  Win.copy_match w len offset = Fault.
Proof.
  intros Hok Hoff Hlen Hroom. pose proof Hok as [? ? ? ? ? ? ?].
  assert (HWB : WORDBYTES = 8) by reflexivity.
  unfold Win.copy_match. rewrite (size_ok w Hok), (available_ok w Hok).
  eapply bind_step; [apply assert_true; zbool|]. cbv beta.
  eapply bind_step; [apply assert_true; zbool|]. cbv beta.
  eapply bind_step; [apply assert_true; zbool|]. cbv beta zeta.
  rewrite (proj2 (Z.leb_gt (len + 3 * WORDBYTES) (buffer_end w - next w))) by lia.
  rewrite andb_false_r.
  rewrite (proj2 (Z.leb_gt (WORDBYTES - 1) (buffer_end w - (next w + len)))) by lia.
  rewrite copy_bytewise_short by lia. reflexivity.
Qed.

(** A match that passes the assertions of [copy_match] with fewer than
    three bytes of room left in the window is a memory fault: the
    byte-wise path, the only one open so close to the end of the buffer,
    writes three bytes whatever the length. *)
Theorem copy_match_needs_three_bytes (w : DeflateWindow) (len offset : Z) :
  window_ok w → 1 ≤ offset ≤ Win.size w → 0 ≤ len ≤ Win.available w →
  Win.available w < 3 →
  Win.copy_match w len offset = Fault.
Proof.
  intros Hok. rewrite (size_ok w Hok), (available_ok w Hok).
  apply copy_match_short_room, Hok.
Qed.

(** What a [copy_match] that returns has done. *)
Lemma copy_match_Returned (w : DeflateWindow) (len offset : Z) (w' : DeflateWindow) :
  window_ok w → 1 ≤ len → Win.copy_match w len offset = Returned w' →
  1 ≤ offset ≤ next w ∧ len ≤ buffer_end w - next w ∧ 3 ≤ buffer_end w - next w ∧
  window_ok w' ∧ same_target w w' ∧ target w' = target w ∧
  target_mem w' = target_mem w ∧ next w' = next w + len ∧
  current_blk w' = current_blk w ∧
  ∃ e, next w + len ≤ e ∧ copied_to (buffer w) (next w) offset e (buffer w').
Proof.
  intros Hok Hlen H. pose proof Hok as [? ? ? ? ? ? ?].
  pose proof H as H0. unfold Win.copy_match in H0.
  rewrite (size_ok w Hok), (available_ok w Hok) in H0.
  apply bind_Returned in H0 as (u1 & Ha1 & H0). apply assert_Returned, Z.leb_le in Ha1.
  apply bind_Returned in H0 as (u2 & Ha2 & H0). apply assert_Returned, Z.leb_le in Ha2.
  apply bind_Returned in H0 as (u3 & Ha3 & _). apply assert_Returned, Z.ltb_lt in Ha3.
  destruct (decide (3 ≤ buffer_end w - next w)) as [Hroom|Hroom].
  2: { rewrite copy_match_short_room in H by (done || lia). discriminate. }
  destruct (copy_match_buffer w len offset Hok ltac:(lia) Hlen Ha2 Hroom)
    as (w2 & e & Hrun & Hc & He & Hn & Hbe & Hblk & Htm & Ht & Hte).
  rewrite Hrun in H. injection H as ->.
  pose proof Hc as [Hcl Hcb _].
  split; [lia|]. split; [done|]. split; [done|]. split.
  { constructor; rewrite ?Hn, ?Hbe, ?Hblk, ?Htm, ?Ht, ?Hte, ?Hcl; try done; lia. }
  split; [split; congruence|]. split; [done|]. split; [done|]. split; [done|].
  split; [done|]. by exists e.
Qed.

(** The back-reference of LZ77 on the output: [n] times, append the byte
    that stands [offset] bytes before the end. *)
Fixpoint lz77_copy (n : nat) (out : list Z) (offset : nat) : list Z :=
  match n with
  | O => out
  | S n' => lz77_copy n' (out ++ [default 0 (out !! (length out - offset)%nat)]) offset
  end.

Lemma mod_succ (a b : Z) :
  0 < b → (a + 1) mod b = if a mod b + 1 =? b then 0 else a mod b + 1.
Proof.
  intros Hb. pose proof (Z.div_mod a b ltac:(lia)) as Hdm.
  pose proof (Z.mod_pos_bound a b Hb) as Hr.
  destruct (Z.eqb_spec (a mod b + 1) b) as [He|He]; symmetry.
  - apply (Z.mod_unique _ _ (a / b + 1)); lia.
  - apply (Z.mod_unique _ _ (a / b)); lia.
Qed.

Lemma lz77_copy_lookup (n : nat) (out : list Z) (off : Z) :
  1 ≤ off ≤ Z.of_nat (length out) →
  length (lz77_copy n out (Z.to_nat off)) = (length out + n)%nat ∧
  ∀ i, 0 ≤ i < Z.of_nat (length out + n) →
       lz77_copy n out (Z.to_nat off) !! Z.to_nat i
       = out !! Z.to_nat (origin (Z.of_nat (length out)) off i).
Proof.
  revert out. induction n as [|n IH]; intros out Hoff.
  { cbn [lz77_copy]. split; [lia|]. intros i Hi. by rewrite origin_below by lia. }
  cbn [lz77_copy].
  destruct (lookup_lt_is_Some_2 out (length out - Z.to_nat off)%nat) as [b Hb]; [lia|].
  rewrite Hb. change (default 0 (Some b)) with b.
  destruct (IH (out ++ [b])) as [Hlen Hlook]; [rewrite length_app; simpl; lia|].
  rewrite length_app in Hlen, Hlook. cbn [length] in Hlen, Hlook.
  split; [lia|]. intros i Hi. rewrite Hlook by lia. clear Hlook IH.
  replace (Z.of_nat (length out + 1)) with (Z.of_nat (length out) + 1) by lia.
  set (L := Z.of_nat (length out)) in *.
  unfold origin.
  destruct (Z.ltb_spec i (L + 1)) as [H1|H1].
  - destruct (Z.ltb_spec i L) as [H2|H2].
    + rewrite lookup_app_l by lia. done.
    + replace i with L by lia. rewrite Z.sub_diag, Z.mod_0_l, Z.add_0_r by lia.
      rewrite lookup_app_r by lia.
      replace (Z.to_nat L - length out)%nat with 0%nat by lia. cbn [lookup list_lookup].
      rewrite <- Hb. f_equal. lia.
  - rewrite (proj2 (Z.ltb_ge i L)) by lia.
    replace (i - L) with (i - (L + 1) + 1) by lia.
    rewrite (mod_succ (i - (L + 1)) off) by lia.
    pose proof (Z.mod_pos_bound (i - (L + 1)) off ltac:(lia)) as Hr.
    destruct (Z.eqb_spec ((i - (L + 1)) mod off + 1) off) as [He|He].
    + rewrite lookup_app_r by lia.
      replace (Z.to_nat (L + 1 - off + (i - (L + 1)) mod off) - length out)%nat
        with 0%nat by lia.
      cbn [lookup list_lookup]. rewrite <- Hb. f_equal. lia.
    + rewrite lookup_app_l by lia. f_equal. lia.
Qed.

Lemma copy_match_written (w : DeflateWindow) (len offset : Z) (w' : DeflateWindow) :
  window_ok w → 1 ≤ len → Win.copy_match w len offset = Returned w' →
  written w' = lz77_copy (Z.to_nat len) (written w) (Z.to_nat offset).
Proof.
  intros Hok Hlen Hrun. pose proof Hok as [? ? ? ? ? ? ?].
  destruct (copy_match_Returned w len offset w' Hok Hlen Hrun)
    as (Hoff & Hfit & _ & _ & _ & Ht & Htm & Hn & _ & e & He & [Hcl _ Hagree]).
  unfold written. rewrite Ht, Htm, Hn.
  set (pre := take (Z.to_nat (target w)) (target_mem w)).
  assert (Hout : length (pre ++ take (Z.to_nat (next w)) (buffer w))
                 = (length pre + Z.to_nat (next w))%nat).
  { rewrite length_app, length_take. lia. }
  destruct (lz77_copy_lookup (Z.to_nat len)
              (pre ++ take (Z.to_nat (next w)) (buffer w)) offset) as [Hlen' Hlook].
  { rewrite Hout. lia. }
  rewrite Hout in Hlen', Hlook.
  apply (list_eq_same_length _ _ (length pre + Z.to_nat (next w) + Z.to_nat len)%nat).
  { done. }
  { rewrite length_app, length_take. lia. }
  intros i x y Hi Hx Hy.
  specialize (Hlook (Z.of_nat i) ltac:(lia)). rewrite Nat2Z.id in Hlook.
  rewrite Hlook in Hy. clear Hlook Hlen'.
  destruct (decide (i < length pre)%nat) as [Hp|Hp].
  - rewrite lookup_app_l in Hx by done.
    rewrite origin_below in Hy by lia. rewrite Nat2Z.id, lookup_app_l in Hy by done.
    congruence.
  - rewrite lookup_app_r in Hx by lia.
    rewrite lookup_take_lt in Hx by lia.
    specialize (Hagree (Z.of_nat (i - length pre)) ltac:(lia)).
    rewrite Nat2Z.id in Hagree. rewrite Hagree in Hx.
    pose proof (origin_range (buffer w) (next w) offset ltac:(lia)
                  (Z.of_nat (i - length pre)) ltac:(lia)) as Hor.
    assert (Hsh : origin (Z.of_nat (length pre + Z.to_nat (next w))) offset (Z.of_nat i)
                  = Z.of_nat (length pre)
                    + origin (next w) offset (Z.of_nat (i - length pre))).
    { unfold origin.
      destruct (Z.ltb_spec (Z.of_nat i) (Z.of_nat (length pre + Z.to_nat (next w))));
        destruct (Z.ltb_spec (Z.of_nat (i - length pre)) (next w)); try lia.
      replace (Z.of_nat i - Z.of_nat (length pre + Z.to_nat (next w)))
        with (Z.of_nat (i - length pre) - next w) by lia.
      lia. }
    rewrite Hsh in Hy. rewrite lookup_app_r in Hy by lia.
    rewrite lookup_take_lt in Hy by lia.
    replace (Z.to_nat (Z.of_nat (length pre)
                       + origin (next w) offset (Z.of_nat (i - length pre)))
             - length pre)%nat
      with (Z.to_nat (origin (next w) offset (Z.of_nat (i - length pre)))) in Hy by lia.
    congruence.
Qed.

(** On the output, a [copy_match] that returns is the back-reference of
    LZ77: it appends [len] bytes, each a copy of the byte [offset] places
    before it, whether or not the source bytes overlap the copy and
    whatever [flush] has moved to the target before. *)
Theorem copy_match_appends_match (w : DeflateWindow) (len offset : Z) :
  window_ok w → 1 ≤ offset ≤ Win.size w → 1 ≤ len → len ≤ Win.available w →
  3 ≤ Win.available w →
  ∃ w', Win.copy_match w len offset = Returned w' ∧
        written w' = lz77_copy (Z.to_nat len) (written w) (Z.to_nat offset).
Proof.
  intros Hok. rewrite (size_ok w Hok), (available_ok w Hok).
  intros Hoff Hlen Hfit Hroom.
  destruct (copy_match_buffer w len offset Hok Hoff Hlen Hfit Hroom) as (w' & e & Hrun & _).
  exists w'. split; [done|]. by apply (copy_match_written w len offset).
Qed.

(** *** full_flush *)

Lemma full_flush_Returned (w w' : DeflateWindow) :
  window_ok w → Win.full_flush w = Returned w' →
  current_blk w = next w ∧ target_end w ≤ target w + next w ∧
  target w + next w ≤ Z.of_nat (length (target_mem w)) ∧
  target_mem w' = take (Z.to_nat (target w)) (target_mem w) ++
                  take (Z.to_nat (next w)) (buffer w) ++
                  drop (Z.to_nat (target w) + Z.to_nat (next w)) (target_mem w).
Proof.
  intros Hok H. pose proof Hok as [? ? ? ? ? ? ?].
  unfold Win.full_flush in H. rewrite (size_ok w Hok) in H.
  apply bind_Returned in H as (u1 & Ha1 & H). apply assert_Returned, Z.eqb_eq in Ha1.
  apply bind_Returned in H as (u2 & Ha2 & H). apply assert_Returned, Z.leb_le in Ha2.
  rewrite load_bytes_Some in H by lia. cbn [mem mbind outcome_bind] in H.
  apply bind_Returned in H as (tm & Hst & H). apply mem_Returned in Hst.
  injection H as <-. cbn [target_mem].
  unfold store_bytes in Hst. destruct (decide _) as [[_ Hfit]|]; [|discriminate].
  injection Hst as <-. change (Z.to_nat 0) with 0%nat in *. rewrite drop_0 in *.
  rewrite length_take in Hfit |- *.
  split; [done|]. split; [done|]. split; [lia|]. do 3 f_equal. lia.
Qed.

(** When [full_flush] returns, the whole output has been stored in the
    caller's memory from its start: the bytes flushed before and, behind
    them, every byte of the window, also those that lie at or beyond
    [target_end]; the assertion of [full_flush] only requires that the
    output reaches [target_end], not that it ends there. *)
Theorem full_flush_stores_output (w w' : DeflateWindow) :
  window_ok w → Win.full_flush w = Returned w' →
  target_end w ≤ target w + Win.size w ∧
  take (length (written w)) (target_mem w') = written w ∧
  length (target_mem w') = length (target_mem w) ∧
  ∀ i : nat, ¬ (target w ≤ Z.of_nat i < target w + Win.size w) →
             target_mem w' !! i = target_mem w !! i.
Proof.
  intros Hok Hrun. pose proof Hok as [? ? ? ? ? ? ?].
  destruct (full_flush_Returned w w' Hok Hrun) as (_ & Hend & Hfit & ->).
  rewrite (size_ok w Hok). split; [done|]. split; [|split].
  - unfold written. by rewrite app_assoc, take_app_length.
  - rewrite !length_app, !length_take, length_drop. lia.
  - intros i Hi. destruct (decide (Z.of_nat i < target w)) as [Hlt|Hge].
    + rewrite lookup_app_l by (rewrite length_take; lia).
      by rewrite lookup_take_lt by lia.
    + rewrite lookup_app_r by (rewrite length_take; lia).
      rewrite lookup_app_r by (rewrite !length_take; lia).
      rewrite lookup_drop, !length_take. f_equal. lia.
Qed.

(** The window content is stored even where it passes [target_end]. *)
Theorem full_flush_writes_past_target_end (w : DeflateWindow) :
  window_ok w → current_blk w = next w →
  target w ≤ target_end w < target w + Win.size w →
  target w + Win.size w ≤ Z.of_nat (length (target_mem w)) →
  ∃ w', Win.full_flush w = Returned w' ∧
        ∀ i, target_end w ≤ i < target w + Win.size w →
             target_mem w' !! Z.to_nat i = buffer w !! Z.to_nat (i - target w).
Proof.
  intros Hok. rewrite (size_ok w Hok). intros Hblk Hpast Hfit.
  pose proof Hok as [? ? ? ? ? ? ?].
  eexists. split.
  { unfold Win.full_flush. rewrite (size_ok w Hok).
    eapply bind_step; [apply assert_true; zbool|]. cbv beta.
    eapply bind_step; [apply assert_true; zbool|]. cbv beta.
    rewrite load_bytes_Some by lia. cbn [mem mbind outcome_bind].
    rewrite store_bytes_Some by (rewrite ?length_take, ?length_drop; lia).
    cbn [mem mbind outcome_bind]. reflexivity. }
  cbn [target_mem]. intros i Hi. change (Z.to_nat 0) with 0%nat. rewrite drop_0.
  rewrite lookup_app_r by (rewrite length_take; lia).
  rewrite length_take.
  rewrite lookup_app_l by (rewrite length_take; lia).
  rewrite lookup_take_lt by lia. f_equal. lia.
Qed.

(** ** The blocks *)

(** The state of the window between two steps of the decoder. *)
Definition window_inv (w : DeflateWindow) : Prop :=
  window_ok w ∧ target w ≤ target_end w.

Lemma u8_is_byte (x : Z) : is_byte (u8 x).
Proof. unfold is_byte, u8. pose proof (Z.mod_pos_bound x (2 ^ 8)). lia. Qed.

Lemma flush_inv (w w' : DeflateWindow) :
  window_inv w → Win.flush w = Returned w' → window_inv w' ∧ same_target w w'.
Proof.
  intros [Hok Ht] Hrun.
  destruct (flush_Returned w w' Hok Hrun) as (Hok' & _ & Hsame & _ & _ & Hle & _).
  split; [split; [done | by apply Hle]|done].
Qed.

Lemma push_inv (w : DeflateWindow) (c : Z) (w' : DeflateWindow) :
  window_inv w → is_byte c → Win.push w c = Returned w' →
  window_inv w' ∧ same_target w w'.
Proof.
  intros [Hok Ht] Hc Hrun.
  destruct (Z.lt_ge_cases (next w) (buffer_end w)) as [Hroom|Hfull].
  - destruct (push_spec w c Hok Hroom) as (w2 & Hrun2 & _ & _ & Ht2 & Hsame & _ & Hok2).
    rewrite Hrun2 in Hrun. injection Hrun as <-.
    destruct Hsame as [He Hl]. split; [|by split].
    split; [by apply Hok2|]. rewrite Ht2, He. done.
  - unfold Win.push in Hrun.
    rewrite (assert_false (next w <? buffer_end w)) in Hrun by zbool. discriminate.
Qed.

Lemma copy_match_inv (w : DeflateWindow) (len offset : Z) (w' : DeflateWindow) :
  window_inv w → 1 ≤ len → Win.copy_match w len offset = Returned w' →
  window_inv w' ∧ same_target w w'.
Proof.
  intros [Hok Ht] Hlen Hrun.
  destruct (copy_match_Returned w len offset w' Hok Hlen Hrun)
    as (_ & _ & _ & Hok' & Hsame & Ht' & _).
  destruct Hsame as [He Hl]. split; [|by split].
  split; [done|]. by rewrite Ht', He.
Qed.

Lemma notify_end_block_inv (w : DeflateWindow) :
  window_inv w →
  window_inv (Win.notify_end_block w) ∧ same_target w (Win.notify_end_block w) ∧
  written (Win.notify_end_block w) = written w.
Proof.
  intros [[? ? ? ? ? ? ?] Ht]. unfold Win.notify_end_block.
  split; [|split; [by split | done]].
  split; [|done]. constructor; cbn; try done; lia.
Qed.

Lemma decode_loop_inv (fuel : nat) (d : libdeflate_decompressor) (fin : bool)
    (s : InputStream) (out : DeflateWindow) (fin' : bool) (s' : InputStream)
    (out' : DeflateWindow) :
  window_inv out →
  decode_loop fuel d fin s out = Returned (fin', s', out') →
  window_inv out' ∧ same_target out out' ∧ fin' = fin.
Proof.
  revert s out. induction fuel as [|fuel IH]; intros s out Hinv H; [discriminate|].
  cbn [decode_loop] in H.
  apply bind_Returned in H as (s1 & _ & H).
  apply bind_Returned in H as ([entry s2] & _ & H).
  destruct (negb (Z.land entry HUFFDEC_LITERAL =? 0)).
  - apply bind_Returned in H as (out1 & Hfl & H).
    apply bind_Returned in H as (out2 & Hpush & H).
    assert (Hinv1 : window_inv out1 ∧ same_target out out1).
    { destruct (Win.available out =? 0).
      - by apply flush_inv.
      - injection Hfl as <-. split; [done | apply same_target_refl]. }
    destruct Hinv1 as [Hinv1 Hs1].
    destruct (push_inv out1 _ out2 Hinv1 (u8_is_byte _) Hpush) as [Hinv2 Hs2].
    destruct (IH s2 out2 Hinv2 H) as (Hinv' & Hs' & Hfin).
    split; [done|]. split; [|done].
    eapply same_target_trans; [|exact Hs']. by eapply same_target_trans.
  - apply bind_Returned in H as (s3 & _ & H).
    apply bind_Returned in H as ([extra s4] & _ & H).
    cbv zeta in H.
    destruct ((Win.available out <=?
               u32 (u32 (Z.shiftr (Z.shiftr entry HUFFDEC_RESULT_SHIFT)
                           HUFFDEC_LENGTH_BASE_SHIFT + extra) - 1)) &&
              (u32 (Z.shiftr (Z.shiftr entry HUFFDEC_RESULT_SHIFT)
                      HUFFDEC_LENGTH_BASE_SHIFT + extra) =? HUFFDEC_END_OF_BLOCK_LENGTH)).
    + injection H as <- <- <-.
      destruct (notify_end_block_inv out Hinv) as (Hinv' & Hs' & _). done.
    + apply bind_Returned in H as (out1 & Hfl & H).
      apply bind_Returned in H as (u1 & Hpos & H).
      apply assert_Returned, Z.ltb_lt in Hpos.
      apply bind_Returned in H as ([entry2 s5] & _ & H).
      apply bind_Returned in H as ([extra2 s6] & _ & H).
      apply bind_Returned in H as (out2 & Hcopy & H).
      assert (Hinv1 : window_inv out1 ∧ same_target out out1).
      { destruct (Win.available out <=? _).
        - apply bind_Returned in Hfl as (out0 & Hfl & Hrest).
          apply bind_Returned in Hrest as (u2 & _ & Hrest). injection Hrest as <-.
          by apply flush_inv.
        - injection Hfl as <-. split; [done | apply same_target_refl]. }
      destruct Hinv1 as [Hinv1 Hs1].
      eapply copy_match_inv in Hcopy as [Hinv2 Hs2]; [|exact Hinv1|lia].
      destruct (IH s6 out2 Hinv2 H) as (Hinv' & Hs' & Hfin).
      split; [done|]. split; [|done].
      eapply same_target_trans; [|exact Hs']. by eapply same_target_trans.
Qed.

(** The stored-block path never gets past its first assertion. *)
Lemma do_uncompressed_aborts (s : InputStream) (out : DeflateWindow) :
  do_uncompressed s out = Aborted "in_stream.size() >= 4".
Proof.
  unfold do_uncompressed. cbv zeta. unfold In.size. by rewrite u64_sub_diag.
Qed.

Lemma do_block_inv (fuel : nat) (d : libdeflate_decompressor) (s : InputStream)
    (out : DeflateWindow) (fin : bool) (d' : libdeflate_decompressor)
    (s' : InputStream) (out' : DeflateWindow) :
  window_inv out →
  do_block fuel d s out = Returned (fin, d', s', out') →
  window_inv out' ∧ same_target out out'.
Proof.
  intros Hinv H. unfold do_block in H.
  apply bind_Returned in H as (s1 & _ & H).
  apply bind_Returned in H as ([b s2] & _ & H).
  apply bind_Returned in H as ([btype s3] & _ & H).
  destruct (btype =? DEFLATE_BLOCKTYPE_UNCOMPRESSED).
  { rewrite do_uncompressed_aborts in H. discriminate. }
  apply bind_Returned in H as ([d1 s4] & _ & H).
  apply bind_Returned in H as ([[fin1 s5] out1] & Hloop & H).
  injection H as <- <- <- <-.
  destruct (decode_loop_inv _ _ _ _ _ _ _ _ Hinv Hloop) as (Hinv' & Hs' & _). done.
Qed.

Lemma do_blocks_inv (fuel blocks : nat) (d : libdeflate_decompressor) (s : InputStream)
    (out : DeflateWindow) (d' : libdeflate_decompressor) (s' : InputStream)
    (out' : DeflateWindow) :
  window_inv out →
  do_blocks fuel blocks d s out = Returned (d', s', out') →
  window_inv out' ∧ same_target out out'.
Proof.
  revert d s out. induction blocks as [|blocks IH]; intros d s out Hinv H; [discriminate|].
  cbn [do_blocks] in H.
  apply bind_Returned in H as ([[[fin d1] s1] out1] & Hblock & H).
  destruct (do_block_inv _ _ _ _ _ _ _ _ Hinv Hblock) as [Hinv1 Hs1].
  destruct (negb fin).
  - destruct (IH d1 s1 out1 Hinv1 H) as [Hinv' Hs'].
    split; [done|]. by eapply same_target_trans.
  - injection H as <- <- <-. done.
Qed.

Lemma make_window_inv (out : list Z) (avail : Z) :
  0 ≤ avail ≤ Z.of_nat (length out) → window_inv (Win.make 20 out 0 (0 + avail)).
Proof.
  intros Havail. split; [|cbn; lia].
  constructor; cbn [Win.make next buffer buffer_end current_blk target target_end
                    target_mem];
    change (Z.shiftl 1 20) with 1048576; try lia.
  - rewrite length_replicate. lia.
  - apply Forall_replicate. unfold is_byte. lia.
Qed.

Lemma written_length (w : DeflateWindow) :
  window_inv w → target_end w ≤ Z.of_nat (length (target_mem w)) →
  Z.of_nat (length (written w)) = target w + next w.
Proof.
  intros [[? ? ? ? ? ? ?] Ht] Hlen. unfold written.
  rewrite length_app, !length_take. lia.
Qed.

(** When [libdeflate_deflate_decompress] returns, the blocks of the input
    have produced at least [out_nbytes_avail] bytes, and all of them, not
    only the first [out_nbytes_avail], have been stored from the start of
    [out]: a shorter output stops the process in the assertion of
    [full_flush], a longer one is written beyond [out + out_nbytes_avail]. *)
Theorem decompress_stores_whole_output (fuel : nat) (d : libdeflate_decompressor)
    (in_ : list Z) (in_nbytes : Z) (out : list Z) (out_nbytes_avail : Z)
    (actual_out_nbytes_ret : option Z) (r : decompress_result) :
  0 ≤ out_nbytes_avail ≤ Z.of_nat (length out) →
  libdeflate_deflate_decompress fuel d in_ in_nbytes out out_nbytes_avail
    actual_out_nbytes_ret = Returned r →
  ∃ d' s' w,
    do_blocks fuel fuel d (In.make in_ in_nbytes) (Win.make 20 out 0 (0 + out_nbytes_avail))
    = Returned (d', s', w) ∧
    out_nbytes_avail ≤ Z.of_nat (length (written w)) ≤ Z.of_nat (length out) ∧
    take (length (written w)) (out_mem r) = written w ∧
    length (out_mem r) = length out.
Proof.
  intros Havail H. unfold libdeflate_deflate_decompress in H. cbv zeta in H.
  apply bind_Returned in H as ([[d' s'] w] & Hblocks & H).
  apply bind_Returned in H as (w' & Hflush & H). injection H as <-. cbn [out_mem].
  destruct (do_blocks_inv _ _ _ _ _ _ _ _ (make_window_inv out out_nbytes_avail Havail)
              Hblocks) as [Hinv [He Hl]].
  cbn [Win.make target_end target_mem] in He, Hl.
  pose proof Hinv as [Hok Ht].
  destruct (full_flush_Returned w w' Hok Hflush) as (_ & Hend & Hfit & Htm).
  pose proof (written_length w Hinv ltac:(destruct Hok; lia)) as Hlen.
  exists d', s', w. split; [done|]. split; [lia|]. rewrite Htm. split.
  - unfold written. by rewrite app_assoc, take_app_length.
  - destruct Hok. rewrite !length_app, !length_take, length_drop. lia.
Qed.

(** ** The static Huffman code *)

(** The codeword lengths of the fixed code (RFC 1951, section 3.2.6), as
    [prepare_static] writes them: 288 literal/length symbols, then 32
    offset symbols. *)
Definition static_litlen_lens : list Z :=
  replicate 144 8 ++ replicate 112 9 ++ replicate 24 7 ++ replicate 8 8.

Definition static_offset_lens : list Z := replicate 32 5.

Lemma write_run_app (n : nat) (pre rest : list Z) (i v : Z) :
  i = Z.of_nat (length pre) → (n ≤ length rest)%nat →
  write_run n (pre ++ rest) i v = Some ((pre ++ replicate n v) ++ drop n rest).
Proof.
  revert pre rest i. induction n as [|n IH]; intros pre rest i Hi Hn.
  { cbn [write_run replicate]. by rewrite app_nil_r, drop_0. }
  destruct rest as [|x rest]; [simpl in Hn; lia|]. cbn [write_run].
  unfold wr. rewrite decide_True by (rewrite length_app; simpl; lia).
  cbn [mbind option_bind].
  replace (Z.to_nat i) with (length pre + 0)%nat by lia.
  rewrite insert_app_r. cbn [insert list_insert].
  replace (pre ++ v :: rest) with ((pre ++ [v]) ++ rest) by (by rewrite <- app_assoc).
  rewrite (IH (pre ++ [v]) rest (i + 1)).
  - cbn [replicate drop]. by rewrite <- !app_assoc.
  - rewrite length_app. simpl. lia.
  - simpl in Hn. lia.
Qed.

Lemma count_len_take (lens : list Z) (n m l : Z) :
  m ≤ n → count_len (take (Z.to_nat n) lens) m l = count_len lens m l.
Proof.
  intros Hm. unfold count_len. rewrite take_take.
  by replace (Z.to_nat m `min` Z.to_nat n)%nat with (Z.to_nat m) by lia.
Qed.

Lemma next_code_ext (f g : Z → Z) (k : nat) :
  (∀ x, f x = g x) → next_code f k = next_code g k.
Proof.
  intros Hfg. induction k as [|k IH]; [done|]. cbn [next_code]. rewrite IH.
  destruct k; [done|]. by rewrite Hfg.
Qed.

Lemma canonical_code_take (lens : list Z) (n s : Z) :
  0 ≤ s < n → canonical_code (take (Z.to_nat n) lens) n s = canonical_code lens n s.
Proof.
  intros Hs. unfold canonical_code. rewrite lookup_take_lt by lia. cbv zeta.
  rewrite count_len_take by lia. f_equal. apply next_code_ext.
  intros x. apply count_len_take. lia.
Qed.

Lemma decodes_to_take (lens : list Z) (n w s l : Z) :
  decodes_to (take (Z.to_nat n) lens) n w s l ↔ decodes_to lens n w s l.
Proof.
  unfold decodes_to. split; intros (Hs & Hl & Hpos & Hrev).
  - rewrite lookup_take_lt in Hl by lia. rewrite canonical_code_take in Hrev by done.
    done.
  - rewrite lookup_take_lt by lia. rewrite canonical_code_take by done. done.
Qed.

Lemma lens_ok_take (lens l0 : list Z) (n M : Z) :
  take (Z.to_nat n) lens = l0 → Z.of_nat (length l0) = n →
  Forall (λ x, 0 ≤ x ≤ M) l0 → lens_ok lens n M.
Proof.
  intros Ht Hl Hall. split.
  - rewrite <- Ht, length_take in Hl. lia.
  - intros s x Hs Hx. rewrite <- (lookup_take_lt lens (Z.to_nat n)) in Hx by lia.
    rewrite Ht in Hx. by eapply (Forall_lookup_1 _ _ _ _ Hall).
Qed.

Lemma litlen_results_ok : Forall (λ r, 0 ≤ r < 2 ^ 23) litlen_decode_results.
Proof. apply (bool_decide_unpack _). vm_compute. exact I. Qed.

Lemma offset_results_ok : Forall (λ r, 0 ≤ r < 2 ^ 23) offset_decode_results.
Proof. apply (bool_decide_unpack _). vm_compute. exact I. Qed.

Lemma precode_results_ok : Forall (λ r, 0 ≤ r < 2 ^ 23) precode_decode_results.
Proof. apply (bool_decide_unpack _). vm_compute. exact I. Qed.

(** A decompressor whose tables decode the litlen code [ll] and the offset code [ol]. *)
Definition decodes_litlen (d : libdeflate_decompressor) (ll : list Z) : Prop :=
  ∀ w, 0 ≤ w →
    ∃ s l e res, decodes_to ll DEFLATE_NUM_LITLEN_SYMS w s l ∧
                 reached (litlen_decode_table d) LITLEN_TABLEBITS w = Some e ∧
                 litlen_decode_results !! Z.to_nat s = Some res ∧
                 Z.land e HUFFDEC_LENGTH_MASK
                 = (if l <=? LITLEN_TABLEBITS then l else l - LITLEN_TABLEBITS) ∧
                 Z.shiftr e HUFFDEC_RESULT_SHIFT = res.

Definition decodes_offset (d : libdeflate_decompressor) (ol : list Z) : Prop :=
  ∀ w, 0 ≤ w →
    ∃ s l e res, decodes_to ol DEFLATE_NUM_OFFSET_SYMS w s l ∧
                 reached (offset_decode_table d) OFFSET_TABLEBITS w = Some e ∧
                 offset_decode_results !! Z.to_nat s = Some res ∧
                 Z.land e HUFFDEC_LENGTH_MASK
                 = (if l <=? OFFSET_TABLEBITS then l else l - OFFSET_TABLEBITS) ∧
                 Z.shiftr e HUFFDEC_RESULT_SHIFT = res.

Lemma assert_built_true (d : libdeflate_decompressor) (msg : string) :
  assert_built (Some (true, d)) msg = Returned d.
Proof. reflexivity. Qed.

Lemma write_static_lens (l0 : list Z) :
  (320 ≤ length l0)%nat →
  write_run 144 l0 0 8 = Some (replicate 144 8 ++ drop 144 l0) ∧
  write_run (256 - 144) (replicate 144 8 ++ drop 144 l0) 144 9
  = Some ((replicate 144 8 ++ replicate 112 9) ++ drop 256 l0) ∧
  write_run (280 - 256) ((replicate 144 8 ++ replicate 112 9) ++ drop 256 l0) 256 7
  = Some (((replicate 144 8 ++ replicate 112 9) ++ replicate 24 7) ++ drop 280 l0) ∧
  write_run (Z.to_nat (DEFLATE_NUM_LITLEN_SYMS - 280))
    (((replicate 144 8 ++ replicate 112 9) ++ replicate 24 7) ++ drop 280 l0) 280 8
  = Some (static_litlen_lens ++ drop 288 l0) ∧
  write_run (Z.to_nat DEFLATE_NUM_OFFSET_SYMS) (static_litlen_lens ++ drop 288 l0)
    DEFLATE_NUM_LITLEN_SYMS 5
  = Some (static_litlen_lens ++ static_offset_lens ++ drop 320 l0).
Proof.
  intros Hlen. split; [|split; [|split; [|split]]].
  - exact (write_run_app 144 [] l0 0 8 eq_refl ltac:(lia)).
  - change (256 - 144)%nat with 112%nat.
    rewrite (write_run_app 112 (replicate 144 8) (drop 144 l0) 144 9).
    + by rewrite drop_drop.
    + by rewrite length_replicate.
    + rewrite length_drop. lia.
  - change (280 - 256)%nat with 24%nat.
    rewrite (write_run_app 24 (replicate 144 8 ++ replicate 112 9) (drop 256 l0) 256 7).
    + by rewrite drop_drop.
    + by rewrite length_app, !length_replicate.
    + rewrite length_drop. lia.
  - change (Z.to_nat (DEFLATE_NUM_LITLEN_SYMS - 280)) with 8%nat.
    rewrite (write_run_app 8 ((replicate 144 8 ++ replicate 112 9) ++ replicate 24 7)
               (drop 280 l0) 280 8).
    + by rewrite drop_drop.
    + by rewrite !length_app, !length_replicate.
    + rewrite length_drop. lia.
  - change (Z.to_nat DEFLATE_NUM_OFFSET_SYMS) with 32%nat.
    rewrite (write_run_app 32 static_litlen_lens (drop 288 l0) DEFLATE_NUM_LITLEN_SYMS 5).
    + by rewrite drop_drop, <- app_assoc.
    + unfold static_litlen_lens. by rewrite !length_app, !length_replicate.
    + rewrite length_drop. lia.
Qed.

Lemma bind_mem_Some {A B} (x : A) (f : A → outcome B) : mem (Some x) ≫= f = f x.
Proof. reflexivity. Qed.

Lemma prepare_static_lens (d : libdeflate_decompressor) :
  (320 ≤ length (lens d))%nat →
  prepare_static d
  = (d1 ← assert_built
            (build_offset_decode_table
               (set_lens d (static_litlen_lens ++ static_offset_lens ++ drop 320 (lens d)))
               DEFLATE_NUM_LITLEN_SYMS DEFLATE_NUM_OFFSET_SYMS)
            "build_offset_decode_table(d, DEFLATE_NUM_LITLEN_SYMS, DEFLATE_NUM_OFFSET_SYMS)";
     assert_built
       (build_litlen_decode_table d1 DEFLATE_NUM_LITLEN_SYMS DEFLATE_NUM_OFFSET_SYMS)
       "build_litlen_decode_table(d, DEFLATE_NUM_LITLEN_SYMS, DEFLATE_NUM_OFFSET_SYMS)").
Proof.
  intros Hlen.
  destruct (write_static_lens (lens d) Hlen) as (H1 & H2 & H3 & H4 & H5).
  unfold prepare_static.
  rewrite H1, bind_mem_Some, H2, bind_mem_Some, H3, bind_mem_Some, H4, bind_mem_Some.
  rewrite H5, bind_mem_Some. reflexivity.
Qed.

Lemma static_litlen_complete (rest : list Z) :
  codespace (static_litlen_lens ++ rest) DEFLATE_NUM_LITLEN_SYMS
    DEFLATE_MAX_LITLEN_CODEWORD_LEN = 2 ^ DEFLATE_MAX_LITLEN_CODEWORD_LEN.
Proof. unfold codespace. rewrite take_app_length' by done. vm_compute. reflexivity. Qed.

Lemma static_offset_complete (rest : list Z) :
  codespace (static_offset_lens ++ rest) DEFLATE_NUM_OFFSET_SYMS
    DEFLATE_MAX_OFFSET_CODEWORD_LEN = 2 ^ DEFLATE_MAX_OFFSET_CODEWORD_LEN.
Proof. unfold codespace. rewrite take_app_length' by done. vm_compute. reflexivity. Qed.

Lemma static_litlen_ok (rest : list Z) :
  lens_ok (static_litlen_lens ++ rest) DEFLATE_NUM_LITLEN_SYMS
    DEFLATE_MAX_LITLEN_CODEWORD_LEN.
Proof.
  apply (lens_ok_take _ static_litlen_lens).
  - by rewrite take_app_length'.
  - done.
  - apply (bool_decide_unpack _). vm_compute. exact I.
Qed.

Lemma static_offset_ok (rest : list Z) :
  lens_ok (static_offset_lens ++ rest) DEFLATE_NUM_OFFSET_SYMS
    DEFLATE_MAX_OFFSET_CODEWORD_LEN.
Proof.
  apply (lens_ok_take _ static_offset_lens).
  - by rewrite take_app_length'.
  - done.
  - apply (bool_decide_unpack _). vm_compute. exact I.
Qed.

(** The side conditions of the table theorems for the two tables. *)
Lemma litlen_sizes :
  0 ≤ DEFLATE_NUM_LITLEN_SYMS < 2 ^ 16 ∧ 1 ≤ DEFLATE_MAX_LITLEN_CODEWORD_LEN ≤ 15 ∧
  1 ≤ LITLEN_TABLEBITS ≤ 15 ∧
  DEFLATE_NUM_LITLEN_SYMS ≤ Z.of_nat (length litlen_decode_results) ∧
  (0 < length litlen_decode_results)%nat.
Proof. apply (bool_decide_unpack _). vm_compute. exact I. Qed.

Lemma offset_sizes :
  0 ≤ DEFLATE_NUM_OFFSET_SYMS < 2 ^ 16 ∧ 1 ≤ DEFLATE_MAX_OFFSET_CODEWORD_LEN ≤ 15 ∧
  1 ≤ OFFSET_TABLEBITS ≤ 15 ∧
  DEFLATE_NUM_OFFSET_SYMS ≤ Z.of_nat (length offset_decode_results) ∧
  (0 < length offset_decode_results)%nat.
Proof. apply (bool_decide_unpack _). vm_compute. exact I. Qed.

Lemma prepare_static_spec (d : libdeflate_decompressor) :
  (320 ≤ length (lens d))%nat →
  ∃ tl to_,
    prepare_static d
    = Returned (MkDecompressor (precode_lens d)
                  (static_litlen_lens ++ static_offset_lens ++ drop 320 (lens d))
                  (precode_decode_table d) tl to_) ∧
    build_decode_table (litlen_decode_table d)
      (static_litlen_lens ++ static_offset_lens ++ drop 320 (lens d))
      DEFLATE_NUM_LITLEN_SYMS litlen_decode_results LITLEN_TABLEBITS
      DEFLATE_MAX_LITLEN_CODEWORD_LEN = Some (true, tl) ∧
    build_decode_table (offset_decode_table d)
      (static_offset_lens ++ drop 320 (lens d))
      DEFLATE_NUM_OFFSET_SYMS offset_decode_results OFFSET_TABLEBITS
      DEFLATE_MAX_OFFSET_CODEWORD_LEN = Some (true, to_).
Proof.
  intros Hlen. rewrite (prepare_static_lens d Hlen).
  set (rest := drop 320 (lens d)).
  set (l := static_litlen_lens ++ static_offset_lens ++ rest).
  assert (Hdrop : drop (Z.to_nat DEFLATE_NUM_LITLEN_SYMS) l = static_offset_lens ++ rest).
  { unfold l. by rewrite drop_app_length'. }
  destruct offset_sizes as (Hn1 & HM1 & Htb1 & Hr1 & Hr01).
  destruct litlen_sizes as (Hn2 & HM2 & Htb2 & Hr2 & Hr02).
  destruct (accepted_code_built (static_offset_lens ++ rest) DEFLATE_NUM_OFFSET_SYMS
              offset_decode_results OFFSET_TABLEBITS DEFLATE_MAX_OFFSET_CODEWORD_LEN
              (static_offset_ok rest) Hn1 HM1 Htb1 Hr1 Hr01 (offset_decode_table d))
    as (to_ & Hbo).
  { split; [rewrite static_offset_complete; lia | left; apply static_offset_complete]. }
  destruct (accepted_code_built l DEFLATE_NUM_LITLEN_SYMS
              litlen_decode_results LITLEN_TABLEBITS DEFLATE_MAX_LITLEN_CODEWORD_LEN
              (static_litlen_ok (static_offset_lens ++ rest)) Hn2 HM2 Htb2 Hr2 Hr02
              (litlen_decode_table d))
    as (tl & Hbl).
  { split; [unfold l; rewrite static_litlen_complete; lia
           | left; apply static_litlen_complete]. }
  exists tl, to_.
  split; [|split; [exact Hbl | exact Hbo]].
  unfold build_offset_decode_table, set_lens.
  cbn [lens offset_decode_table litlen_decode_table precode_lens precode_decode_table].
  rewrite Hdrop, Hbo. cbn [mbind option_bind]. rewrite assert_built_true.
  cbn [mbind outcome_bind]. unfold build_litlen_decode_table.
  cbn [lens offset_decode_table litlen_decode_table precode_lens precode_decode_table].
  rewrite Hbl. cbn [mbind option_bind]. by rewrite assert_built_true.
Qed.

(** The litlen table, or the offset table, of [d] was built by
    [build_decode_table] for the code whose codeword lengths are [lens],
    one per symbol (the array handed to the builder may be longer). *)
Definition litlen_code (d : libdeflate_decompressor) (lens : list Z) : Prop :=
  Z.of_nat (length lens) ≤ DEFLATE_NUM_LITLEN_SYMS ∧
  Forall (λ x, 0 ≤ x ≤ DEFLATE_MAX_LITLEN_CODEWORD_LEN) lens ∧
  ∃ t0 rest,
    build_decode_table t0 (lens ++ rest) (Z.of_nat (length lens)) litlen_decode_results
      LITLEN_TABLEBITS DEFLATE_MAX_LITLEN_CODEWORD_LEN
    = Some (true, litlen_decode_table d).

Definition offset_code (d : libdeflate_decompressor) (lens : list Z) : Prop :=
  Z.of_nat (length lens) ≤ DEFLATE_NUM_OFFSET_SYMS ∧
  Forall (λ x, 0 ≤ x ≤ DEFLATE_MAX_OFFSET_CODEWORD_LEN) lens ∧
  ∃ t0 rest,
    build_decode_table t0 (lens ++ rest) (Z.of_nat (length lens)) offset_decode_results
      OFFSET_TABLEBITS DEFLATE_MAX_OFFSET_CODEWORD_LEN
    = Some (true, offset_decode_table d).

Lemma decodes_to_app (l0 rest : list Z) (n w s l : Z) :
  Z.to_nat n = length l0 →
  decodes_to (l0 ++ rest) n w s l ↔ decodes_to l0 n w s l.
Proof.
  intros Hn. rewrite <- (decodes_to_take (l0 ++ rest)), <- (decodes_to_take l0).
  by rewrite take_app_length', firstn_all2 by lia.
Qed.

Lemma prepare_static_codes (d : libdeflate_decompressor) :
  (320 ≤ length (lens d))%nat →
  ∃ d', prepare_static d = Returned d' ∧
        length (lens d') = length (lens d) ∧
        litlen_code d' static_litlen_lens ∧
        offset_code d' static_offset_lens.
Proof.
  intros Hlen. destruct (prepare_static_spec d Hlen) as (tl & to_ & Hrun & Hbl & Hbo).
  eexists. split; [exact Hrun|]. cbn [lens litlen_decode_table offset_decode_table].
  split; [|split].
  - rewrite !length_app, length_drop.
    change (length static_litlen_lens) with 288%nat.
    change (length static_offset_lens) with 32%nat. lia.
  - split; [apply (bool_decide_unpack _); vm_compute; exact I|].
    split; [apply (bool_decide_unpack _); vm_compute; exact I|].
    exists (litlen_decode_table d), (static_offset_lens ++ drop 320 (lens d)). exact Hbl.
  - split; [apply (bool_decide_unpack _); vm_compute; exact I|].
    split; [apply (bool_decide_unpack _); vm_compute; exact I|].
    exists (offset_decode_table d), (drop 320 (lens d)). exact Hbo.
Qed.


(** ** The decode loop, symbol by symbol *)

(** What the loop keeps as long as nothing is flushed: the caller's memory
    and its bound. *)
Definition same_frame (w w' : DeflateWindow) : Prop :=
  target_end w' = target_end w ∧ target_mem w' = target_mem w.

Lemma same_frame_trans (w1 w2 w3 : DeflateWindow) :
  same_frame w1 w2 → same_frame w2 w3 → same_frame w1 w3.
Proof. intros [? ?] [? ?]. split; congruence. Qed.

Lemma overrun_small (s : InputStream) :
  stream_ok s → stream_pos s ≤ 2 ^ 64 → overrun_count s < 2 ^ 63.
Proof. intros [Hbl Hnext _ _ _ _ _] Hpos. unfold stream_pos in Hpos. lia. Qed.

Lemma decodes_to_low (lens : list Z) (n w w' s l : Z) :
  w mod 2 ^ l = w' mod 2 ^ l → decodes_to lens n w s l → decodes_to lens n w' s l.
Proof. unfold decodes_to. intros Hw (? & ? & ? & Hr). by rewrite <- Hw. Qed.

Lemma stream_bits_advance (s s' : InputStream) (k : Z) :
  stream_ok s → in_end s' = in_end s → in_mem s' = in_mem s →
  stream_pos s' = stream_pos s + k → 0 ≤ k →
  stream_bits s' = stream_bits s / 2 ^ k.
Proof.
  intros Hok He Hm Hpos Hk. pose proof (so_pos s Hok) as Hp. unfold stream_bits.
  rewrite (input_value_same s s' He Hm), Hpos, Z.pow_add_r by lia.
  rewrite Z.div_div; [done | apply Z.pow_nonzero; lia | apply pow2_pos; lia].
Qed.

(** One table lookup on the stream: the bits of the codeword are consumed. *)
Lemma decode_symbol_stream (lens : list Z) (n : Z) (results : list Z) (tb M : Z)
    (t0 t : table) (s : InputStream) (sym l : Z) :
  lens_ok lens n M → 0 ≤ n < 2 ^ 16 → 1 ≤ M ≤ 15 → 1 ≤ tb ≤ 15 →
  n ≤ Z.of_nat (length results) → (0 < length results)%nat →
  Forall (λ r, 0 ≤ r < 2 ^ 23) results →
  build_decode_table t0 lens n results tb M = Some (true, t) →
  stream_ok s → Z.max tb M ≤ bitsleft s →
  decodes_to lens n (stream_bits s) sym l →
  ∃ e res s', decode_symbol t tb s = Returned (e, s') ∧
              results !! Z.to_nat sym = Some res ∧
              Z.shiftr e HUFFDEC_RESULT_SHIFT = res ∧
              consumed l s s' ∧ 1 ≤ l ≤ M.
Proof.
  intros Hok Hn HM Htb Hres Hres0 Hres23 Hb Hs Hbits Hd.
  assert (Hl : 1 ≤ l ≤ M).
  { destruct Hd as (Hsym & Hlk & Hpos & _). destruct Hok as [_ Hr].
    specialize (Hr sym l Hsym Hlk). lia. }
  assert (Hd' : decodes_to lens n (bitbuf s) sym l).
  { eapply decodes_to_low; [|exact Hd]. symmetry. apply bitbuf_low; [done|lia]. }
  destruct (decode_symbol_entry lens n results tb M Hok Hn HM Htb Hres Hres0 Hres23
              t0 t s sym l Hb (bitbuf_nonneg s Hs) Hbits Hd') as (e & res & Hrun & Hr & Hsh).
  destruct (remove_bits_consumed s l Hs ltac:(lia)) as (s' & Hrm & Hc).
  rewrite remove_bits_value in Hrm by lia. injection Hrm as <-.
  exists e, res. eexists. split; [exact Hrun|]. done.
Qed.

(** The decode results: literals, end of block, lengths, offsets. *)
Lemma litlen_results_literal (sym : Z) :
  0 ≤ sym < 256 → litlen_decode_results !! Z.to_nat sym = Some (2 ^ 22 + sym).
Proof.
  intros Hs.
  assert (H : Forall (λ s, litlen_decode_results !! Z.to_nat s = Some (2 ^ 22 + s))
                (seqZ 0 256)).
  { apply (bool_decide_unpack _). vm_compute. exact I. }
  rewrite Forall_forall in H. apply H, elem_of_seqZ. lia.
Qed.

Lemma litlen_results_end : litlen_decode_results !! Z.to_nat 256 = Some 0.
Proof. vm_compute. reflexivity. Qed.

Lemma litlen_results_length (sym res : Z) :
  256 < sym → litlen_decode_results !! Z.to_nat sym = Some res →
  Z.testbit res 22 = false ∧ 0 ≤ Z.land res HUFFDEC_EXTRA_LENGTH_BITS_MASK ≤ 5 ∧
  3 ≤ Z.shiftr res HUFFDEC_LENGTH_BASE_SHIFT ≤ 258.
Proof.
  intros Hs Hres.
  assert (H : Forall (λ res, Z.testbit res 22 = false ∧
                             0 ≤ Z.land res HUFFDEC_EXTRA_LENGTH_BITS_MASK ≤ 5 ∧
                             3 ≤ Z.shiftr res HUFFDEC_LENGTH_BASE_SHIFT ≤ 258)
                (drop 257 litlen_decode_results)).
  { apply (bool_decide_unpack _). vm_compute. exact I. }
  apply (Forall_lookup_1 _ _ (Z.to_nat sym - 257)%nat res H).
  rewrite lookup_drop. rewrite <- Hres. f_equal. lia.
Qed.

Lemma offset_results_fields (osym res : Z) :
  offset_decode_results !! Z.to_nat osym = Some res →
  0 ≤ Z.shiftr res HUFFDEC_EXTRA_OFFSET_BITS_SHIFT ≤ 14 ∧
  1 ≤ Z.land res HUFFDEC_OFFSET_BASE_MASK ≤ 49153.
Proof.
  intros Hres.
  assert (H : Forall (λ res, 0 ≤ Z.shiftr res HUFFDEC_EXTRA_OFFSET_BITS_SHIFT ≤ 14 ∧
                             1 ≤ Z.land res HUFFDEC_OFFSET_BASE_MASK ≤ 49153)
                offset_decode_results).
  { apply (bool_decide_unpack _). vm_compute. exact I. }
  exact (Forall_lookup_1 _ _ _ _ H Hres).
Qed.

Lemma literal_flag (e : Z) :
  negb (Z.land e HUFFDEC_LITERAL =? 0) = Z.testbit (Z.shiftr e HUFFDEC_RESULT_SHIFT) 22.
Proof.
  change HUFFDEC_LITERAL with (2 ^ 30). rewrite land_pow2_eqb by lia.
  rewrite negb_involutive, Z.shiftr_spec by lia. reflexivity.
Qed.

Lemma push_buffer_end (w : DeflateWindow) (c : Z) (w' : DeflateWindow) :
  Win.push w c = Returned w' →
  buffer_end w' = buffer_end w ∧ target_mem w' = target_mem w.
Proof.
  unfold Win.push. intros H.
  apply bind_Returned in H as (u1 & _ & H). apply bind_Returned in H as (u2 & _ & H).
  apply bind_Returned in H as (b & _ & H). by injection H as <-.
Qed.

Lemma copy_match_buffer_end (w : DeflateWindow) (len offset : Z) (w' : DeflateWindow) :
  Win.copy_match w len offset = Returned w' → buffer_end w' = buffer_end w.
Proof.
  unfold Win.copy_match. intros H.
  apply bind_Returned in H as (u1 & _ & H). apply bind_Returned in H as (u2 & _ & H).
  apply bind_Returned in H as (u3 & _ & H). cbv zeta in H.
  apply bind_Returned in H as (b & _ & H). by injection H as <-.
Qed.

Lemma written_flushed_none (w : DeflateWindow) :
  window_ok w → target w = 0 →
  written w = take (Z.to_nat (next w)) (buffer w) ∧
  Z.of_nat (length (written w)) = next w.
Proof.
  intros [? ? ? ? ? ? ?] Ht. unfold written. rewrite Ht. change (Z.to_nat 0) with 0%nat.
  rewrite take_0, app_nil_l. split; [done|]. rewrite length_take. lia.
Qed.

Section decode_loop.

(** A decompressor whose tables were built for the litlen code [ll] and
    the offset code [ol]. *)
Variables (d : libdeflate_decompressor) (ll ol : list Z).
Hypothesis Hll : litlen_code d ll.
Hypothesis Hol : offset_code d ol.

Let nl : Z := Z.of_nat (length ll).
Let no : Z := Z.of_nat (length ol).

(** The litlen lookup that opens every round of the loop. *)
Lemma litlen_step (s : InputStream) (sym l : Z) :
  stream_ok s → stream_pos s ≤ 2 ^ 64 →
  decodes_to ll nl (stream_bits s) sym l →
  ∃ s1 e res s2,
    In.ensure_bits DEFLATE_MAX_LITLEN_CODEWORD_LEN s = Returned s1 ∧
    decode_symbol (litlen_decode_table d) LITLEN_TABLEBITS s1 = Returned (e, s2) ∧
    litlen_decode_results !! Z.to_nat sym = Some res ∧
    Z.shiftr e HUFFDEC_RESULT_SHIFT = res ∧
    stream_ok s2 ∧ stream_pos s2 = stream_pos s + l ∧
    in_end s2 = in_end s ∧ in_mem s2 = in_mem s ∧ 1 ≤ l ≤ 15.
Proof.
  clear Hol no. intros Hs Hpos Hd. destruct Hll as (Hn & Hall & t0 & rest & Hb).
  destruct (ensure_bits_refilled DEFLATE_MAX_LITLEN_CODEWORD_LEN s Hs ltac:(done)
              (overrun_small s Hs Hpos)) as (s1 & Hens & Href & Hbits).
  pose proof Href as (Hs1 & Hp1 & He1 & Hm1 & _).
  assert (Hok : lens_ok (ll ++ rest) nl DEFLATE_MAX_LITLEN_CODEWORD_LEN).
  { apply (lens_ok_take _ ll); [|done..]. unfold nl. by rewrite Nat2Z.id, take_app_length. }
  destruct (decode_symbol_stream (ll ++ rest) nl litlen_decode_results LITLEN_TABLEBITS
              DEFLATE_MAX_LITLEN_CODEWORD_LEN t0 (litlen_decode_table d) s1 sym l Hok)
    as (e & res & s2 & Hrun & Hres & Hsh & Hc & Hl).
  { unfold nl, DEFLATE_NUM_LITLEN_SYMS in *. lia. }
  { done. } { done. }
  { change (Z.of_nat (length litlen_decode_results)) with 288.
    unfold nl, DEFLATE_NUM_LITLEN_SYMS in *. lia. }
  { change (length litlen_decode_results) with 288%nat. lia. }
  { apply litlen_results_ok. }
  { exact Hb. } { done. } { exact Hbits. }
  { rewrite (refilled_bits s s1 Href). apply decodes_to_app; [|done].
    unfold nl. by rewrite Nat2Z.id. }
  destruct Hc as (Hs2 & Hp2 & He2 & Hm2 & _).
  exists s1, e, res, s2. unfold DEFLATE_MAX_LITLEN_CODEWORD_LEN in Hl.
  split; [done|]. split; [done|]. split; [done|]. split; [done|]. split; [done|].
  split; [lia|]. split; [congruence|]. split; [congruence | lia].
Qed.

(** A literal: its byte is appended to the output. *)
Lemma decode_literal (fuel : nat) (fin : bool) (s : InputStream) (out : DeflateWindow)
    (sym l : Z) :
  stream_ok s → stream_pos s ≤ 2 ^ 64 →
  decodes_to ll nl (stream_bits s) sym l → sym < 256 →
  window_ok out → next out < buffer_end out →
  ∃ s' out',
    decode_loop (S fuel) d fin s out = decode_loop fuel d fin s' out' ∧
    stream_ok s' ∧ stream_pos s' = stream_pos s + l ∧
    in_end s' = in_end s ∧ in_mem s' = in_mem s ∧ 1 ≤ l ∧
    window_ok out' ∧ written out' = written out ++ [sym] ∧
    target out' = target out ∧ same_frame out out' ∧
    buffer_end out' = buffer_end out.
Proof.
  clear Hol no. intros Hs Hpos Hd Hsym Hok Hroom.
  destruct (litlen_step s sym l Hs Hpos Hd)
    as (s1 & e & res & s2 & Hens & Hdec & Hres & Hsh & Hs2 & Hp2 & He2 & Hm2 & Hl).
  assert (Hsym0 : 0 ≤ sym) by (destruct Hd as ((? & ?) & _); done).
  rewrite litlen_results_literal in Hres by lia. injection Hres as <-.
  destruct (push_spec out sym Hok Hroom)
    as (out' & Hpush & Hw & Hn & Ht & Hsame & Hblk & Hok').
  destruct (push_buffer_end out sym out' Hpush) as [Hbe Htm].
  assert (Hframe : same_frame out out') by (destruct Hsame; by split).
  exists s2, out'. split.
  { cbn [decode_loop]. rewrite Hens. cbn [mbind outcome_bind].
    rewrite Hdec. cbn [mbind outcome_bind].
    rewrite literal_flag, Hsh.
    replace (Z.testbit (2 ^ 22 + sym) 22) with true.
    2: { symmetry. rewrite <- Z.add_comm, Z.add_nocarry_lxor, Z.lxor_spec.
         - rewrite (testbit_small sym 8 22), Z.pow2_bits_true by lia. done.
         - apply Z.bits_inj'. intros k Hk. rewrite Z.land_spec, Z.bits_0.
           destruct (decide (k = 22)) as [->|Hne].
           + rewrite (testbit_small sym 8 22) by lia. done.
           + rewrite Z.pow2_bits_false by lia. apply andb_false_r. }
    rewrite (available_ok out Hok).
    rewrite (proj2 (Z.eqb_neq (buffer_end out - next out) 0)) by lia.
    cbn [mbind outcome_bind].
    replace (u8 (2 ^ 22 + sym)) with sym.
    2: { unfold u8. change (2 ^ 22) with (16384 * 2 ^ 8).
         rewrite Z.add_comm, Z.mod_add, Z.mod_small; lia. }
    rewrite Hpush. reflexivity. }
  split; [done|]. split; [done|]. split; [done|]. split; [done|]. split; [lia|].
  split; [apply Hok'; unfold is_byte; lia|]. done.
Qed.

(** The end-of-block symbol: the loop returns. *)
Lemma decode_end_of_block (fuel : nat) (fin : bool) (s : InputStream)
    (out : DeflateWindow) (l : Z) :
  stream_ok s → stream_pos s + l ≤ 2 ^ 64 →
  decodes_to ll nl (stream_bits s) 256 l →
  window_ok out →
  ∃ s',
    decode_loop (S fuel) d fin s out = Returned (fin, s', Win.notify_end_block out) ∧
    stream_ok s' ∧ stream_pos s' = stream_pos s + l ∧
    in_end s' = in_end s ∧ in_mem s' = in_mem s.
Proof.
  clear Hol no. intros Hs Hpos Hd Hok.
  assert (Hl0 : 0 < l) by (destruct Hd as (_ & _ & ? & _); done).
  destruct (litlen_step s 256 l Hs ltac:(lia) Hd)
    as (s1 & e & res & s2 & Hens & Hdec & Hres & Hsh & Hs2 & Hp2 & He2 & Hm2 & Hl).
  rewrite litlen_results_end in Hres. injection Hres as <-.
  destruct (ensure_bits_refilled In.bitbuf_max_ensure s2 Hs2 ltac:(done)
              (overrun_small s2 Hs2 ltac:(lia))) as (s3 & Hens3 & Href3 & Hbits3).
  pose proof Href3 as (Hs3 & Hp3 & He3 & Hm3 & _).
  destruct (pop_bits_consumed s3 0 Hs3 ltac:(lia))
    as (s4 & Hpop & Hs4 & Hp4 & He4 & Hm4 & _).
  { unfold In.bitbuf_max_ensure, In.bitbuf_length, WORDBYTES in Hbits3. lia. }
  exists s4. split.
  { cbn [decode_loop]. rewrite Hens. cbn [mbind outcome_bind].
    rewrite Hdec. cbn [mbind outcome_bind].
    rewrite literal_flag, Hsh. change (Z.testbit 0 22) with false. cbv iota zeta.
    rewrite Hens3. cbn [mbind outcome_bind].
    change (Z.land 0 HUFFDEC_EXTRA_LENGTH_BITS_MASK) with 0. rewrite Hpop.
    cbn [mbind outcome_bind]. change (2 ^ 0) with 1. rewrite Z.mod_1_r.
    change (u32 (Z.shiftr 0 HUFFDEC_LENGTH_BASE_SHIFT + 0)) with 0.
    change (u32 (0 - 1)) with 4294967295. rewrite (available_ok out Hok).
    destruct Hok as [? ? ? ? ? ? ?].
    rewrite (proj2 (Z.leb_le (buffer_end out - next out) 4294967295)) by lia.
    reflexivity. }
  split; [done|]. split; [lia|]. split; congruence.
Qed.

(** A match, up to the copy: the length symbol with its extra bits, then
    the offset symbol with its extra bits. *)
Lemma decode_match_reads (fuel : nat) (fin : bool) (s : InputStream) (out : DeflateWindow)
    (sym l res osym l2 res2 : Z) :
  stream_ok s →
  decodes_to ll nl (stream_bits s) sym l → 256 < sym →
  litlen_decode_results !! Z.to_nat sym = Some res →
  let nb := Z.land res HUFFDEC_EXTRA_LENGTH_BITS_MASK in
  let len := Z.shiftr res HUFFDEC_LENGTH_BASE_SHIFT + (stream_bits s / 2 ^ l) mod 2 ^ nb in
  decodes_to ol no (stream_bits s / 2 ^ (l + nb)) osym l2 →
  offset_decode_results !! Z.to_nat osym = Some res2 →
  let onb := Z.shiftr res2 HUFFDEC_EXTRA_OFFSET_BITS_SHIFT in
  let off := Z.land res2 HUFFDEC_OFFSET_BASE_MASK
             + (stream_bits s / 2 ^ (l + nb + l2)) mod 2 ^ onb in
  stream_pos s + l + nb + l2 + onb ≤ 2 ^ 64 →
  window_ok out → len ≤ buffer_end out - next out →
  ∃ s',
    decode_loop (S fuel) d fin s out
    = (out' ← Win.copy_match out len off; decode_loop fuel d fin s' out') ∧
    stream_ok s' ∧ stream_pos s' = stream_pos s + l + nb + l2 + onb ∧
    in_end s' = in_end s ∧ in_mem s' = in_mem s ∧ 1 ≤ l + nb + l2 + onb ∧
    3 ≤ len ∧ 1 ≤ off.
Proof.
  intros Hs Hd Hsym Hres nb len Hd2 Hres2 onb off Hpos Hok Hroom.
  destruct (litlen_results_length sym res Hsym Hres) as (Hlit & Hnb & Hbase).
  destruct (offset_results_fields osym res2 Hres2) as (Honb & Hobase).
  fold nb in Hnb. fold onb in Honb.
  assert (Hl2 : 0 < l2) by (destruct Hd2 as (_ & _ & ? & _); done).
  assert (Hl0 : 0 < l) by (destruct Hd as (_ & _ & ? & _); done).
  destruct (litlen_step s sym l Hs ltac:(lia) Hd)
    as (s1 & e & res' & s2 & Hens & Hdec & Hres' & Hsh & Hs2 & Hp2 & He2 & Hm2 & Hl).
  rewrite Hres in Hres'. injection Hres' as <-.
  (* the extra length bits *)
  destruct (ensure_bits_refilled In.bitbuf_max_ensure s2 Hs2 ltac:(done)
              (overrun_small s2 Hs2 ltac:(lia))) as (s3 & Hens3 & Href3 & Hbits3).
  pose proof Href3 as (Hs3 & Hp3 & He3 & Hm3 & _).
  unfold In.bitbuf_max_ensure, In.bitbuf_length, WORDBYTES in Hbits3.
  destruct (pop_bits_consumed s3 nb Hs3 ltac:(lia) ltac:(lia))
    as (s4 & Hpop & Hs4 & Hp4 & He4 & Hm4 & Hb4 & _).
  assert (Hbits_s3 : stream_bits s3 = stream_bits s / 2 ^ l).
  { apply stream_bits_advance; [done | congruence | congruence | lia | lia]. }
  assert (Hbits_s4 : stream_bits s4 = stream_bits s / 2 ^ (l + nb)).
  { apply stream_bits_advance; [done | congruence | congruence | lia | lia]. }
  pose proof (Z.mod_pos_bound (stream_bits s / 2 ^ l) (2 ^ nb) ltac:(apply pow2_pos; lia))
    as Hextra.
  assert (Hpow5 : 2 ^ nb ≤ 2 ^ 5) by (apply Z.pow_le_mono_r; lia).
  change (2 ^ 5) with 32 in Hpow5.
  (* the offset symbol *)
  destruct Hol as (Hno & Hallo & t0 & rest & Hbo).
  assert (Hoko : lens_ok (ol ++ rest) no DEFLATE_MAX_OFFSET_CODEWORD_LEN).
  { apply (lens_ok_take _ ol); [|done..]. unfold no. by rewrite Nat2Z.id, take_app_length. }
  destruct (decode_symbol_stream (ol ++ rest) no offset_decode_results OFFSET_TABLEBITS
              DEFLATE_MAX_OFFSET_CODEWORD_LEN t0 (offset_decode_table d) s4 osym l2 Hoko)
    as (e2 & res2' & s5 & Hdec2 & Hres2' & Hsh2 & Hc5 & Hl2').
  { unfold no, DEFLATE_NUM_OFFSET_SYMS in *. lia. }
  { done. } { done. }
  { change (Z.of_nat (length offset_decode_results)) with 32.
    unfold no, DEFLATE_NUM_OFFSET_SYMS in *. lia. }
  { change (length offset_decode_results) with 32%nat. lia. }
  { apply offset_results_ok. }
  { exact Hbo. } { done. }
  { change (Z.max OFFSET_TABLEBITS DEFLATE_MAX_OFFSET_CODEWORD_LEN) with 15. lia. }
  { rewrite Hbits_s4. apply decodes_to_app; [|done]. unfold no. by rewrite Nat2Z.id. }
  rewrite Hres2 in Hres2'. injection Hres2' as <-.
  destruct Hc5 as (Hs5 & Hp5 & He5 & Hm5 & Hb5 & _).
  unfold DEFLATE_MAX_OFFSET_CODEWORD_LEN in Hl2'.
  destruct (pop_bits_consumed s5 onb Hs5 ltac:(lia) ltac:(lia))
    as (s6 & Hpop6 & Hs6 & Hp6 & He6 & Hm6 & _).
  assert (Hbits_s5 : stream_bits s5 = stream_bits s / 2 ^ (l + nb + l2)).
  { apply stream_bits_advance; [done | congruence | congruence | lia | lia]. }
  pose proof (Z.mod_pos_bound (stream_bits s / 2 ^ (l + nb + l2)) (2 ^ onb)
                ltac:(apply pow2_pos; lia)) as Hextra2.
  assert (Hpow14 : 2 ^ onb ≤ 2 ^ 14) by (apply Z.pow_le_mono_r; lia).
  change (2 ^ 14) with 16384 in Hpow14.
  pose proof Hok as [? ? ? ? ? ? ?].
  exists s6. split.
  { cbn [decode_loop]. rewrite Hens. cbn [mbind outcome_bind].
    rewrite Hdec. cbn [mbind outcome_bind].
    rewrite literal_flag, Hsh, Hlit. cbv iota zeta.
    rewrite Hens3. cbn [mbind outcome_bind]. fold nb. rewrite Hpop.
    cbn [mbind outcome_bind]. rewrite Hbits_s3. fold len.
    rewrite (u32_small len) by (unfold len; lia).
    rewrite (proj2 (Z.eqb_neq len HUFFDEC_END_OF_BLOCK_LENGTH))
      by (unfold len, HUFFDEC_END_OF_BLOCK_LENGTH; lia).
    rewrite andb_false_r. rewrite (available_ok out Hok).
    rewrite (u32_small (len - 1)) by (unfold len; lia).
    rewrite (proj2 (Z.leb_gt (buffer_end out - next out) (len - 1))) by lia.
    cbn [mbind outcome_bind].
    rewrite (assert_true (0 <? len)) by (apply Z.ltb_lt; unfold len; lia).
    cbn [mbind outcome_bind]. rewrite Hdec2. cbn [mbind outcome_bind].
    rewrite Hsh2. fold onb. rewrite Hpop6. cbn [mbind outcome_bind].
    rewrite Hbits_s5. fold off. rewrite (u32_small off) by (unfold off; lia).
    reflexivity. }
  split; [done|]. split; [lia|]. split; [congruence|]. split; [congruence|].
  split; [lia|]. unfold len, off. lia.
Qed.


(** A match: the length symbol with its extra bits, the offset symbol with
    its extra bits, and the copy. *)
Lemma decode_match (fuel : nat) (fin : bool) (s : InputStream) (out : DeflateWindow)
    (sym l res osym l2 res2 : Z) :
  stream_ok s →
  decodes_to ll nl (stream_bits s) sym l → 256 < sym →
  litlen_decode_results !! Z.to_nat sym = Some res →
  let nb := Z.land res HUFFDEC_EXTRA_LENGTH_BITS_MASK in
  let len := Z.shiftr res HUFFDEC_LENGTH_BASE_SHIFT + (stream_bits s / 2 ^ l) mod 2 ^ nb in
  decodes_to ol no (stream_bits s / 2 ^ (l + nb)) osym l2 →
  offset_decode_results !! Z.to_nat osym = Some res2 →
  let onb := Z.shiftr res2 HUFFDEC_EXTRA_OFFSET_BITS_SHIFT in
  let off := Z.land res2 HUFFDEC_OFFSET_BASE_MASK
             + (stream_bits s / 2 ^ (l + nb + l2)) mod 2 ^ onb in
  stream_pos s + l + nb + l2 + onb ≤ 2 ^ 64 →
  window_ok out → 1 ≤ off ≤ next out → len ≤ buffer_end out - next out →
  ∃ s' out',
    decode_loop (S fuel) d fin s out = decode_loop fuel d fin s' out' ∧
    stream_ok s' ∧ stream_pos s' = stream_pos s + l + nb + l2 + onb ∧
    in_end s' = in_end s ∧ in_mem s' = in_mem s ∧ 1 ≤ l + nb + l2 + onb ∧
    window_ok out' ∧
    written out' = lz77_copy (Z.to_nat len) (written out) (Z.to_nat off) ∧
    target out' = target out ∧ same_frame out out' ∧
    buffer_end out' = buffer_end out.
Proof.
  intros Hs Hd Hsym Hres nb len Hd2 Hres2 onb off Hpos Hok Hoff Hroom.
  destruct (decode_match_reads fuel fin s out sym l res osym l2 res2 Hs Hd Hsym Hres Hd2
              Hres2 Hpos Hok Hroom)
    as (s' & Hrun & Hs' & Hp' & He' & Hm' & Hl & Hlen & _).
  fold nb len onb off in Hrun, Hp', Hl, Hlen.
  destruct (copy_match_buffer out len off Hok Hoff ltac:(lia) Hroom ltac:(lia))
    as (out' & e' & Hcopy & Hc & He2 & Hn' & Hbe' & Hblk' & Htm' & Ht' & Hte').
  pose proof (copy_match_Returned out len off out' Hok ltac:(lia) Hcopy)
    as (_ & _ & _ & Hok' & _).
  exists s', out'. split; [by rewrite Hrun, Hcopy|].
  split; [done|]. split; [done|]. split; [done|]. split; [done|]. split; [done|].
  split; [done|].
  split; [by apply (copy_match_written out len off out' Hok); [lia|]|].
  split; [done|]. split; [by split | done].
Qed.

(** A match whose offset reaches back before the first byte of the
    window: the loop stops at the first assertion of [copy_match]. *)
Lemma decode_match_far (fuel : nat) (fin : bool) (s : InputStream) (out : DeflateWindow)
    (sym l res osym l2 res2 : Z) :
  stream_ok s →
  decodes_to ll nl (stream_bits s) sym l → 256 < sym →
  litlen_decode_results !! Z.to_nat sym = Some res →
  let nb := Z.land res HUFFDEC_EXTRA_LENGTH_BITS_MASK in
  let len := Z.shiftr res HUFFDEC_LENGTH_BASE_SHIFT + (stream_bits s / 2 ^ l) mod 2 ^ nb in
  decodes_to ol no (stream_bits s / 2 ^ (l + nb)) osym l2 →
  offset_decode_results !! Z.to_nat osym = Some res2 →
  let onb := Z.shiftr res2 HUFFDEC_EXTRA_OFFSET_BITS_SHIFT in
  let off := Z.land res2 HUFFDEC_OFFSET_BASE_MASK
             + (stream_bits s / 2 ^ (l + nb + l2)) mod 2 ^ onb in
  stream_pos s + l + nb + l2 + onb ≤ 2 ^ 64 →
  window_ok out → next out < off → len ≤ buffer_end out - next out →
  decode_loop (S fuel) d fin s out = Aborted "offset <= size()".
Proof.
  intros Hs Hd Hsym Hres nb len Hd2 Hres2 onb off Hpos Hok Hoff Hroom.
  destruct (decode_match_reads fuel fin s out sym l res osym l2 res2 Hs Hd Hsym Hres Hd2
              Hres2 Hpos Hok Hroom)
    as (s' & Hrun & _).
  fold nb len onb off in Hrun. rewrite Hrun.
  apply bind_abort. unfold Win.copy_match. apply bind_abort, assert_false.
  rewrite (size_ok out Hok). zbool.
Qed.

End decode_loop.

(** ** The content of a Huffman block *)

(** The length and the offset of a match, from the decode result of its
    symbol and the extra bits that follow its codeword at bit [p] of the
    input value [V]. *)
Definition length_extra_bits (res : Z) : Z := Z.land res HUFFDEC_EXTRA_LENGTH_BITS_MASK.

Definition match_length (V p res : Z) : Z :=
  Z.shiftr res HUFFDEC_LENGTH_BASE_SHIFT + (V / 2 ^ p) mod 2 ^ length_extra_bits res.

Definition offset_extra_bits (res : Z) : Z := Z.shiftr res HUFFDEC_EXTRA_OFFSET_BITS_SHIFT.

Definition match_offset (V p res : Z) : Z :=
  Z.land res HUFFDEC_OFFSET_BASE_MASK + (V / 2 ^ p) mod 2 ^ offset_extra_bits res.

(** [decoded ll ol V pos out pos' out']: in the input value [V], the bits
    from [pos] to [pos'] are the codewords (and extra bits) of literals
    and matches, closed by the end-of-block symbol, in the litlen code
    [ll] and the offset code [ol]; appended to the output [out] they give
    [out'] (RFC 1951, section 3.2.3). *)
Inductive decoded (ll ol : list Z) (V : Z) : Z → list Z → Z → list Z → Prop :=
  | decoded_end pos out l :
      decodes_to ll (Z.of_nat (length ll)) (V / 2 ^ pos) 256 l →
      decoded ll ol V pos out (pos + l) out
  | decoded_literal pos out sym l pos' out' :
      decodes_to ll (Z.of_nat (length ll)) (V / 2 ^ pos) sym l → sym < 256 →
      decoded ll ol V (pos + l) (out ++ [sym]) pos' out' →
      decoded ll ol V pos out pos' out'
  | decoded_match pos out sym l res osym l2 res2 pos' out' :
      decodes_to ll (Z.of_nat (length ll)) (V / 2 ^ pos) sym l → 256 < sym →
      litlen_decode_results !! Z.to_nat sym = Some res →
      decodes_to ol (Z.of_nat (length ol))
        (V / 2 ^ (pos + l + length_extra_bits res)) osym l2 →
      offset_decode_results !! Z.to_nat osym = Some res2 →
      1 ≤ match_offset V (pos + l + length_extra_bits res + l2) res2
        ≤ Z.of_nat (length out) →
      decoded ll ol V
        (pos + l + length_extra_bits res + l2 + offset_extra_bits res2)
        (lz77_copy (Z.to_nat (match_length V (pos + l) res)) out
           (Z.to_nat (match_offset V (pos + l + length_extra_bits res + l2) res2)))
        pos' out' →
      decoded ll ol V pos out pos' out'.

Lemma decoded_grows (ll ol : list Z) (V pos : Z) (out : list Z) (pos' : Z)
    (out' : list Z) :
  decoded ll ol V pos out pos' out' → pos < pos' ∧ (length out ≤ length out')%nat.
Proof.
  induction 1 as [pos out l Hd | pos out sym l pos' out' Hd Hsym _ IH
                 | pos out sym l res osym l2 res2 pos' out' Hd Hsym Hres Hd2 Hres2 Hoff _ IH].
  - destruct Hd as (_ & _ & ? & _). lia.
  - destruct Hd as (_ & _ & ? & _). rewrite length_app in IH. simpl in IH. lia.
  - destruct Hd as (_ & _ & ? & _). destruct Hd2 as (_ & _ & ? & _).
    destruct (litlen_results_length sym res Hsym Hres) as (_ & Hnb & _).
    destruct (offset_results_fields osym res2 Hres2) as (Honb & _).
    destruct (lz77_copy_lookup (Z.to_nat (match_length V (pos + l) res)) out
                (match_offset V (pos + l + length_extra_bits res + l2) res2) Hoff)
      as [Hlen _].
    rewrite Hlen in IH. unfold length_extra_bits, offset_extra_bits in *. lia.
Qed.

Lemma notify_end_block_ok (w : DeflateWindow) :
  window_ok w →
  window_ok (Win.notify_end_block w) ∧
  written (Win.notify_end_block w) = written w ∧
  target (Win.notify_end_block w) = target w ∧
  same_frame w (Win.notify_end_block w) ∧
  buffer_end (Win.notify_end_block w) = buffer_end w ∧
  current_blk (Win.notify_end_block w) = next (Win.notify_end_block w).
Proof.
  intros [? ? ? ? ? ? ?]. unfold Win.notify_end_block.
  split; [constructor; cbn; try done; lia|]. by repeat split.
Qed.

(** The decode loop on the content of a block that fits in the window. *)
Lemma decode_loop_decoded (d : libdeflate_decompressor) (ll ol : list Z) (V pos : Z)
    (outl : list Z) (pos' : Z) (outl' : list Z) :
  litlen_code d ll → offset_code d ol →
  decoded ll ol V pos outl pos' outl' →
  ∀ (fuel : nat) (fin : bool) (s : InputStream) (out : DeflateWindow),
    stream_ok s → input_value s = V → stream_pos s = pos → pos' ≤ 2 ^ 64 →
    window_ok out → target out = 0 → written out = outl →
    Z.of_nat (length outl') ≤ buffer_end out →
    pos' - pos ≤ Z.of_nat fuel →
    ∃ s' out',
      decode_loop fuel d fin s out = Returned (fin, s', out') ∧
      stream_ok s' ∧ input_value s' = V ∧ stream_pos s' = pos' ∧
      in_end s' = in_end s ∧ in_mem s' = in_mem s ∧
      window_ok out' ∧ target out' = 0 ∧ written out' = outl' ∧
      current_blk out' = next out' ∧ same_frame out out' ∧
      buffer_end out' = buffer_end out.
Proof.
  intros Hll Hol Hdec.
  induction Hdec as [pos outl l Hd | pos outl sym l pos' outl' Hd Hsym Hrest IH
                    | pos outl sym l res osym l2 res2 pos' outl' Hd Hsym Hres Hd2 Hres2
                        Hoff Hrest IH];
    intros fuel fin s out Hs HV Hpos Hbound Hok Ht Hw Hroom Hfuel.
  - assert (Hl0 : 0 < l) by (destruct Hd as (_ & _ & ? & _); done).
    destruct fuel as [|fuel]; [simpl in Hfuel; lia|].
    destruct (decode_end_of_block d ll Hll fuel fin s out l Hs ltac:(lia))
      as (s' & Hrun & Hs' & Hp' & He' & Hm'); [|done|].
    { unfold stream_bits. by rewrite HV, Hpos. }
    destruct (notify_end_block_ok out Hok) as (Hok' & Hw' & Ht' & Hsame & Hbe & Hblk).
    exists s', (Win.notify_end_block out). split; [done|].
    split; [done|]. split; [by rewrite (input_value_same s s' He' Hm')|].
    split; [lia|]. split; [done|]. split; [done|]. split; [done|].
    split; [congruence|]. split; [congruence|]. done.
  - destruct (decoded_grows _ _ _ _ _ _ _ Hrest) as [Hpos' Hlen'].
    rewrite length_app in Hlen'. simpl in Hlen'.
    destruct (written_flushed_none out Hok Ht) as [_ Hnext].
    assert (Hl0 : 0 < l) by (destruct Hd as (_ & _ & ? & _); done).
    destruct fuel as [|fuel]; [simpl in Hfuel; lia|].
    destruct (decode_literal d ll Hll fuel fin s out sym l Hs ltac:(lia))
      as (s1 & out1 & Hrun & Hs1 & Hp1 & He1 & Hm1 & Hl & Hok1 & Hw1 & Ht1 & Hsame1
          & Hbe1).
    { unfold stream_bits. by rewrite HV, Hpos. }
    { done. } { done. } { rewrite <- Hnext, Hw. lia. }
    destruct (IH fuel fin s1 out1) as (s' & out' & Hrun' & Hrest').
    { done. } { by rewrite (input_value_same s s1 He1 Hm1). } { lia. } { done. }
    { done. } { congruence. } { by rewrite Hw1, Hw. } { by rewrite Hbe1. } { lia. }
    destruct Hrest' as (Hs' & HV' & Hp' & He' & Hm' & Hok' & Ht' & Hw' & Hblk' & Hsame'
                        & Hbe').
    exists s', out'. split; [by rewrite Hrun|].
    split; [done|]. split; [done|]. split; [done|]. split; [congruence|].
    split; [congruence|]. split; [done|]. split; [done|]. split; [done|].
    split; [done|]. split; [by eapply same_frame_trans | congruence].
  - destruct (decoded_grows _ _ _ _ _ _ _ Hrest) as [Hpos' Hlen'].
    destruct (litlen_results_length sym res Hsym Hres) as (_ & Hnb & Hbase).
    destruct (offset_results_fields osym res2 Hres2) as (Honb & _).
    destruct (lz77_copy_lookup (Z.to_nat (match_length V (pos + l) res)) outl
                (match_offset V (pos + l + length_extra_bits res + l2) res2) Hoff)
      as [Hlen _].
    rewrite Hlen in Hlen'. clear Hlen.
    destruct (written_flushed_none out Hok Ht) as [_ Hnext].
    pose proof (so_pos s Hs) as Hp0. rewrite Hpos in Hp0.
    assert (Hl0 : 0 < l) by (destruct Hd as (_ & _ & ? & _); done).
    assert (Hl2 : 0 < l2) by (destruct Hd2 as (_ & _ & ? & _); done).
    unfold match_length, match_offset in *.
    unfold length_extra_bits, offset_extra_bits in *.
    pose proof (Z.mod_pos_bound (V / 2 ^ (pos + l))
                  (2 ^ Z.land res HUFFDEC_EXTRA_LENGTH_BITS_MASK)
                  ltac:(apply pow2_pos; lia)) as Hextra.
    assert (Hbits : stream_bits s = V / 2 ^ pos).
    { unfold stream_bits. by rewrite HV, Hpos. }
    destruct fuel as [|fuel]; [simpl in Hfuel; lia|].
    destruct (decode_match d ll ol Hll Hol fuel fin s out sym l res osym l2 res2 Hs)
      as (s1 & out1 & Hrun & Hs1 & Hp1 & He1 & Hm1 & Hl & Hok1 & Hw1 & Ht1 & Hsame1
          & Hbe1).
    { by rewrite Hbits. } { done. } { done. }
    { rewrite Hbits, div_pow2_add by lia. rewrite Z.add_assoc. exact Hd2. }
    { done. }
    { lia. }
    { done. }
    { rewrite Hbits, div_pow2_add by lia. rewrite !Z.add_assoc.
      rewrite <- Hnext, Hw. exact Hoff. }
    { rewrite Hbits, div_pow2_add by lia. rewrite <- Hnext, Hw. lia. }
    rewrite Hbits in Hw1. rewrite !div_pow2_add in Hw1 by lia.
    rewrite !Z.add_assoc in Hw1.
    destruct (IH fuel fin s1 out1) as (s' & out' & Hrun' & Hrest').
    { done. } { by rewrite (input_value_same s s1 He1 Hm1). } { lia. } { done. }
    { done. } { congruence. } { by rewrite Hw1, Hw. } { by rewrite Hbe1. } { lia. }
    destruct Hrest' as (Hs' & HV' & Hp' & He' & Hm' & Hok' & Ht' & Hw' & Hblk' & Hsame'
                        & Hbe').
    exists s', out'. split; [by rewrite Hrun|].
    split; [done|]. split; [done|]. split; [done|]. split; [congruence|].
    split; [congruence|]. split; [done|]. split; [done|]. split; [done|].
    split; [done|]. split; [by eapply same_frame_trans | congruence].
Qed.


(** A match whose offset is larger than the number of bytes in the window
    (a back-reference to before the start of the output, at the start of a
    stream) is not reported as bad data: the decode loop stops the process
    at [assert(offset <= size())] in [copy_match]. *)
Theorem match_before_window_start_aborts (d : libdeflate_decompressor) (ll ol : list Z)
    (fuel : nat) (fin : bool) (s : InputStream) (out : DeflateWindow)
    (sym l res osym l2 res2 : Z) :
  litlen_code d ll → offset_code d ol →
  stream_ok s → window_ok out →
  decodes_to ll (Z.of_nat (length ll)) (stream_bits s) sym l → 256 < sym →
  litlen_decode_results !! Z.to_nat sym = Some res →
  decodes_to ol (Z.of_nat (length ol))
    (stream_bits s / 2 ^ (l + length_extra_bits res)) osym l2 →
  offset_decode_results !! Z.to_nat osym = Some res2 →
  stream_pos s + l + length_extra_bits res + l2 + offset_extra_bits res2 ≤ 2 ^ 64 →
  match_length (stream_bits s) l res ≤ Win.available out →
  Win.size out < match_offset (stream_bits s) (l + length_extra_bits res + l2) res2 →
  decode_loop (S fuel) d fin s out = Aborted "offset <= size()".
Proof.
  intros Hll Hol Hs Hok Hd Hsym Hres Hd2 Hres2 Hpos.
  rewrite (size_ok out Hok), (available_ok out Hok). intros Hroom Hfar.
  by apply (decode_match_far d ll ol Hll Hol fuel fin s out sym l res osym l2 res2).
Qed.

(** ** Static Huffman blocks, end to end *)

Lemma block_header_bits (s : InputStream) :
  stream_ok s → stream_pos s + 3 ≤ 2 ^ 64 →
  ∃ s1 s2 s3,
    In.ensure_bits (1 + 2 + 5 + 5 + 4) s = Returned s1 ∧
    In.pop_bits s1 1 = Returned (stream_bits s mod 2, s2) ∧
    In.pop_bits s2 2 = Returned ((stream_bits s / 2) mod 4, s3) ∧
    stream_ok s3 ∧ stream_pos s3 = stream_pos s + 3 ∧
    in_end s3 = in_end s ∧ in_mem s3 = in_mem s.
Proof.
  intros Hs Hpos.
  destruct (ensure_bits_refilled (1 + 2 + 5 + 5 + 4) s Hs ltac:(done)
              (overrun_small s Hs ltac:(lia))) as (s1 & Hens & Href & Hbits).
  pose proof Href as (Hs1 & Hp1 & He1 & Hm1 & _).
  destruct (pop_bits_consumed s1 1 Hs1 ltac:(lia) ltac:(lia))
    as (s2 & Hpop1 & Hs2 & Hp2 & He2 & Hm2 & Hb2 & _).
  destruct (pop_bits_consumed s2 2 Hs2 ltac:(lia) ltac:(lia))
    as (s3 & Hpop2 & Hs3 & Hp3 & He3 & Hm3 & _).
  exists s1, s2, s3. split; [done|].
  rewrite (refilled_bits s s1 Href) in Hpop1. split; [exact Hpop1|].
  rewrite (stream_bits_advance s s2 1 Hs) in Hpop2 by (congruence || lia).
  split; [exact Hpop2|]. split; [done|]. split; [lia|]. split; congruence.
Qed.

(** A static Huffman block whose content fits in the window. *)
Lemma do_block_static (fuel : nat) (d : libdeflate_decompressor) (s : InputStream)
    (out : DeflateWindow) (pos' : Z) (outl' : list Z) :
  stream_ok s → (320 ≤ length (lens d))%nat →
  (stream_bits s / 2) mod 4 = DEFLATE_BLOCKTYPE_STATIC_HUFFMAN →
  decoded static_litlen_lens static_offset_lens (input_value s) (stream_pos s + 3)
    (written out) pos' outl' →
  pos' ≤ 2 ^ 64 → window_ok out → target out = 0 →
  Z.of_nat (length outl') ≤ buffer_end out →
  pos' - (stream_pos s + 3) ≤ Z.of_nat fuel →
  ∃ d' s' out',
    do_block fuel d s out = Returned (negb (stream_bits s mod 2 =? 0), d', s', out') ∧
    (320 ≤ length (lens d'))%nat ∧
    stream_ok s' ∧ input_value s' = input_value s ∧ stream_pos s' = pos' ∧
    window_ok out' ∧ target out' = 0 ∧ written out' = outl' ∧
    current_blk out' = next out' ∧ same_frame out out' ∧
    buffer_end out' = buffer_end out.
Proof.
  intros Hs Hlens Hbtype Hdec Hbound Hok Ht Hroom Hfuel.
  destruct (decoded_grows _ _ _ _ _ _ _ Hdec) as [Hgrow _].
  destruct (block_header_bits s Hs ltac:(lia))
    as (s1 & s2 & s3 & Hens & Hpop1 & Hpop2 & Hs3 & Hp3 & He3 & Hm3).
  destruct (prepare_static_codes d Hlens) as (d' & Hprep & Hlens' & Hll & Hol).
  destruct (decode_loop_decoded d' static_litlen_lens static_offset_lens (input_value s)
              (stream_pos s + 3) (written out) pos' outl' Hll Hol Hdec fuel
              (negb (stream_bits s mod 2 =? 0)) s3 out Hs3)
    as (s' & out' & Hloop & Hs' & HV' & Hp' & He' & Hm' & Hrest); try done.
  { by apply input_value_same. }
  exists d', s', out'. split.
  { unfold do_block. rewrite Hens. cbn [mbind outcome_bind].
    rewrite Hpop1. cbn [mbind outcome_bind]. rewrite Hpop2. cbn [mbind outcome_bind].
    rewrite Hbtype.
    change (DEFLATE_BLOCKTYPE_STATIC_HUFFMAN =? DEFLATE_BLOCKTYPE_UNCOMPRESSED) with false.
    change (DEFLATE_BLOCKTYPE_STATIC_HUFFMAN =? DEFLATE_BLOCKTYPE_DYNAMIC_HUFFMAN)
      with false.
    change (DEFLATE_BLOCKTYPE_STATIC_HUFFMAN =? DEFLATE_BLOCKTYPE_STATIC_HUFFMAN)
      with true.
    cbv iota. rewrite Hprep. cbn [mbind outcome_bind]. rewrite Hloop. reflexivity. }
  split; [lia|]. done.
Qed.

(** A stream of static Huffman blocks in the input value [V], from bit
    [pos] to the end of the block that has BFINAL set at bit [pos']. *)
Inductive static_blocks (V : Z) : Z → list Z → Z → list Z → Prop :=
  | static_final pos out pos' out' :
      (V / 2 ^ pos) mod 2 = 1 →
      (V / 2 ^ pos / 2) mod 4 = DEFLATE_BLOCKTYPE_STATIC_HUFFMAN →
      decoded static_litlen_lens static_offset_lens V (pos + 3) out pos' out' →
      static_blocks V pos out pos' out'
  | static_more pos out pos1 out1 pos' out' :
      (V / 2 ^ pos) mod 2 = 0 →
      (V / 2 ^ pos / 2) mod 4 = DEFLATE_BLOCKTYPE_STATIC_HUFFMAN →
      decoded static_litlen_lens static_offset_lens V (pos + 3) out pos1 out1 →
      static_blocks V pos1 out1 pos' out' →
      static_blocks V pos out pos' out'.

Lemma static_blocks_grows (V pos : Z) (out : list Z) (pos' : Z) (out' : list Z) :
  static_blocks V pos out pos' out' → pos + 3 < pos' ∧ (length out ≤ length out')%nat.
Proof.
  induction 1 as [pos out pos' out' _ _ Hd | pos out pos1 out1 pos' out' _ _ Hd _ IH].
  - destruct (decoded_grows _ _ _ _ _ _ _ Hd). lia.
  - destruct (decoded_grows _ _ _ _ _ _ _ Hd). lia.
Qed.

Lemma do_blocks_static (V pos : Z) (outl : list Z) (pos' : Z) (outl' : list Z) :
  static_blocks V pos outl pos' outl' →
  ∀ (fuel blocks : nat) (d : libdeflate_decompressor) (s : InputStream)
    (out : DeflateWindow),
    stream_ok s → input_value s = V → stream_pos s = pos → pos' ≤ 2 ^ 64 →
    (320 ≤ length (lens d))%nat →
    window_ok out → target out = 0 → written out = outl →
    Z.of_nat (length outl') ≤ buffer_end out →
    pos' ≤ Z.of_nat fuel → pos' - pos ≤ Z.of_nat blocks →
    ∃ d' s' out',
      do_blocks fuel blocks d s out = Returned (d', s', out') ∧
      window_ok out' ∧ target out' = 0 ∧ written out' = outl' ∧
      current_blk out' = next out' ∧ same_frame out out'.
Proof.
  induction 1 as [pos outl pos' outl' Hfin Hbt Hd
                 | pos outl pos1 outl1 pos' outl' Hfin Hbt Hd Hrest IH];
    intros fuel blocks d s out Hs HV Hpos Hbound Hlens Hok Ht Hw Hroom Hfuel Hblocks.
  - destruct (decoded_grows _ _ _ _ _ _ _ Hd) as [Hgrow _].
    pose proof (so_pos s Hs) as Hp0.
    assert (Hbits : stream_bits s = V / 2 ^ pos).
    { unfold stream_bits. by rewrite HV, Hpos. }
    destruct blocks as [|blocks]; [simpl in Hblocks; lia|].
    destruct (do_block_static fuel d s out pos' outl' Hs Hlens)
      as (d' & s' & out' & Hrun & _ & _ & _ & _ & Hrest); try done.
    { by rewrite Hbits. } { by rewrite HV, Hpos, Hw. } { lia. }
    exists d', s', out'. split; [|tauto].
    cbn [do_blocks]. rewrite Hrun. cbn [mbind outcome_bind].
    rewrite Hbits, Hfin. reflexivity.
  - destruct (decoded_grows _ _ _ _ _ _ _ Hd) as [Hgrow Hlen1].
    destruct (static_blocks_grows _ _ _ _ _ Hrest) as [Hgrow' Hlen'].
    pose proof (so_pos s Hs) as Hp0.
    assert (Hbits : stream_bits s = V / 2 ^ pos).
    { unfold stream_bits. by rewrite HV, Hpos. }
    destruct blocks as [|blocks]; [simpl in Hblocks; lia|].
    destruct (do_block_static fuel d s out pos1 outl1 Hs Hlens)
      as (d1 & s1 & out1 & Hrun & Hlens1 & Hs1 & HV1 & Hp1 & Hok1 & Ht1 & Hw1 & _ & Hsame1
          & Hbe1); try done.
    { by rewrite Hbits. } { by rewrite HV, Hpos, Hw. } { lia. } { lia. } { lia. }
    destruct (IH fuel blocks d1 s1 out1) as (d' & s' & out' & Hrun' & Hrest'); try done.
    { congruence. } { by rewrite Hbe1. } { lia. }
    exists d', s', out'. split.
    { cbn [do_blocks]. rewrite Hrun. cbn [mbind outcome_bind].
      rewrite Hbits, Hfin. exact Hrun'. }
    destruct Hrest' as (? & ? & ? & ? & ?).
    split; [done|]. split; [done|]. split; [done|]. split; [done|].
    by eapply same_frame_trans.
Qed.

Section static_stream.

Variables (fuel : nat) (d : libdeflate_decompressor) (in_ : list Z) (in_nbytes : Z)
  (out : list Z) (out_nbytes_avail : Z) (actual_out_nbytes_ret : option Z).
Variables (data : list Z) (pos' : Z).

Hypothesis Hin : 0 ≤ in_nbytes ≤ Z.of_nat (length in_).
Hypothesis Hbytes : Forall is_byte (take (Z.to_nat in_nbytes) in_).
Hypothesis Hlens : (320 ≤ length (lens d))%nat.
Hypothesis Hblocks :
  static_blocks (le_bytes (take (Z.to_nat in_nbytes) in_)) 0 [] pos' data.
Hypothesis Hpos : pos' ≤ 2 ^ 64.
Hypothesis Hfuel : pos' ≤ Z.of_nat fuel.
Hypothesis Hwindow : Z.of_nat (length data) ≤ 2 ^ 20.
Hypothesis Hout : (length data ≤ length out)%nat.


End static_stream.

(** ** Instances *)

(** A window of eight bytes that holds [1; 2; 3], before a target of four
    bytes; [closed_window] is the same after the end of a block. *)
Definition small_window : DeflateWindow :=
  MkWindow [9; 9; 9; 9] 0 2 0 0 0 0 [1; 2; 3; 0; 0; 0; 0; 0] 8 3.

Definition closed_window : DeflateWindow := Win.notify_end_block small_window.

(** A window of five bytes with two bytes of room. *)
Definition tight_window : DeflateWindow :=
  MkWindow [] 0 0 0 0 0 0 [1; 2; 3; 0; 0] 5 3.

Lemma small_window_ok : window_ok small_window.
Proof.
  constructor; cbn; try lia. repeat constructor; unfold is_byte; lia.
Qed.

Lemma closed_window_ok : window_ok closed_window.
Proof.
  constructor; cbn; try lia. repeat constructor; unfold is_byte; lia.
Qed.

Lemma tight_window_ok : window_ok tight_window.
Proof.
  constructor; cbn; try lia. repeat constructor; unfold is_byte; lia.
Qed.

Lemma flush_keeps_output_witness :
  written (evicted (full_window 70000 60000 40000))
  = written (full_window 70000 60000 40000) ∧
  target (full_window 70000 60000 40000) ≤ target (evicted (full_window 70000 60000 40000)) ∧
  (target (evicted (full_window 70000 60000 40000)) = target (full_window 70000 60000 40000)
   ∨ target (evicted (full_window 70000 60000 40000))
     < target_end (full_window 70000 60000 40000)) ∧
  length (target_mem (evicted (full_window 70000 60000 40000)))
  = length (target_mem (full_window 70000 60000 40000)) ∧
  ∀ i : nat,
    ¬ (target (full_window 70000 60000 40000) ≤ Z.of_nat i
       < target (evicted (full_window 70000 60000 40000))) →
    target_mem (evicted (full_window 70000 60000 40000)) !! i
    = target_mem (full_window 70000 60000 40000) !! i.
Proof.
  assert (Hok : window_ok (full_window 70000 60000 40000))
    by (apply full_window_ok; lia).
  apply (flush_keeps_output _ _ Hok). rewrite (flush_paths _ Hok). reflexivity.
Defined.

Lemma push_appends_witness :
  ∃ w', Win.push small_window 7 = Returned w' ∧
        written w' = written small_window ++ [7] ∧
        next w' = next small_window + 1 ∧ (is_byte 7 → window_ok w').
Proof.
  apply (proj1 (push_appends small_window 7 small_window_ok)). cbn. lia.
Defined.

Lemma copy_match_needs_three_bytes_witness : Win.copy_match tight_window 2 3 = Fault.
Proof.
  apply (copy_match_needs_three_bytes tight_window 2 3 tight_window_ok).
  - vm_compute. split; discriminate.
  - vm_compute. split; discriminate.
  - vm_compute. reflexivity.
Defined.

Lemma copy_match_appends_match_witness :
  ∃ w', Win.copy_match small_window 4 2 = Returned w' ∧
        written w' = lz77_copy (Z.to_nat 4) (written small_window) (Z.to_nat 2).
Proof.
  apply (copy_match_appends_match small_window 4 2 small_window_ok).
  - vm_compute. split; discriminate.
  - lia.
  - vm_compute. discriminate.
  - vm_compute. discriminate.
Defined.

Lemma full_flush_stores_output_witness :
  target_end closed_window ≤ target closed_window + Win.size closed_window ∧
  take (length (written closed_window))
    (target_mem (MkWindow [1; 2; 3; 9] 0 2 1 3 0 0 [1; 2; 3; 0; 0; 0; 0; 0] 8 3))
  = written closed_window ∧
  length (target_mem (MkWindow [1; 2; 3; 9] 0 2 1 3 0 0 [1; 2; 3; 0; 0; 0; 0; 0] 8 3))
  = length (target_mem closed_window) ∧
  ∀ i : nat,
    ¬ (target closed_window ≤ Z.of_nat i < target closed_window + Win.size closed_window) →
    target_mem (MkWindow [1; 2; 3; 9] 0 2 1 3 0 0 [1; 2; 3; 0; 0; 0; 0; 0] 8 3) !! i
    = target_mem closed_window !! i.
Proof.
  apply (full_flush_stores_output closed_window _ closed_window_ok).
  vm_compute. reflexivity.
Defined.

Lemma full_flush_writes_past_target_end_witness :
  ∃ w', Win.full_flush closed_window = Returned w' ∧
        ∀ i, target_end closed_window ≤ i < target closed_window + Win.size closed_window →
             target_mem w' !! Z.to_nat i
             = buffer closed_window !! Z.to_nat (i - target closed_window).
Proof.
  apply (full_flush_writes_past_target_end closed_window closed_window_ok).
  - reflexivity.
  - vm_compute. repeat split; discriminate.
  - vm_compute. discriminate.
Defined.

Lemma decompress_stores_whole_output_witness :
  ∃ d' s' w,
    do_blocks 8 8 libdeflate_alloc_decompressor (In.make [0x4B; 0x04; 0x00] 3)
      (Win.make 20 [0; 0] 0 (0 + 0))
    = Returned (d', s', w) ∧
    0 ≤ Z.of_nat (length (written w)) ≤ Z.of_nat (length [0; 0]) ∧
    take (length (written w)) (out_mem (MkResult LIBDEFLATE_SUCCESS [0x61; 0] None))
    = written w ∧
    length (out_mem (MkResult LIBDEFLATE_SUCCESS [0x61; 0] None)) = length [0; 0].
Proof.
  apply (decompress_stores_whole_output 8 libdeflate_alloc_decompressor
           [0x4B; 0x04; 0x00] 3 [0; 0] 0 None).
  - simpl. lia.
  - vm_compute. reflexivity.
Defined.


(** The input [4B 04 00]: one final static block that holds the literal
    [a] (0x61). *)
Lemma literal_a_decoded :
  decoded static_litlen_lens static_offset_lens 1099 3 [] 18 [0x61].
Proof.
  apply (decoded_literal _ _ _ 3 [] 0x61 8 18 [0x61]).
  - unfold decodes_to. vm_compute. repeat split; congruence.
  - lia.
  - apply (decoded_end _ _ _ 11 [0x61] 7).
    unfold decodes_to. vm_compute. repeat split; congruence.
Qed.

(** The decompressor after [prepare_static]. *)
Definition static_decompressor : libdeflate_decompressor :=
  match prepare_static libdeflate_alloc_decompressor with
  | Returned d => d
  | _ => libdeflate_alloc_decompressor
  end.

Lemma static_decompressor_codes :
  litlen_code static_decompressor static_litlen_lens ∧
  offset_code static_decompressor static_offset_lens.
Proof.
  unfold static_decompressor.
  destruct (prepare_static_codes libdeflate_alloc_decompressor) as (d' & -> & _ & Hll & Hol).
  - vm_compute. lia.
  - done.
Qed.

(** The stream on [4B 04 00] behind the block header. *)
Definition stream_4B_3 : InputStream := MkInputStream 137 21 0 3 3 [0x4B; 0x04; 0x00].

Lemma stream_4B_3_ok : stream_ok stream_4B_3.
Proof.
  split; unfold stream_4B_3; cbn [bitsleft in_next in_end in_mem overrun_count].
  - lia.
  - lia.
  - simpl. lia.
  - repeat constructor; unfold is_byte; lia.
  - split; [lia|]. intros. lia.
  - unfold stream_pos. simpl. lia.
  - exists 0. split; [lia|]. split; [lia|]. reflexivity.
Qed.



Lemma match_before_window_start_aborts_witness :
  decode_loop 1 static_decompressor false (In.make [64; 0] 2)
    (MkWindow [] 0 0 0 0 0 0 [0; 0; 0; 0] 4 0)
  = Aborted "offset <= size()".
Proof.
  apply (match_before_window_start_aborts static_decompressor static_litlen_lens
           static_offset_lens 0 false (In.make [64; 0] 2)
           (MkWindow [] 0 0 0 0 0 0 [0; 0; 0; 0] 4 0) 257 7 768 0 5 1).
  - apply static_decompressor_codes.
  - apply static_decompressor_codes.
  - apply make_stream_ok; [simpl; lia|]. repeat constructor; unfold is_byte; lia.
  - constructor; cbn; try lia. repeat constructor; unfold is_byte; lia.
  - unfold decodes_to. vm_compute. repeat split; congruence.
  - lia.
  - reflexivity.
  - unfold decodes_to. vm_compute. repeat split; congruence.
  - reflexivity.
  - vm_compute. discriminate.
  - vm_compute. discriminate.
  - vm_compute. reflexivity.
Defined.
